(** * Legend-State observable engine: write pipeline, proxy traps and the
      primitive wrapper.

    A shallow embedding of [src/observable.ts] and of the primitive wrapper
    class ([ObservablePrimitiveClass]).  JavaScript values are finite trees
    whose objects carry an identity; the node graph is an arena indexed by
    node id; the calls into the batching, notification and tracking modules
    are recorded in a trace. *)

From Stdlib Require Import ZArith NArith Lia DecimalString DecimalN.
From stdpp Require Import gmap strings list fin_maps.

Set Warnings "-register-all".
Local Open Scope string_scope.

(** ** JavaScript values *)

Module JS.

(** A property key as the engine passes it around: [string | number], the
    [symbolUndef] marker (passed as a key by [set]) and [undefined] (the key
    of a root node, and what [deleteFn] passes on for a root without key). *)
Inductive pkey : Type :=
| KStr (s : string)
| KNum (n : nat)
| KSymbolUndef
| KUndefined.

(** Values.  Numbers are the integers (NaN, infinities and fractions are not
    represented).  Objects, arrays and functions carry an identity ([r], [f]):
    [===] on them compares identities only.  An array is its element list
    (a hole is [None]) and its other own properties; a function carries its
    own properties as an object does. *)
Inductive value : Type :=
| VUndefined
| VNull
| VBool (b : bool)
| VNumber (z : Z)
| VString (s : string)
| VSymbolUndef
| VFunction (f : nat) (props : list (string * value))
| VObject (r : nat) (props : list (string * value))
| VArray (r : nat) (elems : list (option value)) (props : list (string * value)).

#[global] Instance pkey_eq_dec : EqDecision pkey.
Proof. solve_decision. Defined.

Definition pkey_encode (k : pkey) : string + (nat + bool) :=
  match k with
  | KStr s => inl s
  | KNum n => inr (inl n)
  | KSymbolUndef => inr (inr true)
  | KUndefined => inr (inr false)
  end.

Definition pkey_decode (x : string + (nat + bool)) : pkey :=
  match x with
  | inl s => KStr s
  | inr (inl n) => KNum n
  | inr (inr true) => KSymbolUndef
  | inr (inr false) => KUndefined
  end.

#[global] Instance pkey_countable : Countable pkey.
Proof.
  apply (inj_countable' pkey_encode pkey_decode).
  intros []; reflexivity.
Defined.

(** [a === b] *)
Definition strict_eq (a b : value) : bool :=
  match a, b with
  | VUndefined, VUndefined => true
  | VNull, VNull => true
  | VBool x, VBool y => Bool.eqb x y
  | VNumber x, VNumber y => Z.eqb x y
  | VString x, VString y => String.eqb x y
  | VSymbolUndef, VSymbolUndef => true
  | VFunction f _, VFunction g _ => Nat.eqb f g
  | VObject r _, VObject r' _ => Nat.eqb r r'
  | VArray r _ _, VArray r' _ _ => Nat.eqb r r'
  | _, _ => false
  end.

(** Truthiness, as [if (v)] and [!v] test it. *)
Definition truthy (v : value) : bool :=
  match v with
  | VUndefined | VNull => false
  | VBool b => b
  | VNumber z => negb (Z.eqb z 0)
  | VString s => negb (String.eqb s "")
  | _ => true
  end.

Definition is_undefined (v : value) : bool :=
  match v with VUndefined => true | _ => false end.

Definition nullish (v : value) : bool :=
  match v with VUndefined | VNull => true | _ => false end.

(** Decimal names.  [decimal_name s] is the number that [s] is the canonical
    numeral of (["0"], ["7"], ["10"]; not ["07"], ["+1"] or [""]). *)
Definition string_of_N (m : N) : string := NilEmpty.string_of_uint (N.to_uint m).

Definition string_of_nat (n : nat) : string := string_of_N (N.of_nat n).

Definition decimal_name (s : string) : option N :=
  match NilEmpty.uint_of_string s with
  | Some d =>
      let m := N.of_uint d in
      if String.eqb (string_of_N m) s then Some m else None
  | None => None
  end.

Definition index_of_name (s : string) : option nat :=
  match decimal_name s with
  | Some m => Some (N.to_nat m)
  | None => None
  end.

(** The largest length of an array, [2^32 - 1].  An array index is a decimal
    name below it; a larger decimal name is an ordinary property name. *)
Definition max_length : N := 4294967295.

Definition array_index (s : string) : option N :=
  match decimal_name s with
  | Some m => if (m <? max_length)%N then Some m else None
  | None => None
  end.

(** The property name a key denotes in [v[k]]; a symbol names no string
    property. *)
Definition prop_name (k : pkey) : option string :=
  match k with
  | KStr s => Some s
  | KNum n => Some (string_of_nat n)
  | KUndefined => Some "undefined"
  | KSymbolUndef => None
  end.

Fixpoint assoc_get (name : string) (ps : list (string * value)) : option value :=
  match ps with
  | [] => None
  | (n, v) :: ps' => if String.eqb n name then Some v else assoc_get name ps'
  end.

Fixpoint assoc_set (name : string) (x : value) (ps : list (string * value))
  : list (string * value) :=
  match ps with
  | [] => [(name, x)]
  | (n, v) :: ps' =>
      if String.eqb n name then (n, x) :: ps' else (n, v) :: assoc_set name x ps'
  end.

Fixpoint assoc_remove (name : string) (ps : list (string * value))
  : list (string * value) :=
  match ps with
  | [] => []
  | (n, v) :: ps' =>
      if String.eqb n name then assoc_remove name ps' else (n, v) :: assoc_remove name ps'
  end.

(** Where a new array index [m] goes among the own properties of an object:
    the array indices are listed first, in ascending order, before the names
    that are no array index. *)
Fixpoint insert_index (m : N) (name : string) (x : value)
    (ps : list (string * value)) : list (string * value) :=
  match ps with
  | [] => [(name, x)]
  | (n, v) :: ps' =>
      match array_index n with
      | Some j =>
          if (j <? m)%N then (n, v) :: insert_index m name x ps'
          else (name, x) :: ps
      | None => (name, x) :: ps
      end
  end.

(** [o[name] = x] on the own properties of an ordinary object.  A property
    that exists keeps its place.  A new one is listed after the others, or
    among the array indices if its name is one.  The name ["__proto__"] is
    the exception: where the object has no own property of that name the
    assignment reaches the setter the object inherits, which creates no
    property (what it does to the prototype is not part of a value). *)
Definition put_own (name : string) (x : value) (ps : list (string * value))
  : list (string * value) :=
  match assoc_get name ps with
  | Some _ => assoc_set name x ps
  | None =>
      if String.eqb name "__proto__" then ps
      else match array_index name with
           | Some m => insert_index m name x ps
           | None => assoc_set name x ps
           end
  end.

Definition elem_at (es : list (option value)) (i : nat) : value :=
  match es !! i with
  | Some (Some v) => v
  | _ => VUndefined
  end.

(** The element of an array a name denotes.  An array holds fewer than
    [2^32] elements, so every position of its element list is an array
    index; a decimal name past the list and not below [max_length] names an
    ordinary property. *)
Definition elem_index (es : list (option value)) (name : string) : option nat :=
  match decimal_name name with
  | Some m =>
      if (m <? max_length)%N || (m <? N.of_nat (length es))%N
      then Some (N.to_nat m) else None
  | None => None
  end.

Definition char_at (s : string) (i : nat) : value :=
  match String.get i s with
  | Some c => VString (String c EmptyString)
  | None => VUndefined
  end.

(** Own-property read [v[name]] (inherited prototype members are not
    represented; on [undefined] and [null] the reads of the engine are
    guarded or optional, and yield [undefined]). *)
Definition get_named (v : value) (name : string) : value :=
  match v with
  | VObject _ ps | VFunction _ ps => default VUndefined (assoc_get name ps)
  | VArray _ es ps =>
      if String.eqb name "length" then VNumber (Z.of_nat (length es))
      else match elem_index es name with
           | Some i => elem_at es i
           | None => default VUndefined (assoc_get name ps)
           end
  | VString s =>
      if String.eqb name "length" then VNumber (Z.of_nat (String.length s))
      else match index_of_name name with
           | Some i => char_at s i
           | None => VUndefined
           end
  | _ => VUndefined
  end.

Definition get_prop (v : value) (k : pkey) : value :=
  match k with
  | KNum i =>
      match v with
      | VString s => char_at s i
      | _ => get_named v (string_of_nat i)
      end
  | _ => match prop_name k with
         | Some name => get_named v name
         | None => VUndefined
         end
  end.

(** [Object.keys(v)] with the values, in enumeration order. *)
Fixpoint indexed_from (i : nat) (es : list (option value)) : list (string * value) :=
  match es with
  | [] => []
  | Some v :: es' => (string_of_nat i, v) :: indexed_from (S i) es'
  | None :: es' => indexed_from (S i) es'
  end.

Fixpoint chars_from (i : nat) (s : string) : list (string * value) :=
  match s with
  | EmptyString => []
  | String c s' => (string_of_nat i, VString (String c EmptyString)) :: chars_from (S i) s'
  end.

Definition own_props (v : value) : list (string * value) :=
  match v with
  | VObject _ ps | VFunction _ ps => ps
  | VArray _ es ps => indexed_from 0 es ++ ps
  | VString s => chars_from 0 s
  | _ => []
  end.

Definition Object_keys (v : value) : list string := map fst (own_props v).

(** Errors a call can end with. *)
Inductive error : Type :=
| LockedError      (* Error('[legend-state] ... locked ...') *)
| TypeError        (* a strict-mode property write that cannot be done *)
| RangeError       (* invalid array length *)
| OutOfFuel.

Definition resize (es : list (option value)) (n : nat) : list (option value) :=
  take n es ++ replicate (n - length es) None.

(** [v[k] = x] in strict mode; [inr e] when it throws. *)
Definition set_named (v : value) (name : string) (x : value) : value + error :=
  match v with
  | VObject r ps => inl (VObject r (put_own name x ps))
  | VFunction f ps => inl (VFunction f (put_own name x ps))
  | VArray r es ps =>
      if String.eqb name "length" then
        match x with
        | VNumber z =>
            if (0 <=? z)%Z && (z <=? Z.of_N max_length)%Z
            then inl (VArray r (resize es (Z.to_nat z)) ps)
            else inr RangeError
        | _ => inr RangeError
        end
      else match elem_index es name with
           | Some i => inl (VArray r (<[i := Some x]> (resize es (Nat.max (length es) (S i)))) ps)
           | None => inl (VArray r es (put_own name x ps))
           end
  | _ => inr TypeError
  end.

(** Whether [v[name] = x] leaves [x] as the property [name] of [v]: always,
    but for a ["__proto__"] that is no own property of [v]. *)
Definition stores (v : value) (name : string) : bool :=
  negb (String.eqb name "__proto__") ||
  match v with
  | VObject _ ps | VFunction _ ps | VArray _ _ ps =>
      bool_decide (is_Some (assoc_get name ps))
  | _ => false
  end.

Definition set_prop (v : value) (k : pkey) (x : value) : value + error :=
  match prop_name k with
  | Some name => set_named v name x
  | None => inr TypeError
  end.

Definition stores_prop (v : value) (k : pkey) : bool :=
  match prop_name k with
  | Some name => stores v name
  | None => true
  end.

(** [delete v[k]] in strict mode. *)
Definition delete_named (v : value) (name : string) : value + error :=
  match v with
  | VObject r ps => inl (VObject r (assoc_remove name ps))
  | VFunction f ps => inl (VFunction f (assoc_remove name ps))
  | VArray r es ps =>
      if String.eqb name "length" then inr TypeError
      else match elem_index es name with
           | Some i => inl (VArray r (<[i := None]> es) (assoc_remove name ps))
           | None => inl (VArray r es (assoc_remove name ps))
           end
  | VString s =>
      if String.eqb name "length" then inr TypeError
      else match index_of_name name with
           | Some i => if (i <? String.length s)%nat then inr TypeError else inl v
           | None => inl v
           end
  | VUndefined | VNull => inr TypeError
  | _ => inl v
  end.

Definition delete_prop (v : value) (k : pkey) : value + error :=
  match prop_name k with
  | Some name => delete_named v name
  | None => inl v
  end.

(** [name in own properties of v] *)
Definition has_own (v : value) (k : pkey) : bool :=
  match prop_name k with
  | Some name => bool_decide (name ∈ Object_keys v)
  | None => false
  end.

(** Weight of a value: what bounds the depth of a walk into it. *)
Fixpoint vsize (v : value) : nat :=
  match v with
  | VUndefined | VNull => 0
  | VFunction _ ps | VObject _ ps =>
      2 + list_sum (map (fun p => vsize (snd p)) ps)
  | VArray _ es ps =>
      2 + list_sum (map (fun e => match e with Some x => vsize x | None => 0 end) es)
        + list_sum (map (fun p => vsize (snd p)) ps)
  | _ => 1
  end.

End JS.

(** ** The observable graph engine ([src/observable.ts]) *)

Module Observable.
Import JS.

(** [root.safeMode]: [0], [1] (default) or [2] (strict). *)
Inductive SafeMode : Type := Unrestricted | DefaultSafe | StrictSafe.

Definition safeMode_number (m : SafeMode) : Z :=
  match m with Unrestricted => 0 | DefaultSafe => 1 | StrictSafe => 2 end.

(** A node of the arena.  Its id is its index in [nodes]; every node of the
    tree shares the one root wrapper, which the state holds. *)
Record NodeValue : Type := mkNode {
  parent : option nat;
  key : pkey;
  children : gmap pkey nat;
  proxy : bool;
  listeners : option (list nat)
}.

(** What the engine does to the modules around it: every call of [notify],
    [doNotify], [beginBatch], [endBatch], [untrack], [updateTracking], of an
    updater function, of the activation hook, of [console.error] and of
    [Reflect] on a raw node, in order. *)
Inductive event : Type :=
| EvBeginBatch
| EvEndBatch
| EvNotify (node : nat) (newValue prevValue : value) (level : Z)
    (whenOptimizedOnlyIf : bool)
| EvDoNotify (node : nat) (v : value) (path : list pkey)
    (valueAtPath prevValue : value) (level : Z) (whenOptimizedOnlyIf : option bool)
| EvUntrack (node : nat)
| EvUpdateTracking (node : nat) (shallow : bool)
| EvCall (f : nat) (arg : value)
| EvActivate (hook : nat)
| EvConsoleError
| EvReflectSet (node : nat) (prop : pkey) (v : value)
| EvReflectDelete (node : nat) (prop : pkey).

Record state : Type := mkState {
  root_value : value;            (* root._ *)
  safeMode : SafeMode;           (* root.safeMode *)
  locked : bool;                 (* root.locked *)
  activate : option nat;         (* root.activate *)
  nodes : gmap nat NodeValue;
  nextNodeID : nat;              (* nextNodeID.current *)
  inSet : bool;
  inAssign : bool;
  isTracking : bool;             (* tracking.isTracking *)
  nextRef : nat;                 (* identity of the next object literal *)
  trace : list event
}.

Definition with_root_value (v : value) (s : state) : state :=
  mkState v (safeMode s) (locked s) (activate s) (nodes s) (nextNodeID s)
    (inSet s) (inAssign s) (isTracking s) (nextRef s) (trace s).
Definition with_locked (b : bool) (s : state) : state :=
  mkState (root_value s) (safeMode s) b (activate s) (nodes s) (nextNodeID s)
    (inSet s) (inAssign s) (isTracking s) (nextRef s) (trace s).
Definition with_activate (a : option nat) (s : state) : state :=
  mkState (root_value s) (safeMode s) (locked s) a (nodes s) (nextNodeID s)
    (inSet s) (inAssign s) (isTracking s) (nextRef s) (trace s).
Definition with_nodes (n : gmap nat NodeValue) (s : state) : state :=
  mkState (root_value s) (safeMode s) (locked s) (activate s) n (nextNodeID s)
    (inSet s) (inAssign s) (isTracking s) (nextRef s) (trace s).
Definition with_nextNodeID (n : nat) (s : state) : state :=
  mkState (root_value s) (safeMode s) (locked s) (activate s) (nodes s) n
    (inSet s) (inAssign s) (isTracking s) (nextRef s) (trace s).
Definition with_inSet (b : bool) (s : state) : state :=
  mkState (root_value s) (safeMode s) (locked s) (activate s) (nodes s) (nextNodeID s)
    b (inAssign s) (isTracking s) (nextRef s) (trace s).
Definition with_inAssign (b : bool) (s : state) : state :=
  mkState (root_value s) (safeMode s) (locked s) (activate s) (nodes s) (nextNodeID s)
    (inSet s) b (isTracking s) (nextRef s) (trace s).
Definition with_nextRef (r : nat) (s : state) : state :=
  mkState (root_value s) (safeMode s) (locked s) (activate s) (nodes s) (nextNodeID s)
    (inSet s) (inAssign s) (isTracking s) r (trace s).
Definition with_trace (t : list event) (s : state) : state :=
  mkState (root_value s) (safeMode s) (locked s) (activate s) (nodes s) (nextNodeID s)
    (inSet s) (inAssign s) (isTracking s) (nextRef s) t.

(** *** The monad of the engine: state passing with exceptions.  A thrown
    error keeps the state reached so far, as a JavaScript exception does. *)
Inductive outcome (A : Type) : Type :=
| Ok (a : A)
| Throw (e : error).
Arguments Ok {A} a.
Arguments Throw {A} e.

Definition M (A : Type) : Type := state -> outcome A * state.

Definition ret {A} (a : A) : M A := fun s => (Ok a, s).
Definition throw {A} (e : error) : M A := fun s => (Throw e, s).
Definition bind {A B} (m : M A) (k : A -> M B) : M B :=
  fun s => match m s with
           | (Ok a, s') => k a s'
           | (Throw e, s') => (Throw e, s')
           end.
Definition get_state : M state := fun s => (Ok s, s).
Definition modify (f : state -> state) : M unit := fun s => (Ok tt, f s).
Definition emit (e : event) : M unit :=
  modify (fun s => with_trace (trace s ++ [e]) s).
Definition when (b : bool) (m : M unit) : M unit := if b then m else ret tt.

Declare Scope engine_scope.
Delimit Scope engine_scope with engine.
Notation "x <- m ;; k" := (bind m (fun x => k))
  (at level 100, m at next level, right associativity) : engine_scope.
Notation "m ;;; k" := (bind m (fun _ => k))
  (at level 100, right associativity) : engine_scope.
Local Open Scope engine_scope.

Fixpoint forM {A} (l : list A) (f : A -> M unit) : M unit :=
  match l with
  | [] => ret tt
  | a :: l' => f a ;;; forM l' f
  end.

Fixpoint foldM {A B} (f : B -> A -> M B) (l : list A) (b : B) : M B :=
  match l with
  | [] => ret b
  | a :: l' => b' <- f b a ;; foldM f l' b'
  end.

(** *** Nodes *)

Definition blank_node : NodeValue := mkNode None KUndefined ∅ false None.

Definition get_node (s : state) (n : nat) : NodeValue :=
  default blank_node (nodes s !! n).

Definition put_node (n : nat) (nd : NodeValue) (s : state) : state :=
  with_nodes (<[n := nd]> (nodes s)) s.

Definition node_with_children (c : gmap pkey nat) (nd : NodeValue) : NodeValue :=
  mkNode (parent nd) (key nd) c (proxy nd) (listeners nd).
Definition node_with_key (k : pkey) (nd : NodeValue) : NodeValue :=
  mkNode (parent nd) k (children nd) (proxy nd) (listeners nd).
Definition node_with_proxy (b : bool) (nd : NodeValue) : NodeValue :=
  mkNode (parent nd) (key nd) (children nd) b (listeners nd).

(** Modelled from the spec: [getChildNode] of [globals.ts] (the spec's
    [ensureChild]) returns the child node for the key, creating and caching
    it if absent; it touches only the topology, never the value tree. *)
Definition getChildNode (node : nat) (k : pkey) : M nat := fun s =>
  match children (get_node s node) !! k with
  | Some c => (Ok c, s)
  | None =>
      let c := nextNodeID s in
      let s1 := put_node c (mkNode (Some node) k ∅ false None) s in
      let s2 := put_node node
                  (node_with_children (<[k := c]> (children (get_node s node)))
                     (get_node s node)) s1 in
      (Ok c, with_nextNodeID (S c) s2)
  end.

(** The keys from the root to a node, following the parent links. *)
Fixpoint path_to (fuel : nat) (s : state) (n : nat) (acc : list pkey) : list pkey :=
  match fuel with
  | O => acc
  | S fuel' =>
      match parent (get_node s n) with
      | None => acc
      | Some p => path_to fuel' s p (key (get_node s n) :: acc)
      end
  end.

Definition node_path (s : state) (n : nat) : list pkey := path_to (S n) s n [].

Definition get_path (v : value) (path : list pkey) : value :=
  fold_left get_prop path v.

(** Modelled from the spec: [getNodeValue] of [globals.ts] resolves the
    current raw value at the node's position by walking from the root value
    through the parent/key chain; read-only. *)
Definition getNodeValue (s : state) (n : nat) : value :=
  get_path (root_value s) (node_path s n).

(** The object literal [{}] gets the next identity. *)
Fixpoint ensure_path (v : value) (path : list pkey) (ref : nat)
  : (value * nat) + error :=
  let '(v1, ref1) := if truthy v then (v, ref) else (VObject ref [], S ref) in
  match path with
  | [] => inl (v1, ref1)
  | k :: rest =>
      match ensure_path (get_prop v1 k) rest ref1 with
      | inl (c, ref2) =>
          if Nat.eqb ref2 ref1 then inl (v1, ref1)
          else match set_prop v1 k c with
               | inl v2 => inl (v2, ref2)
               | inr e => inr e
               end
      | inr e => inr e
      end
  end.

(** Modelled from the spec: [ensureNodeValue] of [globals.ts] yields the
    parent container a write persists into, the value at the node's position,
    where an absent (falsy) value on the way is first made an empty object. *)
Definition ensureNodeValue (n : nat) : M value := fun s =>
  match ensure_path (root_value s) (node_path s n) (nextRef s) with
  | inl (v, r) =>
      (Ok (get_path v (node_path s n)), with_nextRef r (with_root_value v s))
  | inr e => (Throw e, s)
  end.

(** Values held by reference: a write into one is seen through every path
    that leads to it. *)
Definition is_reference (v : value) : bool :=
  match v with
  | VObject _ _ | VArray _ _ _ | VFunction _ _ => true
  | _ => false
  end.

(** In-place update of the container at [path]: the containers above it keep
    their identity and see the change. *)
Fixpoint update_path (v : value) (path : list pkey) (f : value -> value + error)
  : value + error :=
  match path with
  | [] => f v
  | k :: rest =>
      match update_path (get_prop v k) rest f with
      | inl c => if is_reference (get_prop v k) then set_prop v k c else inl v
      | inr e => inr e
      end
  end.

(** Where [setKey] reads and writes: the root wrapper (key ['_']) or the
    container of a node. *)
Inductive container : Type :=
| RootWrapper
| NodeContainer (node : nat).

Definition container_get (c : container) (k : pkey) : M value := fun s =>
  match c with
  | RootWrapper => (Ok (root_value s), s)
  | NodeContainer n => (Ok (get_prop (getNodeValue s n) k), s)
  end.

Definition container_update (c : container) (f : value -> value + error)
    (whole : value) : M unit := fun s =>
  match c with
  | RootWrapper => (Ok tt, with_root_value whole s)
  | NodeContainer n =>
      match update_path (root_value s) (node_path s n) f with
      | inl v => (Ok tt, with_root_value v s)
      | inr e => (Throw e, s)
      end
  end.

(** [parentValue[key] = newValue] *)
Definition container_set (c : container) (k : pkey) (x : value) : M unit :=
  container_update c (fun v => set_prop v k x) x.

(** [delete parentValue[key]] *)
Definition container_delete (c : container) (k : pkey) : M unit :=
  container_update c (fun v => delete_prop v k) VUndefined.

(** *** The modules around the engine, seen through the trace *)

Definition beginBatch : M unit := emit EvBeginBatch.
Definition endBatch : M unit := emit EvEndBatch.
Definition untrack (node : nat) : M unit := emit (EvUntrack node).
Definition updateTracking (node : nat) (shallow : bool) : M unit :=
  emit (EvUpdateTracking node shallow).
Definition notify (node : nat) (newValue prevValue : value) (level : Z)
    (whenOptimizedOnlyIf : bool) : M unit :=
  emit (EvNotify node newValue prevValue level whenOptimizedOnlyIf).
Definition doNotify (node : nat) (v : value) (path : list pkey)
    (valueAtPath prevValue : value) (level : Z)
    (whenOptimizedOnlyIf : option bool) : M unit :=
  emit (EvDoNotify node v path valueAtPath prevValue level whenOptimizedOnlyIf).

(** [is.ts] *)
Definition isArray (v : value) : bool :=
  match v with VArray _ _ _ => true | _ => false end.
Definition isFunction (v : value) : bool :=
  match v with VFunction _ _ => true | _ => false end.
Definition isObject (v : value) : bool :=
  match v with VObject _ _ => true | _ => false end.


Section Engine.

(** What an updater function returns for an argument. *)
Variable call : nat -> value -> value.
(** [isPrimitive] of [is.ts] on [undefined] and [null]. *)
Variable nullishPrimitive : bool.
(** [process.env.NODE_ENV === 'development'] *)
Variable development : bool.

Definition isPrimitive (v : value) : bool :=
  match v with
  | VUndefined | VNull => nullishPrimitive
  | VFunction _ _ | VObject _ _ | VArray _ _ _ => false
  | _ => true
  end.

Definition has_listeners (s : state) (n : nat) : bool :=
  match listeners (get_node s n) with Some _ => true | None => false end.

(** *** [updateNodes] *)

(** [keys.includes(key)], where [keys] is the new array itself or the key
    list of the new object. *)
Definition keys_includes (obj : value) (name : string) : bool :=
  match obj with
  | VArray _ es _ =>
      existsb (fun e => strict_eq (default VUndefined e) (VString name)) es
  | _ => if truthy obj then existsb (String.eqb name) (Object_keys obj) else false
  end.

(** The keys of the main loop: the indices of an array, else the key list. *)
Definition loop_keys (obj : value) : list pkey :=
  match obj with
  | VArray _ es _ => map KNum (seq 0 (length es))
  | _ => map KStr (Object_keys obj)
  end.

Definition sniff_idField (p : value) : option string :=
  if negb (is_undefined (get_named p "id")) then Some "id"
  else if negb (is_undefined (get_named p "_id")) then Some "_id"
  else if negb (is_undefined (get_named p "__id")) then Some "__id"
  else None.

(** The map from identity to previous index; the newest entry is first. *)
Fixpoint build_keyMap (idField : string) (i : nat) (es : list (option value))
    (acc : list (value * nat)) : list (value * nat) :=
  match es with
  | [] => acc
  | e :: es' =>
      let p := default VUndefined e in
      build_keyMap idField (S i) es'
        (if truthy p then (get_named p idField, i) :: acc else acc)
  end.

Fixpoint keyMap_get (id : value) (m : list (value * nat)) : option nat :=
  match m with
  | [] => None
  | (k, i) :: m' => if strict_eq k id then Some i else keyMap_get id m'
  end.

(** [idField] and [keyMap] as the first branch leaves them. *)
Definition move_index (obj prevValue : value)
  : option string * option (list (value * nat)) :=
  match obj, prevValue with
  | VArray _ _ _, VArray _ pes _ =>
      if (0 <? length pes)%nat then
        let p := elem_at pes 0 in
        if truthy p then
          match sniff_idField p with
          | Some f => (Some f, Some (build_keyMap f 0 pes []))
          | None => (None, None)
          end
        else (None, None)
      else (None, None)
  | _, _ => (None, None)
  end.

(** [!obj || obj.hasOwnProperty] *)
Definition no_obj_or_hasOwnProperty (obj : value) : bool :=
  negb (truthy obj) ||
  match assoc_get "hasOwnProperty" (own_props obj) with
  | Some v => truthy v
  | None => true
  end.

(** The variables of the main loop. *)
Record loop_vars : Type := mkLoop {
  hasADiff : bool;
  didMove : bool;
  moved : list (pkey * nat)
}.

Section Body.

(** The recursive call. *)
Variable rec : nat -> value -> value -> M (option bool).

(** Keys removed from the object: notify and update children recursively. *)
Definition removed_step (parent : nat) (obj prevValue : value) (name : string)
  : M unit :=
  if keys_includes obj name then ret tt
  else
    child <- getChildNode parent (KStr name) ;;
    let prev := get_prop prevValue (KStr name) in
    (if negb (isPrimitive prev) then rec child VUndefined prev ;;; ret tt
     else ret tt) ;;;
    s <- get_state ;;
    when (has_listeners s child)
      (doNotify child VUndefined [] VUndefined prev 0 None).

(** Detect moves within an array: the block under [isArr && id !== undefined].
    It yields [child], [isDiff] and the loop variables. *)
Definition detect_move (parent : nat) (prevValue : value) (isArr isArrDiff : bool)
    (keyMap : option (list (value * nat))) (k : pkey) (v id : value)
    (child : nat) (isDiff : bool) (vars : loop_vars)
  : M (nat * bool * loop_vars) :=
  if isArr && negb (is_undefined id) then
    (* Find the previous position of this element in the array *)
    match keyMap ≫= keyMap_get id with
    | Some keyChild =>
        if negb (bool_decide (KNum keyChild = k)) then
          (* If array length changed then move the original node to the
             current position *)
          reparented <-
            (if isArrDiff then
               c <- getChildNode parent (KNum keyChild) ;;
               modify (fun s => put_node c (node_with_key k (get_node s c)) s) ;;;
               ret (c, mkLoop (hasADiff vars) (didMove vars) (moved vars ++ [(k, c)]))
             else ret (child, vars)) ;;
          (* And check for diff against the previous value in the previous
             position *)
          let prevOfNode := get_prop prevValue (KNum keyChild) in
          ret (fst reparented, negb (strict_eq prevOfNode v),
               mkLoop (hasADiff (snd reparented)) true (moved (snd reparented)))
        else ret (child, isDiff, vars)
    | None => ret (child, isDiff, vars)
    end
  else ret (child, isDiff, vars).

Definition loop_step (parent : nat) (obj prevValue : value) (isArr isArrDiff : bool)
    (idField : option string) (keyMap : option (list (value * nat)))
    (vars : loop_vars) (k : pkey) : M loop_vars :=
  let v := get_prop obj k in
  let prev := get_prop prevValue k in
  let isDiff := negb (strict_eq v prev) in
  if isDiff then
    let id := get_named v (default "undefined" idField) in
    child <- getChildNode parent k ;;
    moveRes <- detect_move parent prevValue isArr isArrDiff keyMap k v id
                 child isDiff vars ;;
    let child := fst (fst moveRes) in
    let isDiff := snd (fst moveRes) in
    let vars := snd moveRes in
    vars <-
      (if isDiff then
         (* Array has a new / modified element *)
         (if negb (isPrimitive v) then rec child v prev ;;; ret tt else ret tt) ;;;
         ret (mkLoop true (didMove vars) (moved vars))
       else ret vars) ;;
    s <- get_state ;;
    when ((isDiff || negb isArrDiff) && has_listeners s child)
      (doNotify child v [] v prev 0 (Some (negb isArrDiff))) ;;;
    ret vars
  else ret vars.

Definition apply_moved (parent : nat) (mv : list (pkey * nat)) : M unit :=
  forM mv (fun '(k, child) =>
    modify (fun s =>
      put_node parent
        (node_with_children (<[k := child]> (children (get_node s parent)))
           (get_node s parent)) s)).

Definition updateNodes_body (parent : nat) (obj prevValue : value)
  : M (option bool) :=
  let isArr := isArray obj in
  let '(idField, keyMap) := move_index obj prevValue in
  (if isArr && isArray prevValue then ret tt
   else if truthy prevValue && no_obj_or_hasOwnProperty obj then
     forM (Object_keys prevValue) (removed_step parent obj prevValue)
   else ret tt) ;;;
  if truthy obj then
    let isArrDiff :=
      negb isArr ||
      negb (strict_eq (get_named obj "length") (get_named prevValue "length")) in
    vars <- foldM (loop_step parent obj prevValue isArr isArrDiff idField keyMap)
              (loop_keys obj) (mkLoop isArrDiff false []) ;;
    (match keyMap with
     | Some _ => apply_moved parent (moved vars)
     | None => ret tt
     end) ;;;
    ret (Some (hasADiff vars || didMove vars))
  else if truthy prevValue then ret (Some true)
  else ret None.

End Body.

Fixpoint updateNodes_fuel (fuel : nat) (parent : nat) (obj prevValue : value)
  : M (option bool) :=
  match fuel with
  | O => throw OutOfFuel
  | S fuel' => updateNodes_body (updateNodes_fuel fuel') parent obj prevValue
  end.

(** The recursion of [updateNodes] descends into the new or the previous
    value, so their sizes bound its depth. *)
Definition updateNodes (parent : nat) (obj prevValue : value) : M (option bool) :=
  updateNodes_fuel (S (vsize obj + vsize prevValue)) parent obj prevValue.

(** *** [getProxy]: the proxy of a node is cached on the node; it is named
    by the node it views. *)
Definition getProxy (node : nat) (p : pkey) : M nat :=
  node <- (if bool_decide (p = KUndefined) then ret node else getChildNode node p) ;;
  s <- get_state ;;
  (if proxy (get_node s node) then ret tt
   else modify (put_node node (node_with_proxy true (get_node s node)))) ;;;
  ret node.

(** [level ?? prevValue === undefined ? -1 : hasADiff ? 0 : 1], which
    JavaScript reads as [(level ?? (prevValue === undefined)) ? -1 : ...]. *)
Definition notify_level (level : option Z) (prevValue : value)
    (hasADiff : option bool) : Z :=
  let cond :=
    match level with
    | Some l => negb (Z.eqb l 0)
    | None => is_undefined prevValue
    end in
  if cond then (-1)%Z
  else match hasADiff with Some true => 0%Z | _ => 1%Z end.

(** *** [setKey].  The function is given in its three parts: the lock
    check, the write (from [isDelete] to the save of the new value) and the
    diff and notification inside the batch. *)

(** The variables the write leaves for the rest of [setKey]. *)
Record write_locals : Type := mkLocals {
  w_node : nat;
  w_childNode : nat;
  w_isRoot : bool;
  w_key : pkey;
  w_isPrim : bool;
  w_isDelete : bool;
  w_newValue : value;
  w_prevValue : value
}.

(** A plain object has no [symbolIsObservable] member, so on the values
    represented [newValue.get()] is never taken. *)
Definition setKey_write (node : nat) (k : pkey) (newValue : value)
  : M write_locals :=
  s <- get_state ;;
  let isDelete := strict_eq newValue VSymbolUndef in
  let newValue := if isDelete then VUndefined else newValue in
  let isPrim := isPrimitive newValue in
  let unwrap :=
    isPrim && bool_decide (k = KStr "value") && isPrimitive (getNodeValue s node) in
  let k := if unwrap then key (get_node s node) else k in
  let node' := if unwrap then parent (get_node s node) else Some node in
  modify (with_inSet true) ;;;
  match node' with
  | None => throw TypeError   (* node.parent of undefined *)
  | Some node =>
      let isRoot :=
        bool_decide (k = KSymbolUndef) ||
        (negb (bool_decide (is_Some (parent (get_node s node)))) &&
         bool_decide (k = KStr "value") && isPrimitive newValue) in
      (* Get the child node for updating and notifying *)
      childNode <- (if isRoot then ret node else getChildNode node k) ;;
      (* Set operations do not create listeners *)
      untrack childNode ;;;
      (* Get the value of the parent *)
      parentValue <- (if isRoot then ret RootWrapper
                      else ensureNodeValue node ;;; ret (NodeContainer node)) ;;
      let k := if isRoot then KStr "_" else k in
      (* Save the previous value first *)
      prevValue <- container_get parentValue k ;;
      (* Compute newValue if newValue is a function *)
      newValue <-
        (match newValue with
         | VFunction f _ =>
             if negb (inAssign s) then emit (EvCall f prevValue) ;;; ret (call f prevValue)
             else ret newValue
         | _ => ret newValue
         end) ;;
      (* Save the new value *)
      (if isDelete then container_delete parentValue k
       else container_set parentValue k newValue) ;;;
      ret (mkLocals node childNode isRoot k isPrim isDelete newValue prevValue)
  end.

Definition setKey_notify (l : write_locals) (level : option Z) : M nat :=
  let newValue := w_newValue l in
  let prevValue := w_prevValue l in
  let isPrim := w_isPrim l in
  (* Make sure we don't call too many listeners for every property set *)
  beginBatch ;;;
  diff <-
    (if negb isPrim || negb (isPrimitive prevValue) then
       d <- updateNodes (w_childNode l) newValue prevValue ;;
       ret (d, isArray newValue &&
               negb (strict_eq (get_named newValue "length")
                               (get_named prevValue "length")))
     else ret (Some isPrim, false)) ;;
  (* Notify for this element if it's an object or it's changed *)
  when (negb isPrim || negb (strict_eq newValue prevValue))
    (notify (if isPrim && w_isRoot l then w_node l else w_childNode l)
       newValue prevValue
       (notify_level level prevValue (fst diff)) (snd diff)) ;;;
  endBatch ;;;
  modify (with_inSet false) ;;;
  (if w_isRoot l then getProxy (w_node l) KUndefined
   else getProxy (w_node l) (w_key l)).

Definition setKey (node : nat) (k : pkey) (newValue : value) (level : option Z)
  : M nat :=
  s <- get_state ;;
  if locked s then throw LockedError
  else
    l <- setKey_write node k newValue ;;
    setKey_notify l level.

Definition set (node : nat) (newValue : value) : M nat :=
  s <- get_state ;;
  match parent (get_node s node) with
  | None => setKey node KSymbolUndef newValue None
  | Some p => setKey p (key (get_node s node)) newValue None
  end.

(** [deleteFn(node, key?)]; an omitted key is [KUndefined]. *)
Definition deleteFn (node : nat) (k : pkey) : M unit :=
  s <- get_state ;;
  let target :=
    match k, parent (get_node s node) with
    | KUndefined, Some p => (p, key (get_node s node))
    | _, _ => (node, k)
    end in
  (* delete sets to undefined first to notify *)
  setKey (fst target) (snd target) VSymbolUndef (Some (-1)%Z) ;;; ret tt.

(** *** The [set] and [deleteProperty] traps of [proxyHandler].  What
    [Reflect] does to the raw node is kept in the trace. *)
Definition proxyHandler_set (node : nat) (prop : pkey) (v : value) : M bool :=
  s <- get_state ;;
  if inSet s then emit (EvReflectSet node prop v) ;;; ret true
  else
    refused <-
      (if negb (inAssign s) && negb (Z.eqb (safeMode_number (safeMode s)) 0) then
         if Z.eqb (safeMode_number (safeMode s)) 2 then ret true
         else
           c <- getChildNode node prop ;;
           s' <- get_state ;;
           let existing := getNodeValue s' c in
           ret (isObject existing || isArray existing || isObject v || isArray v)
       else ret false) ;;
    if refused then ret false
    else setKey node prop v None ;;; ret true.

Definition proxyHandler_deleteProperty (target : nat) (prop : pkey) : M bool :=
  s <- get_state ;;
  if inSet s then emit (EvReflectDelete target prop) ;;; ret true
  else if negb (Z.eqb (safeMode_number (safeMode s)) 0) then ret false
  else
    when (development && isTracking s) (emit EvConsoleError) ;;;
    deleteFn target prop ;;;
    ret true.

(** [Object.assign(proxy, value)]: one [[Set]] on the proxy per own
    enumerable property of the source, in order; in strict mode a refused
    [[Set]] throws. *)
Definition Object_assign (target : nat) (src : value) : M unit :=
  forM (own_props src) (fun p =>
    ok <- proxyHandler_set target (KStr (fst p)) (snd p) ;;
    if ok then ret tt else throw TypeError).

Definition assign (node : nat) (v : value) : M nat :=
  proxy <- getProxy node KUndefined ;;
  beginBatch ;;;
  s <- get_state ;;
  when (isPrimitive (root_value s))
    (modify (fun s => with_nextRef (S (nextRef s))
                        (with_root_value (VObject (nextRef s) []) s))) ;;;
  (* Set inAssign to allow setting on safe observables *)
  modify (with_inAssign true) ;;;
  Object_assign proxy v ;;;
  modify (with_inAssign false) ;;;
  endBatch ;;;
  ret proxy.

End Engine.

End Observable.

(** ** The primitive wrapper ([ObservablePrimitiveClass]) *)

Module ObservablePrimitiveClass.
Import JS Observable.
Local Open Scope engine_scope.

Section Wrapper.

(** What an updater function returns for an argument. *)
Variable call : nat -> value -> value.
(** What the activation hook leaves as root value. *)
Variable hook : nat -> value -> value.

(** [this.#node] *)
Variable node : nat.

Definition peek : M value :=
  s <- get_state ;;
  (match activate s with
   | Some h =>
       emit (EvActivate h) ;;;
       modify (fun s => with_root_value (hook h (root_value s)) s) ;;;
       modify (with_activate None)
   | None => ret tt
   end) ;;;
  s <- get_state ;;
  ret (root_value s).

Definition get : M value :=
  updateTracking node false ;;;
  peek.

(** [set] returns [this]; the wrapper is named by its node. *)
Definition set (v : value) : M nat :=
  v <- (match v with
        | VFunction f _ =>
            s <- get_state ;;
            emit (EvCall f (root_value s)) ;;;
            ret (call f (root_value s))
        | _ => ret v
        end) ;;
  s <- get_state ;;
  if locked s then throw LockedError
  else
    let prev := root_value s in
    modify (with_root_value v) ;;;
    doNotify node v [] v prev 0 None ;;;
    ret node.

End Wrapper.

End ObservablePrimitiveClass.

(** ** [observable(value, safe)] *)

Module Root.
Import JS Observable.

(** Modelled from the spec: [isActualPrimitive] of [is.ts]; a primitive
    root is a string, number or boolean. *)
Definition isActualPrimitive (v : value) : bool :=
  match v with
  | VBool _ | VNumber _ | VString _ => true
  | _ => false
  end.

Inductive handle : Type :=
| Primitive (node : nat)     (* new ObservablePrimitiveClass(node) *)
| Proxy (node : nat).

(** The tree a call of [observable] creates, with [nextNodeID.current] at
    [id]; [safe] is [true], [false] or omitted. *)
Definition observable (id : nat) (v : value) (safe : option bool) : handle * state :=
  let mode := match safe with
              | Some true => StrictSafe
              | Some false => Unrestricted
              | None => DefaultSafe
              end in
  let isPrim := isActualPrimitive v in
  let root := mkNode None KUndefined ∅ (negb isPrim) None in
  (if isPrim then Primitive id else Proxy id,
   mkState v mode false None {[ id := root ]} (S id) false false false 0 []).

End Root.

(** ** What the spec says of [assign], as a program of its own *)

Module Spec.
Import JS Observable.
Local Open Scope engine_scope.

Section AssignSpec.

Variable call : nat -> value -> value.
Variable nullishPrimitive : bool.

(** The spec's [assign(node, partial)]: begin a batch, coerce a primitive
    root to an empty object, relax the write permission, do one write of the
    write pipeline per key of [partial], end the batch. *)
Definition assign_spec (node : nat) (partial : value) : M nat :=
  proxy <- getProxy node KUndefined ;;
  beginBatch ;;;
  s <- get_state ;;
  when (isPrimitive nullishPrimitive (root_value s))
    (modify (fun s => with_nextRef (S (nextRef s))
                        (with_root_value (VObject (nextRef s) []) s))) ;;;
  modify (with_inAssign true) ;;;
  forM (own_props partial) (fun p =>
    setKey call nullishPrimitive proxy (KStr (fst p)) (snd p) None ;;; ret tt) ;;;
  modify (with_inAssign false) ;;;
  endBatch ;;;
  ret proxy.

End AssignSpec.

End Spec.

(** ** The trace, read back *)

Module Trace.
Import JS Observable.

Definition is_notify (e : event) : bool :=
  match e with EvNotify _ _ _ _ _ => true | _ => false end.

Definition is_doNotify (e : event) : bool :=
  match e with EvDoNotify _ _ _ _ _ _ _ => true | _ => false end.

(** A listener notification: a call of [notify] or of [doNotify]. *)
Definition is_notification (e : event) : bool := is_notify e || is_doNotify e.

Definition is_activation (e : event) : bool :=
  match e with EvActivate _ => true | _ => false end.

Definition is_tracking (e : event) : bool :=
  match e with EvUpdateTracking _ _ => true | _ => false end.

Definition notifications (t : list event) : list event := List.filter is_notification t.

Definition notify_level_of (e : event) : option Z :=
  match e with
  | EvNotify _ _ _ l _ => Some l
  | _ => None
  end.

End Trace.

(** A sequence of reads of a primitive wrapper: [true] is [get], [false] is
    [peek]. *)
Fixpoint reads (hook : nat -> JS.value -> JS.value) (node : nat) (l : list bool)
  : Observable.M unit :=
  match l with
  | [] => Observable.ret tt
  | b :: l' =>
      Observable.bind
        (if b then ObservablePrimitiveClass.get hook node
         else ObservablePrimitiveClass.peek hook)
        (fun _ => reads hook node l')
  end.

(** ** Invariants of the arena and frames of the diff *)

Module Inv.
Import JS Observable Trace.

(** Every field of the state but the nodes, the node counter and the
    trace. *)
Definition root_fields (s : state)
  : value * SafeMode * bool * option nat * bool * bool * bool * nat :=
  (root_value s, safeMode s, locked s, activate s, inSet s, inAssign s,
   isTracking s, nextRef s).

Definition same_root (s s' : state) : Prop := root_fields s' = root_fields s.

(** The trace grew by calls of [doNotify] only. *)
Definition only_doNotify (s s' : state) : Prop :=
  exists evs, trace s' = (trace s ++ evs)%list /\ forallb is_doNotify evs = true.

(** Ids are handed out in increasing order, so a child has a larger id than
    its parent and every id in use is below the counter. *)
Definition arena_ok (s : state) : Prop :=
  (forall n nd, nodes s !! n = Some nd -> n < nextNodeID s) /\
  (forall n nd k c, nodes s !! n = Some nd -> children nd !! k = Some c ->
     n < c /\ c < nextNodeID s) /\
  (forall n nd p, nodes s !! n = Some nd -> parent nd = Some p -> p < n).

Definition below_unchanged (c : nat) (s s' : state) : Prop :=
  forall n, n < c -> nodes s' !! n = nodes s !! n.

(** The children map of a node only gained entries. *)
Definition children_grow (p : nat) (s s' : state) : Prop :=
  forall k c, children (get_node s p) !! k = Some c ->
              children (get_node s' p) !! k = Some c.

(** What a run of [updateNodes] on node [c] may do to the state. *)
Definition diff_post (c : nat) (s s' : state) : Prop :=
  same_root s s' /\ only_doNotify s s' /\ arena_ok s' /\
  nextNodeID s <= nextNodeID s' /\ below_unchanged c s s'.

(** What the loops of [updateNodes] on node [p] may do, before the moved
    nodes are put in place. *)
Definition loop_post (p : nat) (s s' : state) : Prop :=
  diff_post p s s' /\ children_grow p s s'.

(** The moved nodes are children of [p]. *)
Definition moved_ok (p : nat) (mv : list (pkey * nat)) (s : state) : Prop :=
  Forall (fun e => p < snd e /\ snd e < nextNodeID s) mv.

(** A recursive call that is total and framed on arguments of weight below
    [m]. *)
Definition rec_ok (m : nat) (rec : nat -> value -> value -> M (option bool)) : Prop :=
  forall c obj prev s,
    vsize obj + vsize prev < m -> arena_ok s -> c < nextNodeID s ->
    exists d s', rec c obj prev s = (Ok d, s') /\ diff_post c s s'.

(** The element at key [k] of the new array is one whose identity maps to
    the previous index [j], another index than its own. *)
Definition move_at (obj prev : value) (idField : option string)
    (keyMap : option (list (value * nat))) (k : pkey) (j : nat) : Prop :=
  strict_eq (get_prop obj k) (get_prop prev k) = false /\
  is_undefined (get_named (get_prop obj k) (default "undefined" idField)) = false /\
  keyMap ≫= keyMap_get (get_named (get_prop obj k) (default "undefined" idField))
    = Some j /\
  KNum j <> k.

(** What one pass of [updateNodes] over a node gives, the recursive calls
    being total and framed. *)
Definition body_post (p : nat) (obj prev : value) (s : state)
    (d : option bool) (s' : state) : Prop :=
  diff_post p s s' /\
  (isArray obj = true ->
   strict_eq (get_named obj "length") (get_named prev "length") = true ->
   children_grow p s s') /\
  (forall k j c,
      isArray obj = true ->
      strict_eq (get_named obj "length") (get_named prev "length") = false ->
      k ∈ loop_keys obj ->
      move_at obj prev (fst (move_index obj prev)) (snd (move_index obj prev)) k j ->
      children (get_node s p) !! KNum j = Some c ->
      children (get_node s' p) !! k = Some c).

(** The fields no write of the pipeline touches. *)
Definition policy_fields (s : state) : SafeMode * bool * option nat * bool * bool :=
  (safeMode s, locked s, activate s, inAssign s, isTracking s).

Definition same_policy (s s' : state) : Prop := policy_fields s' = policy_fields s.

(** What the write of [setKey] may do to the state. *)
Definition write_post (s s' : state) : Prop :=
  arena_ok s' /\ nextNodeID s <= nextNodeID s' /\ same_policy s s'.

(** The value operations of the write touch the root value and the
    identity counter only. *)
Definition value_op_post (s s' : state) : Prop :=
  nodes s' = nodes s /\ nextNodeID s' = nextNodeID s /\ inSet s' = inSet s /\
  same_policy s s'.

(** The state during the write of [setKey], [n] and [c] being nodes in use. *)
Definition write_inv (s : state) (n c : nat) (s' : state) : Prop :=
  write_post s s' /\ inSet s' = true /\ n < nextNodeID s' /\ c < nextNodeID s'.

(** What the diff of [setKey] finds for the locals of a write, in the state
    the write left: the result of [updateNodes] when it runs, else [isPrim]. *)
Definition diff_ran (np : bool) (l : write_locals) : bool :=
  negb (w_isPrim l) || negb (isPrimitive np (w_prevValue l)).

Definition diff_found (np : bool) (l : write_locals) (s1 : state) : option bool :=
  if diff_ran np l then
    match fst (updateNodes np (w_childNode l) (w_newValue l) (w_prevValue l)
                 (with_trace (trace s1 ++ [EvBeginBatch]) s1)) with
    | Ok d => d
    | Throw _ => None
    end
  else Some (w_isPrim l).

(** The node [notify] is called on, and its last argument. *)
Definition notify_target (l : write_locals) : nat :=
  if w_isPrim l && w_isRoot l then w_node l else w_childNode l.

Definition notify_optimized (np : bool) (l : write_locals) : bool :=
  diff_ran np l && isArray (w_newValue l) &&
  negb (strict_eq (get_named (w_newValue l) "length")
                  (get_named (w_prevValue l) "length")).

(** The parent link and the key of every node up to [n] are as they were. *)
Definition links_kept (n : nat) (s s' : state) : Prop :=
  forall m, m <= n ->
    parent (get_node s' m) = parent (get_node s m) /\
    key (get_node s' m) = key (get_node s m).

(** The node and key [deleteFn] passes to [setKey]. *)
Definition delete_target (s : state) (node : nat) (k : pkey) : nat * pkey :=
  match k, parent (get_node s node) with
  | KUndefined, Some p => (p, key (get_node s node))
  | _, _ => (node, k)
  end.

(** [arena_ok], computed. *)
Definition arena_okb (s : state) : bool :=
  forallb (fun e : nat * NodeValue =>
    (fst e <? nextNodeID s)%nat &&
    forallb (fun kc : pkey * nat =>
               (fst e <? snd kc)%nat && (snd kc <? nextNodeID s)%nat)
      (map_to_list (children (snd e))) &&
    match parent (snd e) with
    | Some p => (p <? fst e)%nat
    | None => true
    end)
  (map_to_list (nodes s)).

(** The run ends in a state satisfying [P]; it returns a result satisfying
    [Q], or throws a [TypeError] or a [RangeError]. *)
Definition ends {A} (r : outcome A * state) (P : state -> Prop)
    (Q : A -> state -> Prop) : Prop :=
  P (snd r) /\
  match fst r with
  | Ok a => Q a (snd r)
  | Throw e => e = TypeError \/ e = RangeError
  end.

(** The run returns, and the result and final state satisfy [Q]. *)
Definition returns {A} (r : outcome A * state) (Q : A -> state -> Prop) : Prop :=
  exists a s', r = (Ok a, s') /\ Q a s'.

(** The last node pushed for a key in [moved]. *)
Fixpoint moved_last (mv : list (pkey * nat)) (k : pkey) : option nat :=
  match mv with
  | [] => None
  | (k', c) :: mv' =>
      match moved_last mv' k with
      | Some c' => Some c'
      | None => if bool_decide (k' = k) then Some c else None
      end
  end.

End Inv.

(** ** Trees used as examples *)

Module Examples.
Import JS Observable Root.
Local Open Scope Z_scope.

(** Updaters and hooks that return their argument; [isPrimitive] taking
    [undefined] and [null] as primitive. *)
Definition call_id (f : nat) (v : value) : value := v.
Definition nullish_primitive : bool := true.

Definition elemA : value := VObject 1 [("id", VNumber 1); ("name", VString "a")].
Definition elemB : value := VObject 2 [("id", VNumber 2); ("name", VString "b")].

(** [observable([A, B])] once both elements were read: node 0 is the root,
    node 1 views index 0 (id 1), node 2 views index 1 (id 2). *)
Definition items : value := VArray 10 [Some elemA; Some elemB] [].
Definition s_items : state :=
  snd (bind (getChildNode 0 (KNum 0)) (fun _ => getChildNode 0 (KNum 1))
         (snd (observable 0 items None))).

(** The same elements in the other order, and the array cut to [B]. *)
Definition reordered : value := VArray 11 [Some elemB; Some elemA] [].
Definition shortened : value := VArray 12 [Some elemB] [].

(** [observable({count: 0, user: {name: 'a'}})] in default safe mode. *)
Definition record : value :=
  VObject 20 [("count", VNumber 0); ("user", VObject 21 [("name", VString "a")])].
Definition s_record : state := snd (observable 0 record None).
Definition s_record_locked : state := with_locked true s_record.

(** [observable(5)], a primitive root. *)
Definition s_five : state := snd (observable 0 (VNumber 5) None).
Definition s_five_locked : state := with_locked true s_five.

(** The locals and the state a write leaves. *)
Definition no_locals : write_locals :=
  mkLocals 0 0 false KUndefined false false VUndefined VUndefined.

Definition locals_of (r : outcome write_locals * state) : write_locals :=
  match fst r with Ok l => l | Throw _ => no_locals end.

Definition write_shortened : outcome write_locals * state :=
  setKey_write call_id nullish_primitive 0 KSymbolUndef shortened s_items.

Definition write_count : outcome write_locals * state :=
  setKey_write call_id nullish_primitive 0 (KStr "count") (VNumber 1) s_record.

Definition write_delete_count : outcome write_locals * state :=
  setKey_write call_id nullish_primitive 0 (KStr "count") VSymbolUndef s_record.

End Examples.

(** ** Writes into a container that is present *)

Module Writes.
Import JS Observable.

(** A write [setKey(node, k, v)] that goes to the container of [node]: the
    value at the node is an object, array or function, the key is not the
    marker of [set], the value is not the marker of [deleteFn], and the
    write is not the one to ['value'] of a root node that replaces the root
    value by a primitive. *)
Definition plain_write (nullishPrimitive : bool) (s : state) (node : nat)
    (k : pkey) (v : value) : Prop :=
  is_reference (getNodeValue s node) = true /\
  k <> KSymbolUndef /\
  strict_eq v VSymbolUndef = false /\
  (parent (get_node s node) = None -> k = KStr "value" ->
   isPrimitive nullishPrimitive v = false).

(** The value a write stores for the argument [v]: outside [assign] an
    updater function is called on the previous value. *)
Definition resolve_value (call : nat -> value -> value) (inAssign : bool)
    (prev v : value) : value :=
  match v with
  | VFunction f _ => if inAssign then v else call f prev
  | _ => v
  end.

Definition resolve_events (inAssign : bool) (prev v : value) : list event :=
  match v with
  | VFunction f _ => if inAssign then [] else [EvCall f prev]
  | _ => []
  end.

(** A property of the source of [assign] that is written into the container
    of the node: its value is not the marker of [deleteFn], and it is not a
    primitive ['value'] given to a root node. *)
Definition assignable (nullishPrimitive : bool) (root : bool)
    (q : string * value) : Prop :=
  strict_eq (snd q) VSymbolUndef = false /\
  (root = true -> fst q = "value" -> isPrimitive nullishPrimitive (snd q) = false).

(** [Object.assign] on raw property lists: one assignment per property of
    the source, in order. *)
Definition merge_props (ps qs : list (string * value)) : list (string * value) :=
  fold_left (fun acc q => put_own (fst q) (snd q) acc) qs ps.

Definition is_root (s : state) (node : nat) : bool :=
  match parent (get_node s node) with Some _ => false | None => true end.

Definition is_call (e : event) : bool :=
  match e with EvCall _ _ => true | _ => false end.

(** The write of [setKey] from [inSet = true] on, for the node and the key
    the value accessor left ([node] is [undefined] when a root node was
    taken for a primitive child); [s] is the state [setKey] started in. *)
Definition setKey_write_at (call : nat -> value -> value) (nullishPrimitive : bool)
    (s : state) (node : option nat) (k : pkey) (isDelete : bool) (newValue : value)
  : M write_locals :=
  (modify (with_inSet true) ;;;
   match node with
   | None => throw TypeError
   | Some node =>
       let isRoot :=
         bool_decide (k = KSymbolUndef) ||
         (negb (bool_decide (is_Some (parent (get_node s node)))) &&
          bool_decide (k = KStr "value") && isPrimitive nullishPrimitive newValue) in
       childNode <- (if isRoot then ret node else getChildNode node k) ;;
       untrack childNode ;;;
       parentValue <- (if isRoot then ret RootWrapper
                       else ensureNodeValue node ;;; ret (NodeContainer node)) ;;
       let k := if isRoot then KStr "_" else k in
       prevValue <- container_get parentValue k ;;
       newValue' <-
         (match newValue with
          | VFunction f _ =>
              if negb (inAssign s) then emit (EvCall f prevValue) ;;; ret (call f prevValue)
              else ret newValue
          | _ => ret newValue
          end) ;;
       (if isDelete then container_delete parentValue k
        else container_set parentValue k newValue') ;;;
       ret (mkLocals node childNode isRoot k (isPrimitive nullishPrimitive newValue)
              isDelete newValue' prevValue)
   end)%engine.

(** A call [doNotify(child, value, [], value, prev, 0, ...)] on a node that
    has listeners in state [s]. *)
Definition listener_call (s : state) (e : event) : Prop :=
  match e with
  | EvDoNotify c v path va _ lvl _ =>
      path = [] /\ va = v /\ lvl = 0%Z /\ has_listeners s c = true
  | _ => False
  end.

(** What the diff leaves alone: the listeners and the proxy of every node,
    and every node without listeners. *)
Definition diff_quiet (s s' : state) : Prop :=
  (forall n, listeners (get_node s' n) = listeners (get_node s n) /\
             proxy (get_node s' n) = proxy (get_node s n)) /\
  exists evs, trace s' = (trace s ++ evs)%list /\ Forall (listener_call s) evs.

End Writes.

(** ** The family order of the arena *)

Module Family.
Import JS Observable.

(** Every entry of a children map leads to a node whose parent is the
    holder of the map. *)
Definition family_ok (s : state) : Prop :=
  forall n k c, children (get_node s n) !! k = Some c ->
                parent (get_node s c) = Some n.

(** [family_ok], computed. *)
Definition family_okb (s : state) : bool :=
  forallb (fun e : nat * NodeValue =>
    forallb (fun kc : pkey * nat =>
               bool_decide (parent (get_node s (snd kc)) = Some (fst e)))
      (map_to_list (children (snd e))))
  (map_to_list (nodes s)).

(** What the diff of node [p] keeps of the links: the counter does not go
    back, every node in use keeps its parent, and a node whose parent is
    below [p] keeps its key. *)
Definition keys_kept (p : nat) (s s' : state) : Prop :=
  nextNodeID s <= nextNodeID s' /\
  (forall m, m < nextNodeID s -> parent (get_node s' m) = parent (get_node s m)) /\
  (forall m q, m < nextNodeID s -> parent (get_node s m) = Some q -> q < p ->
     key (get_node s' m) = key (get_node s m)).

(** The moved nodes are nodes of the family of [p]. *)
Definition moved_family (p : nat) (mv : list (pkey * nat)) (s : state) : Prop :=
  Forall (fun e => parent (get_node s (snd e)) = Some p) mv.

(** The children map of [p] gained entries for new nodes only. *)
Definition entries_from (p : nat) (s s' : state) : Prop :=
  forall k c, children (get_node s' p) !! k = Some c ->
              children (get_node s p) !! k = Some c \/ nextNodeID s <= c.

End Family.

(** ** Sequences of operations on one tree *)

Module Run.
Import JS Observable.
Local Open Scope engine_scope.

(** The operations a holder of proxies can start: the functions [set],
    [assign] and [delete] of a proxy, an assignment to and a [delete] of a
    property of a proxy, and the read of a property that yields a child
    proxy. *)
Inductive op : Type :=
| OpSet (node : nat) (v : value)
| OpAssign (node : nat) (v : value)
| OpDelete (node : nat) (k : pkey)
| OpProxySet (node : nat) (k : pkey) (v : value)
| OpProxyDelete (node : nat) (k : pkey)
| OpGetProxy (node : nat) (k : pkey).

Definition op_node (o : op) : nat :=
  match o with
  | OpSet n _ | OpAssign n _ | OpDelete n _ | OpProxySet n _ _
  | OpProxyDelete n _ | OpGetProxy n _ => n
  end.

Section Run.

Variable call : nat -> value -> value.
Variable nullishPrimitive : bool.
Variable development : bool.

(** The state an operation leaves, whether it returns or throws. *)
Definition run (o : op) (s : state) : state :=
  match o with
  | OpSet n v => snd (set call nullishPrimitive n v s)
  | OpAssign n v => snd (assign call nullishPrimitive n v s)
  | OpDelete n k => snd (deleteFn call nullishPrimitive n k s)
  | OpProxySet n k v => snd (proxyHandler_set call nullishPrimitive n k v s)
  | OpProxyDelete n k =>
      snd (proxyHandler_deleteProperty call nullishPrimitive development n k s)
  | OpGetProxy n k => snd (getProxy n k s)
  end.

(** The states reached from [s0] by operations on nodes in use. *)
Inductive reachable (s0 : state) : state -> Prop :=
| reach_start : reachable s0 s0
| reach_step (s : state) (o : op) :
    reachable s0 s -> op_node o < nextNodeID s -> reachable s0 (run o s).

End Run.

(** What an operation keeps of the state it starts from. *)
Definition op_post (s s' : state) : Prop :=
  nextNodeID s <= nextNodeID s' /\
  safeMode s' = safeMode s /\ locked s' = locked s /\
  activate s' = activate s /\ isTracking s' = isTracking s.

End Run.

(** ** The read traps of [proxyHandler] and [collectionSetter] *)

Module ReadTraps.
Import JS Observable.
Local Open Scope engine_scope.

(** The keys a read trap is given: a string (an index arrives as its
    decimal name) or one of the two symbols the engine reserves.  Other
    symbols are not represented. *)
Inductive trap_prop : Type :=
| PString (p : string)
| PSymbolIsObservable
| PSymbolGetNode.

(** What the [get] trap returns.  A function it returns is kept as what it
    will do when called. *)
Inductive get_result : Type :=
| GTrue
| GNode (node : nat)
| GObservableFn (name : string) (node : nat)
    (* function (a, b, c) { ... fn(node, a, b, c) } *)
| GRaw (v : value)
| GModifier (node : nat) (target : value) (p : string)
    (* (...args) => collectionSetter(node, value, p, ...args) *)
| GLooper (node : nat) (target : value) (p : string)
    (* function (cbOrig, thisArg) { ... value[p](cb, thisArg) } *)
| GBound (fn : value) (this : value)      (* vProp.bind(value) *)
| GProxy (node : nat).

Inductive prototype : Type := ProtoNull | ProtoObject | ProtoArray.

Definition ArrayModifiers : list string :=
  ["copyWithin"; "fill"; "from"; "pop"; "push"; "reverse"; "shift"; "sort";
   "splice"; "unshift"].

Definition ArrayLoopers : list string :=
  ["every"; "some"; "filter"; "forEach"; "map"; "join"].

(** The names of [objectFns]. *)
Definition objectFns : list string :=
  ["get"; "set"; "peek"; "onChange"; "assign"; "delete"].

Definition has_name (names : list string) (p : string) : bool :=
  existsb (String.eqb p) names.

Section ReadTraps.

Variable call : nat -> value -> value.
Variable nullishPrimitive : bool.
(** What the prototype chain of a value gives for a name that is not an own
    property ([Array.prototype.push] for ["push"] on an array). *)
Variable proto_get : value -> string -> option value.
(** The own keys a function has from the start (["length"], ["name"], ...). *)
Variable function_keys : nat -> list string.
(** [extraPrimitiveProps] of [globals.ts]: what
    [vPrim?.__fn?.(node) ?? vPrim] gives for the entry of a name, [None]
    when the map is empty or has no entry for it. *)
Variable extraPrimitive : nat -> string -> option value.
(** An array method applied in place: the elements it leaves and what it
    returns. *)
Variable array_method :
  string -> list (option value) -> list value -> list (option value) * value.

(** [Reflect.ownKeys(v)]: indices, then the other string keys in order of
    creation (["length"] of an array comes first among them). *)
Definition Reflect_ownKeys (v : value) : list string :=
  match v with
  | VArray _ es ps => map fst (indexed_from 0 es) ++ "length" :: map fst ps
  | VFunction f ps => function_keys f ++ map fst ps
  | VString s => map fst (chars_from 0 s) ++ ["length"]
  | VObject _ ps => map fst ps
  | _ => []
  end.

Definition own_key (v : value) (p : string) : bool :=
  bool_decide (p ∈ Reflect_ownKeys v).

(** [value?.[p]] *)
Definition member (v : value) (p : string) : value :=
  if nullish v then VUndefined
  else if own_key v p then get_named v p
  else default VUndefined (proto_get v p).

Definition proxyHandler_get (node : nat) (p : trap_prop) : M get_result :=
  match p with
  | PSymbolIsObservable => ret GTrue
  | PSymbolGetNode => ret (GNode node)
  | PString p =>
      (* If this is an observable function, call it *)
      if has_name objectFns p then ret (GObservableFn p node)
      else
        s <- get_state ;;
        let value := getNodeValue s node in
        if isPrimitive nullishPrimitive value && String.eqb p "value" then
          updateTracking node false ;;; ret (GRaw value)
        else
          let vProp := member value p in
          (* Handle function calls *)
          if isFunction vProp then
            if isArray value && has_name ArrayModifiers p then
              ret (GModifier node value p)
            else if isArray value && has_name ArrayLoopers p then
              updateTracking node true ;;; ret (GLooper node value p)
            else ret (GBound vProp value)
          else
            early <-
              (if isPrimitive nullishPrimitive vProp then
                 match extraPrimitive node p with
                 | Some x => ret (Some (GRaw x))
                 | None =>
                     if isArray value && String.eqb p "length" then
                       updateTracking node true ;;; ret (Some (GRaw vProp))
                     else ret None
                 end
               else ret None) ;;
            match early with
            | Some r => ret r
            | None =>
                (* Return an observable proxy to the property *)
                c <- getProxy node (KStr p) ;; ret (GProxy c)
            end
  end.

Definition proxyHandler_getPrototypeOf (node : nat) : M prototype :=
  s <- get_state ;;
  match getNodeValue s node with
  | VObject _ _ => ret ProtoObject
  | VArray _ _ _ => ret ProtoArray
  | VNull => throw TypeError       (* Reflect.getPrototypeOf(null) *)
  | _ => ret ProtoNull
  end.

Definition proxyHandler_ownKeys (node : nat) : M (list string) :=
  s <- get_state ;;
  let value := getNodeValue s node in
  if isPrimitive nullishPrimitive value then ret []
  else
    let keys := if truthy value then Reflect_ownKeys value else [] in
    (* Update that this node was accessed for observers *)
    updateTracking node true ;;;
    ret (if isArray value &&
            match last keys with Some k => String.eqb k "length" | None => false end
         then removelast keys else keys).

(** The descriptor is kept as the value it holds. *)
Definition proxyHandler_getOwnPropertyDescriptor (node : nat) (p : string)
  : M (option value) :=
  s <- get_state ;;
  let value := getNodeValue s node in
  if negb (isPrimitive nullishPrimitive value) then
    if nullish value then throw TypeError
    else ret (if own_key value p then Some (get_named value p) else None)
  else ret None.

Definition proxyHandler_has (target : nat) (p : string) : M bool :=
  s <- get_state ;;
  let value := getNodeValue s target in
  if is_reference value then ret (own_key value p || bool_decide (is_Some (proto_get value p)))
  else throw TypeError.

(** [collectionSetter(node, target, prop, ...args)], as the [get] trap
    calls it: [target] is an array, [VArray r es ps], the value read at the
    node.  [target.slice()] copies the elements into a new array; the method
    changes [target] in place, which the value tree sees at the node. *)
Definition collectionSetter (node : nat) (r : nat) (es : list (option value))
    (ps : list (string * value)) (prop : string) (args : list value) : M value :=
  s <- get_state ;;
  let prevValue := VArray (nextRef s) es [] in
  modify (with_nextRef (S (nextRef s))) ;;;
  let applied := array_method prop es args in
  let target := VArray r (fst applied) ps in
  let parent := parent (get_node s node) in
  container_update
    (match parent with Some _ => NodeContainer node | None => RootWrapper end)
    (fun _ => inl target) target ;;;
  (* Set the object to the previous value first *)
  (match parent with
   | Some p => container_set (NodeContainer p) (key (get_node s node)) prevValue
   | None => container_set RootWrapper (KStr "_") prevValue
   end) ;;;
  (* Then set with the new value so it notifies with the correct prevValue *)
  (match parent with
   | Some p => setKey call nullishPrimitive p (key (get_node s node)) target None
   | None => setKey call nullishPrimitive node KSymbolUndef target None
   end) ;;;
  (* Return the original value *)
  ret (snd applied).

End ReadTraps.

End ReadTraps.

(** ** Further example trees *)

Module MoreExamples.
Import JS Observable Root Examples ReadTraps.
Local Open Scope Z_scope.

(** [observable({items: [A, B]})], and the tree once [items] was read:
    node 1 views the array. *)
Definition list_record : value := VObject 50 [("items", items)].
Definition s_list : state := snd (observable 0 list_record None).
Definition s_list_read : state := snd (getChildNode 0 (KStr "items") s_list).
Definition s_list_locked : state := with_locked true s_list_read.

(** The same elements in a new array. *)
Definition items_copy : value := VArray 60 [Some elemA; Some elemB] [].

(** The write of [items.set(items_copy)]. *)
Definition write_items_copy : outcome write_locals * state :=
  setKey_write call_id nullish_primitive 0 (KStr "items") items_copy s_list.

(** A new object with the content of [record.user]. *)
Definition user_copy : value := VObject 22 [("name", VString "a")].

(** The record once [count] was read: node 1 views the number. *)
Definition s_record_read : state := snd (getChildNode 0 (KStr "count") s_record).

(** The record once its member ["1"] was read, which it does not hold:
    node 1 views the key. *)
Definition s_record_one : state := snd (getChildNode 0 (KStr "1") s_record).

(** The record after the assignment [record[1] = x]: the array index is
    listed before the names. *)
Definition record_with_one (x : value) : value :=
  VObject 20 [("1", x); ("count", VNumber 0);
              ("user", VObject 21 [("name", VString "a")])].

(** A value without inherited members, functions without own keys and no
    extra primitive properties. *)
Definition no_proto (v : value) (p : string) : option value := None.
Definition no_keys (f : nat) : list string := [].
Definition no_extra (node : nat) (p : string) : option value := None.

(** [push], as far as the elements and the result go. *)
Definition push_method (name : string) (es : list (option value)) (args : list value)
  : list (option value) * value :=
  ((es ++ map Some args)%list, VNumber (Z.of_nat (length es + length args))).

Definition elemC : value := VObject 3 [("id", VNumber 3); ("name", VString "c")].

(** [[B, C, A]] set over [[A, B]]: [B] and [A] move, [C] is new. *)
Definition rotated : value := VArray 14 [Some elemB; Some elemC; Some elemA] [].

Definition write_rotated : outcome write_locals * state :=
  setKey_write call_id nullish_primitive 0 KSymbolUndef rotated s_items.

(** [B] three times over: every element carries the identity of the
    previous element at index 1. *)
Definition tripled : value := VArray 13 [Some elemB; Some elemB; Some elemB] [].

End MoreExamples.

(** * Properties *)

Import JS Observable Trace Inv.
Local Open Scope list_scope.
Local Open Scope engine_scope.

Lemma bind_ok_inv {A B} (m : M A) (k : A -> M B) s b s' :
  bind m k s = (Ok b, s') ->
  exists a s1, m s = (Ok a, s1) /\ k a s1 = (Ok b, s').
Proof.
  unfold bind. destruct (m s) as [[a|e] s1]; [eauto | discriminate].
Qed.

Lemma bind_ok {A B} (m : M A) (k : A -> M B) s a s1 :
  m s = (Ok a, s1) -> bind m k s = k a s1.
Proof. unfold bind. intros ->. reflexivity. Qed.

Lemma notifications_app t1 t2 :
  notifications (t1 ++ t2) = notifications t1 ++ notifications t2.
Proof. apply List.filter_app. Qed.

(** ** Writes on a locked root *)

Section Locked.

Variable call : nat -> value -> value.
Variable nullishPrimitive : bool.

Lemma setKey_locked node k v lvl s :
  locked s = true ->
  setKey call nullishPrimitive node k v lvl s = (Throw LockedError, s).
Proof. intros H. unfold setKey, bind, get_state. rewrite H. reflexivity. Qed.

Lemma primitive_set_locked node v s :
  locked s = true ->
  exists s',
    ObservablePrimitiveClass.set call node v s = (Throw LockedError, s') /\
    root_value s' = root_value s /\ nodes s' = nodes s /\
    locked s' = true /\
    notifications (trace s') = notifications (trace s).
Proof.
  intros H. unfold ObservablePrimitiveClass.set.
  destruct v; cbn; unfold bind, get_state, throw; cbn; rewrite ?H;
    try (eexists; split; [reflexivity | repeat split; assumption]).
  eexists; split; [reflexivity |]. cbn.
  repeat split; try assumption.
  rewrite notifications_app. cbn. apply app_nil_r.
Qed.

(** C1: a write on a locked root throws the locked-observable error; [setKey],
    [set] and [deleteFn] leave the whole state as it was (value tree, nodes
    and trace), whatever the node, the key and however nested the value;
    [set] on a primitive wrapper throws the same error, leaves the root value
    and the nodes as they were and dispatches no notification. *)
Theorem locked_write_rejected (s : state) :
  locked s = true ->
  (forall node k v lvl,
      setKey call nullishPrimitive node k v lvl s = (Throw LockedError, s)) /\
  (forall node v, set call nullishPrimitive node v s = (Throw LockedError, s)) /\
  (forall node k, deleteFn call nullishPrimitive node k s = (Throw LockedError, s)) /\
  (forall node v, exists s',
      ObservablePrimitiveClass.set call node v s = (Throw LockedError, s') /\
      root_value s' = root_value s /\ nodes s' = nodes s /\
      notifications (trace s') = notifications (trace s)).
Proof.
  intros H. repeat split.
  - intros. by apply setKey_locked.
  - intros. unfold set, bind at 1, get_state.
    destruct (parent (get_node s node)); by apply setKey_locked.
  - intros. unfold deleteFn, bind, get_state. by rewrite setKey_locked.
  - intros. destruct (primitive_set_locked node v s H) as (s' & ? & ? & ? & ? & ?).
    eauto.
Qed.

End Locked.

(** ** The primitive wrapper *)

Section PrimitiveWrapper.

Variable call : nat -> value -> value.
Variable hook : nat -> value -> value.
Variable node : nat.

Local Abbreviation peek := (ObservablePrimitiveClass.peek hook).
Local Abbreviation get := (ObservablePrimitiveClass.get hook node).
Local Abbreviation pset := (ObservablePrimitiveClass.set call node).

Lemma peek_activated s :
  activate s = None -> peek s = (Ok (root_value s), s).
Proof.
  intros H. unfold ObservablePrimitiveClass.peek, bind, get_state. rewrite H.
  reflexivity.
Qed.

Lemma peek_activating s h :
  activate s = Some h ->
  peek s =
    (Ok (hook h (root_value s)),
     with_activate None
       (with_root_value (hook h (root_value s))
          (with_trace (trace s ++ [EvActivate h]) s))).
Proof.
  intros H. unfold ObservablePrimitiveClass.peek, bind, get_state. rewrite H.
  reflexivity.
Qed.

Lemma reads_activated l : forall s,
  activate s = None ->
  exists s' evs,
    reads hook node l s = (Ok tt, s') /\ trace s' = trace s ++ evs /\
    List.filter is_activation evs = [].
Proof.
  induction l as [|b l IH]; intros s H.
  - exists s, []. cbn. by rewrite app_nil_r.
  - cbn [reads]. destruct b.
    + unfold ObservablePrimitiveClass.get, updateTracking, emit, modify.
      unfold bind at 1. unfold bind at 1.
      set (s1 := with_trace (trace s ++ [EvUpdateTracking node false]) s).
      rewrite (peek_activated s1) by exact H.
      destruct (IH s1 H) as (s' & evs & E & Ht & Hf).
      exists s', (EvUpdateTracking node false :: evs). split; [exact E |].
      split; [| exact Hf].
      rewrite Ht. subst s1. cbn. by rewrite <- app_assoc.
    + unfold bind at 1. rewrite (peek_activated s) by exact H.
      apply IH, H.
Qed.

(** C8: [peek] runs the activation hook if there is one and clears it,
    records no tracking and returns the raw root value; over any sequence of
    reads the hook runs at most once; [get] records the tracked dependency on
    the node and then is [peek]: it returns what [peek] returns. *)
Theorem peek_get_contract (s : state) :
  (* peek: the hook runs if present and is cleared; the raw value comes back *)
  (exists v s' evs,
      peek s = (Ok v, s') /\ v = root_value s' /\ activate s' = None /\
      trace s' = trace s ++ evs /\
      evs = match activate s with Some h => [EvActivate h] | None => [] end /\
      List.filter is_tracking evs = []) /\
  (* at most once across all reads *)
  (forall l, exists s' evs,
      reads hook node l s = (Ok tt, s') /\ trace s' = trace s ++ evs /\
      length (List.filter is_activation evs) <= 1) /\
  (* get tracks, then delegates to peek *)
  get s = peek (with_trace (trace s ++ [EvUpdateTracking node false]) s) /\
  fst (get s) = fst (peek s).
Proof.
  split; [| split; [| split]].
  - destruct (activate s) as [h|] eqn:H.
    + rewrite (peek_activating s h H). do 3 eexists.
      split; [reflexivity |]. cbn. repeat split; reflexivity.
    + rewrite (peek_activated s H). exists (root_value s), s, [].
      rewrite app_nil_r. repeat split; assumption || reflexivity.
  - intros l. destruct (activate s) as [h|] eqn:H.
    + destruct l as [|b l].
      * exists s, []. cbn. rewrite app_nil_r. repeat split; lia.
      * cbn [reads]. destruct b.
        -- unfold ObservablePrimitiveClass.get, updateTracking, emit, modify.
           unfold bind at 1. unfold bind at 1.
           set (s1 := with_trace (trace s ++ [EvUpdateTracking node false]) s).
           rewrite (peek_activating s1 h) by exact H.
           match goal with |- context [reads hook node l ?s2] =>
             destruct (reads_activated l s2 eq_refl) as (s' & evs & E & Ht & Hf)
           end.
           exists s', (EvUpdateTracking node false :: EvActivate h :: evs).
           split; [exact E |]. split.
           ++ rewrite Ht. subst s1. cbn. rewrite <- !app_assoc. reflexivity.
           ++ cbn. rewrite Hf. cbn. lia.
        -- unfold bind at 1. rewrite (peek_activating s h) by exact H.
           match goal with |- context [reads hook node l ?s2] =>
             destruct (reads_activated l s2 eq_refl) as (s' & evs & E & Ht & Hf)
           end.
           exists s', (EvActivate h :: evs).
           split; [exact E |]. split.
           ++ rewrite Ht. cbn. rewrite <- !app_assoc. reflexivity.
           ++ cbn. rewrite Hf. cbn. lia.
    + destruct (reads_activated l s H) as (s' & evs & E & Ht & Hf).
      exists s', evs. rewrite Hf. repeat split; try assumption. cbn. lia.
  - reflexivity.
  - change (fst (peek (with_trace (trace s ++ [EvUpdateTracking node false]) s))
            = fst (peek s)).
    destruct (activate s) as [h|] eqn:H.
    + rewrite (peek_activating s h H).
      rewrite (peek_activating _ h) by exact H. reflexivity.
    + rewrite (peek_activated s H).
      rewrite peek_activated by exact H. reflexivity.
Qed.

(** C9: on a locked root, [set] with an updater function still calls the
    updater with the current root value, then throws the locked error; the
    root value is as it was and no notification is dispatched. *)
Theorem locked_set_still_calls_updater (s : state) (f : nat)
    (props : list (string * value)) :
  locked s = true ->
  pset (VFunction f props) s =
    (Throw LockedError, with_trace (trace s ++ [EvCall f (root_value s)]) s) /\
  root_value (snd (pset (VFunction f props) s)) = root_value s /\
  notifications (trace (snd (pset (VFunction f props) s))) = notifications (trace s).
Proof.
  intros H.
  assert (E : pset (VFunction f props) s =
    (Throw LockedError, with_trace (trace s ++ [EvCall f (root_value s)]) s)).
  { unfold ObservablePrimitiveClass.set, bind, get_state, emit, modify, ret. cbn.
    rewrite H. reflexivity. }
  rewrite E. cbn. split; [reflexivity |]. split; [reflexivity |].
  rewrite notifications_app. cbn. apply app_nil_r.
Qed.

(** C10: on a root that is not locked, [set(v)] with a literal [v] stores [v]
    and dispatches exactly one notification, [doNotify] at level 0 with the
    old root value as previous value; nothing compares [v] with the current
    value, so when they are the same the notification is still dispatched and
    its previous value equals its new value. *)
Theorem unlocked_set_always_notifies (s : state) (v : value) :
  locked s = false ->
  isFunction v = false ->
  pset v s =
    (Ok node,
     with_trace (trace s ++ [EvDoNotify node v [] v (root_value s) 0 None])
       (with_root_value v s)) /\
  root_value (snd (pset v s)) = v /\
  (exists evs, trace (snd (pset v s)) = trace s ++ evs /\
     notifications evs = [EvDoNotify node v [] v (root_value s) 0 None]) /\
  (root_value s = v ->
     exists evs, trace (snd (pset v s)) = trace s ++ evs /\
       notifications evs = [EvDoNotify node v [] v v 0 None]).
Proof.
  intros H Hf.
  assert (E : pset v s =
    (Ok node,
     with_trace (trace s ++ [EvDoNotify node v [] v (root_value s) 0 None])
       (with_root_value v s))).
  { unfold ObservablePrimitiveClass.set.
    destruct v; try discriminate Hf;
      unfold bind, get_state, ret, doNotify, emit, modify; cbn; rewrite H;
      reflexivity. }
  rewrite E. cbn. split; [reflexivity |]. split; [reflexivity |]. split.
  - eexists. split; reflexivity.
  - intros ->. eexists. split; reflexivity.
Qed.

End PrimitiveWrapper.

(** ** The proxy traps *)

Section Traps.

Variable call : nat -> value -> value.
Variable nullishPrimitive : bool.
Variable development : bool.

Local Abbreviation setKey := (Observable.setKey call nullishPrimitive).
Local Abbreviation deleteFn := (Observable.deleteFn call nullishPrimitive).
Local Abbreviation proxyHandler_set :=
  (Observable.proxyHandler_set call nullishPrimitive).
Local Abbreviation proxyHandler_deleteProperty :=
  (Observable.proxyHandler_deleteProperty call nullishPrimitive development).

Lemma getChildNode_value_trace node k s :
  exists c s',
    getChildNode node k s = (Ok c, s') /\
    root_value s' = root_value s /\ trace s' = trace s /\
    safeMode s' = safeMode s /\ locked s' = locked s /\
    inSet s' = inSet s /\ inAssign s' = inAssign s /\
    activate s' = activate s /\ isTracking s' = isTracking s /\
    nextRef s' = nextRef s.
Proof.
  unfold getChildNode.
  destruct (children (get_node s node) !! k) as [c|];
    do 2 eexists; (split; [reflexivity |]); cbn; repeat split; reflexivity.
Qed.

Lemma proxy_set_off node prop v s :
  inSet s = false ->
  inAssign s = true \/ safeMode s = Unrestricted ->
  proxyHandler_set node prop v s = (setKey node prop v None ;;; ret true) s.
Proof.
  intros Hs Hm. unfold Observable.proxyHandler_set.
  unfold bind at 1. unfold get_state at 1. rewrite Hs.
  destruct Hm as [-> | ->]; [| rewrite andb_false_r]; reflexivity.
Qed.

Lemma proxy_set_strict node prop v s :
  inSet s = false -> inAssign s = false -> safeMode s = StrictSafe ->
  proxyHandler_set node prop v s = (Ok false, s).
Proof.
  intros Hs Ha Hm. unfold Observable.proxyHandler_set.
  unfold bind at 1. unfold get_state at 1. rewrite Hs, Ha, Hm. reflexivity.
Qed.

Lemma proxy_set_default_refused node prop v s c s1 :
  inSet s = false -> inAssign s = false -> safeMode s = DefaultSafe ->
  getChildNode node prop s = (Ok c, s1) ->
  isObject (getNodeValue s1 c) || isArray (getNodeValue s1 c)
    || isObject v || isArray v = true ->
  proxyHandler_set node prop v s = (Ok false, s1).
Proof.
  intros Hs Ha Hm E Hst. unfold Observable.proxyHandler_set.
  unfold bind at 1. unfold get_state at 1. rewrite Hs, Ha, Hm.
  cbn [safeMode_number negb andb Z.eqb Pos.eqb].
  unfold bind. rewrite E. unfold get_state, ret. rewrite Hst. reflexivity.
Qed.

Lemma proxy_set_default_allowed node prop v s c s1 :
  inSet s = false -> inAssign s = false -> safeMode s = DefaultSafe ->
  getChildNode node prop s = (Ok c, s1) ->
  isObject (getNodeValue s1 c) || isArray (getNodeValue s1 c)
    || isObject v || isArray v = false ->
  proxyHandler_set node prop v s = (setKey node prop v None ;;; ret true) s1.
Proof.
  intros Hs Ha Hm E Hst. unfold Observable.proxyHandler_set.
  unfold bind at 1. unfold get_state at 1. rewrite Hs, Ha, Hm.
  cbn [safeMode_number negb andb Z.eqb Pos.eqb].
  unfold bind. rewrite E. unfold get_state, ret. rewrite Hst. reflexivity.
Qed.

(** C4: a direct property write through a proxy, outside [inSet] and
    [inAssign].  In strict safe mode it is refused for every value and the
    state is untouched; in default safe mode it is refused exactly when the
    existing value at the key or the new value is an object or an array, the
    value tree and the trace being untouched; a refusal is the trap result
    [false], no exception; in every other case the write is [setKey] and the
    trap returns [true]. *)
Theorem proxy_set_safe_mode (node : nat) (prop : pkey) (v : value) (s : state) :
  inSet s = false ->
  inAssign s = false ->
  match safeMode s with
  | StrictSafe => proxyHandler_set node prop v s = (Ok false, s)
  | DefaultSafe =>
      exists c s1,
        getChildNode node prop s = (Ok c, s1) /\
        root_value s1 = root_value s /\ trace s1 = trace s /\
        let existing := getNodeValue s1 c in
        if isObject existing || isArray existing || isObject v || isArray v
        then proxyHandler_set node prop v s = (Ok false, s1)
        else proxyHandler_set node prop v s =
               (setKey node prop v None ;;; ret true) s1
  | Unrestricted =>
      proxyHandler_set node prop v s = (setKey node prop v None ;;; ret true) s
  end.
Proof.
  intros Hs Ha. destruct (safeMode s) eqn:Hm.
  - apply proxy_set_off; assumption || (right; assumption).
  - destruct (getChildNode_value_trace node prop s)
      as (c & s1 & E & Hr & Ht & _).
    exists c, s1. split; [exact E |]. split; [exact Hr |]. split; [exact Ht |].
    cbn zeta.
    destruct (isObject (getNodeValue s1 c) || isArray (getNodeValue s1 c)
              || isObject v || isArray v) eqn:Hst.
    + apply (proxy_set_default_refused _ _ _ _ c s1); assumption.
    + apply (proxy_set_default_allowed _ _ _ _ c s1); assumption.
  - apply proxy_set_strict; assumption.
Qed.

(** C5, as the code has it: the delete trap, outside [inSet], is refused
    (trap result [false], state untouched) in default and in strict safe
    mode alike; only with safe mode off does it go to [deleteFn], after the
    development warning when a tracked evaluation is in progress, and return
    [true]. *)
Theorem proxy_delete_safe_mode (target : nat) (prop : pkey) (s : state) :
  inSet s = false ->
  match safeMode s with
  | Unrestricted =>
      proxyHandler_deleteProperty target prop s =
        (when (development && isTracking s) (emit EvConsoleError) ;;;
         deleteFn target prop ;;; ret true) s
  | DefaultSafe | StrictSafe =>
      proxyHandler_deleteProperty target prop s = (Ok false, s)
  end.
Proof.
  intros Hs.
  destruct (safeMode s) eqn:Hm; unfold Observable.proxyHandler_deleteProperty;
    unfold bind at 1; unfold get_state at 1; rewrite Hs, Hm; reflexivity.
Qed.

End Traps.

(** ** Values: weights and property reads *)

Section Values.

Local Arguments list_sum : simpl never.

Lemma list_sum_cons (x : nat) (l : list nat) : list_sum (x :: l) = x + list_sum l.
Proof. reflexivity. Qed.

Lemma assoc_get_vsize name ps v :
  assoc_get name ps = Some v ->
  vsize v <= list_sum (map (fun p => vsize (snd p)) ps).
Proof.
  induction ps as [|[n x] ps IH]; cbn [assoc_get map]; [discriminate |].
  rewrite list_sum_cons. cbn [snd].
  destruct (String.eqb n name).
  - intros [= ->]. lia.
  - intros H. specialize (IH H). lia.
Qed.

Lemma elem_at_vsize es i :
  vsize (elem_at es i)
  <= list_sum (map (fun e => match e with Some x => vsize x | None => 0 end) es).
Proof.
  unfold elem_at. revert i.
  induction es as [|e es IH]; intros [|i]; cbn [lookup list_lookup map];
    rewrite ?list_sum_cons; cbn [vsize]; try lia.
  - destruct e; cbn [vsize]; lia.
  - eapply Nat.le_trans; [apply (IH i) | lia].
Qed.

Lemma char_at_not_reference s i : is_reference (char_at s i) = false.
Proof. unfold char_at. destruct (String.get i s); reflexivity. Qed.

Lemma char_at_vsize s i : vsize (char_at s i) <= 1.
Proof. unfold char_at. destruct (String.get i s); cbn; lia. Qed.

Lemma get_named_vsize v name : vsize (get_named v name) <= vsize v.
Proof.
  destruct v; cbn -[elem_index index_of_name]; try lia.
  - destruct (String.eqb name "length"); [cbn; lia |].
    destruct (index_of_name name); [apply char_at_vsize | cbn; lia].
  - destruct (assoc_get name props) eqn:E; cbn; [| lia].
    apply assoc_get_vsize in E. lia.
  - destruct (assoc_get name props) eqn:E; cbn; [| lia].
    apply assoc_get_vsize in E. lia.
  - destruct (String.eqb name "length"); [cbn; lia |].
    destruct (elem_index elems name) as [n|].
    + pose proof (elem_at_vsize elems n). lia.
    + destruct (assoc_get name props) eqn:E; cbn; [| lia].
      apply assoc_get_vsize in E. lia.
Qed.

Lemma get_named_reference_vsize v name :
  is_reference (get_named v name) = true -> vsize (get_named v name) < vsize v.
Proof.
  destruct v; cbn -[elem_index index_of_name]; try discriminate.
  - destruct (String.eqb name "length"); [discriminate |].
    destruct (index_of_name name); [| discriminate].
    by rewrite char_at_not_reference.
  - destruct (assoc_get name props) eqn:E; cbn; [| discriminate].
    apply assoc_get_vsize in E. lia.
  - destruct (assoc_get name props) eqn:E; cbn; [| discriminate].
    apply assoc_get_vsize in E. lia.
  - destruct (String.eqb name "length"); [discriminate |].
    destruct (elem_index elems name) as [n|].
    + pose proof (elem_at_vsize elems n). lia.
    + destruct (assoc_get name props) eqn:E; cbn; [| discriminate].
      apply assoc_get_vsize in E. lia.
Qed.

Lemma get_prop_vsize v k : vsize (get_prop v k) <= vsize v.
Proof.
  destruct k as [name|i| |]; cbn [get_prop prop_name];
    try apply get_named_vsize; [| cbn; lia].
  destruct v; try apply get_named_vsize.
  apply char_at_vsize.
Qed.

Lemma get_prop_reference_vsize v k :
  is_reference (get_prop v k) = true -> vsize (get_prop v k) < vsize v.
Proof.
  destruct k as [name|i| |]; cbn [get_prop prop_name];
    try apply get_named_reference_vsize; [| discriminate].
  destruct v; try apply get_named_reference_vsize.
  by rewrite char_at_not_reference.
Qed.

Lemma truthy_vsize v : truthy v = true -> 1 <= vsize v.
Proof. destruct v; cbn; try discriminate; lia. Qed.

End Values.

(** ** Values: writes, deletes and paths *)

Section Paths.

Lemma decimal_name_string_of_N m : decimal_name (string_of_N m) = Some m.
Proof.
  unfold decimal_name, string_of_N. rewrite NilEmpty.usu.
  rewrite DecimalN.Unsigned.of_to. by rewrite String.eqb_refl.
Qed.

Lemma decimal_name_Some name m : decimal_name name = Some m -> name = string_of_N m.
Proof.
  unfold decimal_name.
  destruct (NilEmpty.uint_of_string name) as [d|]; [| discriminate].
  cbn zeta. destruct (String.eqb (string_of_N (N.of_uint d)) name) eqn:E; [| discriminate].
  apply String.eqb_eq in E. by intros [= <-].
Qed.

Lemma index_of_name_string_of_nat i : index_of_name (string_of_nat i) = Some i.
Proof.
  unfold index_of_name, string_of_nat. rewrite decimal_name_string_of_N.
  by rewrite Nat2N.id.
Qed.

Lemma index_of_name_Some name i : index_of_name name = Some i -> name = string_of_nat i.
Proof.
  unfold index_of_name. destruct (decimal_name name) as [m|] eqn:E; [| discriminate].
  intros [= <-]. unfold string_of_nat. rewrite N2Nat.id. by apply decimal_name_Some.
Qed.

Lemma elem_index_Some es name i : elem_index es name = Some i -> name = string_of_nat i.
Proof.
  unfold elem_index. destruct (decimal_name name) as [m|] eqn:E; [| discriminate].
  destruct ((m <? max_length)%N || (m <? N.of_nat (length es))%N); [| discriminate].
  intros [= <-]. unfold string_of_nat. rewrite N2Nat.id. by apply decimal_name_Some.
Qed.

(** A position of the element list is an element, whatever the length. *)
Lemma elem_index_within es i :
  i < length es -> elem_index es (string_of_nat i) = Some i.
Proof.
  intros H. unfold elem_index, string_of_nat. rewrite decimal_name_string_of_N.
  replace (N.of_nat i <? N.of_nat (length es))%N with true.
  - by rewrite orb_true_r, Nat2N.id.
  - symmetry. apply N.ltb_lt. lia.
Qed.

Lemma elem_index_string_of_nat es i :
  elem_index es (string_of_nat i) =
    if (N.of_nat i <? max_length)%N || (N.of_nat i <? N.of_nat (length es))%N
    then Some i else None.
Proof.
  unfold elem_index, string_of_nat. rewrite decimal_name_string_of_N.
  by rewrite Nat2N.id.
Qed.

(** An element stays one when the array grows. *)
Lemma elem_index_mono es es' name i :
  elem_index es name = Some i -> length es <= length es' ->
  elem_index es' name = Some i.
Proof.
  unfold elem_index. destruct (decimal_name name) as [m|]; [| discriminate].
  destruct ((m <? max_length)%N || (m <? N.of_nat (length es))%N) eqn:E; [| discriminate].
  intros [= <-] Hl.
  replace ((m <? max_length)%N || (m <? N.of_nat (length es'))%N) with true; [done |].
  symmetry. apply orb_true_iff in E as [E|E]; apply orb_true_iff; [by left | right].
  apply N.ltb_lt in E. apply N.ltb_lt. lia.
Qed.

Lemma array_index_elem_index es name m :
  array_index name = Some m -> elem_index es name = Some (N.to_nat m).
Proof.
  unfold array_index, elem_index. destruct (decimal_name name) as [m'|]; [| discriminate].
  destruct (m' <? max_length)%N; [| discriminate]. by intros [= <-].
Qed.

Lemma string_of_nat_not_length i : String.eqb (string_of_nat i) "length" = false.
Proof.
  apply String.eqb_neq. intros H.
  pose proof (index_of_name_string_of_nat i) as Hi. rewrite H in Hi.
  discriminate Hi.
Qed.

Lemma assoc_get_set name x ps : assoc_get name (assoc_set name x ps) = Some x.
Proof.
  induction ps as [|[n v] ps IH]; cbn.
  - by rewrite String.eqb_refl.
  - destruct (String.eqb n name) eqn:E; cbn; rewrite E; [reflexivity | exact IH].
Qed.

Lemma assoc_remove_not_in name ps : name ∉ map fst (assoc_remove name ps).
Proof.
  induction ps as [|[n v] ps IH]; cbn.
  - apply not_elem_of_nil.
  - destruct (String.eqb n name) eqn:E; [exact IH |].
    cbn. apply not_elem_of_cons. split; [| exact IH].
    apply String.eqb_neq in E. congruence.
Qed.

Lemma length_resize es n : length (resize es n) = n.
Proof.
  unfold resize. rewrite length_app, length_take, length_replicate. lia.
Qed.

Lemma elem_at_insert es i x :
  (i < length es)%nat -> elem_at (<[i := Some x]> es) i = x.
Proof. intros H. unfold elem_at. by rewrite list_lookup_insert_eq. Qed.

Lemma assoc_get_set_ne n name x ps :
  n <> name -> assoc_get n (assoc_set name x ps) = assoc_get n ps.
Proof.
  intros Hne. assert (Hf : String.eqb name n = false) by by apply String.eqb_neq.
  induction ps as [|[n' v] ps IH]; cbn.
  - by rewrite Hf.
  - destruct (String.eqb n' name) eqn:E; cbn.
    + apply String.eqb_eq in E as ->. by rewrite Hf.
    + by rewrite IH.
Qed.

Lemma assoc_get_insert_index m name x ps :
  array_index name = Some m -> assoc_get name (insert_index m name x ps) = Some x.
Proof.
  intros Hm. induction ps as [|[n v] ps IH]; cbn.
  - by rewrite String.eqb_refl.
  - destruct (array_index n) as [j|] eqn:Ej; cbn; [| by rewrite String.eqb_refl].
    destruct (j <? m)%N eqn:Hj; cbn; [| by rewrite String.eqb_refl].
    destruct (String.eqb n name) eqn:E; [| exact IH].
    apply String.eqb_eq in E as ->. rewrite Hm in Ej. injection Ej as <-.
    apply N.ltb_lt in Hj. lia.
Qed.

Lemma assoc_get_insert_index_ne m n name x ps :
  n <> name -> assoc_get n (insert_index m name x ps) = assoc_get n ps.
Proof.
  intros Hne. assert (Hf : String.eqb name n = false) by by apply String.eqb_neq.
  induction ps as [|[n' v] ps IH]; cbn.
  - by rewrite Hf.
  - destruct (array_index n') as [j|]; cbn.
    + destruct (j <? m)%N; cbn.
      * by rewrite IH.
      * by rewrite Hf.
    + by rewrite Hf.
Qed.

(** What was written is what is read, but for a ["__proto__"] that is no
    own property. *)
Lemma assoc_get_put_own name x ps :
  String.eqb name "__proto__" = false \/ is_Some (assoc_get name ps) ->
  assoc_get name (put_own name x ps) = Some x.
Proof.
  intros H. unfold put_own. destruct (assoc_get name ps) as [y|] eqn:E.
  - apply assoc_get_set.
  - destruct H as [-> | [y Hy]]; [| discriminate].
    destruct (array_index name) as [m|] eqn:Em.
    + by apply assoc_get_insert_index.
    + apply assoc_get_set.
Qed.

Lemma assoc_get_put_own_ne n name x ps :
  n <> name -> assoc_get n (put_own name x ps) = assoc_get n ps.
Proof.
  intros Hne. unfold put_own. destruct (assoc_get name ps).
  - by apply assoc_get_set_ne.
  - destruct (String.eqb name "__proto__"); [reflexivity |].
    destruct (array_index name).
    + by apply assoc_get_insert_index_ne.
    + by apply assoc_get_set_ne.
Qed.

(** The setter of ["__proto__"] leaves the own properties as they are. *)
Lemma put_own_proto x ps :
  assoc_get "__proto__" ps = None -> put_own "__proto__" x ps = ps.
Proof. intros H. unfold put_own. by rewrite H. Qed.

Lemma get_named_set_named v name x v' :
  set_named v name x = inl v' -> stores v name = true -> get_named v' name = x.
Proof.
  assert (P : forall ps,
    negb (String.eqb name "__proto__") || bool_decide (is_Some (assoc_get name ps)) = true ->
    assoc_get name (put_own name x ps) = Some x).
  { intros ps H. apply assoc_get_put_own. apply orb_true_iff in H as [H|H].
    - left. by apply negb_true_iff.
    - right. by apply bool_decide_eq_true in H. }
  destruct v; cbn -[elem_index put_own max_length]; try discriminate.
  - intros [= <-] H. cbn. by rewrite P.
  - intros [= <-] H. cbn. by rewrite P.
  - destruct (String.eqb name "length") eqn:El.
    + destruct x; try discriminate.
      destruct ((0 <=? z)%Z && (z <=? Z.of_N max_length)%Z) eqn:Ez; [| discriminate].
      intros [= <-] _. cbn -[elem_index]. rewrite El, length_resize.
      apply andb_true_iff in Ez as [Ez _]. apply Z.leb_le in Ez. by rewrite Z2Nat.id.
    + destruct (elem_index elems name) as [i|] eqn:Ei.
      * intros [= <-] _. cbn -[elem_index]. rewrite El.
        rewrite (elem_index_mono elems _ name i Ei)
          by (rewrite length_insert, length_resize; lia).
        apply elem_at_insert. rewrite length_resize. lia.
      * intros [= <-] H. cbn -[elem_index]. rewrite El, Ei. by rewrite P.
Qed.

Lemma get_prop_named v k name :
  prop_name k = Some name -> get_prop v k = get_named v name.
Proof.
  destruct k as [s|i| |]; cbn -[get_named]; try discriminate; intros [= <-];
    try reflexivity.
  destruct v; try reflexivity. cbn.
  by rewrite string_of_nat_not_length, index_of_name_string_of_nat.
Qed.

(** An element of an array, read by its number. *)
Lemma get_prop_elem r es ps i :
  i < length es -> get_prop (VArray r es ps) (KNum i) = elem_at es i.
Proof.
  intros H. cbn -[elem_index]. by rewrite string_of_nat_not_length, elem_index_within.
Qed.

Lemma get_prop_set_prop v k x v' :
  set_prop v k x = inl v' -> stores_prop v k = true -> get_prop v' k = x.
Proof.
  unfold set_prop, stores_prop. destruct (prop_name k) as [name|] eqn:E; [| discriminate].
  intros H Hs. rewrite (get_prop_named v' k name E).
  eapply get_named_set_named; eassumption.
Qed.

(** A property that holds a value is an own property: its assignment
    stores. *)
Lemma stores_defined v name :
  is_undefined (get_named v name) = false -> is_reference v = true ->
  stores v name = true.
Proof.
  unfold stores. destruct (String.eqb name "__proto__") eqn:E; [| reflexivity].
  apply String.eqb_eq in E as ->. cbn [negb orb].
  destruct v; try discriminate; cbn; intros H _; apply bool_decide_eq_true.
  - by destruct (assoc_get "__proto__" props).
  - by destruct (assoc_get "__proto__" props).
  - by destruct (assoc_get "__proto__" props).
Qed.

Lemma stores_prop_defined v k :
  is_undefined (get_prop v k) = false -> is_reference v = true ->
  stores_prop v k = true.
Proof.
  unfold stores_prop. destruct (prop_name k) as [name|] eqn:E.
  - rewrite (get_prop_named v k name E). apply stores_defined.
  - reflexivity.
Qed.

(** An assignment that reaches the setter of ["__proto__"] leaves the own
    properties, the elements and the identity as they are. *)
Lemma set_prop_not_stored v k x v' :
  set_prop v k x = inl v' -> stores_prop v k = false -> v' = v.
Proof.
  unfold set_prop, stores_prop, stores.
  destruct (prop_name k) as [name|]; [| discriminate].
  destruct (String.eqb name "__proto__") eqn:E; [| discriminate].
  apply String.eqb_eq in E as ->. cbn [negb orb].
  destruct v; try discriminate; cbn -[put_own]; intros H Hs;
    apply bool_decide_eq_false in Hs;
    assert (Hn : assoc_get "__proto__" props = None)
      by (destruct (assoc_get "__proto__" props); [by destruct Hs | reflexivity]);
    rewrite put_own_proto in H by exact Hn; by injection H as <-.
Qed.

Lemma stores_prop_other v k : prop_name k <> Some "__proto__" -> stores_prop v k = true.
Proof.
  unfold stores_prop, stores. destruct (prop_name k) as [name|]; [| reflexivity].
  intros H. destruct (String.eqb name "__proto__") eqn:E; [| reflexivity].
  apply String.eqb_eq in E. congruence.
Qed.

Lemma get_named_not_reference v name :
  is_reference v = false -> is_reference (get_named v name) = false.
Proof.
  destruct v; try discriminate; intros _; cbn; try reflexivity.
  destruct (String.eqb name "length"); [reflexivity |].
  destruct (index_of_name name); [apply char_at_not_reference | reflexivity].
Qed.

Lemma get_prop_not_reference v k :
  is_reference v = false -> is_reference (get_prop v k) = false.
Proof.
  intros H. destruct (prop_name k) as [name|] eqn:E.
  - rewrite (get_prop_named v k name E). by apply get_named_not_reference.
  - destruct k; try discriminate. reflexivity.
Qed.

Lemma set_prop_reference v k x v' : set_prop v k x = inl v' -> is_reference v = true.
Proof.
  unfold set_prop. destruct (prop_name k); [| discriminate].
  destruct v; cbn; try discriminate; reflexivity.
Qed.

(** A member that holds a reference takes what is assigned to it. *)
Lemma get_prop_set_member v k x v' :
  set_prop v k x = inl v' -> is_reference (get_prop v k) = true -> get_prop v' k = x.
Proof.
  intros H Hr. apply (get_prop_set_prop v k x v' H).
  apply stores_prop_defined; [by destruct (get_prop v k) |].
  by apply set_prop_reference in H.
Qed.

Lemma delete_prop_not_reference v k v' :
  delete_prop v k = inl v' -> is_reference v = false -> v' = v.
Proof.
  unfold delete_prop. destruct (prop_name k) as [name|]; [| by intros [= <-]].
  destruct v; cbn -[Nat.ltb]; intros H Hr; try discriminate; try by injection H as <-.
  revert H. destruct (String.eqb name "length"); [discriminate |].
  destruct (index_of_name name) as [i|]; [| by intros [= <-]].
  destruct (i <? String.length s)%nat; [discriminate | by intros [= <-]].
Qed.

Section UpdatePath.

Variable f : value -> value + error.
Hypothesis f_keeps : forall x y, f x = inl y -> is_reference x = false -> y = x.

Lemma update_path_not_reference path : forall v c,
  is_reference v = false -> update_path v path f = inl c -> c = v.
Proof.
  induction path as [|k path IH]; intros v c Hv; cbn [update_path].
  - intros H. by apply f_keeps.
  - destruct (update_path (get_prop v k) path f); [| discriminate].
    rewrite (get_prop_not_reference v k Hv). by intros [= <-].
Qed.

(** The update of the container at a path is seen at that path. *)
Lemma get_path_update_path path : forall v v',
  update_path v path f = inl v' -> f (get_path v path) = inl (get_path v' path).
Proof.
  induction path as [|k path IH]; intros v v'; cbn [update_path get_path fold_left].
  - intros ->. reflexivity.
  - destruct (update_path (get_prop v k) path f) as [c|] eqn:E; [| discriminate].
    specialize (IH _ _ E). fold (get_path (get_prop v k) path) in *.
    fold (get_path c path) in IH. fold (get_path (get_prop v' k) path).
    destruct (is_reference (get_prop v k)) eqn:Hr.
    + intros H. rewrite (get_prop_set_prop v k c v' H); [exact IH |].
      apply stores_prop_defined; [by destruct (get_prop v k) |].
      by apply set_prop_reference in H.
    + intros [= <-].
      rewrite (update_path_not_reference path _ c Hr E) in IH. exact IH.
Qed.

End UpdatePath.

Lemma indexed_from_names b es name :
  name ∈ map fst (indexed_from b es) ->
  exists j, name = string_of_nat (b + j) /\ exists x, es !! j = Some (Some x).
Proof.
  revert b. induction es as [|[x|] es IH]; intros b; cbn.
  - intros H. by apply elem_of_nil in H.
  - intros H. apply elem_of_cons in H as [-> | H].
    + exists 0. rewrite Nat.add_0_r. split; [reflexivity | by exists x].
    + destruct (IH _ H) as (j & -> & y & Hy). exists (S j).
      split; [f_equal; lia | by exists y].
  - intros H. destruct (IH _ H) as (j & -> & y & Hy). exists (S j).
    split; [f_equal; lia | by exists y].
Qed.

Lemma chars_from_names b s name :
  name ∈ map fst (chars_from b s) ->
  exists j, name = string_of_nat (b + j) /\ (j < String.length s)%nat.
Proof.
  revert b. induction s as [|c s IH]; intros b; cbn.
  - intros H. by apply elem_of_nil in H.
  - intros H. apply elem_of_cons in H as [-> | H].
    + exists 0. rewrite Nat.add_0_r. split; [reflexivity | lia].
    + destruct (IH _ H) as (j & -> & Hj). exists (S j).
      split; [f_equal; lia | lia].
Qed.

Lemma string_of_nat_inj i j : string_of_nat i = string_of_nat j -> i = j.
Proof.
  intros H. pose proof (index_of_name_string_of_nat i) as Hi.
  rewrite H, index_of_name_string_of_nat in Hi. by injection Hi.
Qed.

(** A deleted key is no more an own key. *)
Lemma has_own_delete_prop v k v' : delete_prop v k = inl v' -> has_own v' k = false.
Proof.
  unfold delete_prop, has_own. destruct (prop_name k) as [name|]; [| reflexivity].
  intros H. apply bool_decide_eq_false. unfold Object_keys.
  destruct v as [| |b|z|str| |fn fps|r ops|r elems aps];
    cbn -[Nat.ltb elem_index index_of_name] in H;
    try (injection H as <-; cbn; apply not_elem_of_nil); try discriminate H.
  - (* string *)
    destruct (String.eqb name "length") eqn:El; [discriminate |].
    destruct (index_of_name name) as [i|] eqn:Ei.
    + destruct (i <? String.length str)%nat eqn:Hi; [discriminate |].
      injection H as <-. cbn. intros Hin.
      apply chars_from_names in Hin as (j & -> & Hj).
      rewrite index_of_name_string_of_nat in Ei. injection Ei as <-.
      apply Nat.ltb_ge in Hi. lia.
    + injection H as <-. cbn. intros Hin.
      apply chars_from_names in Hin as (j & -> & Hj).
      rewrite index_of_name_string_of_nat in Ei. discriminate.
  - injection H as <-. cbn. apply assoc_remove_not_in.
  - injection H as <-. cbn. apply assoc_remove_not_in.
  - destruct (String.eqb name "length") eqn:El; [discriminate |].
    destruct (elem_index elems name) as [i|] eqn:Ei.
    + injection H as <-. cbn. rewrite map_app. intros Hin.
      apply elem_of_app in Hin as [Hin | Hin].
      * apply indexed_from_names in Hin as (j & -> & x & Hx).
        apply elem_index_Some, string_of_nat_inj in Ei. subst i.
        cbn [Nat.add] in *.
        destruct (decide (j < length elems)%nat) as [Hlt | Hge].
        -- rewrite list_lookup_insert_eq in Hx by exact Hlt. discriminate.
        -- rewrite list_insert_ge in Hx by lia.
           apply lookup_lt_Some in Hx. lia.
      * by apply assoc_remove_not_in in Hin.
    + injection H as <-. cbn. rewrite map_app. intros Hin.
      apply elem_of_app in Hin as [Hin | Hin].
      * apply indexed_from_names in Hin as (j & -> & x & Hx).
        apply lookup_lt_Some in Hx.
        rewrite elem_index_within in Ei by exact Hx. discriminate.
      * by apply assoc_remove_not_in in Hin.
Qed.

End Paths.

(** ** The arena under [getChildNode] and the frames of [updateNodes] *)

Section Arena.

Lemma same_root_refl s : same_root s s.
Proof. reflexivity. Qed.

Lemma same_root_trans s1 s2 s3 :
  same_root s1 s2 -> same_root s2 s3 -> same_root s1 s3.
Proof. unfold same_root. congruence. Qed.

Lemma only_doNotify_refl s : only_doNotify s s.
Proof. exists []. by rewrite app_nil_r. Qed.

Lemma only_doNotify_trans s1 s2 s3 :
  only_doNotify s1 s2 -> only_doNotify s2 s3 -> only_doNotify s1 s3.
Proof.
  intros (e1 & H1 & F1) (e2 & H2 & F2). exists (e1 ++ e2). split.
  - rewrite H2, H1. by rewrite <- app_assoc.
  - rewrite forallb_app, F1, F2. reflexivity.
Qed.

Lemma diff_post_refl c s : arena_ok s -> diff_post c s s.
Proof.
  intros H. split; [reflexivity |]. split; [apply only_doNotify_refl |].
  split; [exact H |]. split; [lia |]. by intros n Hn.
Qed.

Lemma diff_post_trans c s1 s2 s3 :
  diff_post c s1 s2 -> diff_post c s2 s3 -> diff_post c s1 s3.
Proof.
  intros (R1 & T1 & _ & N1 & B1) (R2 & T2 & A2 & N2 & B2).
  split; [eapply same_root_trans; eassumption |].
  split; [eapply only_doNotify_trans; eassumption |].
  split; [exact A2 |]. split; [lia |].
  intros m Hm. rewrite B2, B1 by exact Hm. reflexivity.
Qed.

Lemma diff_post_mono c c' s s' : c <= c' -> diff_post c' s s' -> diff_post c s s'.
Proof.
  intros Hc (R & T & A & N & B).
  split; [exact R |]. split; [exact T |]. split; [exact A |]. split; [exact N |].
  intros m Hm. apply B. lia.
Qed.

Lemma loop_post_refl p s : arena_ok s -> loop_post p s s.
Proof. intros H. split; [by apply diff_post_refl | by intros k c]. Qed.

Lemma loop_post_trans p s1 s2 s3 :
  loop_post p s1 s2 -> loop_post p s2 s3 -> loop_post p s1 s3.
Proof.
  intros (D1 & G1) (D2 & G2). split; [eapply diff_post_trans; eassumption |].
  intros k c H. apply G2, G1, H.
Qed.

Lemma get_node_unchanged s s' n :
  nodes s' !! n = nodes s !! n -> get_node s' n = get_node s n.
Proof. unfold get_node. intros ->. reflexivity. Qed.

(** A run of the diff on a child leaves the parent as it was. *)
Lemma diff_post_child p c s s' :
  p < c -> diff_post c s s' -> loop_post p s s'.
Proof.
  intros Hc D. split; [eapply diff_post_mono; [| exact D]; lia |].
  destruct D as (_ & _ & _ & _ & B).
  intros k c0 H. rewrite (get_node_unchanged s s' p); [exact H |].
  apply B, Hc.
Qed.

Lemma moved_ok_mono p mv s s' :
  nextNodeID s <= nextNodeID s' -> moved_ok p mv s -> moved_ok p mv s'.
Proof.
  intros Hn H. unfold moved_ok in *. eapply Forall_impl; [exact H |].
  intros e [? ?]. split; lia.
Qed.

Lemma get_node_children_ok s p k c :
  arena_ok s -> p < nextNodeID s ->
  children (get_node s p) !! k = Some c -> p < c /\ c < nextNodeID s.
Proof.
  intros (A1 & A2 & A3) Hp. unfold get_node.
  destruct (nodes s !! p) as [nd|] eqn:E; cbn.
  - apply (A2 p nd k c E).
  - rewrite lookup_empty. discriminate.
Qed.

Lemma get_node_parent_ok s n p :
  arena_ok s -> parent (get_node s n) = Some p -> p < n.
Proof.
  intros (A1 & A2 & A3). unfold get_node.
  destruct (nodes s !! n) as [nd|] eqn:E; cbn.
  - apply (A3 n nd p E).
  - discriminate.
Qed.

Lemma getChildNode_spec p k s :
  arena_ok s -> p < nextNodeID s ->
  exists c s',
    getChildNode p k s = (Ok c, s') /\ loop_post p s s' /\
    trace s' = trace s /\
    children (get_node s' p) !! k = Some c /\
    p < c /\ c < nextNodeID s' /\
    (forall c0, children (get_node s p) !! k = Some c0 -> c0 = c /\ s' = s).
Proof.
  intros A Hp. unfold getChildNode.
  destruct (children (get_node s p) !! k) as [c|] eqn:E.
  - exists c, s. split; [reflexivity |].
    destruct (get_node_children_ok s p k c A Hp E).
    split; [by apply loop_post_refl |].
    split; [reflexivity |]. split; [exact E |]. split; [assumption |].
    split; [assumption |]. intros c0 [= <-]. done.
  - set (c := nextNodeID s).
    eexists c, _. split; [reflexivity |].
    assert (Hget : forall s0 nd (m : gmap nat NodeValue),
               get_node (with_nextNodeID (S c) (with_nodes (<[p := nd]> m) s0)) p = nd).
    { intros. unfold get_node. cbn. by rewrite lookup_insert_eq. }
    split; [| split; [reflexivity | split; [| split; [exact Hp | split; [cbn; lia |]]]]].
    + split; [split; [reflexivity | split; [exists []; cbn; by rewrite app_nil_r | split; [| split]]] |].
      * (* arena_ok *)
        pose proof A as (A1 & A2 & A3). split; [| split].
        -- intros n nd. cbn.
           destruct (decide (n = p)) as [->|Hnp]; [intros _; lia |].
           rewrite lookup_insert_ne by done.
           destruct (decide (n = c)) as [->|Hnc]; [intros _; lia |].
           rewrite lookup_insert_ne by done. intros H. apply A1 in H. lia.
        -- intros n nd k' c'. cbn.
           destruct (decide (n = p)) as [->|Hnp].
           ++ rewrite lookup_insert_eq. intros [= <-]. cbn.
              destruct (decide (k' = k)) as [->|Hk].
              ** rewrite lookup_insert_eq. intros [= <-]. fold c. lia.
              ** rewrite lookup_insert_ne by done. intros H.
                 destruct (get_node_children_ok s p k' c' A Hp H).
                 lia.
           ++ rewrite lookup_insert_ne by done.
              destruct (decide (n = c)) as [->|Hnc].
              ** rewrite lookup_insert_eq. intros [= <-]. cbn.
                 rewrite lookup_empty. discriminate.
              ** rewrite lookup_insert_ne by done. intros H1 H2.
                 destruct (A2 n nd k' c' H1 H2). lia.
        -- intros n nd q. cbn.
           destruct (decide (n = p)) as [->|Hnp].
           ++ rewrite lookup_insert_eq. intros [= <-]. cbn.
              apply get_node_parent_ok, A.
           ++ rewrite lookup_insert_ne by done.
              destruct (decide (n = c)) as [->|Hnc].
              ** rewrite lookup_insert_eq. intros [= <-]. cbn. intros [= <-].
                 exact Hp.
              ** rewrite lookup_insert_ne by done. apply A3.
      * cbn. lia.
      * intros n Hn. cbn. fold c.
        rewrite !lookup_insert_ne by lia. reflexivity.
      * intros k' c' H. unfold put_node. rewrite Hget. cbn.
        rewrite lookup_insert_ne; [exact H | congruence].
    + unfold put_node. rewrite Hget. cbn. by rewrite lookup_insert_eq.
    + intros c0 H. discriminate H.
Qed.

End Arena.

(** ** The steps of [updateNodes] *)

Section Diff.

Variable nullishPrimitive : bool.

Local Abbreviation isPrimitive := (Observable.isPrimitive nullishPrimitive).

Lemma only_doNotify_same_trace s s' : trace s' = trace s -> only_doNotify s s'.
Proof. intros H. exists []. by rewrite app_nil_r. Qed.

Lemma nonprimitive_cases v :
  isPrimitive v = false -> is_reference v = true \/ vsize v = 0.
Proof. destruct v; cbn; intros H; try discriminate; auto. Qed.

Lemma child_weight obj prev k :
  isPrimitive (get_prop obj k) = false -> truthy obj = true ->
  vsize (get_prop obj k) + vsize (get_prop prev k) < vsize obj + vsize prev.
Proof.
  intros Hp Ht. pose proof (get_prop_vsize prev k).
  destruct (nonprimitive_cases _ Hp) as [Hr | Hz].
  - pose proof (get_prop_reference_vsize obj k Hr). lia.
  - pose proof (truthy_vsize obj Ht). lia.
Qed.

Lemma removed_weight obj prev k :
  isPrimitive (get_prop prev k) = false -> truthy prev = true ->
  vsize VUndefined + vsize (get_prop prev k) < vsize obj + vsize prev.
Proof.
  intros Hp Ht. cbn [vsize].
  destruct (nonprimitive_cases _ Hp) as [Hr | Hz].
  - pose proof (get_prop_reference_vsize prev k Hr). lia.
  - pose proof (truthy_vsize prev Ht). lia.
Qed.

Lemma emit_doNotify_post p e s :
  arena_ok s -> is_doNotify e = true ->
  loop_post p s (with_trace (trace s ++ [e]) s).
Proof.
  intros A He. split; [split; [reflexivity | split; [| split; [| split]]] |].
  - exists [e]. cbn. by rewrite He.
  - exact A.
  - cbn. lia.
  - by intros n Hn.
  - by intros k c.
Qed.

Lemma when_doNotify_spec p b c v path va pv l o s :
  arena_ok s ->
  returns (when b (doNotify c v path va pv l o) s)
    (fun _ s' => loop_post p s s' /\ nodes s' = nodes s).
Proof.
  intros A. destruct b; cbn.
  - eexists tt, _. split; [reflexivity |].
    split; [by apply emit_doNotify_post | reflexivity].
  - exists tt, s. split; [reflexivity |]. split; [by apply loop_post_refl | reflexivity].
Qed.

Lemma set_key_post p c k s :
  arena_ok s -> p < c -> c < nextNodeID s ->
  loop_post p s (put_node c (node_with_key k (get_node s c)) s).
Proof.
  intros A Hpc Hc.
  split; [split; [reflexivity | split; [by apply only_doNotify_same_trace | split; [| split]]] |].
  - pose proof A as (A1 & A2 & A3). split; [| split].
    + intros n nd. cbn. destruct (decide (n = c)) as [->|Hn]; [intros _; lia |].
      rewrite lookup_insert_ne by done. apply A1.
    + intros n nd k' c'. cbn. destruct (decide (n = c)) as [->|Hn].
      * rewrite lookup_insert_eq. intros [= <-]. cbn.
        apply get_node_children_ok; [exact A | exact Hc].
      * rewrite lookup_insert_ne by done. apply A2.
    + intros n nd q. cbn. destruct (decide (n = c)) as [->|Hn].
      * rewrite lookup_insert_eq. intros [= <-]. cbn.
        apply get_node_parent_ok, A.
      * rewrite lookup_insert_ne by done. apply A3.
  - cbn. lia.
  - intros n Hn. cbn. rewrite lookup_insert_ne by lia. reflexivity.
  - intros k' c' H. rewrite (get_node_unchanged s _ p); [exact H |].
    cbn. rewrite lookup_insert_ne by lia. reflexivity.
Qed.

Lemma loop_post_next p s s' : loop_post p s s' -> nextNodeID s <= nextNodeID s'.
Proof. intros [(_ & _ & _ & N & _) _]. exact N. Qed.

Lemma loop_post_arena p s s' : loop_post p s s' -> arena_ok s'.
Proof. intros [(_ & _ & A & _) _]. exact A. Qed.

Lemma detect_move_spec p prevValue isArr isArrDiff keyMap k v id child isDiff vars s :
  arena_ok s -> p < nextNodeID s -> p < child -> child < nextNodeID s ->
  moved_ok p (moved vars) s ->
  exists r s',
    detect_move p prevValue isArr isArrDiff keyMap k v id child isDiff vars s
      = (Ok r, s') /\
    loop_post p s s' /\
    p < fst (fst r) /\ fst (fst r) < nextNodeID s' /\
    moved_ok p (moved (snd r)) s' /\
    (moved (snd r) = moved vars \/ exists c, moved (snd r) = moved vars ++ [(k, c)]) /\
    (isArrDiff = false -> moved (snd r) = moved vars) /\
    (forall j c,
        isArr = true -> isArrDiff = true -> is_undefined id = false ->
        keyMap ≫= keyMap_get id = Some j -> KNum j <> k ->
        children (get_node s p) !! KNum j = Some c ->
        moved (snd r) = moved vars ++ [(k, c)]).
Proof.
  intros A Hp Hpc Hc Hmv.
  assert (Hskip :
    exists r s',
      ret (child, isDiff, vars) s = (Ok r, s') /\
      loop_post p s s' /\
      p < fst (fst r) /\ fst (fst r) < nextNodeID s' /\
      moved_ok p (moved (snd r)) s' /\
      (moved (snd r) = moved vars \/ exists c, moved (snd r) = moved vars ++ [(k, c)]) /\
      (isArrDiff = false -> moved (snd r) = moved vars)).
  { exists (child, isDiff, vars), s. split; [reflexivity |].
    split; [by apply loop_post_refl |]. cbn. repeat split; auto. }
  unfold detect_move.
  destruct (isArr && negb (is_undefined id)) eqn:Hcond.
  2:{ destruct Hskip as (r & s' & E & H1 & H2 & H3 & H4 & H5 & H6).
      exists r, s'. repeat (split; [assumption |]).
      intros j c -> _ Hid. rewrite Hid in Hcond. discriminate. }
  destruct (keyMap ≫= keyMap_get id) as [keyChild|] eqn:Hk.
  2:{ destruct Hskip as (r & s' & E & H1 & H2 & H3 & H4 & H5 & H6).
      exists r, s'. repeat (split; [assumption |]).
      intros j c _ _ _ Hj. discriminate. }
  destruct (bool_decide (KNum keyChild = k)) eqn:Hne; cbn [negb].
  { destruct Hskip as (r & s' & E & H1 & H2 & H3 & H4 & H5 & H6).
    exists r, s'. repeat (split; [assumption |]).
    intros j c _ _ _ [= <-] Hjk. apply bool_decide_eq_true in Hne. contradiction. }
  destruct isArrDiff.
  - destruct (getChildNode_spec p (KNum keyChild) s A Hp)
      as (c & s1 & E & L1 & _ & Hch & Hpc1 & Hc1 & Hsame).
    unfold bind at 1. unfold bind at 1. rewrite E.
    unfold bind at 1. unfold modify at 1. unfold ret.
    eexists _, _. split; [reflexivity |]. cbn [fst snd moved].
    pose proof (set_key_post p c k s1 (loop_post_arena _ _ _ L1) Hpc1 Hc1) as L2.
    split; [eapply loop_post_trans; eassumption |].
    split; [exact Hpc1 |]. split; [exact Hc1 |].
    split; [| split; [right; by exists c | split; [discriminate |]]].
    + apply Forall_app. split.
      * eapply moved_ok_mono; [| exact Hmv].
        pose proof (loop_post_next _ _ _ L1). cbn. lia.
      * apply Forall_singleton. cbn. split; [exact Hpc1 | exact Hc1].
    + intros j c0 _ _ _ [= <-] _ Hj.
      destruct (Hsame c0 Hj) as [-> _]. reflexivity.
  - unfold bind, ret. eexists _, _. split; [reflexivity |]. cbn [fst snd moved].
    split; [by apply loop_post_refl |].
    repeat split; auto. intros j c _ Hf. discriminate.
Qed.

End Diff.

(** ** The loops of [updateNodes] *)

Section Loops.

Variable nullishPrimitive : bool.

Local Abbreviation isPrimitive := (Observable.isPrimitive nullishPrimitive).
Local Abbreviation loop_step := (Observable.loop_step nullishPrimitive).
Local Abbreviation removed_step := (Observable.removed_step nullishPrimitive).
Local Abbreviation updateNodes_body := (Observable.updateNodes_body nullishPrimitive).
Local Abbreviation updateNodes_fuel := (Observable.updateNodes_fuel nullishPrimitive).
Local Abbreviation updateNodes := (Observable.updateNodes nullishPrimitive).

Lemma returns_bind {A B} (m : M A) (k : A -> M B) s
    (Q1 : A -> state -> Prop) (Q : B -> state -> Prop) :
  returns (m s) Q1 ->
  (forall a s1, Q1 a s1 -> returns (k a s1) Q) ->
  returns (bind m k s) Q.
Proof.
  intros (a & s1 & E & H1) Hk. unfold bind. rewrite E. by apply Hk.
Qed.

Lemma returns_ret {A} (a : A) s (Q : A -> state -> Prop) :
  Q a s -> returns (ret a s) Q.
Proof. intros H. by exists a, s. Qed.

Lemma returns_impl {A} (r : outcome A * state) (Q1 Q2 : A -> state -> Prop) :
  returns r Q1 -> (forall a s, Q1 a s -> Q2 a s) -> returns r Q2.
Proof. intros (a & s & E & H) HQ. exists a, s. split; [exact E | by apply HQ]. Qed.

(** The recursive call of a loop step, when the element is not primitive. *)
Lemma rec_child_spec m rec p child obj prev b s :
  rec_ok m rec -> (b = true -> vsize obj + vsize prev < m) ->
  arena_ok s -> p < child -> child < nextNodeID s ->
  returns ((if b then rec child obj prev ;;; ret tt else ret tt) s)
    (fun _ s' => loop_post p s s').
Proof.
  intros Hrec Hw A Hpc Hc. destruct b.
  - eapply returns_bind; [apply (Hrec child obj prev s); auto |].
    intros d s1 D. apply returns_ret. eapply diff_post_child; eassumption.
  - apply returns_ret. by apply loop_post_refl.
Qed.

Lemma loop_step_spec m rec p obj prev isArr isArrDiff idField keyMap vars k s :
  rec_ok m rec -> vsize obj + vsize prev <= m -> truthy obj = true ->
  arena_ok s -> p < nextNodeID s -> moved_ok p (moved vars) s ->
  returns (loop_step rec p obj prev isArr isArrDiff idField keyMap vars k s)
    (fun vars' s' =>
       loop_post p s s' /\ moved_ok p (moved vars') s' /\
       (moved vars' = moved vars \/ exists c, moved vars' = moved vars ++ [(k, c)]) /\
       (isArrDiff = false -> moved vars' = moved vars) /\
       (forall j c,
           isArr = true -> isArrDiff = true ->
           strict_eq (get_prop obj k) (get_prop prev k) = false ->
           is_undefined (get_named (get_prop obj k) (default "undefined" idField))
             = false ->
           keyMap ≫= keyMap_get (get_named (get_prop obj k)
                                    (default "undefined" idField)) = Some j ->
           KNum j <> k ->
           children (get_node s p) !! KNum j = Some c ->
           moved vars' = moved vars ++ [(k, c)])).
Proof.
  intros Hrec Hm Ht A Hp Hmv. unfold Observable.loop_step. cbn zeta.
  destruct (strict_eq (get_prop obj k) (get_prop prev k)) eqn:Heq; cbn [negb].
  { apply returns_ret. split; [by apply loop_post_refl |].
    split; [exact Hmv |]. split; [by left |]. split; [done |].
    intros j c _ _ Hf. discriminate. }
  eapply returns_bind; [apply (getChildNode_spec p k s A Hp) |].
  intros child s1 (L1 & _ & _ & Hpc & Hc & _). cbn beta.
  pose proof (loop_post_arena _ _ _ L1) as A1.
  pose proof (loop_post_next _ _ _ L1) as N1.
  eapply returns_bind.
  { apply (detect_move_spec p prev isArr isArrDiff keyMap k (get_prop obj k)
             (get_named (get_prop obj k) (default "undefined" idField))
             child true vars s1 A1); [lia | exact Hpc | exact Hc |].
    eapply moved_ok_mono; eassumption. }
  intros [[child' isDiff'] vars1] s2 (L2 & Hpc' & Hc' & Hmv1 & Hor & Hsame & Hmove).
  cbn [fst snd] in *.
  pose proof (loop_post_arena _ _ _ L2) as A2.
  eapply returns_bind with
    (Q1 := fun v2 s3 => loop_post p s2 s3 /\ moved v2 = moved vars1).
  { destruct isDiff'.
    - eapply returns_bind.
      + apply (rec_child_spec m rec p child' (get_prop obj k) (get_prop prev k)
                 (negb (isPrimitive (get_prop obj k))) s2 Hrec); try assumption.
        intros Hnp. apply negb_true_iff in Hnp.
        pose proof (child_weight nullishPrimitive obj prev k Hnp Ht). lia.
      + intros u s3 L3. cbn beta in L3. apply returns_ret. split; [exact L3 | reflexivity].
    - apply returns_ret. split; [by apply loop_post_refl | reflexivity]. }
  intros vars2 s3 (L3 & Hmv2).
  pose proof (loop_post_arena _ _ _ L3) as A3.
  unfold bind at 1. unfold get_state at 1.
  eapply returns_bind.
  { apply (when_doNotify_spec p _ child' (get_prop obj k) [] (get_prop obj k)
             (get_prop prev k) 0 (Some (negb isArrDiff)) s3 A3). }
  intros u s4 (L4 & _). apply returns_ret.
  assert (L : loop_post p s s4).
  { eapply loop_post_trans; [exact L1 |]. eapply loop_post_trans; [exact L2 |].
    eapply loop_post_trans; eassumption. }
  split; [exact L |]. rewrite Hmv2.
  split; [| split; [exact Hor | split; [exact Hsame |]]].
  - eapply moved_ok_mono; [| exact Hmv1].
    pose proof (loop_post_next _ _ _ L3). pose proof (loop_post_next _ _ _ L4). lia.
  - intros j c Ha Hd _ Hid Hk Hjk Hch. apply (Hmove j c Ha Hd Hid Hk Hjk).
    destruct L1 as [_ G1]. by apply G1.
Qed.

Lemma removed_step_spec m rec p obj prev name s :
  rec_ok m rec -> vsize obj + vsize prev <= m -> truthy prev = true ->
  arena_ok s -> p < nextNodeID s ->
  returns (removed_step rec p obj prev name s) (fun _ s' => loop_post p s s').
Proof.
  intros Hrec Hm Ht A Hp. unfold Observable.removed_step.
  destruct (keys_includes obj name).
  { apply returns_ret. by apply loop_post_refl. }
  eapply returns_bind; [apply (getChildNode_spec p (KStr name) s A Hp) |].
  intros child s1 (L1 & _ & _ & Hpc & Hc & _). cbn beta zeta.
  pose proof (loop_post_arena _ _ _ L1) as A1.
  eapply returns_bind.
  { apply (rec_child_spec m rec p child VUndefined (get_prop prev (KStr name))
             (negb (isPrimitive (get_prop prev (KStr name)))) s1 Hrec);
      try assumption.
    intros Hnp. apply negb_true_iff in Hnp.
    pose proof (removed_weight nullishPrimitive obj prev (KStr name) Hnp Ht). lia. }
  intros u s2 L2. cbn beta in L2. pose proof (loop_post_arena _ _ _ L2) as A2.
  unfold bind at 1. unfold get_state at 1.
  eapply returns_impl.
  { apply (when_doNotify_spec p _ child VUndefined [] VUndefined
             (get_prop prev (KStr name)) 0 None s2 A2). }
  intros u' s3 (L3 & _). cbn beta.
  eapply loop_post_trans; [exact L1 |]. eapply loop_post_trans; eassumption.
Qed.

Lemma removed_loop_spec m rec p obj prev names : forall s,
  rec_ok m rec -> vsize obj + vsize prev <= m -> truthy prev = true ->
  arena_ok s -> p < nextNodeID s ->
  returns (forM names (removed_step rec p obj prev) s)
    (fun _ s' => loop_post p s s').
Proof.
  induction names as [|name names IH]; intros s Hrec Hm Ht A Hp; cbn [forM].
  - apply returns_ret. by apply loop_post_refl.
  - eapply returns_bind; [by apply (removed_step_spec m) |].
    intros u s1 L1. cbn beta in L1 |- *.
    eapply returns_impl.
    + apply IH; try assumption.
      * eapply loop_post_arena; eassumption.
      * pose proof (loop_post_next _ _ _ L1). lia.
    + intros u' s2 L2. cbn beta in L2 |- *. eapply loop_post_trans; eassumption.
Qed.

Lemma moved_last_app_single mv k c : moved_last (mv ++ [(k, c)]) k = Some c.
Proof.
  induction mv as [|[k' c'] mv IH]; cbn.
  - by rewrite bool_decide_eq_true_2.
  - by rewrite IH.
Qed.

Lemma moved_last_app_other mv ext k :
  Forall (fun e => fst e <> k) ext -> moved_last (mv ++ ext) k = moved_last mv k.
Proof.
  intros Hext. induction mv as [|[k' c'] mv IH]; cbn.
  - induction Hext as [|[k' c'] ext Hne _ IHe]; cbn; [reflexivity |].
    rewrite IHe. cbn in Hne. by rewrite bool_decide_eq_false_2.
  - by rewrite IH.
Qed.

Lemma main_loop_spec m rec p obj prev isArr isArrDiff idField keyMap ks :
  forall vars s,
  rec_ok m rec -> vsize obj + vsize prev <= m -> truthy obj = true ->
  arena_ok s -> p < nextNodeID s -> moved_ok p (moved vars) s ->
  returns (foldM (loop_step rec p obj prev isArr isArrDiff idField keyMap) ks vars s)
    (fun vars' s' =>
       loop_post p s s' /\ moved_ok p (moved vars') s' /\
       (exists ext, moved vars' = moved vars ++ ext /\
                    Forall (fun e => fst e ∈ ks) ext) /\
       (isArrDiff = false -> moved vars' = moved vars) /\
       (NoDup ks ->
        forall k j c,
          k ∈ ks -> isArr = true -> isArrDiff = true ->
          move_at obj prev idField keyMap k j ->
          children (get_node s p) !! KNum j = Some c ->
          moved_last (moved vars') k = Some c)).
Proof.
  induction ks as [|k0 ks IH]; intros vars s Hrec Hm Ht A Hp Hmv; cbn [foldM].
  - apply returns_ret. split; [by apply loop_post_refl |].
    split; [exact Hmv |]. split; [exists []; by rewrite app_nil_r |].
    split; [done |]. intros _ k j c Hk. by apply elem_of_nil in Hk.
  - eapply returns_bind; [by apply (loop_step_spec m) |].
    intros vars1 s1 (L1 & Hmv1 & Hor & Hsame & Hmove). cbn beta.
    pose proof (loop_post_arena _ _ _ L1) as A1.
    pose proof (loop_post_next _ _ _ L1) as N1.
    eapply returns_impl.
    { apply (IH vars1 s1); try assumption. lia. }
    intros vars' s' (L2 & Hmv2 & (ext & Hext & Hkeys) & Hsame2 & Hmove2). cbn beta.
    split; [eapply loop_post_trans; eassumption |]. split; [exact Hmv2 |].
    split; [| split].
    + destruct Hor as [E | (c & E)].
      * exists ext. rewrite Hext, E. split; [reflexivity |].
        eapply Forall_impl; [exact Hkeys |]. intros e He. by apply elem_of_cons; right.
      * exists ((k0, c) :: ext). rewrite Hext, E, <- app_assoc. split; [reflexivity |].
        apply Forall_cons. split; [by apply elem_of_cons; left |].
        eapply Forall_impl; [exact Hkeys |]. intros e He. by apply elem_of_cons; right.
    + intros Hd. rewrite (Hsame2 Hd). by apply Hsame.
    + intros Hnd k j c Hk Ha Hd Hmv' Hch.
      apply NoDup_cons in Hnd as [Hk0 Hnd].
      apply elem_of_cons in Hk as [-> | Hk].
      * destruct Hmv' as (M1 & M2 & M3 & M4).
        rewrite Hext, (Hmove j c Ha Hd M1 M2 M3 M4 Hch).
        rewrite moved_last_app_other; [apply moved_last_app_single |].
        eapply Forall_impl; [exact Hkeys |]. intros e He Heq. cbn beta in *.
        rewrite Heq in He. contradiction.
      * apply (Hmove2 Hnd k j c Hk Ha Hd Hmv').
        destruct L1 as [_ G1]. by apply G1.
Qed.

Lemma apply_moved_spec p mv : forall s,
  arena_ok s -> p < nextNodeID s -> moved_ok p mv s ->
  returns (apply_moved p mv s)
    (fun _ s' =>
       diff_post p s s' /\
       forall k, children (get_node s' p) !! k =
                 match moved_last mv k with
                 | Some c => Some c
                 | None => children (get_node s p) !! k
                 end).
Proof.
  unfold apply_moved.
  induction mv as [|[k0 c0] mv IH]; intros s A Hp Hmv; cbn [forM].
  - apply returns_ret. split; [by apply diff_post_refl | done].
  - apply Forall_cons in Hmv as [[Hpc Hc] Hmv]. cbn [snd] in Hpc, Hc.
    unfold bind at 1. unfold modify at 1.
    set (s1 := put_node p
                 (node_with_children (<[k0:=c0]> (children (get_node s p)))
                    (get_node s p)) s).
    assert (D1 : diff_post p s s1).
    { split; [reflexivity |]. split; [by apply only_doNotify_same_trace |].
      split; [| split; [cbn; lia |]].
      - pose proof A as (A1 & A2 & A3). split; [| split].
        + intros n nd. cbn. destruct (decide (n = p)) as [->|Hn]; [intros _; lia |].
          rewrite lookup_insert_ne by done. apply A1.
        + intros n nd k' c'. cbn. destruct (decide (n = p)) as [->|Hn].
          * rewrite lookup_insert_eq. intros [= <-]. cbn.
            destruct (decide (k' = k0)) as [->|Hk].
            -- rewrite lookup_insert_eq. intros [= <-]. lia.
            -- rewrite lookup_insert_ne by done.
               apply get_node_children_ok; [exact A | exact Hp].
          * rewrite lookup_insert_ne by done. apply A2.
        + intros n nd q. cbn. destruct (decide (n = p)) as [->|Hn].
          * rewrite lookup_insert_eq. intros [= <-]. cbn.
            apply get_node_parent_ok, A.
          * rewrite lookup_insert_ne by done. apply A3.
      - intros n Hn. cbn. rewrite lookup_insert_ne by lia. reflexivity. }
    assert (G1 : forall k, children (get_node s1 p) !! k =
                           if bool_decide (k0 = k) then Some c0
                           else children (get_node s p) !! k).
    { intros k. unfold s1, get_node at 1. cbn. rewrite lookup_insert_eq. cbn.
      case_bool_decide as Hk.
      - subst k. by rewrite lookup_insert_eq.
      - by rewrite lookup_insert_ne. }
    eapply returns_impl.
    { apply (IH s1).
      - by destruct D1 as (_ & _ & A1 & _).
      - exact Hp.
      - exact Hmv. }
    intros u s' (D2 & G2). cbn beta.
    split; [eapply diff_post_trans; eassumption |].
    intros k. rewrite G2, G1. cbn [moved_last].
    destruct (moved_last mv k); [reflexivity |].
    destruct (bool_decide (k0 = k)); reflexivity.
Qed.

Lemma loop_keys_NoDup obj : isArray obj = true -> NoDup (loop_keys obj).
Proof.
  destruct obj; try discriminate. intros _. cbn.
  apply NoDup_fmap_2; [intros a b [= ->]; reflexivity | apply NoDup_seq].
Qed.

Lemma updateNodes_body_spec m rec p obj prev s :
  rec_ok m rec -> vsize obj + vsize prev <= m ->
  arena_ok s -> p < nextNodeID s ->
  returns (updateNodes_body rec p obj prev s) (body_post p obj prev s).
Proof.
  intros Hrec Hm A Hp. unfold Observable.updateNodes_body, body_post. cbn zeta.
  destruct (move_index obj prev) as [idField keyMap] eqn:Hmi. cbn [fst snd].
  eapply returns_bind with (Q1 := fun _ s0 => loop_post p s s0).
  { destruct (isArray obj && isArray prev).
    - apply returns_ret. by apply loop_post_refl.
    - destruct (truthy prev) eqn:Ht; cbn [andb].
      + destruct (no_obj_or_hasOwnProperty obj).
        * by apply (removed_loop_spec m).
        * apply returns_ret. by apply loop_post_refl.
      + apply returns_ret. by apply loop_post_refl. }
  intros u s0 L0. cbn beta in L0 |- *.
  pose proof (loop_post_arena _ _ _ L0) as A0.
  pose proof (loop_post_next _ _ _ L0) as N0.
  destruct (truthy obj) eqn:Ht.
  2:{ assert (B : body_post p obj prev s (Some true) s0 /\
                  body_post p obj prev s None s0).
      { assert (Hna : isArray obj = false) by (destruct obj; done).
        split; (split; [apply L0 |]); rewrite Hna; split; intros; discriminate. }
      unfold body_post in B. rewrite Hmi in B. cbn [fst snd] in B.
      destruct (truthy prev); apply returns_ret; apply B. }
  set (isArrDiff := negb (isArray obj) ||
         negb (strict_eq (get_named obj "length") (get_named prev "length"))).
  eapply returns_bind.
  { apply (main_loop_spec m rec p obj prev (isArray obj) isArrDiff idField keyMap
             (loop_keys obj) (mkLoop isArrDiff false []) s0); try assumption.
    - lia.
    - apply Forall_nil_2. }
  intros vars s1 (L1 & Hmv & _ & Hsame & Hmove). cbn beta. cbn [moved] in *.
  pose proof (loop_post_arena _ _ _ L1) as A1.
  pose proof (loop_post_next _ _ _ L1) as N1.
  eapply returns_bind with
    (Q1 := fun _ s2 =>
       diff_post p s1 s2 /\
       (keyMap = None \/ moved vars = [] -> children_grow p s1 s2) /\
       (forall k c, keyMap <> None -> moved_last (moved vars) k = Some c ->
                    children (get_node s2 p) !! k = Some c)).
  { destruct keyMap as [km|].
    - eapply returns_impl; [apply (apply_moved_spec p (moved vars) s1 A1); [lia | exact Hmv] |].
      intros u' s2 (D2 & G2). cbn beta. split; [exact D2 |]. split.
      + intros [? | E]; [discriminate |]. intros k c Hk. rewrite G2, E. exact Hk.
      + intros k c _ Hk. rewrite G2, Hk. reflexivity.
    - apply returns_ret. split; [by apply diff_post_refl |]. split.
      + by intros _ k c.
      + intros k c Hn. contradiction. }
  intros u' s2 (D2 & G2 & M2). apply returns_ret.
  assert (D : diff_post p s s2).
  { eapply diff_post_trans; [apply L0 |]. eapply diff_post_trans; [apply L1 | exact D2]. }
  split; [exact D |]. split.
  - intros Ha Hl. assert (Hd : isArrDiff = false).
    { unfold isArrDiff. rewrite Ha, Hl. reflexivity. }
    intros k c Hk. apply G2; [right; by apply Hsame |].
    destruct L1 as [_ G1]. apply G1. destruct L0 as [_ G0]. by apply G0.
  - intros k j c Ha Hl Hk Hmv' Hch.
    assert (Hd : isArrDiff = true).
    { unfold isArrDiff. rewrite Ha, Hl. reflexivity. }
    apply M2.
    + destruct Hmv' as (_ & _ & Hkm & _). intros ->. unfold mbind, option_bind in Hkm. discriminate.
    + apply (Hmove (loop_keys_NoDup obj Ha) k j c Hk Ha Hd Hmv').
      destruct L0 as [_ G0]. by apply G0.
Qed.

Lemma updateNodes_fuel_ok fuel : rec_ok fuel (updateNodes_fuel fuel).
Proof.
  induction fuel as [|fuel IH]; intros c obj prev s Hw A Hc; [lia |].
  cbn [Observable.updateNodes_fuel].
  destruct (updateNodes_body_spec fuel (updateNodes_fuel fuel) c obj prev s IH)
    as (d & s' & E & D & _); try assumption; [lia |].
  exists d, s'. split; [exact E | exact D].
Qed.

(** [updateNodes] returns, whatever the values, and keeps to its frame. *)
Lemma updateNodes_spec p obj prev s :
  arena_ok s -> p < nextNodeID s ->
  returns (updateNodes p obj prev s) (body_post p obj prev s).
Proof.
  intros A Hp. unfold Observable.updateNodes. cbn [Observable.updateNodes_fuel].
  apply (updateNodes_body_spec (vsize obj + vsize prev)); try assumption.
  - apply updateNodes_fuel_ok.
  - lia.
Qed.

End Loops.

(** ** [setKey] *)

Section SetKey.

Variable call : nat -> value -> value.
Variable nullishPrimitive : bool.

Local Abbreviation isPrimitive := (Observable.isPrimitive nullishPrimitive).
Local Abbreviation updateNodes := (Observable.updateNodes nullishPrimitive).
Local Abbreviation setKey_write := (Observable.setKey_write call nullishPrimitive).
Local Abbreviation setKey_notify := (Observable.setKey_notify nullishPrimitive).
Local Abbreviation setKey := (Observable.setKey call nullishPrimitive).

Lemma ends_bind {A B} (m : M A) (k : A -> M B) s
    (P1 : state -> Prop) (Q1 : A -> state -> Prop)
    (P : state -> Prop) (Q : B -> state -> Prop) :
  ends (m s) P1 Q1 ->
  (forall s1, P1 s1 -> P s1) ->
  (forall a s1, P1 s1 -> Q1 a s1 -> ends (k a s1) P Q) ->
  ends (bind m k s) P Q.
Proof.
  intros [H1 H2] HP Hk. unfold bind.
  destruct (m s) as [[a|e] s1]; cbn in *.
  - by apply Hk.
  - split; [by apply HP | exact H2].
Qed.

Lemma ends_ret {A} (a : A) s (P : state -> Prop) (Q : A -> state -> Prop) :
  P s -> Q a s -> ends (ret a s) P Q.
Proof. by split. Qed.

Lemma set_prop_error v k x e :
  set_prop v k x = inr e -> e = TypeError \/ e = RangeError.
Proof.
  unfold set_prop, set_named. intros H.
  repeat (match type of H with
          | context [match ?t with _ => _ end] => destruct t
          end; try discriminate H); injection H as <-; auto.
Qed.

Lemma delete_prop_error v k e :
  delete_prop v k = inr e -> e = TypeError \/ e = RangeError.
Proof.
  unfold delete_prop, delete_named. intros H.
  repeat (match type of H with
          | context [match ?t with _ => _ end] => destruct t
          end; try discriminate H); injection H as <-; auto.
Qed.

Lemma ensure_path_error path : forall v ref e,
  ensure_path v path ref = inr e -> e = TypeError \/ e = RangeError.
Proof.
  induction path as [|k path IH]; intros v ref e; cbn [ensure_path].
  - destruct (truthy v); discriminate.
  - destruct (truthy v).
    + destruct (ensure_path (get_prop v k) path ref) as [[c r2]|e'] eqn:E.
      * destruct (Nat.eqb r2 ref); [discriminate |].
        destruct (set_prop v k c) eqn:Es; [discriminate |].
        intros [= <-]. eapply set_prop_error; eassumption.
      * intros [= <-]. eapply IH; eassumption.
    + destruct (ensure_path (get_prop (VObject ref []) k) path (S ref))
        as [[c r2]|e'] eqn:E.
      * destruct (Nat.eqb r2 (S ref)); [discriminate |].
        destruct (set_prop (VObject ref []) k c) eqn:Es; [discriminate |].
        intros [= <-]. eapply set_prop_error; eassumption.
      * intros [= <-]. eapply IH; eassumption.
Qed.

Lemma update_path_error f path :
  (forall v e, f v = inr e -> e = TypeError \/ e = RangeError) ->
  forall v e, update_path v path f = inr e -> e = TypeError \/ e = RangeError.
Proof.
  intros Hf. induction path as [|k path IH]; intros v e; cbn [update_path].
  - apply Hf.
  - destruct (update_path (get_prop v k) path f) as [c|e'] eqn:E.
    + destruct (is_reference (get_prop v k)); [| discriminate].
      apply set_prop_error.
    + intros [= <-]. eapply IH; eassumption.
Qed.

Lemma ensureNodeValue_ends n s :
  ends (ensureNodeValue n s) (value_op_post s) (fun _ _ => True).
Proof.
  unfold ensureNodeValue.
  destruct (ensure_path (root_value s) (node_path s n) (nextRef s))
    as [[v r]|e] eqn:E; cbn.
  - split; [| done]. by repeat split.
  - split; [by repeat split |]. eapply ensure_path_error; eassumption.
Qed.

Lemma container_update_ends c f whole s :
  (forall v e, f v = inr e -> e = TypeError \/ e = RangeError) ->
  ends (container_update c f whole s) (value_op_post s) (fun _ _ => True).
Proof.
  intros Hf. unfold container_update. destruct c as [|n].
  - split; [| done]. by repeat split.
  - destruct (update_path (root_value s) (node_path s n) f) as [v|e] eqn:E; cbn.
    + split; [| done]. by repeat split.
    + split; [by repeat split |]. eapply update_path_error; eassumption.
Qed.

Lemma arena_ok_ext s s' :
  nodes s' = nodes s -> nextNodeID s' = nextNodeID s -> arena_ok s -> arena_ok s'.
Proof. unfold arena_ok. intros -> ->. done. Qed.

Lemma write_inv_value_op s n c s1 s2 :
  write_inv s n c s1 -> value_op_post s1 s2 -> write_inv s n c s2.
Proof.
  intros ((A & N & P) & I & Hn & Hc) (En & Ei & Es & Ep).
  split; [split; [| split] |].
  - by apply (arena_ok_ext s1).
  - lia.
  - unfold same_policy in *. congruence.
  - rewrite Es, Ei. done.
Qed.

Lemma write_inv_trace s n c s1 t :
  write_inv s n c s1 -> write_inv s n c (with_trace t s1).
Proof. intros H. apply (write_inv_value_op s n c s1); [exact H | by repeat split]. Qed.

Lemma same_root_policy s s' :
  same_root s s' -> same_policy s s' /\ inSet s' = inSet s.
Proof.
  unfold same_root, root_fields, same_policy, policy_fields.
  intros [= ? ? ? ? ? ? ? ?]. split; congruence.
Qed.

Lemma node_path_ext s s' n : nodes s' = nodes s -> node_path s' n = node_path s n.
Proof.
  intros H. unfold node_path. generalize (S n) (@nil pkey). intros fuel.
  revert n. induction fuel as [|fuel IH]; intros n acc; cbn; [reflexivity |].
  unfold get_node. rewrite H. fold (get_node s n).
  destruct (parent (get_node s n)); [apply IH | reflexivity].
Qed.

Lemma container_delete_spec c k s :
  ends (container_delete c k s) (value_op_post s)
    (fun _ s' =>
       match c with
       | RootWrapper => root_value s' = VUndefined
       | NodeContainer n => has_own (getNodeValue s' n) k = false
       end).
Proof.
  unfold container_delete, container_update. destruct c as [|n].
  - split; [by repeat split | reflexivity].
  - destruct (update_path (root_value s) (node_path s n) (fun v => delete_prop v k))
      as [v'|e] eqn:E; unfold ends; cbn [fst snd].
    + split; [by repeat split |].
      unfold getNodeValue. rewrite (node_path_ext s _ n) by reflexivity.
      cbn [root_value with_root_value].
      apply get_path_update_path in E.
      * eapply has_own_delete_prop; eassumption.
      * intros x y. apply delete_prop_not_reference.
    + split; [by repeat split |].
      eapply update_path_error; [| eassumption]. intros v0 e0. apply delete_prop_error.
Qed.

Lemma container_set_spec c k x s :
  ends (container_set c k x s) (value_op_post s)
    (fun _ s' =>
       match c with
       | RootWrapper => root_value s' = x
       | NodeContainer n =>
           stores_prop (getNodeValue s n) k = true ->
           get_prop (getNodeValue s' n) k = x
       end).
Proof.
  unfold container_set, container_update. destruct c as [|n].
  - split; [by repeat split | reflexivity].
  - destruct (update_path (root_value s) (node_path s n) (fun v => set_prop v k x))
      as [v'|e] eqn:E; unfold ends; cbn [fst snd].
    + split; [by repeat split |].
      unfold getNodeValue.
      rewrite (node_path_ext s (with_root_value v' s) n) by reflexivity.
      cbn [root_value with_root_value].
      apply get_path_update_path in E.
      * intros Hs. eapply get_prop_set_prop; eassumption.
      * intros x0 y H0 Hr. apply set_prop_reference in H0. congruence.
    + split; [by repeat split |].
      eapply update_path_error; [| eassumption]. intros v0 e0. apply set_prop_error.
Qed.

Lemma setKey_write_spec node k v s :
  arena_ok s -> node < nextNodeID s ->
  ends (setKey_write node k v s)
    (fun s1 => write_post s s1 /\ inSet s1 = true)
    (fun l s1 =>
       w_node l < nextNodeID s1 /\ w_childNode l < nextNodeID s1 /\
       w_isDelete l = strict_eq v VSymbolUndef /\
       w_isPrim l =
         isPrimitive (if strict_eq v VSymbolUndef then VUndefined else v) /\
       (w_isRoot l = false -> w_node l < w_childNode l) /\
       (w_isDelete l = true -> w_newValue l = VUndefined) /\
       (isFunction v = false ->
        w_newValue l = if strict_eq v VSymbolUndef then VUndefined else v) /\
       (if w_isDelete l then
          if w_isRoot l then root_value s1 = VUndefined
          else has_own (getNodeValue s1 (w_node l)) (w_key l) = false
        else if w_isRoot l then root_value s1 = w_newValue l
        else prop_name (w_key l) <> Some "__proto__" ->
             get_prop (getNodeValue s1 (w_node l)) (w_key l) = w_newValue l)).
Proof.
  intros A Hn. unfold Observable.setKey_write.
  unfold bind at 1. unfold get_state at 1. cbn zeta.
  set (isDelete := strict_eq v VSymbolUndef).
  set (v1 := if isDelete then VUndefined else v).
  set (unwrap := isPrimitive v1 && bool_decide (k = KStr "value")
                 && isPrimitive (getNodeValue s node)).
  set (k1 := if unwrap then key (get_node s node) else k).
  unfold bind at 1. unfold modify at 1.
  set (s0 := with_inSet true s).
  assert (W0 : forall n, n < nextNodeID s -> write_inv s n n s0).
  { intros n Hlt. split; [split; [| split] |]; done. }
  destruct (if unwrap then parent (get_node s node) else Some node)
    as [node1|] eqn:Hnode.
  2:{ split; [| by left]. cbn. destruct (W0 node Hn) as (W & I & _). by split. }
  assert (Hn1 : node1 < nextNodeID s).
  { destruct unwrap.
    - pose proof (get_node_parent_ok s node node1 A Hnode). lia.
    - by injection Hnode as <-. }
  set (isRoot := bool_decide (k1 = KSymbolUndef)
                 || negb (bool_decide (is_Some (parent (get_node s node1))))
                    && bool_decide (k1 = KStr "value") && isPrimitive v1).
  eapply ends_bind with
    (P1 := fun s1 => exists c, write_inv s node1 c s1)
    (Q1 := fun c s1 => write_inv s node1 c s1 /\ (isRoot = false -> node1 < c)).
  { destruct isRoot.
    - apply ends_ret; [exists node1; by apply W0 |]. split; [by apply W0 | discriminate].
    - destruct (W0 node1 Hn1) as ((A0 & _) & _).
      destruct (getChildNode_spec node1 k1 s0 A0) as (c & s1 & E & L & _ & _ & Hpc & Hc & _);
        [exact Hn1 |].
      rewrite E.
      assert (W1 : write_inv s node1 c s1).
      { destruct L as [(R & _ & A1 & N1 & _) _].
        apply same_root_policy in R as [P I].
        split; [split; [exact A1 | split; [cbn in N1; lia |]] |].
        - unfold same_policy in *. rewrite P. reflexivity.
        - rewrite I. cbn. split; [reflexivity | split; [lia | exact Hc]]. }
      split; [by exists c | split; [exact W1 | intros _; exact Hpc]]. }
  { intros s1 (c & W & I & _). by split. }
  intros childNode s1 _ (W1 & Hchild). cbn beta.
  unfold bind at 1. unfold untrack at 1, emit at 1, modify at 1.
  pose proof (write_inv_trace s node1 childNode s1
                (trace s1 ++ [EvUntrack childNode]) W1) as W2.
  set (s2 := with_trace (trace s1 ++ [EvUntrack childNode]) s1) in *.
  eapply ends_bind with
    (P1 := write_inv s node1 childNode)
    (Q1 := fun pv _ => pv = if isRoot then RootWrapper else NodeContainer node1).
  { destruct isRoot.
    - by apply ends_ret.
    - destruct (ensureNodeValue_ends node1 s2) as [V Hr]. unfold bind.
      destruct (ensureNodeValue node1 s2) as [[pv|e] s3]; cbn in *.
      + split; [| done]. eapply write_inv_value_op; eassumption.
      + split; [eapply write_inv_value_op; eassumption | exact Hr]. }
  { intros s3 (W & I & _). by split. }
  intros parentValue s3 W3 HpV. cbn beta zeta.
  set (k2 := if isRoot then KStr "_" else k1).
  unfold bind at 1.
  assert (Eget : exists pv, container_get parentValue k2 s3 = (Ok pv, s3)).
  { destruct parentValue; eexists; reflexivity. }
  destruct Eget as (prevValue & ->).
  eapply ends_bind with
    (P1 := write_inv s node1 childNode)
    (Q1 := fun nv _ => (isDelete = true -> nv = VUndefined) /\
                       (isFunction v = false -> nv = v1)).
  { assert (Hv1 : isDelete = true -> v1 = VUndefined).
    { intros Hd. unfold v1. by rewrite Hd. }
    assert (Hf1 : isFunction v = false -> isFunction v1 = false).
    { intros Hf. unfold v1. by destruct isDelete. }
    destruct v1; try (apply ends_ret; [exact W3 | by split]).
    destruct (negb (inAssign s)); [| apply ends_ret; [exact W3 | by split]].
    split; [cbn; by apply write_inv_trace |]. cbn. split.
    - intros Hd. by specialize (Hv1 Hd).
    - intros Hf. by specialize (Hf1 Hf). }
  { intros s4 (W & I & _). by split. }
  intros newValue s4 W4 (HnewV & HnewF). cbn beta.
  eapply ends_bind with
    (P1 := write_inv s node1 childNode)
    (Q1 := fun _ s5 =>
       if isDelete then
         if isRoot then root_value s5 = VUndefined
         else has_own (getNodeValue s5 node1) k2 = false
       else if isRoot then root_value s5 = newValue
       else prop_name k2 <> Some "__proto__" ->
            get_prop (getNodeValue s5 node1) k2 = newValue).
  { destruct isDelete.
    - destruct (container_delete_spec parentValue k2 s4) as [V Hr].
      destruct (container_delete parentValue k2 s4) as [[u|e] s5]; cbn in *.
      + split; [eapply write_inv_value_op; eassumption |].
        rewrite HpV in Hr. by destruct isRoot.
      + split; [eapply write_inv_value_op; eassumption | exact Hr].
    - destruct (container_set_spec parentValue k2 newValue s4) as [V Hr].
      destruct (container_set parentValue k2 newValue s4) as [[u|e] s5]; cbn in *.
      + split; [eapply write_inv_value_op; eassumption |].
        rewrite HpV in Hr. destruct isRoot; [exact Hr |].
        intros Hk. apply Hr. by apply stores_prop_other.
      + split; [eapply write_inv_value_op; eassumption | exact Hr]. }
  { intros s5 (W & I & _). by split. }
  intros u s5 (W5 & I5 & Hn5 & Hc5) Hval. apply ends_ret; [by split |].
  cbn. split_and!; try assumption; reflexivity.
Qed.

End SetKey.

(** ** The diff and notification of [setKey] *)

Section SetKeyNotify.

Variable call : nat -> value -> value.
Variable nullishPrimitive : bool.

Local Abbreviation isPrimitive := (Observable.isPrimitive nullishPrimitive).
Local Abbreviation updateNodes := (Observable.updateNodes nullishPrimitive).
Local Abbreviation setKey_write := (Observable.setKey_write call nullishPrimitive).
Local Abbreviation setKey_notify := (Observable.setKey_notify nullishPrimitive).
Local Abbreviation setKey := (Observable.setKey call nullishPrimitive).
Local Abbreviation diff_found := (Inv.diff_found nullishPrimitive).
Local Abbreviation diff_ran := (Inv.diff_ran nullishPrimitive).
Local Abbreviation notify_optimized := (Inv.notify_optimized nullishPrimitive).

Lemma put_node_arena s n nd :
  arena_ok s -> n < nextNodeID s ->
  children nd = children (get_node s n) -> parent nd = parent (get_node s n) ->
  arena_ok (put_node n nd s).
Proof.
  intros A Hn Hc Hp. pose proof A as (A1 & A2 & A3). split; [| split].
  - intros m md. cbn. destruct (decide (m = n)) as [->|Hm]; [intros _; lia |].
    rewrite lookup_insert_ne by done. apply A1.
  - intros m md k' c'. cbn. destruct (decide (m = n)) as [->|Hm].
    + rewrite lookup_insert_eq. intros [= <-]. rewrite Hc.
      apply get_node_children_ok; assumption.
    + rewrite lookup_insert_ne by done. apply A2.
  - intros m md q. cbn. destruct (decide (m = n)) as [->|Hm].
    + rewrite lookup_insert_eq. intros [= <-]. rewrite Hp.
      apply get_node_parent_ok, A.
    + rewrite lookup_insert_ne by done. apply A3.
Qed.

Lemma same_root_value s s' : same_root s s' -> root_value s' = root_value s.
Proof. unfold same_root, root_fields. by intros [= ? ? ? ? ? ? ? ?]. Qed.

Lemma links_kept_refl n s : links_kept n s s.
Proof. by intros m Hm. Qed.

Lemma links_kept_trans n s1 s2 s3 :
  links_kept n s1 s2 -> links_kept n s2 s3 -> links_kept n s1 s3.
Proof.
  intros H1 H2 m Hm. destruct (H1 m Hm) as [<- <-]. by apply H2.
Qed.

Lemma links_kept_below n c s s' :
  n < c -> below_unchanged c s s' -> links_kept n s s'.
Proof.
  intros Hc B m Hm. rewrite (get_node_unchanged s s' m); [done |]. apply B. lia.
Qed.

Lemma get_node_put_eq m nd s : get_node (put_node m nd s) m = nd.
Proof. unfold get_node. cbn. by rewrite lookup_insert_eq. Qed.

Lemma get_node_put_ne m m' nd s : m' <> m -> get_node (put_node m nd s) m' = get_node s m'.
Proof. intros H. unfold get_node. cbn. by rewrite lookup_insert_ne. Qed.

Lemma links_kept_put n m nd s :
  parent nd = parent (get_node s m) -> key nd = key (get_node s m) ->
  links_kept n s (put_node m nd s).
Proof.
  intros Hp Hk m' _. destruct (decide (m' = m)) as [->|Hne].
  - rewrite get_node_put_eq. by split.
  - by rewrite get_node_put_ne.
Qed.

Lemma getChildNode_links p k s n :
  n < nextNodeID s -> links_kept n s (snd (getChildNode p k s)).
Proof.
  intros Hn. unfold getChildNode.
  destruct (children (get_node s p) !! k); [apply links_kept_refl |].
  cbn [snd]. intros m Hm.
  change (get_node (with_nextNodeID ?x ?s0) m) with (get_node s0 m).
  destruct (decide (m = p)) as [->|Hne].
  - rewrite get_node_put_eq. by split.
  - rewrite get_node_put_ne by done. rewrite get_node_put_ne by lia. done.
Qed.

Lemma children_grow_refl n s : children_grow n s s.
Proof. by intros k c. Qed.

Lemma children_grow_trans n s1 s2 s3 :
  children_grow n s1 s2 -> children_grow n s2 s3 -> children_grow n s1 s3.
Proof. intros H1 H2 k c H. by apply H2, H1. Qed.

Lemma getChildNode_children_grow p k s n :
  arena_ok s -> children_grow n s (snd (getChildNode p k s)).
Proof.
  intros A. unfold getChildNode.
  destruct (children (get_node s p) !! k) eqn:E; [apply children_grow_refl |].
  cbn [snd]. intros k' c' H.
  change (get_node (with_nextNodeID ?x ?s0) n) with (get_node s0 n).
  destruct (decide (n = p)) as [->|Hne].
  - rewrite get_node_put_eq. cbn.
    rewrite lookup_insert_ne; [exact H | congruence].
  - rewrite get_node_put_ne by done.
    destruct (decide (n = nextNodeID s)) as [->|Hne'].
    + exfalso. unfold get_node in H.
      destruct (nodes s !! nextNodeID s) as [nd|] eqn:En.
      * destruct A as (A1 & _). apply A1 in En. lia.
      * cbn in H. by rewrite lookup_empty in H.
    + by rewrite get_node_put_ne.
Qed.

(** The paths of the nodes whose links are kept are kept. *)
Lemma node_path_links n s s' :
  arena_ok s -> links_kept n s s' -> node_path s' n = node_path s n.
Proof.
  intros A L. unfold node_path.
  assert (H : forall fuel m acc, m <= n -> path_to fuel s' m acc = path_to fuel s m acc).
  { induction fuel as [|fuel IH]; intros m acc Hm; cbn; [reflexivity |].
    destruct (L m Hm) as [-> ->].
    destruct (parent (get_node s m)) as [q|] eqn:Hq; [| reflexivity].
    apply IH. pose proof (get_node_parent_ok s m q A Hq). lia. }
  by apply H.
Qed.

Lemma getProxy_spec node p s :
  arena_ok s -> node < nextNodeID s ->
  returns (getProxy node p s)
    (fun c s' =>
       arena_ok s' /\ nextNodeID s <= nextNodeID s' /\ same_root s s' /\
       trace s' = trace s /\ c < nextNodeID s' /\
       (forall n, n < nextNodeID s -> links_kept n s s') /\
       (forall n, children_grow n s s')).
Proof.
  intros A Hn. unfold getProxy.
  eapply returns_bind with
    (Q1 := fun c s1 => arena_ok s1 /\ nextNodeID s <= nextNodeID s1 /\
                       same_root s s1 /\ trace s1 = trace s /\ c < nextNodeID s1 /\
                       (forall n, n < nextNodeID s -> links_kept n s s1) /\
                       (forall n, children_grow n s s1)).
  { destruct (bool_decide (p = KUndefined)).
    - apply returns_ret. split_and!; try done. intros n. apply children_grow_refl.
    - pose proof (fun n Hlt => getChildNode_links node p s n Hlt) as HL.
      pose proof (fun n => getChildNode_children_grow node p s n A) as HG.
      destruct (getChildNode_spec node p s A Hn)
        as (c & s1 & E & [(R & _ & A1 & N1 & _) _] & T & _ & _ & Hc & _).
      rewrite E in HL, HG |- *. exists c, s1. split; [reflexivity |].
      split_and!; assumption. }
  intros c s1 (A1 & N1 & R1 & T1 & Hc & L1 & G1). cbn beta.
  unfold bind at 1. unfold get_state at 1.
  destruct (proxy (get_node s1 c)).
  - apply returns_ret. split_and!; assumption.
  - unfold bind, modify, ret. eexists _, _. split; [reflexivity |].
    split; [by apply put_node_arena |]. split_and!; try assumption.
    + intros n Hlt. eapply links_kept_trans; [by apply L1 |].
      by apply links_kept_put.
    + intros n. eapply children_grow_trans; [apply G1 |].
      intros k' c' H. destruct (decide (n = c)) as [->|Hne].
      * by rewrite get_node_put_eq.
      * by rewrite get_node_put_ne.
Qed.

(** The second part of [setKey] returns; its trace is the batch bracket
    around the [doNotify] calls of the diff and at most one [notify]. *)
Lemma setKey_notify_spec l level s1 :
  arena_ok s1 -> w_node l < nextNodeID s1 -> w_childNode l < nextNodeID s1 ->
  returns (setKey_notify l level s1)
    (fun p s' =>
       exists dn,
         forallb is_doNotify dn = true /\
         trace s' =
           trace s1 ++ [EvBeginBatch] ++ dn ++
           (if w_isPrim l && strict_eq (w_newValue l) (w_prevValue l) then []
            else [EvNotify (notify_target l) (w_newValue l) (w_prevValue l)
                    (notify_level level (w_prevValue l) (diff_found l s1))
                    (notify_optimized l)]) ++
           [EvEndBatch] /\
         inSet s' = false /\ arena_ok s' /\ nextNodeID s1 <= nextNodeID s' /\
         same_policy s1 s' /\ root_value s' = root_value s1 /\
         p < nextNodeID s' /\
         (w_node l < w_childNode l -> links_kept (w_node l) s1 s') /\
         (diff_ran l = true ->
          exists d s3,
            body_post (w_childNode l) (w_newValue l) (w_prevValue l)
              (with_trace (trace s1 ++ [EvBeginBatch]) s1) d s3 /\
            children_grow (w_childNode l) s3 s') /\
         trace (if diff_ran l
                then snd (updateNodes (w_childNode l) (w_newValue l) (w_prevValue l)
                            (with_trace (trace s1 ++ [EvBeginBatch]) s1))
                else with_trace (trace s1 ++ [EvBeginBatch]) s1)
           = (trace s1 ++ [EvBeginBatch]) ++ dn).
Proof.
  intros A Hn Hc. unfold Observable.setKey_notify. cbn zeta.
  unfold bind at 1. unfold beginBatch at 1, emit at 1, modify at 1.
  set (s2 := with_trace (trace s1 ++ [EvBeginBatch]) s1).
  assert (A2 : arena_ok s2) by exact A.
  eapply returns_bind with
    (Q1 := fun diff s3 =>
       diff = (diff_found l s1, notify_optimized l) /\
       diff_post (w_childNode l) s2 s3 /\
       (diff_ran l = true ->
        exists d, body_post (w_childNode l) (w_newValue l) (w_prevValue l) s2 d s3) /\
       s3 = (if diff_ran l
             then snd (updateNodes (w_childNode l) (w_newValue l) (w_prevValue l) s2)
             else s2)).
  { unfold Inv.diff_found, Inv.notify_optimized, Inv.diff_ran. fold s2.
    destruct (negb (w_isPrim l) || negb (isPrimitive (w_prevValue l))) eqn:Hran.
    - destruct (updateNodes_spec nullishPrimitive (w_childNode l) (w_newValue l)
                  (w_prevValue l) s2 A2 Hc) as (d & s3 & E & B).
      unfold bind. rewrite E. apply returns_ret.
      split; [cbn [fst andb]; reflexivity |].
      split; [apply B | split; [intros _; by exists d | reflexivity]].
    - apply returns_ret.
      split; [reflexivity |].
      split; [by apply diff_post_refl | split; [discriminate | reflexivity]]. }
  intros diff s3 (-> & (R & (dn & Tdn & Fdn) & A3 & N3 & B3) & Hbody & Hs3).
  cbn beta. cbn [fst snd].
  set (nev := if w_isPrim l && strict_eq (w_newValue l) (w_prevValue l) then []
              else [EvNotify (notify_target l) (w_newValue l) (w_prevValue l)
                      (notify_level level (w_prevValue l) (diff_found l s1))
                      (notify_optimized l)]).
  set (s5 := with_inSet false (with_trace (trace s3 ++ nev ++ [EvEndBatch]) s3)).
  assert (E5 : forall (k : M nat),
    ((when (negb (w_isPrim l) || negb (strict_eq (w_newValue l) (w_prevValue l)))
        (notify (if w_isPrim l && w_isRoot l then w_node l else w_childNode l)
           (w_newValue l) (w_prevValue l)
           (notify_level level (w_prevValue l) (diff_found l s1))
           (notify_optimized l)) ;;;
      endBatch ;;; modify (with_inSet false) ;;; k) s3) = k s5).
  { intros k. unfold s5, nev, notify_target.
    destruct (w_isPrim l); destruct (strict_eq (w_newValue l) (w_prevValue l));
      cbn; unfold bind, endBatch, notify, emit, modify, when, ret; cbn;
      rewrite <- ?app_assoc; reflexivity. }
  rewrite E5.
  assert (A5 : arena_ok s5) by exact A3.
  assert (N5 : nextNodeID s5 = nextNodeID s3) by reflexivity.
  assert (Hn5 : w_node l < nextNodeID s5) by (rewrite N5; cbn in N3; lia).
  eapply returns_impl.
  { instantiate (1 := fun p s' =>
       arena_ok s' /\ nextNodeID s5 <= nextNodeID s' /\ same_root s5 s' /\
       trace s' = trace s5 /\ p < nextNodeID s' /\
       (forall n, n < nextNodeID s5 -> links_kept n s5 s') /\
       (forall n, children_grow n s5 s')).
    destruct (w_isRoot l); by apply getProxy_spec. }
  intros p s' (A' & N' & R' & T' & Hp & L' & G'). cbn beta.
  exists dn. split; [exact Fdn |].
  pose proof (same_root_value _ _ R) as V3. pose proof (same_root_value _ _ R') as V'.
  apply same_root_policy in R as [P3 I3]. apply same_root_policy in R' as [P' I'].
  split; [| split; [| split; [| split; [| split; [| split; [| split; [| split;
    [| split]]]]]]]].
  10:{ rewrite <- Hs3. exact Tdn. }
  - rewrite T'. unfold s5. cbn. rewrite Tdn. unfold s2. cbn.
    rewrite <- !app_assoc. reflexivity.
  - rewrite I'. reflexivity.
  - exact A'.
  - cbn in N3. lia.
  - unfold same_policy in *. rewrite P'. unfold s5. cbn. exact P3.
  - rewrite V'. unfold s5. cbn. exact V3.
  - exact Hp.
  - intros Hlt. apply (links_kept_trans _ s1 s5 s').
    + apply (links_kept_below _ (w_childNode l)); [exact Hlt |].
      intros m Hm. unfold s5. cbn. apply (B3 m Hm).
    + apply L'. exact Hn5.
  - intros Hran. destruct (Hbody Hran) as (d & B). exists d, s3.
    split; [exact B |]. intros k' c' H. apply G'. exact H.
Qed.

End SetKeyNotify.

(** ** The level hint of a write *)

Section NotifyLevel.

Variable call : nat -> value -> value.
Variable nullishPrimitive : bool.

Local Abbreviation isPrimitive := (Observable.isPrimitive nullishPrimitive).
Local Abbreviation setKey_write := (Observable.setKey_write call nullishPrimitive).
Local Abbreviation setKey_notify := (Observable.setKey_notify nullishPrimitive).
Local Abbreviation setKey := (Observable.setKey call nullishPrimitive).
Local Abbreviation diff_found := (Inv.diff_found nullishPrimitive).
Local Abbreviation notify_optimized := (Inv.notify_optimized nullishPrimitive).

Lemma setKey_unlocked node k v lvl s :
  locked s = false ->
  setKey node k v lvl s =
    (l <- setKey_write node k v ;; setKey_notify l lvl) s.
Proof.
  intros H. unfold Observable.setKey. unfold bind at 1. unfold get_state at 1.
  rewrite H. reflexivity.
Qed.

End NotifyLevel.

(** ** [assign] against the spec's [assign] *)

Section Assign.

Variable call : nat -> value -> value.
Variable nullishPrimitive : bool.

Local Abbreviation isPrimitive := (Observable.isPrimitive nullishPrimitive).
Local Abbreviation setKey := (Observable.setKey call nullishPrimitive).
Local Abbreviation proxyHandler_set :=
  (Observable.proxyHandler_set call nullishPrimitive).
Local Abbreviation assign := (Observable.assign call nullishPrimitive).
Local Abbreviation assign_spec := (Spec.assign_spec call nullishPrimitive).

(** A [setKey] that returns leaves [inSet] off and the arena in order. *)
Lemma setKey_ok_inv node k v lvl s p s' :
  arena_ok s -> node < nextNodeID s ->
  setKey node k v lvl s = (Ok p, s') ->
  inSet s' = false /\ arena_ok s' /\ nextNodeID s <= nextNodeID s' /\
  same_policy s s' /\ p < nextNodeID s'.
Proof.
  intros A Hn E. destruct (locked s) eqn:Hl.
  { rewrite setKey_locked in E by exact Hl. discriminate. }
  rewrite setKey_unlocked in E by exact Hl.
  apply bind_ok_inv in E as (l & s1 & E1 & E2).
  destruct (setKey_write_spec call nullishPrimitive node k v s A Hn) as [[W I] Q].
  rewrite E1 in W, I, Q. cbn in W, I, Q.
  destruct W as (A1 & N1 & P1). destruct Q as (Hn1 & Hc1 & _).
  destruct (setKey_notify_spec nullishPrimitive l lvl s1 A1 Hn1 Hc1)
    as (p' & s2 & E' & dn & _ & _ & I2 & A2 & N2 & P2 & _ & Hp & _).
  rewrite E2 in E'. injection E' as <- <-.
  split_and!; try assumption; [lia |].
  unfold same_policy in *. congruence.
Qed.

Lemma bind_congr {A B} (m1 m2 : M A) (k1 k2 : A -> M B) s :
  m1 s = m2 s ->
  (forall a s', m2 s = (Ok a, s') -> k1 a s' = k2 a s') ->
  bind m1 k1 s = bind m2 k2 s.
Proof.
  intros Hm Hk. unfold bind. rewrite Hm.
  destruct (m2 s) as [[a|e] s'] eqn:E; [by apply Hk | reflexivity].
Qed.

Lemma Object_assign_loop proxy ps : forall s,
  arena_ok s -> proxy < nextNodeID s -> inSet s = false -> inAssign s = true ->
  forM ps (fun p =>
    ok <- proxyHandler_set proxy (KStr (fst p)) (snd p) ;;
    if ok then ret tt else throw TypeError) s =
  forM ps (fun p => setKey proxy (KStr (fst p)) (snd p) None ;;; ret tt) s.
Proof.
  induction ps as [|[name v] ps IH]; intros s A Hp Hs Ha; [reflexivity |].
  cbn [forM fst snd]. apply bind_congr.
  - unfold bind at 1. rewrite proxy_set_off by (assumption || (left; assumption)).
    unfold bind.
    destruct (setKey proxy (KStr name) v None s) as [[p|e] s']; reflexivity.
  - intros u s' E. apply bind_ok_inv in E as (p & s1 & E & [= _ <-]).
    destruct (setKey_ok_inv proxy (KStr name) v None s p s1 A Hp E)
      as (I' & A' & N' & P' & _).
    apply IH; try assumption; [lia |].
    unfold same_policy, policy_fields in P'. injection P' as _ _ _ Ha' _. congruence.
Qed.


End Assign.

(** ** [deleteFn] *)

Section Delete.

Variable call : nat -> value -> value.
Variable nullishPrimitive : bool.

Local Abbreviation setKey_write := (Observable.setKey_write call nullishPrimitive).
Local Abbreviation setKey := (Observable.setKey call nullishPrimitive).
Local Abbreviation deleteFn := (Observable.deleteFn call nullishPrimitive).
Local Abbreviation notify_optimized := (Inv.notify_optimized nullishPrimitive).

Lemma delete_target_bound s node k :
  arena_ok s -> node < nextNodeID s -> fst (delete_target s node k) < nextNodeID s.
Proof.
  intros A Hn. unfold delete_target.
  destruct k; try exact Hn.
  destruct (parent (get_node s node)) as [p|] eqn:Hp; [| exact Hn].
  pose proof (get_node_parent_ok s node p A Hp). cbn. lia.
Qed.

(** C7: [deleteFn] is [setKey] with the delete sentinel and level -1, on
    the parent and the node's own key when no key is given.  On an arena in
    order and a root that is not locked, once the write went through, the
    call returns; its [notify], if any, is at level -1 with [undefined] as
    new value; and the key is no more an own key of the container (for a
    write on the root itself, the root value is gone). *)
Theorem delete_is_set_with_sentinel (node : nat) (k : pkey) (s : state) :
  let target := delete_target s node k in
  deleteFn node k s =
    (setKey (fst target) (snd target) VSymbolUndef (Some (-1)%Z) ;;; ret tt) s /\
  (forall p, k = KUndefined -> parent (get_node s node) = Some p ->
             target = (p, key (get_node s node))) /\
  (arena_ok s -> node < nextNodeID s -> locked s = false ->
   forall l s1,
     setKey_write (fst target) (snd target) VSymbolUndef s = (Ok l, s1) ->
     exists s' dn,
       deleteFn node k s = (Ok tt, s') /\
       forallb is_doNotify dn = true /\
       trace s' =
         trace s1 ++ [EvBeginBatch] ++ dn ++
         (if w_isPrim l && strict_eq VUndefined (w_prevValue l) then []
          else [EvNotify (notify_target l) VUndefined (w_prevValue l) (-1)%Z
                  (notify_optimized l)]) ++
         [EvEndBatch] /\
       (if w_isRoot l then root_value s' = VUndefined
        else has_own (getNodeValue s' (w_node l)) (w_key l) = false)).
Proof.
  cbn zeta. split; [| split].
  - unfold Observable.deleteFn, delete_target. unfold bind at 1. unfold get_state at 1.
    reflexivity.
  - intros p -> Hp. unfold delete_target. by rewrite Hp.
  - intros A Hn Hl l s1 E.
    pose proof (delete_target_bound s node k A Hn) as Hb.
    destruct (setKey_write_spec call nullishPrimitive _ (snd (delete_target s node k))
                VSymbolUndef s A Hb) as [[W I] Q].
    rewrite E in W, I, Q. cbn [fst snd] in W, I, Q.
    destruct W as (A1 & N1 & P1).
    destruct Q as (Hn1 & Hc1 & Hdel & _ & Hlt & Hnew & _ & Hval).
    cbn in Hdel. rewrite Hdel in Hval. specialize (Hnew Hdel).
    destruct (setKey_notify_spec nullishPrimitive l (Some (-1)%Z) s1 A1 Hn1 Hc1)
      as (p & s' & E' & dn & Fdn & T & _ & _ & _ & _ & V & _ & L).
    exists s', dn. split; [| split; [exact Fdn | split]].
    + unfold Observable.deleteFn. unfold bind at 1. unfold get_state at 1.
      fold (delete_target s node k).
      unfold bind. rewrite setKey_unlocked by exact Hl. unfold bind.
      rewrite E, E'. reflexivity.
    + rewrite T, Hnew. reflexivity.
    + destruct (w_isRoot l) eqn:Hr.
      * rewrite V. exact Hval.
      * unfold getNodeValue in *. rewrite V.
        rewrite (node_path_links (w_node l) s1 s' A1); [exact Hval |].
        apply L, Hlt. reflexivity.
Qed.

End Delete.

(** ** Array moves *)

Section Moves.

Variable call : nat -> value -> value.
Variable nullishPrimitive : bool.

Local Abbreviation setKey_write := (Observable.setKey_write call nullishPrimitive).
Local Abbreviation setKey := (Observable.setKey call nullishPrimitive).

Lemma arena_okb_correct s : arena_okb s = true -> arena_ok s.
Proof.
  unfold arena_okb. rewrite forallb_forall. intros H.
  assert (Hn : forall n nd, nodes s !! n = Some nd ->
     (n <? nextNodeID s)%nat &&
     forallb (fun kc : pkey * nat => (n <? snd kc)%nat && (snd kc <? nextNodeID s)%nat)
       (map_to_list (children nd)) &&
     match parent nd with Some p => (p <? n)%nat | None => true end = true).
  { intros n nd E. apply (H (n, nd)). apply list_elem_of_In.
    by apply elem_of_map_to_list. }
  split; [| split].
  - intros n nd E. specialize (Hn n nd E).
    apply andb_true_iff in Hn as [Hn _]. apply andb_true_iff in Hn as [Hn _].
    by apply Nat.ltb_lt.
  - intros n nd k c E Ec. specialize (Hn n nd E).
    apply andb_true_iff in Hn as [Hn _]. apply andb_true_iff in Hn as [_ Hn].
    rewrite forallb_forall in Hn. specialize (Hn (k, c)).
    cbn [fst snd] in Hn. rewrite andb_true_iff, !Nat.ltb_lt in Hn. apply Hn.
    apply list_elem_of_In. by apply elem_of_map_to_list.
  - intros n nd p E Ep. specialize (Hn n nd E).
    apply andb_true_iff in Hn as [_ Hn]. rewrite Ep in Hn. by apply Nat.ltb_lt.
Qed.

End Moves.

(** * The theorems at work on the example trees *)

Section Closed.

Import Examples.

Local Abbreviation setKey := (Observable.setKey call_id nullish_primitive).
Local Abbreviation set_ := (Observable.set call_id nullish_primitive).
Local Abbreviation deleteFn := (Observable.deleteFn call_id nullish_primitive).

Lemma s_items_arena : arena_ok s_items.
Proof. apply arena_okb_correct. vm_compute. reflexivity. Qed.

Lemma s_record_arena : arena_ok s_record.
Proof. apply arena_okb_correct. vm_compute. reflexivity. Qed.

Lemma locked_write_rejected_witness :
  locked s_record_locked = true /\
  setKey 0 (KStr "user") (VObject 30 [("name", VString "b")]) None s_record_locked
    = (Throw LockedError, s_record_locked).
Proof.
  split; [reflexivity |].
  apply (locked_write_rejected call_id nullish_primitive s_record_locked).
  reflexivity.
Defined.

(** The claim of C2 fails where the length does not change: after
    [set([B, A])] over [[A, B]], the element with id 2 is at index 0, but
    index 0 still leads to node 1, the node that viewed id 1; node 2, which
    viewed id 2, is not reachable at the new index. *)
Lemma reorder_keeps_nodes_in_place :
  exists s',
    set_ 0 reordered s_items = (Ok 0, s') /\
    children (get_node s_items 0) !! KNum 1 = Some 2 /\
    get_named (getNodeValue s_items 2) "id" = VNumber 2 /\
    get_named (get_prop (root_value s') (KNum 0)) "id" = VNumber 2 /\
    children (get_node s' 0) !! KNum 0 = Some 1 /\
    children (get_node s' 0) !! KNum 0 <> Some 2.
Proof.
  eexists. split; [vm_compute; reflexivity |].
  split; [vm_compute; reflexivity |]. split; [vm_compute; reflexivity |].
  split; [vm_compute; reflexivity |]. split; [vm_compute; reflexivity |].
  vm_compute. discriminate.
Qed.

Lemma proxy_set_safe_mode_witness :
  inSet s_record = false /\ inAssign s_record = false /\
  exists s1,
    proxyHandler_set call_id nullish_primitive 0 (KStr "user") (VNumber 7) s_record
      = (Ok false, s1) /\
    root_value s1 = root_value s_record /\ trace s1 = trace s_record.
Proof.
  split; [reflexivity |]. split; [reflexivity |].
  pose proof (proxy_set_safe_mode call_id nullish_primitive 0 (KStr "user")
                (VNumber 7) s_record eq_refl eq_refl) as H.
  change (safeMode s_record) with DefaultSafe in H. cbv iota in H.
  destruct H as (c & s1 & E & Hr & Ht & H).
  exists s1. split; [| split; [exact Hr | exact Ht]].
  assert (Es : (c, s1) = (1, snd (getChildNode 0 (KStr "user") s_record))).
  { assert (E2 : getChildNode 0 (KStr "user") s_record
                 = (Ok 1, snd (getChildNode 0 (KStr "user") s_record)))
      by (vm_compute; reflexivity).
    rewrite E2 in E. by injection E as <- <-. }
  injection Es as -> ->. exact H.
Defined.

(** The claim of C5 fails in default safe mode: the delete trap is refused
    there too, where [deleteFn] would have removed the key. *)
Lemma delete_refused_in_default_mode :
  safeMode s_record = DefaultSafe /\ inSet s_record = false /\
  proxyHandler_deleteProperty call_id nullish_primitive false 0 (KStr "count") s_record
    = (Ok false, s_record) /\
  fst (deleteFn 0 (KStr "count") s_record) = Ok tt /\
  has_own (root_value s_record) (KStr "count") = true /\
  has_own (root_value (snd (deleteFn 0 (KStr "count") s_record))) (KStr "count") = false.
Proof.
  split; [reflexivity |]. split; [reflexivity |]. split; [vm_compute; reflexivity |].
  split; [vm_compute; reflexivity |]. split; vm_compute; reflexivity.
Qed.

Lemma proxy_delete_safe_mode_witness :
  inSet s_record = false /\
  proxyHandler_deleteProperty call_id nullish_primitive false 0 (KStr "count") s_record
    = (Ok false, s_record).
Proof.
  split; [reflexivity |].
  apply (proxy_delete_safe_mode call_id nullish_primitive false 0 (KStr "count")
           s_record eq_refl).
Defined.


Lemma delete_is_set_with_sentinel_witness :
  arena_ok s_record /\ 0 < nextNodeID s_record /\ locked s_record = false /\
  write_delete_count = (Ok (locals_of write_delete_count), snd write_delete_count) /\
  exists s',
    deleteFn 0 (KStr "count") s_record = (Ok tt, s') /\
    has_own (getNodeValue s' 0) (KStr "count") = false.
Proof.
  assert (A : arena_ok s_record) by exact s_record_arena.
  assert (N : 0 < nextNodeID s_record) by (vm_compute; lia).
  assert (W : write_delete_count
              = (Ok (locals_of write_delete_count), snd write_delete_count))
    by (vm_compute; reflexivity).
  split; [exact A |]. split; [exact N |]. split; [reflexivity |]. split; [exact W |].
  destruct (delete_is_set_with_sentinel call_id nullish_primitive 0 (KStr "count")
              s_record) as (_ & _ & H).
  destruct (H A N eq_refl (locals_of write_delete_count) (snd write_delete_count) W)
    as (s' & dn & E & _ & _ & Hgone).
  exists s'. split; [exact E | exact Hgone].
Defined.

Lemma locked_set_still_calls_updater_witness :
  locked s_five_locked = true /\
  ObservablePrimitiveClass.set call_id 0 (VFunction 7 []) s_five_locked =
    (Throw LockedError, with_trace [EvCall 7 (VNumber 5)] s_five_locked).
Proof.
  split; [reflexivity |].
  apply (locked_set_still_calls_updater call_id 0 s_five_locked 7 [] eq_refl).
Defined.

Lemma unlocked_set_always_notifies_witness :
  locked s_five = false /\ isFunction (VNumber 5) = false /\
  ObservablePrimitiveClass.set call_id 0 (VNumber 5) s_five =
    (Ok 0,
     with_trace [EvDoNotify 0 (VNumber 5) [] (VNumber 5) (VNumber 5) 0 None]
       (with_root_value (VNumber 5) s_five)).
Proof.
  split; [reflexivity |]. split; [reflexivity |].
  apply (unlocked_set_always_notifies call_id 0 s_five (VNumber 5) eq_refl eq_refl).
Defined.

End Closed.

(** * Further properties of the engine *)

Import Writes.

(** ** Values along a path *)

Section PathValues.

Lemma state_eta s :
  mkState (root_value s) (safeMode s) (locked s) (activate s) (nodes s)
    (nextNodeID s) (inSet s) (inAssign s) (isTracking s) (nextRef s) (trace s) = s.
Proof. destruct s; reflexivity. Qed.

Lemma falsy_string s : truthy (VString s) = false -> s = "".
Proof.
  cbn. destruct (String.eqb_spec s ""); [done | discriminate].
Qed.

Lemma falsy_get_prop v k : truthy v = false -> truthy (get_prop v k) = false.
Proof.
  intros H. destruct v; try discriminate H; try (by destruct k).
  apply falsy_string in H as ->.
  destruct k as [name|i| |]; cbn; try reflexivity.
  destruct (String.eqb name "length"); [reflexivity |].
  by destruct (index_of_name name).
Qed.

Lemma falsy_get_path path : forall v,
  truthy v = false -> truthy (get_path v path) = false.
Proof.
  induction path as [|k path IH]; intros v H; cbn; [exact H |].
  apply IH, falsy_get_prop, H.
Qed.

Lemma truthy_get_path_head path v :
  truthy (get_path v path) = true -> truthy v = true.
Proof.
  intros H. destruct (truthy v) eqn:E; [reflexivity |].
  by rewrite (falsy_get_path path v E) in H.
Qed.

Lemma is_reference_truthy v : is_reference v = true -> truthy v = true.
Proof. by destruct v. Qed.

(** [ensureNodeValue] creates nothing where the value is present. *)
Lemma ensure_path_present path : forall v ref,
  truthy (get_path v path) = true -> ensure_path v path ref = inl (v, ref).
Proof.
  induction path as [|k path IH]; intros v ref H.
  - cbn in *. by rewrite H.
  - pose proof (truthy_get_path_head _ _ H) as Hv.
    cbn [ensure_path]. rewrite Hv.
    change (get_path v (k :: path)) with (get_path (get_prop v k) path) in H.
    rewrite (IH _ ref H). by rewrite Nat.eqb_refl.
Qed.

Lemma ensureNodeValue_present n s :
  truthy (getNodeValue s n) = true ->
  ensureNodeValue n s = (Ok (getNodeValue s n), s).
Proof.
  intros H. unfold ensureNodeValue, getNodeValue in *.
  rewrite (ensure_path_present _ _ _ H). by destruct s.
Qed.

(** Writing a member back into the reference it was read from succeeds. *)
Lemma set_prop_member v k c :
  is_reference (get_prop v k) = true -> exists v', set_prop v k c = inl v'.
Proof.
  intros H. destruct (is_reference v) eqn:Hv.
  2:{ by rewrite (get_prop_not_reference v k Hv) in H. }
  unfold set_prop. destruct (prop_name k) as [name|] eqn:Ek.
  2:{ destruct k; try discriminate Ek. discriminate H. }
  rewrite (get_prop_named v k name Ek) in H.
  destruct v; try discriminate Hv; cbn -[elem_index put_own] in *; eauto.
  destruct (String.eqb name "length"); [discriminate H |].
  destruct (elem_index elems name); eauto.
Qed.

(** The update of a path fails only where the update of the leaf fails. *)
Lemma update_path_total f path : forall v c,
  f (get_path v path) = inl c -> exists v', update_path v path f = inl v'.
Proof.
  induction path as [|k path IH]; intros v c H; cbn [update_path].
  - cbn in H. eauto.
  - change (get_path v (k :: path)) with (get_path (get_prop v k) path) in H.
    destruct (IH _ _ H) as (c' & ->).
    destruct (is_reference (get_prop v k)) eqn:Hr; [| eauto].
    by apply set_prop_member.
Qed.

Lemma get_path_app v p q : get_path v (p ++ q) = get_path (get_path v p) q.
Proof. unfold get_path. apply fold_left_app. Qed.

Lemma get_path_reference path : forall v,
  is_reference (get_path v path) = true -> path = [] \/ is_reference v = true.
Proof.
  induction path as [|k path IH]; intros v H; [by left |]. right.
  change (get_path v (k :: path)) with (get_path (get_prop v k) path) in H.
  destruct (is_reference v) eqn:Hv; [reflexivity |].
  destruct (IH _ H) as [->|Hr].
  - cbn in H. by rewrite (get_prop_not_reference v k) in H.
  - by rewrite (get_prop_not_reference v k) in Hr.
Qed.

End PathValues.

(** ** A write into a container that is present *)

Section PlainWrite.

Variable call : nat -> value -> value.
Variable nullishPrimitive : bool.

Local Abbreviation isPrimitive := (Observable.isPrimitive nullishPrimitive).
Local Abbreviation setKey_write := (Observable.setKey_write call nullishPrimitive).
Local Abbreviation setKey_notify := (Observable.setKey_notify nullishPrimitive).
Local Abbreviation setKey := (Observable.setKey call nullishPrimitive).
Local Abbreviation plain_write := (Writes.plain_write nullishPrimitive).

Lemma reference_not_primitive v : is_reference v = true -> isPrimitive v = false.
Proof. by destruct v. Qed.

Lemma getNodeValue_ext s s' n :
  nodes s' = nodes s -> root_value s' = root_value s ->
  getNodeValue s' n = getNodeValue s n.
Proof.
  intros Hn Hr. unfold getNodeValue. by rewrite (node_path_ext s s' n Hn), Hr.
Qed.

Lemma getChildNode_getNodeValue p k s n :
  arena_ok s -> n < nextNodeID s ->
  getNodeValue (snd (getChildNode p k s)) n = getNodeValue s n.
Proof.
  intros A Hn. unfold getNodeValue.
  rewrite (node_path_links n s _ A (getChildNode_links p k s n Hn)).
  destruct (getChildNode_value_trace p k s) as (c & s' & E & R & _).
  rewrite E. cbn [snd]. by rewrite R.
Qed.

Lemma filter_doNotify_calls dn :
  forallb is_doNotify dn = true -> List.filter is_call dn = [].
Proof.
  induction dn as [|e dn IH]; [reflexivity |]. cbn.
  intros [He Hdn]%andb_prop. rewrite (IH Hdn). by destruct e.
Qed.

Lemma resolve_events_calls a prev v :
  List.filter is_call (resolve_events a prev v) = resolve_events a prev v.
Proof. destruct v; try reflexivity. by destruct a. Qed.

Lemma setKey_write_plain node k v s c s1 :
  arena_ok s -> node < nextNodeID s ->
  plain_write s node k v ->
  getChildNode node k (with_inSet true s) = (Ok c, s1) ->
  let prev := get_prop (getNodeValue s node) k in
  let x := resolve_value call (inAssign s) prev v in
  let s2 := with_trace ((trace s1 ++ [EvUntrack c])
                        ++ resolve_events (inAssign s) prev v) s1 in
  setKey_write node k v s =
    match update_path (root_value s) (node_path s node) (fun y => set_prop y k x) with
    | inl r => (Ok (mkLocals node c false k (isPrimitive v) false x prev),
                with_root_value r s2)
    | inr e => (Throw e, s2)
    end.
Proof.
  intros A Hn (Href & Hk & Hv & Hroot) Ec prev x s2.
  assert (A0 : arena_ok (with_inSet true s)) by exact A.
  pose proof (getChildNode_getNodeValue node k (with_inSet true s) node A0 Hn) as Hval.
  rewrite Ec in Hval. cbn [snd] in Hval.
  rewrite (getNodeValue_ext s (with_inSet true s) node eq_refl eq_refl) in Hval.
  assert (Hpath : node_path s1 node = node_path s node).
  { pose proof (node_path_links node (with_inSet true s) _ A0
                  (getChildNode_links node k (with_inSet true s) node Hn)) as P.
    rewrite Ec in P. cbn [snd] in P. rewrite P.
    apply node_path_ext. reflexivity. }
  destruct (getChildNode_value_trace node k (with_inSet true s))
    as (c' & s1' & E' & R & _).
  rewrite Ec in E'. injection E' as <- <-.
  unfold Observable.setKey_write.
  unfold bind at 1. unfold get_state at 1. cbn zeta.
  set (isDelete := strict_eq v VSymbolUndef).
  assert (Hd : isDelete = false) by exact Hv.
  clearbody isDelete. subst isDelete. cbn iota.
  set (unwrap := isPrimitive v && bool_decide (k = KStr "value")
                 && isPrimitive (getNodeValue s node)).
  assert (Hu : unwrap = false).
  { unfold unwrap. by rewrite (reference_not_primitive _ Href), andb_false_r. }
  clearbody unwrap. subst unwrap. cbn iota.
  unfold bind at 1. unfold modify at 1.
  assert (Hroot' :
    bool_decide (k = KSymbolUndef)
    || negb (bool_decide (is_Some (parent (get_node s node))))
       && bool_decide (k = KStr "value") && isPrimitive v = false).
  { rewrite bool_decide_eq_false_2 by exact Hk. cbn [orb].
    destruct (parent (get_node s node)) eqn:Hp.
    - rewrite bool_decide_eq_true_2 by eauto. reflexivity.
    - rewrite (bool_decide_eq_false_2 (is_Some None)) by (by intros [? ?]).
      cbn [negb andb].
      destruct (decide (k = KStr "value")) as [Hkv|Hkv].
      + rewrite (Hroot eq_refl Hkv). apply andb_false_r.
      + by rewrite bool_decide_eq_false_2. }
  set (isRoot := bool_decide (k = KSymbolUndef)
    || negb (bool_decide (is_Some (parent (get_node s node))))
       && bool_decide (k = KStr "value") && isPrimitive v) in *.
  clearbody isRoot. subst isRoot. cbn iota.
  unfold bind at 1. rewrite Ec.
  unfold bind at 1. unfold untrack at 1, emit at 1, modify at 1.
  set (s1u := with_trace (trace s1 ++ [EvUntrack c]) s1).
  assert (Hval2 : getNodeValue s1u node = getNodeValue s node).
  { by rewrite (getNodeValue_ext s1 s1u node eq_refl eq_refl). }
  unfold bind at 1. unfold bind at 1.
  rewrite ensureNodeValue_present
    by (rewrite Hval2; by apply is_reference_truthy).
  unfold ret at 1. unfold bind at 1. unfold container_get at 1. rewrite Hval2.
  fold prev.
  assert (Enew :
    (match v with
     | VFunction f _ =>
         if negb (inAssign s)
         then emit (EvCall f prev) ;;; ret (call f prev)
         else ret v
     | _ => ret v
     end) s1u = (Ok x, s2)).
  { unfold x, s2, resolve_value, resolve_events.
    destruct v; try (unfold ret; rewrite app_nil_r; by destruct s1).
    destruct (inAssign s); cbn [negb].
    - unfold ret. rewrite app_nil_r. by destruct s1.
    - reflexivity. }
  unfold bind at 1. rewrite Enew.
  unfold bind at 1. unfold container_set, container_update.
  change (root_value s2) with (root_value s1). rewrite R.
  rewrite (node_path_ext s1 s2 node eq_refl), Hpath.
  change (root_value (with_inSet true s)) with (root_value s).
  destruct (update_path (root_value s) (node_path s node) (fun y => set_prop y k x));
    reflexivity.
Qed.

Lemma set_prop_keeps x k v y :
  set_prop x k v = inl y -> is_reference x = false -> y = x.
Proof. intros H Hr. apply set_prop_reference in H. congruence. Qed.

(** [setKey] on a container that is present: the call returns, and the value
    tree is the one the assignment [container[k] = x] leaves, [x] being the
    value the write stores. *)
Lemma setKey_plain node k v lvl s v' :
  arena_ok s -> node < nextNodeID s -> locked s = false ->
  plain_write s node k v ->
  let prev := get_prop (getNodeValue s node) k in
  let x := resolve_value call (inAssign s) prev v in
  set_prop (getNodeValue s node) k x = inl v' ->
  exists p s',
    setKey node k v lvl s = (Ok p, s') /\
    update_path (root_value s) (node_path s node) (fun y => set_prop y k x)
      = inl (root_value s') /\
    getNodeValue s' node = v' /\
    node_path s' node = node_path s node /\
    links_kept node s s' /\
    arena_ok s' /\ nextNodeID s <= nextNodeID s' /\ same_policy s s' /\
    inSet s' = false /\ p < nextNodeID s' /\
    exists evs, trace s' = trace s ++ evs /\
                List.filter is_call evs = resolve_events (inAssign s) prev v.
Proof.
  intros A Hn Hl Hplain prev x Hset.
  assert (A0 : arena_ok (with_inSet true s)) by exact A.
  destruct (getChildNode_spec node k (with_inSet true s) A0 Hn)
    as (c & s1 & Ec & L & Ht & _ & Hnc & Hc & _).
  destruct L as [(R1 & _ & A1 & N1 & B1) _].
  destruct (update_path_total (fun y => set_prop y k x) (node_path s node)
              (root_value s) v' Hset) as (r & Er).
  pose proof (setKey_write_plain node k v s c s1 A Hn Hplain Ec) as Ew.
  cbn zeta in Ew. fold prev in Ew. fold x in Ew.
  rewrite Er in Ew.
  set (l := mkLocals node c false k (isPrimitive v) false x prev) in Ew.
  set (s2 := with_root_value r
               (with_trace ((trace s1 ++ [EvUntrack c])
                            ++ resolve_events (inAssign s) prev v) s1)) in Ew.
  assert (A2 : arena_ok s2) by (by apply (arena_ok_ext s1)).
  assert (Hn2 : node < nextNodeID s2) by (cbn in *; lia).
  destruct (setKey_notify_spec nullishPrimitive l lvl s2 A2 Hn2 Hc)
    as (p & s' & En & dn & Hdn & Tr & I & A' & N' & P' & Rv & Hp & Lk & _).
  specialize (Lk Hnc). cbn [w_node l] in Lk.
  assert (L01 : links_kept node s s2).
  { pose proof (getChildNode_links node k (with_inSet true s) node Hn) as L0.
    rewrite Ec in L0. exact L0. }
  assert (Lss : links_kept node s s') by (eapply links_kept_trans; eassumption).
  assert (Hpath : node_path s' node = node_path s node)
    by (by apply node_path_links).
  exists p, s'. split_and!; try assumption.
  - rewrite setKey_unlocked by exact Hl. unfold bind. by rewrite Ew.
  - by rewrite Rv.
  - unfold getNodeValue. rewrite Hpath, Rv. cbn [s2 root_value with_root_value].
    pose proof (get_path_update_path _ (fun y z => set_prop_keeps y k x z)
                  _ _ _ Er) as G.
    unfold getNodeValue in Hset. congruence.
  - cbn in *. lia.
  - apply same_root_policy in R1 as [P1 _].
    unfold same_policy in *.
    transitivity (policy_fields s1); [exact P' | exact P1].
  - eexists. split.
    + rewrite Tr. subst s2. cbn [trace with_trace with_root_value].
      rewrite Ht. cbn [trace with_inSet]. rewrite <- !app_assoc. reflexivity.
    + rewrite !List.filter_app. cbn [List.filter is_call app].
      rewrite (filter_doNotify_calls dn Hdn).
      rewrite (resolve_events_calls (inAssign s) prev v).
      destruct (w_isPrim l && strict_eq (w_newValue l) (w_prevValue l));
        cbn; by rewrite app_nil_r.
Qed.

End PlainWrite.

(** ** [assign] into an object *)

Section AssignObject.

Variable call : nat -> value -> value.
Variable nullishPrimitive : bool.

Local Abbreviation isPrimitive := (Observable.isPrimitive nullishPrimitive).
Local Abbreviation setKey := (Observable.setKey call nullishPrimitive).
Local Abbreviation proxyHandler_set :=
  (Observable.proxyHandler_set call nullishPrimitive).
Local Abbreviation assign := (Observable.assign call nullishPrimitive).
Local Abbreviation assignable := (Writes.assignable nullishPrimitive).

Lemma is_root_links n s s' : links_kept n s s' -> is_root s' n = is_root s n.
Proof. intros L. unfold is_root. by destruct (L n (Nat.le_refl n)) as [-> _]. Qed.

Lemma Object_assign_object proxy qs : forall s r ps,
  arena_ok s -> proxy < nextNodeID s -> locked s = false ->
  inSet s = false -> inAssign s = true ->
  getNodeValue s proxy = VObject r ps ->
  Forall (assignable (is_root s proxy)) qs ->
  exists s',
    Object_assign call nullishPrimitive proxy (VObject 0 qs) s = (Ok tt, s') /\
    getNodeValue s' proxy = VObject r (merge_props ps qs) /\
    arena_ok s' /\ nextNodeID s <= nextNodeID s' /\ same_policy s s' /\
    inSet s' = false /\ links_kept proxy s s' /\
    exists evs, trace s' = trace s ++ evs.
Proof.
  unfold Object_assign. cbn [own_props].
  induction qs as [|[name x] qs IH]; intros s r ps A Hp Hl Hs Ha Hv Hq.
  - exists s. split_and!; try done.
    exists []. by rewrite app_nil_r.
  - apply Forall_cons in Hq as [[Hx Hroot] Hq]. cbn [fst snd] in Hx, Hroot.
    assert (Hplain : plain_write nullishPrimitive s proxy (KStr name) x).
    { split_and!; try done.
      - by rewrite Hv.
      - intros Hpar [= ->]. apply Hroot; [| reflexivity].
        unfold is_root. by rewrite Hpar. }
    assert (Hres : resolve_value call (inAssign s)
                     (get_prop (getNodeValue s proxy) (KStr name)) x = x).
    { rewrite Ha. by destruct x. }
    destruct (setKey_plain call nullishPrimitive proxy (KStr name) x None s
                (VObject r (put_own name x ps)) A Hp Hl Hplain)
      as (p & s1 & E & _ & Hv1 & _ & L1 & A1 & N1 & P1 & I1 & _ & evs1 & T1 & _).
    { rewrite Hres. by rewrite Hv. }
    assert (Hpol : locked s1 = false /\ inAssign s1 = true).
    { unfold same_policy, policy_fields in P1.
      injection P1 as _ Hl1 _ Ha1 _. split; congruence. }
    destruct Hpol as [Hl1 Ha1].
    destruct (IH s1 r (put_own name x ps)) as
      (s' & E' & Hv' & A' & N' & P' & I' & L' & evs' & T'); try assumption.
    { lia. }
    { by rewrite (is_root_links proxy s s1 L1). }
    exists s'. split_and!; try assumption.
    + cbn [forM fst snd]. unfold bind at 1. unfold bind at 1.
      rewrite (proxy_set_off call nullishPrimitive) by (assumption || (by left)).
      unfold bind at 1. rewrite E. exact E'.
    + lia.
    + unfold same_policy in *. congruence.
    + eapply links_kept_trans; eassumption.
    + exists (evs1 ++ evs'). by rewrite T', T1, app_assoc.
Qed.

Lemma getProxy_self node s :
  getProxy node KUndefined s =
    (Ok node,
     if proxy (get_node s node) then s
     else put_node node (node_with_proxy true (get_node s node)) s).
Proof.
  unfold getProxy. rewrite bool_decide_eq_true_2 by reflexivity.
  unfold bind, ret, get_state, modify. by destruct (proxy (get_node s node)).
Qed.

Lemma getNodeValue_root_reference s n :
  is_reference (getNodeValue s n) = true -> isPrimitive (root_value s) = false.
Proof.
  intros H. apply reference_not_primitive. unfold getNodeValue in H.
  destruct (get_path_reference _ _ H) as [E|E]; [| exact E].
  by rewrite E in H.
Qed.

(** X6: [assign(node, v)] where the value at the node is a plain object:
    the call returns the proxy of the node, and the object at the node keeps
    its identity and holds what [Object.assign] on the raw object gives: each
    own property of [v] written in order over the properties it had, a
    function value stored as it is (not called as an updater).  The writes
    run inside one batch, and [inAssign] is cleared at the end. *)
Theorem assign_merges_into_object (node : nat) (v : value) (s : state)
    (r : nat) (ps : list (string * value)) :
  arena_ok s -> node < nextNodeID s -> locked s = false -> inSet s = false ->
  getNodeValue s node = VObject r ps ->
  Forall (assignable (is_root s node)) (own_props v) ->
  exists s' evs,
    assign node v s = (Ok node, s') /\
    getNodeValue s' node = VObject r (merge_props ps (own_props v)) /\
    trace s' = trace s ++ [EvBeginBatch] ++ evs ++ [EvEndBatch] /\
    inAssign s' = false /\ inSet s' = false /\ arena_ok s'.
Proof.
  intros A Hn Hl Hs Hv Hq.
  unfold Observable.assign. unfold bind at 1. rewrite getProxy_self.
  set (s1 := if proxy (get_node s node) then s
             else put_node node (node_with_proxy true (get_node s node)) s).
  assert (H1 : arena_ok s1 /\ links_kept node s s1 /\ root_fields s1 = root_fields s
               /\ trace s1 = trace s /\ nextNodeID s1 = nextNodeID s).
  { unfold s1. destruct (proxy (get_node s node)).
    - split_and!; try done.
    - split_and!; try done.
      + by apply put_node_arena.
      + by apply links_kept_put. }
  destruct H1 as (A1 & L1 & R1 & T1 & N1).
  assert (Hv1 : getNodeValue s1 node = VObject r ps).
  { unfold getNodeValue. rewrite (node_path_links node s s1 A L1).
    rewrite (same_root_value s s1 R1). exact Hv. }
  unfold bind at 1. unfold beginBatch at 1, emit at 1, modify at 1.
  set (s2 := with_trace (trace s1 ++ [EvBeginBatch]) s1).
  unfold bind at 1. unfold get_state at 1.
  assert (Hprim : isPrimitive (root_value s2) = false).
  { apply (getNodeValue_root_reference s1 node). by rewrite Hv1. }
  rewrite Hprim. cbn [when]. unfold bind at 1. unfold ret at 1.
  unfold bind at 1. unfold modify at 1.
  set (s3 := with_inAssign true s2).
  assert (Hv3 : getNodeValue s3 node = VObject r ps).
  { by rewrite (getNodeValue_ext s1 s3 node eq_refl eq_refl). }
  apply same_root_policy in R1 as [P1 I1].
  assert (Hl3 : locked s3 = false).
  { unfold same_policy, policy_fields in P1. injection P1 as _ Hl1 _ _ _.
    cbn. congruence. }
  assert (L3 : links_kept node s s3) by exact L1.
  destruct (Object_assign_object node (own_props v) s3 r ps)
    as (s4 & E4 & Hv4 & A4 & N4 & P4 & I4 & L4 & evs & T4); try done.
  { cbn. lia. }
  { cbn. congruence. }
  { by rewrite (is_root_links node s s3 L3). }
  unfold bind at 1.
  change (Object_assign call nullishPrimitive node v s3)
    with (Object_assign call nullishPrimitive node (VObject 0 (own_props v)) s3).
  rewrite E4.
  exists (with_trace (trace (with_inAssign false s4) ++ [EvEndBatch])
            (with_inAssign false s4)), evs.
  split_and!; try done.
  - rewrite <- Hv4. by apply getNodeValue_ext.
  - cbn. rewrite T4. cbn. rewrite T1. by rewrite <- !app_assoc.
Qed.

End AssignObject.

(** ** What [updateNodes] returns *)

Section DiffResult.

Variable nullishPrimitive : bool.

Local Abbreviation isPrimitive := (Observable.isPrimitive nullishPrimitive).
Local Abbreviation loop_step := (Observable.loop_step nullishPrimitive).
Local Abbreviation updateNodes_body := (Observable.updateNodes_body nullishPrimitive).
Local Abbreviation updateNodes_fuel := (Observable.updateNodes_fuel nullishPrimitive).
Local Abbreviation updateNodes := (Observable.updateNodes nullishPrimitive).

(** A loop over keys whose values did not change does nothing. *)
Lemma main_loop_no_diff rec p obj prev isArr isArrDiff idField keyMap ks vars s :
  Forall (fun k => strict_eq (get_prop obj k) (get_prop prev k) = true) ks ->
  foldM (loop_step rec p obj prev isArr isArrDiff idField keyMap) ks vars s
    = (Ok vars, s).
Proof.
  induction 1 as [|k ks Hk _ IH]; cbn [foldM]; [reflexivity |].
  unfold bind at 1. unfold Observable.loop_step at 1. cbn zeta.
  rewrite Hk. cbn [negb]. unfold ret at 1. exact IH.
Qed.

Lemma same_elements_keys r es ps r' es' ps' :
  length es = length es' ->
  (forall i, i < length es -> strict_eq (elem_at es i) (elem_at es' i) = true) ->
  Forall (fun k => strict_eq (get_prop (VArray r es ps) k)
                             (get_prop (VArray r' es' ps') k) = true)
    (loop_keys (VArray r es ps)).
Proof.
  intros Hlen H. cbn [loop_keys]. apply Forall_fmap, Forall_forall.
  intros i Hi. apply elem_of_seq in Hi. cbn [compose].
  rewrite !get_prop_elem by lia. apply H. lia.
Qed.

(** An array set over an array of the same length whose elements are the
    same ([===], index by index): the diff finds nothing, does nothing. *)
Lemma updateNodes_same_elements p r es ps r' es' ps' s :
  length es = length es' ->
  (forall i, i < length es -> strict_eq (elem_at es i) (elem_at es' i) = true) ->
  updateNodes p (VArray r es ps) (VArray r' es' ps') s = (Ok (Some false), s).
Proof.
  intros Hlen Hel. unfold Observable.updateNodes.
  cbn [Observable.updateNodes_fuel]. unfold Observable.updateNodes_body.
  destruct (move_index (VArray r es ps) (VArray r' es' ps')) as [idField keyMap].
  cbn [isArray andb truthy]. unfold bind at 1. unfold ret at 1.
  assert (Hd : negb true ||
               negb (strict_eq (get_named (VArray r es ps) "length")
                               (get_named (VArray r' es' ps') "length")) = false).
  { cbn. rewrite Hlen, Z.eqb_refl. reflexivity. }
  rewrite Hd. unfold bind at 1.
  rewrite main_loop_no_diff by (by apply same_elements_keys).
  cbn [moved hasADiff didMove orb].
  destruct keyMap; reflexivity.
Qed.

Lemma detect_move_hasADiff p prev isArr isArrDiff keyMap k v id child isDiff vars s r s' :
  detect_move p prev isArr isArrDiff keyMap k v id child isDiff vars s = (Ok r, s') ->
  hasADiff (snd r) = hasADiff vars.
Proof.
  unfold detect_move.
  destruct (isArr && negb (is_undefined id)); [| by intros [= <- _]].
  destruct (keyMap ≫= keyMap_get id) as [keyChild|]; [| by intros [= <- _]].
  destruct (negb (bool_decide (KNum keyChild = k))); [| by intros [= <- _]].
  intros E. apply bind_ok_inv in E as ([c vars1] & s1 & E1 & [= <- _]).
  cbn [fst snd hasADiff].
  destruct isArrDiff.
  - apply bind_ok_inv in E1 as (c' & s2 & _ & E1).
    apply bind_ok_inv in E1 as (u & s3 & _ & [= _ <- _]). reflexivity.
  - by injection E1 as _ <- _.
Qed.

Lemma loop_step_hasADiff rec p obj prev isArr isArrDiff idField keyMap vars k s vars' s' :
  loop_step rec p obj prev isArr isArrDiff idField keyMap vars k s = (Ok vars', s') ->
  hasADiff vars = true -> hasADiff vars' = true.
Proof.
  unfold Observable.loop_step. cbn zeta.
  destruct (negb (strict_eq (get_prop obj k) (get_prop prev k)));
    [| by intros [= <- _]].
  intros E Hd.
  apply bind_ok_inv in E as (child & s1 & _ & E).
  apply bind_ok_inv in E as (mr & s2 & Em & E).
  apply detect_move_hasADiff in Em.
  apply bind_ok_inv in E as (vars2 & s3 & E2 & E).
  apply bind_ok_inv in E as (s3' & s3'' & _ & E).
  apply bind_ok_inv in E as (u & s4 & _ & [= <- _]).
  destruct (snd (fst mr)).
  - apply bind_ok_inv in E2 as (u' & s5 & _ & [= <- _]). reflexivity.
  - injection E2 as <- _. congruence.
Qed.

Lemma main_loop_hasADiff rec p obj prev isArr isArrDiff idField keyMap ks :
  forall vars s vars' s',
  foldM (loop_step rec p obj prev isArr isArrDiff idField keyMap) ks vars s
    = (Ok vars', s') ->
  hasADiff vars = true -> hasADiff vars' = true.
Proof.
  induction ks as [|k ks IH]; intros vars s vars' s'; cbn [foldM].
  - by intros [= <- _].
  - intros E Hd. apply bind_ok_inv in E as (vars1 & s1 & E1 & E).
    eapply IH; [exact E |]. eapply loop_step_hasADiff; eassumption.
Qed.

(** Where the new value is not an array, [updateNodes] returns [true] as
    soon as the new or the previous value is there, whatever they hold; it
    returns nothing ([undefined]) when both are absent. *)
Lemma updateNodes_not_array p obj prev s :
  arena_ok s -> p < nextNodeID s -> isArray obj = false ->
  exists s',
    updateNodes p obj prev s =
      (Ok (if truthy obj || truthy prev then Some true else None), s').
Proof.
  intros A Hp Ha.
  destruct (updateNodes_spec nullishPrimitive p obj prev s A Hp) as (d & s' & E & _).
  exists s'. rewrite E. f_equal. f_equal.
  unfold Observable.updateNodes in E. cbn [Observable.updateNodes_fuel] in E.
  unfold Observable.updateNodes_body in E.
  destruct (move_index obj prev) as [idField keyMap].
  apply bind_ok_inv in E as (u & s0 & _ & E).
  destruct (truthy obj) eqn:Ht; cbn [orb].
  - apply bind_ok_inv in E as (vars & s1 & E1 & E).
    apply bind_ok_inv in E as (u' & s2 & _ & [= <- _]).
    apply main_loop_hasADiff in E1; [| by rewrite Ha]. by rewrite E1.
  - destruct (truthy prev); by injection E as <- _.
Qed.

(** An array set where the length changes has a diff from the start. *)
Lemma updateNodes_length_changed p r es ps prev s :
  arena_ok s -> p < nextNodeID s ->
  strict_eq (VNumber (Z.of_nat (length es))) (get_named prev "length") = false ->
  exists s', updateNodes p (VArray r es ps) prev s = (Ok (Some true), s').
Proof.
  intros A Hp Hlen.
  destruct (updateNodes_spec nullishPrimitive p (VArray r es ps) prev s A Hp)
    as (d & s' & E & _).
  exists s'. rewrite E. f_equal. f_equal.
  unfold Observable.updateNodes in E. cbn [Observable.updateNodes_fuel] in E.
  unfold Observable.updateNodes_body in E.
  destruct (move_index (VArray r es ps) prev) as [idField keyMap].
  apply bind_ok_inv in E as (u & s0 & _ & E).
  cbn [truthy] in E.
  apply bind_ok_inv in E as (vars & s1 & E1 & E).
  apply bind_ok_inv in E as (u' & s2 & _ & [= <- _]).
  apply main_loop_hasADiff in E1; [by rewrite E1 |].
  cbn [hasADiff isArray negb orb get_named String.eqb Ascii.eqb Bool.eqb].
  by rewrite Hlen.
Qed.

End DiffResult.

(** ** The level hint of a write, and what the diff reports *)

Section NotifyLevels.

Variable call : nat -> value -> value.
Variable nullishPrimitive : bool.

Local Abbreviation isPrimitive := (Observable.isPrimitive nullishPrimitive).
Local Abbreviation updateNodes := (Observable.updateNodes nullishPrimitive).
Local Abbreviation setKey_write := (Observable.setKey_write call nullishPrimitive).
Local Abbreviation setKey := (Observable.setKey call nullishPrimitive).
Local Abbreviation diff_found := (Inv.diff_found nullishPrimitive).
Local Abbreviation diff_ran := (Inv.diff_ran nullishPrimitive).
Local Abbreviation notify_optimized := (Inv.notify_optimized nullishPrimitive).

Lemma strict_eq_isPrimitive a b :
  strict_eq a b = true -> isPrimitive b = isPrimitive a.
Proof. destruct a, b; try discriminate; reflexivity. Qed.


End NotifyLevels.

(** ** Frames of [updateNodes], in general *)

Section Frame.

Variable nullishPrimitive : bool.

Local Abbreviation isPrimitive := (Observable.isPrimitive nullishPrimitive).
Local Abbreviation loop_step := (Observable.loop_step nullishPrimitive).
Local Abbreviation removed_step := (Observable.removed_step nullishPrimitive).
Local Abbreviation updateNodes_body := (Observable.updateNodes_body nullishPrimitive).
Local Abbreviation updateNodes_fuel := (Observable.updateNodes_fuel nullishPrimitive).
Local Abbreviation updateNodes := (Observable.updateNodes nullishPrimitive).

(** A relation between the state before and after the diff of a node that
    every step of [updateNodes] respects. *)
Variable R : nat -> state -> state -> Prop.

Hypothesis R_refl : forall p s, R p s s.
Hypothesis R_trans : forall p s1 s2 s3, R p s1 s2 -> R p s2 s3 -> R p s1 s3.
Hypothesis R_mono : forall p c s s', p < c -> R c s s' -> R p s s'.
Hypothesis R_child : forall p k s,
  arena_ok s -> p < nextNodeID s -> R p s (snd (getChildNode p k s)).
Hypothesis R_rekey : forall p c k s,
  arena_ok s -> p < c -> c < nextNodeID s ->
  R p s (put_node c (node_with_key k (get_node s c)) s).
Hypothesis R_link : forall p k c s,
  arena_ok s -> p < nextNodeID s -> p < c -> c < nextNodeID s ->
  R p s (put_node p (node_with_children (<[k := c]> (children (get_node s p)))
                       (get_node s p)) s).
Hypothesis R_notify : forall p c v pv o s,
  arena_ok s -> p < c -> c < nextNodeID s -> has_listeners s c = true ->
  R p s (with_trace (trace s ++ [EvDoNotify c v [] v pv 0 o]) s).

Local Abbreviation rec_framed m rec :=
  (forall c obj prev s,
     vsize obj + vsize prev < m -> arena_ok s -> c < nextNodeID s ->
     R c s (snd (rec c obj prev s))).

Lemma framed_step {A B} p (m : M A) (k : A -> M B) s a s1 :
  m s = (Ok a, s1) -> R p s s1 -> R p s1 (snd (k a s1)) ->
  R p s (snd (bind m k s)).
Proof.
  intros E H1 H2. unfold bind. rewrite E. eapply R_trans; eassumption.
Qed.

Lemma when_doNotify_framed p b c v pv o s :
  arena_ok s -> p < c -> c < nextNodeID s -> (b = true -> has_listeners s c = true) ->
  R p s (snd (when b (doNotify c v [] v pv 0 o) s)).
Proof.
  intros A Hpc Hc Hb. destruct b; cbn; [| apply R_refl].
  apply R_notify; auto.
Qed.

Lemma rec_child_framed m (rec : nat -> value -> value -> M (option bool)) p child obj prev b s :
  rec_framed m rec -> (b = true -> vsize obj + vsize prev < m) ->
  arena_ok s -> p < child -> child < nextNodeID s ->
  R p s (snd ((if b then rec child obj prev ;;; ret tt else ret tt) s)).
Proof.
  intros Hrec Hw A Hpc Hc. destruct b; [| apply R_refl].
  specialize (Hrec child obj prev s (Hw eq_refl) A Hc).
  unfold bind. destruct (rec child obj prev s) as [[d|e] s1]; cbn [snd] in *;
    by apply (R_mono p child).
Qed.

Lemma detect_move_framed p prevValue isArr isArrDiff keyMap k v id child isDiff vars s :
  arena_ok s -> p < nextNodeID s ->
  R p s (snd (detect_move p prevValue isArr isArrDiff keyMap k v id child isDiff vars s)).
Proof.
  intros A Hp. unfold detect_move.
  destruct (isArr && negb (is_undefined id)); [| apply R_refl].
  destruct (keyMap ≫= keyMap_get id) as [keyChild|]; [| apply R_refl].
  destruct (negb (bool_decide (KNum keyChild = k))); [| apply R_refl].
  destruct isArrDiff; [| apply R_refl].
  destruct (getChildNode_spec p (KNum keyChild) s A Hp)
    as (c & s1 & E & L1 & _ & _ & Hpc1 & Hc1 & _).
  pose proof (R_child p (KNum keyChild) s A Hp) as R1. rewrite E in R1.
  unfold bind at 1. unfold bind at 1. rewrite E.
  unfold bind at 1. unfold modify at 1. unfold ret. cbn [snd].
  eapply R_trans; [exact R1 |].
  apply R_rekey; [eapply loop_post_arena; exact L1 | exact Hpc1 | exact Hc1].
Qed.

Lemma removed_step_framed m (rec : nat -> value -> value -> M (option bool)) p obj prev name s :
  rec_ok m rec -> rec_framed m rec ->
  vsize obj + vsize prev <= m -> truthy prev = true ->
  arena_ok s -> p < nextNodeID s ->
  R p s (snd (removed_step rec p obj prev name s)).
Proof.
  intros Hok Hrec Hm Ht A Hp. unfold Observable.removed_step.
  destruct (keys_includes obj name); [apply R_refl |].
  destruct (getChildNode_spec p (KStr name) s A Hp)
    as (child & s1 & E1 & L1 & _ & _ & Hpc & Hc & _).
  pose proof (R_child p (KStr name) s A Hp) as R1. rewrite E1 in R1.
  pose proof (loop_post_arena _ _ _ L1) as A1.
  eapply framed_step; [exact E1 | exact R1 |]. cbn beta zeta.
  assert (Hw : negb (isPrimitive (get_prop prev (KStr name))) = true ->
               vsize VUndefined + vsize (get_prop prev (KStr name)) < m).
  { intros Hnp. apply negb_true_iff in Hnp.
    pose proof (removed_weight nullishPrimitive obj prev (KStr name) Hnp Ht). lia. }
  destruct (rec_child_spec m rec p child VUndefined (get_prop prev (KStr name))
              (negb (isPrimitive (get_prop prev (KStr name)))) s1 Hok Hw A1 Hpc Hc)
    as (u & s2 & E2 & L2).
  pose proof (rec_child_framed m rec p child VUndefined (get_prop prev (KStr name))
                (negb (isPrimitive (get_prop prev (KStr name)))) s1 Hrec Hw A1 Hpc Hc)
    as R2.
  rewrite E2 in R2.
  eapply framed_step; [exact E2 | exact R2 |].
  unfold bind at 1. unfold get_state at 1.
  apply when_doNotify_framed; [eapply loop_post_arena; exact L2 | exact Hpc | | auto].
  pose proof (loop_post_next _ _ _ L2). lia.
Qed.

Lemma removed_loop_framed m (rec : nat -> value -> value -> M (option bool))
    p obj prev names : forall s,
  rec_ok m rec -> rec_framed m rec ->
  vsize obj + vsize prev <= m -> truthy prev = true ->
  arena_ok s -> p < nextNodeID s ->
  R p s (snd (forM names (removed_step rec p obj prev) s)).
Proof.
  induction names as [|name names IH]; intros s Hok Hrec Hm Ht A Hp; cbn [forM].
  - apply R_refl.
  - destruct (removed_step_spec nullishPrimitive m rec p obj prev name s Hok Hm Ht A Hp)
      as (u & s1 & E1 & L1).
    pose proof (removed_step_framed m rec p obj prev name s Hok Hrec Hm Ht A Hp) as R1.
    rewrite E1 in R1.
    eapply framed_step; [exact E1 | exact R1 |].
    apply IH; try assumption.
    + eapply loop_post_arena; eassumption.
    + pose proof (loop_post_next _ _ _ L1). lia.
Qed.

Lemma loop_step_framed m (rec : nat -> value -> value -> M (option bool))
    p obj prev isArr isArrDiff idField keyMap vars k s :
  rec_ok m rec -> rec_framed m rec ->
  vsize obj + vsize prev <= m -> truthy obj = true ->
  arena_ok s -> p < nextNodeID s -> moved_ok p (moved vars) s ->
  R p s (snd (loop_step rec p obj prev isArr isArrDiff idField keyMap vars k s)).
Proof.
  intros Hok Hrec Hm Ht A Hp Hmv. unfold Observable.loop_step. cbn zeta.
  destruct (strict_eq (get_prop obj k) (get_prop prev k)); cbn [negb];
    [apply R_refl |].
  destruct (getChildNode_spec p k s A Hp)
    as (child & s1 & E1 & L1 & _ & _ & Hpc & Hc & _).
  pose proof (R_child p k s A Hp) as R1. rewrite E1 in R1.
  pose proof (loop_post_arena _ _ _ L1) as A1.
  pose proof (loop_post_next _ _ _ L1) as N1.
  eapply framed_step; [exact E1 | exact R1 |]. cbn beta.
  assert (Hp1 : p < nextNodeID s1) by lia.
  assert (Hmv1 : moved_ok p (moved vars) s1) by (eapply moved_ok_mono; eassumption).
  destruct (detect_move_spec p prev isArr isArrDiff keyMap k (get_prop obj k)
              (get_named (get_prop obj k) (default "undefined" idField))
              child true vars s1 A1 Hp1 Hpc Hc Hmv1)
    as ([[child' isDiff'] vars1] & s2 & E2 & L2 & Hpc' & Hc' & _).
  pose proof (detect_move_framed p prev isArr isArrDiff keyMap k (get_prop obj k)
                (get_named (get_prop obj k) (default "undefined" idField))
                child true vars s1 A1 Hp1) as R2.
  rewrite E2 in R2. cbn [fst snd] in *.
  pose proof (loop_post_arena _ _ _ L2) as A2.
  eapply framed_step; [exact E2 | exact R2 |]. cbn beta. cbn [fst snd].
  assert (Hw : negb (isPrimitive (get_prop obj k)) = true ->
               vsize (get_prop obj k) + vsize (get_prop prev k) < m).
  { intros Hnp. apply negb_true_iff in Hnp.
    pose proof (child_weight nullishPrimitive obj prev k Hnp Ht). lia. }
  assert (E3 : exists vars2 s3,
    (if isDiff'
     then (if negb (isPrimitive (get_prop obj k))
           then rec child' (get_prop obj k) (get_prop prev k) ;;; ret tt
           else ret tt) ;;;
          ret (mkLoop true (didMove vars1) (moved vars1))
     else ret vars1) s2 = (Ok vars2, s3) /\
    R p s2 s3 /\ arena_ok s3 /\ nextNodeID s2 <= nextNodeID s3).
  { destruct isDiff'.
    - destruct (rec_child_spec m rec p child' (get_prop obj k) (get_prop prev k)
                  (negb (isPrimitive (get_prop obj k))) s2 Hok Hw A2 Hpc' Hc')
        as (u & s3 & E & L).
      pose proof (rec_child_framed m rec p child' (get_prop obj k) (get_prop prev k)
                    (negb (isPrimitive (get_prop obj k))) s2 Hrec Hw A2 Hpc' Hc') as R3.
      rewrite E in R3. cbn [snd] in R3.
      eexists _, s3. unfold bind at 1. rewrite E. split; [reflexivity |].
      split; [exact R3 |].
      split; [eapply loop_post_arena; exact L | eapply loop_post_next; exact L].
    - exists vars1, s2. split; [reflexivity |]. split; [apply R_refl |]. by split. }
  destruct E3 as (vars2 & s3 & E3 & R3 & A3 & N3).
  eapply framed_step; [exact E3 | exact R3 |].
  unfold bind at 1. unfold get_state at 1.
  assert (Rn : R p s3
    (snd (when ((isDiff' || negb isArrDiff) && has_listeners s3 child')
            (doNotify child' (get_prop obj k) [] (get_prop obj k) (get_prop prev k) 0
               (Some (negb isArrDiff))) s3))).
  { apply when_doNotify_framed; [exact A3 | exact Hpc' | lia |].
    intros Hb. by apply andb_prop in Hb as [_ Hb]. }
  unfold bind.
  destruct (when ((isDiff' || negb isArrDiff) && has_listeners s3 child')
              (doNotify child' (get_prop obj k) [] (get_prop obj k) (get_prop prev k) 0
                 (Some (negb isArrDiff))) s3) as [[u|e] s4]; exact Rn.
Qed.

Lemma main_loop_framed m (rec : nat -> value -> value -> M (option bool))
    p obj prev isArr isArrDiff idField keyMap ks : forall vars s,
  rec_ok m rec -> rec_framed m rec ->
  vsize obj + vsize prev <= m -> truthy obj = true ->
  arena_ok s -> p < nextNodeID s -> moved_ok p (moved vars) s ->
  R p s (snd (foldM (loop_step rec p obj prev isArr isArrDiff idField keyMap) ks vars s)).
Proof.
  induction ks as [|k ks IH]; intros vars s Hok Hrec Hm Ht A Hp Hmv; cbn [foldM].
  - apply R_refl.
  - destruct (loop_step_spec nullishPrimitive m rec p obj prev isArr isArrDiff idField
                keyMap vars k s Hok Hm Ht A Hp Hmv)
      as (vars1 & s1 & E1 & L1 & Hmv1 & _).
    pose proof (loop_step_framed m rec p obj prev isArr isArrDiff idField keyMap
                  vars k s Hok Hrec Hm Ht A Hp Hmv) as R1.
    rewrite E1 in R1.
    eapply framed_step; [exact E1 | exact R1 |].
    apply IH; try assumption.
    + eapply loop_post_arena; eassumption.
    + pose proof (loop_post_next _ _ _ L1). lia.
Qed.

Lemma apply_moved_framed p mv : forall s,
  arena_ok s -> p < nextNodeID s -> moved_ok p mv s ->
  R p s (snd (apply_moved p mv s)).
Proof.
  unfold apply_moved.
  induction mv as [|[k0 c0] mv IH]; intros s A Hp Hmv; cbn [forM].
  - apply R_refl.
  - pose proof Hmv as Hmv0.
    apply Forall_cons in Hmv as [[Hpc Hc] Hmv]. cbn [snd] in Hpc, Hc.
    destruct (apply_moved_spec p [(k0, c0)] s A Hp) as (u & s1 & E1 & D1 & _).
    { apply Forall_singleton. by split. }
    unfold apply_moved in E1. cbn [forM] in E1.
    unfold bind at 1 in E1. unfold modify at 1, ret in E1. injection E1 as _ E1.
    unfold bind at 1. unfold modify at 1.
    eapply R_trans; [by apply (R_link p k0 c0 s) |].
    rewrite E1. destruct D1 as (_ & _ & A1 & N1 & _).
    apply IH; [exact A1 | lia |]. eapply moved_ok_mono; [exact N1 | exact Hmv].
Qed.

Lemma updateNodes_body_framed m (rec : nat -> value -> value -> M (option bool))
    p obj prev s :
  rec_ok m rec -> rec_framed m rec -> vsize obj + vsize prev <= m ->
  arena_ok s -> p < nextNodeID s ->
  R p s (snd (updateNodes_body rec p obj prev s)).
Proof.
  intros Hok Hrec Hm A Hp. unfold Observable.updateNodes_body. cbn zeta.
  destruct (move_index obj prev) as [idField keyMap] eqn:Hmi.
  assert (E0 : exists s0,
    (if isArray obj && isArray prev then ret tt
     else if truthy prev && no_obj_or_hasOwnProperty obj
          then forM (Object_keys prev) (removed_step rec p obj prev)
          else ret tt) s = (Ok tt, s0) /\
    R p s s0 /\ arena_ok s0 /\ nextNodeID s <= nextNodeID s0).
  { destruct (isArray obj && isArray prev).
    - exists s. split; [reflexivity |]. split; [apply R_refl | by split].
    - destruct (truthy prev) eqn:Ht; cbn [andb].
      + destruct (no_obj_or_hasOwnProperty obj).
        * destruct (removed_loop_spec nullishPrimitive m rec p obj prev
                      (Object_keys prev) s Hok Hm Ht A Hp) as ([] & s0 & E & L).
          pose proof (removed_loop_framed m rec p obj prev (Object_keys prev) s
                        Hok Hrec Hm Ht A Hp) as R0.
          rewrite E in R0. exists s0. split; [exact E |]. split; [exact R0 |].
          split; [eapply loop_post_arena; exact L | eapply loop_post_next; exact L].
        * exists s. split; [reflexivity |]. split; [apply R_refl | by split].
      + exists s. split; [reflexivity |]. split; [apply R_refl | by split]. }
  destruct E0 as (s0 & E0 & R0 & A0 & N0).
  eapply framed_step; [exact E0 | exact R0 |].
  destruct (truthy obj) eqn:Ht.
  2:{ destruct (truthy prev); apply R_refl. }
  set (isArrDiff := negb (isArray obj) ||
         negb (strict_eq (get_named obj "length") (get_named prev "length"))).
  assert (Hp0 : p < nextNodeID s0) by lia.
  destruct (main_loop_spec nullishPrimitive m rec p obj prev (isArray obj) isArrDiff
              idField keyMap (loop_keys obj) (mkLoop isArrDiff false []) s0
              Hok Hm Ht A0 Hp0 (Forall_nil_2 _))
    as (vars & s1 & E1 & L1 & Hmv & _).
  pose proof (main_loop_framed m rec p obj prev (isArray obj) isArrDiff
                idField keyMap (loop_keys obj) (mkLoop isArrDiff false []) s0
                Hok Hrec Hm Ht A0 Hp0 (Forall_nil_2 _)) as R1.
  rewrite E1 in R1.
  eapply framed_step; [exact E1 | exact R1 |]. cbn beta.
  pose proof (loop_post_arena _ _ _ L1) as A1.
  pose proof (loop_post_next _ _ _ L1) as N1.
  destruct keyMap as [km|].
  - pose proof (apply_moved_framed p (moved vars) s1 A1 ltac:(lia) Hmv) as R2.
    unfold bind.
    destruct (apply_moved p (moved vars) s1) as [[u|e] s2]; exact R2.
  - apply R_refl.
Qed.

Lemma updateNodes_fuel_framed fuel : rec_framed fuel (updateNodes_fuel fuel).
Proof.
  induction fuel as [|fuel IH]; intros c obj prev s Hw A Hc; [lia |].
  cbn [Observable.updateNodes_fuel].
  apply (updateNodes_body_framed fuel); try assumption; [| lia].
  apply updateNodes_fuel_ok.
Qed.

(** Every relation the steps of [updateNodes] respect holds between the
    state before and the state after [updateNodes]. *)
Lemma updateNodes_framed p obj prev s :
  arena_ok s -> p < nextNodeID s -> R p s (snd (updateNodes p obj prev s)).
Proof.
  intros A Hp. unfold Observable.updateNodes. cbn [Observable.updateNodes_fuel].
  apply (updateNodes_body_framed (vsize obj + vsize prev)); try assumption; [| | lia].
  - apply updateNodes_fuel_ok.
  - apply updateNodes_fuel_framed.
Qed.

End Frame.

(** ** Two frames of [updateNodes] *)

Section FrameInstances.

Variable nullishPrimitive : bool.

Local Abbreviation updateNodes := (Observable.updateNodes nullishPrimitive).

(** The diff of a node keeps the place of the node itself. *)
Lemma updateNodes_links p obj prev s :
  arena_ok s -> p < nextNodeID s ->
  links_kept p s (snd (updateNodes p obj prev s)).
Proof.
  apply (updateNodes_framed nullishPrimitive links_kept).
  - apply links_kept_refl.
  - apply links_kept_trans.
  - intros q c s0 s' Hqc L m Hm. apply L. lia.
  - intros q k s0 _ Hq. by apply getChildNode_links.
  - intros q c k s0 _ Hqc _ m Hm. rewrite get_node_put_ne by lia. done.
  - intros q k c s0 _ _ _ _. by apply links_kept_put.
  - intros q c v pv o s0 _ _ _ _ m Hm. done.
Qed.

Lemma get_node_fresh s n : arena_ok s -> nextNodeID s <= n -> get_node s n = blank_node.
Proof.
  intros (A1 & _) Hn. unfold get_node.
  destruct (nodes s !! n) as [nd|] eqn:E; [| reflexivity].
  apply A1 in E. lia.
Qed.

Lemma listener_call_ext s s' evs :
  (forall n, listeners (get_node s' n) = listeners (get_node s n)) ->
  Forall (listener_call s') evs -> Forall (listener_call s) evs.
Proof.
  intros H F. eapply Forall_impl; [exact F |]. intros e. destruct e; try done. cbn.
  unfold has_listeners. by rewrite H.
Qed.

Lemma diff_quiet_refl s : diff_quiet s s.
Proof. split; [done |]. exists []. by rewrite app_nil_r. Qed.

Lemma diff_quiet_trans s1 s2 s3 :
  diff_quiet s1 s2 -> diff_quiet s2 s3 -> diff_quiet s1 s3.
Proof.
  intros (H1 & evs1 & T1 & F1) (H2 & evs2 & T2 & F2). split.
  - intros n. destruct (H1 n) as [<- <-]. apply H2.
  - exists (evs1 ++ evs2). split; [by rewrite T2, T1, app_assoc |].
    apply Forall_app. split; [exact F1 |].
    eapply listener_call_ext; [| exact F2]. intros n. apply H1.
Qed.

Lemma diff_quiet_nodes s s' :
  trace s' = trace s ->
  (forall n, listeners (get_node s' n) = listeners (get_node s n) /\
             proxy (get_node s' n) = proxy (get_node s n)) ->
  diff_quiet s s'.
Proof. intros T H. split; [exact H |]. exists []. by rewrite app_nil_r. Qed.

(** The diff leaves listeners and proxies alone and calls [doNotify] on
    nodes with listeners only. *)
Lemma updateNodes_quiet p obj prev s :
  arena_ok s -> p < nextNodeID s ->
  diff_quiet s (snd (updateNodes p obj prev s)).
Proof.
  apply (updateNodes_framed nullishPrimitive (fun _ => diff_quiet)).
  - intros _. apply diff_quiet_refl.
  - intros _. apply diff_quiet_trans.
  - done.
  - intros q k s0 A Hq. unfold getChildNode.
    destruct (children (get_node s0 q) !! k); [apply diff_quiet_refl |].
    cbn [snd]. apply diff_quiet_nodes; [reflexivity |]. intros n.
    change (get_node (with_nextNodeID ?x ?s1) n) with (get_node s1 n).
    destruct (decide (n = q)) as [->|Hnq].
    + by rewrite get_node_put_eq.
    + rewrite get_node_put_ne by done.
      destruct (decide (n = nextNodeID s0)) as [->|Hnn].
      * rewrite get_node_put_eq, (get_node_fresh s0 _ A) by lia. done.
      * by rewrite get_node_put_ne.
  - intros q c k s0 _ _ _. apply diff_quiet_nodes; [reflexivity |]. intros n.
    destruct (decide (n = c)) as [->|Hn].
    + by rewrite get_node_put_eq.
    + by rewrite get_node_put_ne.
  - intros q k c s0 _ _ _ _. apply diff_quiet_nodes; [reflexivity |]. intros n.
    destruct (decide (n = q)) as [->|Hn].
    + by rewrite get_node_put_eq.
    + by rewrite get_node_put_ne.
  - intros q c v pv o s0 _ _ _ Hl. split; [done |].
    eexists. split; [reflexivity |]. apply Forall_singleton. by cbn.
Qed.

(** X11: what the diff never does.  [updateNodes] returns, and it leaves
    the value tree, the flags, and the listeners and the proxy of every node
    as they were; what it adds to the trace are calls of [doNotify] at
    level 0 with an empty path, each on a node that has listeners.  On a
    tree where no node has listeners it adds nothing. *)
Theorem diff_notifies_listeners_only (p : nat) (obj prev : value) (s : state) :
  arena_ok s -> p < nextNodeID s ->
  exists d s',
    updateNodes p obj prev s = (Ok d, s') /\
    same_root s s' /\ diff_quiet s s' /\
    ((forall n, has_listeners s n = false) -> trace s' = trace s).
Proof.
  intros A Hp.
  destruct (updateNodes_spec nullishPrimitive p obj prev s A Hp)
    as (d & s' & E & (R & _) & _).
  pose proof (updateNodes_quiet p obj prev s A Hp) as Q. rewrite E in Q.
  cbn [snd] in Q.
  exists d, s'. split; [exact E |]. split; [exact R |]. split; [exact Q |].
  intros Hno. destruct Q as (_ & evs & T & F). rewrite T.
  destruct evs as [|e evs]; [by rewrite app_nil_r |].
  apply Forall_cons in F as [He _]. destruct e; try done.
  cbn in He. destruct He as (_ & _ & _ & He). by rewrite Hno in He.
Qed.

End FrameInstances.

(** ** The proxy a write returns *)

Section ReturnedProxy.

Variable call : nat -> value -> value.
Variable nullishPrimitive : bool.

Local Abbreviation isPrimitive := (Observable.isPrimitive nullishPrimitive).
Local Abbreviation updateNodes := (Observable.updateNodes nullishPrimitive).
Local Abbreviation setKey_notify := (Observable.setKey_notify nullishPrimitive).
Local Abbreviation setKey := (Observable.setKey call nullishPrimitive).

Lemma getProxy_child node k c s :
  k <> KUndefined -> children (get_node s node) !! k = Some c ->
  getProxy node k s =
    (Ok c, if proxy (get_node s c) then s
           else put_node c (node_with_proxy true (get_node s c)) s).
Proof.
  intros Hk Hc. unfold getProxy. rewrite bool_decide_eq_false_2 by exact Hk.
  unfold bind at 1. unfold getChildNode. rewrite Hc.
  unfold bind, get_state, modify, ret. by destruct (proxy (get_node s c)).
Qed.

(** The second part of [setKey], the diff done: the notification, the end
    of the batch and the proxy of the child. *)
Lemma setKey_notify_tail (l : write_locals) (diff : option bool * bool)
    (level : option Z) (s3 : state) :
  w_isRoot l = false -> w_key l <> KUndefined ->
  children (get_node s3 (w_node l)) !! w_key l = Some (w_childNode l) ->
  let nev := if w_isPrim l && strict_eq (w_newValue l) (w_prevValue l) then []
             else [EvNotify (w_childNode l) (w_newValue l) (w_prevValue l)
                     (notify_level level (w_prevValue l) (fst diff)) (snd diff)] in
  let s5 := with_inSet false (with_trace (trace s3 ++ nev ++ [EvEndBatch]) s3) in
  (when (negb (w_isPrim l) || negb (strict_eq (w_newValue l) (w_prevValue l)))
     (notify (if w_isPrim l && w_isRoot l then w_node l else w_childNode l)
        (w_newValue l) (w_prevValue l)
        (notify_level level (w_prevValue l) (fst diff)) (snd diff)) ;;;
   endBatch ;;; modify (with_inSet false) ;;;
   (if w_isRoot l then getProxy (w_node l) KUndefined
    else getProxy (w_node l) (w_key l))) s3 =
  (Ok (w_childNode l),
   if proxy (get_node s5 (w_childNode l)) then s5
   else put_node (w_childNode l)
          (node_with_proxy true (get_node s5 (w_childNode l))) s5).
Proof.
  intros Hr Hk Hc nev s5. rewrite Hr, andb_false_r.
  assert (E : forall (m : M nat),
    (when (negb (w_isPrim l) || negb (strict_eq (w_newValue l) (w_prevValue l)))
       (notify (w_childNode l) (w_newValue l) (w_prevValue l)
          (notify_level level (w_prevValue l) (fst diff)) (snd diff)) ;;;
     endBatch ;;; modify (with_inSet false) ;;; m) s3 = m s5).
  { intros m. unfold s5, nev.
    destruct (w_isPrim l); destruct (strict_eq (w_newValue l) (w_prevValue l));
      cbn; unfold bind, endBatch, notify, emit, modify, when, ret; cbn;
      rewrite <- ?app_assoc; reflexivity. }
  rewrite E. by apply getProxy_child.
Qed.

(** [setKey] on a container that is present, event by event: the child
    node is untracked, an updater is called, and inside the batch come the
    [doNotify] calls of the diff and at most one [notify], on the child. *)
Lemma setKey_plain_events node k v lvl s v' :
  arena_ok s -> node < nextNodeID s -> locked s = false ->
  plain_write nullishPrimitive s node k v -> k <> KUndefined ->
  let prev := get_prop (getNodeValue s node) k in
  let x := resolve_value call (inAssign s) prev v in
  set_prop (getNodeValue s node) k x = inl v' ->
  exists c s' sB d w dn,
    setKey node k v lvl s = (Ok c, s') /\
    children (get_node s' node) !! k = Some c /\
    proxy (get_node s' c) = true /\
    (forall c0, children (get_node s node) !! k = Some c0 ->
                c = c0 /\ links_kept c s s') /\
    arena_ok sB /\ c < nextNodeID sB /\
    (if negb (isPrimitive v) || negb (isPrimitive prev)
     then (exists s3, updateNodes c x prev sB = (Ok d, s3) /\
                      trace s3 = trace sB ++ dn) /\
          w = isArray x && negb (strict_eq (get_named x "length")
                                           (get_named prev "length"))
     else d = Some (isPrimitive v) /\ w = false /\ dn = []) /\
    forallb is_doNotify dn = true /\
    trace s' =
      trace s ++ [EvUntrack c] ++ resolve_events (inAssign s) prev v ++
      [EvBeginBatch] ++ dn ++
      (if isPrimitive v && strict_eq x prev then []
       else [EvNotify c x prev (notify_level lvl prev d) w]) ++
      [EvEndBatch].
Proof.
  intros A Hn Hl Hplain Hk prev x Hset.
  assert (A0 : arena_ok (with_inSet true s)) by exact A.
  destruct (getChildNode_spec node k (with_inSet true s) A0 Hn)
    as (c & s1 & Ec & L & Ht & Hch & Hnc & Hc & Hsame).
  destruct L as [(R1 & _ & A1 & N1 & B1) _].
  destruct (update_path_total (fun y => set_prop y k x) (node_path s node)
              (root_value s) v' Hset) as (r & Er).
  pose proof (setKey_write_plain call nullishPrimitive node k v s c s1 A Hn Hplain Ec)
    as Ew.
  cbn zeta in Ew. fold prev in Ew. fold x in Ew. rewrite Er in Ew.
  set (l := mkLocals node c false k (isPrimitive v) false x prev) in Ew.
  set (s2 := with_root_value r
               (with_trace ((trace s1 ++ [EvUntrack c])
                            ++ resolve_events (inAssign s) prev v) s1)) in Ew.
  set (sB := with_trace (trace s2 ++ [EvBeginBatch]) s2).
  assert (AB : arena_ok sB) by (by apply (arena_ok_ext s1)).
  assert (HcB : c < nextNodeID sB) by exact Hc.
  assert (Hdiff : exists d w dn s3,
    (if negb (isPrimitive v) || negb (isPrimitive prev) then
       d0 <- updateNodes c x prev ;;
       ret (d0, isArray x && negb (strict_eq (get_named x "length")
                                              (get_named prev "length")))
     else ret (Some (isPrimitive v), false)) sB = (Ok (d, w), s3) /\
    (if negb (isPrimitive v) || negb (isPrimitive prev)
     then (exists s3', updateNodes c x prev sB = (Ok d, s3') /\
                       trace s3' = trace sB ++ dn) /\
          w = isArray x && negb (strict_eq (get_named x "length")
                                           (get_named prev "length"))
     else d = Some (isPrimitive v) /\ w = false /\ dn = []) /\
    forallb is_doNotify dn = true /\ trace s3 = trace sB ++ dn /\
    get_node s3 node = get_node sB node /\ links_kept c sB s3).
  { destruct (negb (isPrimitive v) || negb (isPrimitive prev)).
    - destruct (updateNodes_spec nullishPrimitive c x prev sB AB HcB)
        as (d & s3 & E & (_ & (dn & Tdn & Fdn) & _ & _ & B3) & _).
      pose proof (updateNodes_links nullishPrimitive c x prev sB AB HcB) as L3.
      rewrite E in L3. cbn [snd] in L3.
      exists d, (isArray x && negb (strict_eq (get_named x "length")
                                              (get_named prev "length"))), dn, s3.
      unfold bind. rewrite E. split; [reflexivity |].
      split; [split; [by exists s3 | reflexivity] |].
      split; [exact Fdn |]. split; [exact Tdn |].
      split; [| exact L3]. apply get_node_unchanged. by apply B3.
    - exists (Some (isPrimitive v)), false, [], sB.
      split; [reflexivity |]. split; [done |]. split; [done |].
      split; [by rewrite app_nil_r |]. split; [reflexivity | apply links_kept_refl]. }
  destruct Hdiff as (d & w & dn & s3 & Ed & Hd & Fdn & Tdn & Hnode & L3).
  assert (Hch3 : children (get_node s3 node) !! k = Some c).
  { rewrite Hnode. exact Hch. }
  pose proof (setKey_notify_tail l (d, w) lvl s3 eq_refl Hk Hch3) as Et.
  cbn zeta in Et. cbn [w_isPrim w_newValue w_prevValue w_childNode w_node w_key
                        w_isRoot l fst snd] in Et.
  eexists c, _, sB, d, w, dn. split_and!.
  - rewrite (setKey_unlocked call nullishPrimitive) by exact Hl.
    unfold bind at 1. rewrite Ew.
    unfold Observable.setKey_notify. cbn zeta.
    cbn [w_isPrim w_newValue w_prevValue w_childNode w_node w_key w_isRoot l].
    unfold bind at 1. unfold beginBatch at 1, emit at 1, modify at 1. fold sB.
    unfold bind at 1. rewrite Ed. cbn [fst snd]. exact Et.
  - match goal with
    | |- children (get_node (if ?b then ?a else ?e) node) !! k = _ =>
        assert (Hg : get_node (if b then a else e) node = get_node s3 node);
        [destruct b; [reflexivity | rewrite get_node_put_ne by lia; reflexivity] |];
        rewrite Hg
    end.
    exact Hch3.
  - match goal with
    | |- proxy (get_node (if ?b then ?a else ?e) c) = true =>
        destruct b eqn:Hb; [exact Hb | by rewrite get_node_put_eq]
    end.
  - intros c0 Hc0. destruct (Hsame c0 Hc0) as [-> Hs1]. split; [reflexivity |].
    apply (links_kept_trans c s sB).
    { intros m _. unfold sB, s2. rewrite Hs1. done. }
    apply (links_kept_trans c sB s3); [exact L3 |].
    match goal with
    | |- links_kept c s3 (if ?b then ?a else ?e) =>
        destruct b; [by intros m _ | by apply (links_kept_trans c s3 a);
                                      [by intros m _ | apply links_kept_put]]
    end.
  - exact AB.
  - exact HcB.
  - exact Hd.
  - exact Fdn.
  - match goal with
    | |- trace (if ?b then ?a else ?e) = _ =>
        assert (Htr : trace (if b then a else e) = trace a) by (by destruct b);
        rewrite Htr
    end.
    cbn [trace with_trace with_inSet]. rewrite Tdn.
    unfold sB, s2. cbn [trace with_trace with_root_value]. rewrite Ht.
    cbn [trace with_inSet]. rewrite <- !app_assoc. reflexivity.
Qed.

End ReturnedProxy.

(** ** Writes, as a caller sees them *)

Section WriteTheorems.

Variable call : nat -> value -> value.
Variable nullishPrimitive : bool.

Local Abbreviation isPrimitive := (Observable.isPrimitive nullishPrimitive).
Local Abbreviation setKey := (Observable.setKey call nullishPrimitive).
Local Abbreviation assign := (Observable.assign call nullishPrimitive).
Local Abbreviation proxyHandler_set :=
  (Observable.proxyHandler_set call nullishPrimitive).
Local Abbreviation plain_write := (Writes.plain_write nullishPrimitive).

(** X1: [setKey(node, k, v)] on a container that is present (the value at
    the node is an object, an array or a function) and a root that is not
    locked, [v] not being the delete marker.  The call returns, and the
    value at the node is then the container after the plain assignment
    [container[k] = x], where [x] is [v], or the result of calling [v] on
    the previous value of the key when [v] is a function and the write is
    not part of [assign].  The key then reads back [x], unless it is a
    ["__proto__"] that is no own property of the container: that assignment
    leaves the container as it is.  The updater is called exactly once, and
    [inSet] is cleared. *)
Theorem setKey_stores_assignment (node : nat) (k : pkey) (v : value) (s : state)
    (v' : value) :
  arena_ok s -> node < nextNodeID s -> locked s = false ->
  plain_write s node k v ->
  set_prop (getNodeValue s node) k
    (resolve_value call (inAssign s) (get_prop (getNodeValue s node) k) v) = inl v' ->
  exists p s' evs,
    setKey node k v None s = (Ok p, s') /\
    getNodeValue s' node = v' /\
    (stores_prop (getNodeValue s node) k = true ->
     get_prop (getNodeValue s' node) k =
       resolve_value call (inAssign s) (get_prop (getNodeValue s node) k) v) /\
    (stores_prop (getNodeValue s node) k = false ->
     getNodeValue s' node = getNodeValue s node) /\
    trace s' = trace s ++ evs /\
    List.filter is_call evs =
      resolve_events (inAssign s) (get_prop (getNodeValue s node) k) v /\
    inSet s' = false.
Proof.
  intros A Hn Hl Hplain Hset.
  destruct (setKey_plain call nullishPrimitive node k v None s v' A Hn Hl Hplain Hset)
    as (p & s' & E & Hu & Hv & _ & _ & _ & _ & _ & I & _ & evs & T & C).
  exists p, s', evs. split_and!; try assumption.
  - intros Hs. rewrite Hv. eapply get_prop_set_prop; eassumption.
  - intros Hs. rewrite Hv. eapply set_prop_not_stored; eassumption.
Qed.

Lemma array_member_plain s node k r es ps v :
  get_prop (getNodeValue s node) k = VArray r es ps ->
  isPrimitive v = false -> strict_eq v VSymbolUndef = false ->
  plain_write s node k v.
Proof.
  intros Hg Hp Hv. split_and!.
  - destruct (is_reference (getNodeValue s node)) eqn:Hr; [reflexivity |].
    pose proof (get_prop_not_reference _ k Hr) as H. by rewrite Hg in H.
  - intros ->. discriminate Hg.
  - exact Hv.
  - intros _ _. exact Hp.
Qed.

(** X10: an array set over an array of the same length that holds the same
    elements ([===], index by index).  The write returns the proxy of the
    child node, the diff notifies no node, and one [notify] is sent for the
    child, at level 1 and without the length hint: between the [untrack] of
    the child and the end of the batch nothing else happens. *)
Theorem same_elements_set_notifies_at_level_1 (node : nat) (k : pkey) (s : state)
    (r : nat) (es : list (option value)) (ps : list (string * value))
    (r' : nat) (es' : list (option value)) (ps' : list (string * value)) :
  arena_ok s -> node < nextNodeID s -> locked s = false -> k <> KUndefined ->
  get_prop (getNodeValue s node) k = VArray r' es' ps' ->
  length es = length es' ->
  (forall i, i < length es -> strict_eq (elem_at es i) (elem_at es' i) = true) ->
  exists c s',
    setKey node k (VArray r es ps) None s = (Ok c, s') /\
    children (get_node s' node) !! k = Some c /\
    trace s' =
      trace s ++ [EvUntrack c; EvBeginBatch;
                  EvNotify c (VArray r es ps) (VArray r' es' ps') 1 false;
                  EvEndBatch].
Proof.
  intros A Hn Hl Hk Hg Hlen Hel.
  assert (Hplain : plain_write s node k (VArray r es ps)).
  { by apply (array_member_plain s node k r' es' ps'). }
  destruct (set_prop_member (getNodeValue s node) k (VArray r es ps)) as (v' & Hset).
  { by rewrite Hg. }
  destruct (setKey_plain_events call nullishPrimitive node k (VArray r es ps) None s v'
              A Hn Hl Hplain Hk Hset)
    as (c & s' & sB & d & w & dn & E & Hch & _ & _ & AB & HcB & Hd & Fdn & T).
  cbn [resolve_value resolve_events Observable.isPrimitive negb orb andb] in *.
  rewrite Hg in *.
  destruct Hd as [(s3 & Eu & Tu) ->].
  rewrite (updateNodes_same_elements nullishPrimitive c r es ps r' es' ps' sB Hlen Hel)
    in Eu.
  injection Eu as <- <-.
  assert (dn = []) as ->.
  { apply (app_inv_head (trace sB)). by rewrite app_nil_r. }
  exists c, s'. split; [exact E |]. split; [exact Hch |].
  rewrite T. cbn. rewrite Hlen, Z.eqb_refl. reflexivity.
Qed.

(** X9: a plain object set over a previous value that is not [undefined],
    in a container that is present.  Whatever the two values hold, and also
    when the object set is the very object that is stored, the diff reports
    a change: one [notify] is sent for the child, at level 0, after the
    [doNotify] calls of the diff. *)
Theorem object_set_notifies_at_level_0 (node : nat) (k : pkey) (s : state)
    (r : nat) (ps : list (string * value)) :
  arena_ok s -> node < nextNodeID s -> locked s = false ->
  is_reference (getNodeValue s node) = true ->
  k <> KSymbolUndef -> k <> KUndefined ->
  (isArray (getNodeValue s node) = true -> k <> KStr "length") ->
  is_undefined (get_prop (getNodeValue s node) k) = false ->
  exists c s' dn,
    setKey node k (VObject r ps) None s = (Ok c, s') /\
    forallb is_doNotify dn = true /\
    trace s' =
      trace s ++ [EvUntrack c; EvBeginBatch] ++ dn ++
      [EvNotify c (VObject r ps) (get_prop (getNodeValue s node) k) 0 false;
       EvEndBatch].
Proof.
  intros A Hn Hl Href Hk Hk' Hlen Hprev.
  assert (Hplain : plain_write s node k (VObject r ps)) by (by split_and!).
  destruct (set_prop (getNodeValue s node) k (VObject r ps)) as [v'|e] eqn:Hset.
  2:{ exfalso. revert Hset Hlen. unfold set_prop.
      destruct (prop_name k) as [name|] eqn:Ek; [| by destruct k].
      destruct (getNodeValue s node); try discriminate Href;
        cbn -[elem_index put_own]; try discriminate.
      destruct (String.eqb_spec name "length") as [->|Hne].
      - intros _ Hlen. specialize (Hlen eq_refl).
        destruct k as [name'|i| |]; try discriminate Ek.
        + injection Ek as ->. contradiction.
        + injection Ek as Ei. by rewrite <- String.eqb_eq, string_of_nat_not_length in Ei.
      - destruct (elem_index elems name); discriminate. }
  destruct (setKey_plain_events call nullishPrimitive node k (VObject r ps) None s v'
              A Hn Hl Hplain Hk' Hset)
    as (c & s' & sB & d & w & dn & E & Hch & _ & _ & AB & HcB & Hd & Fdn & T).
  cbn [resolve_value resolve_events Observable.isPrimitive negb orb andb isArray] in *.
  destruct Hd as [(s3 & Eu & Tu) ->].
  destruct (updateNodes_not_array nullishPrimitive c (VObject r ps)
              (get_prop (getNodeValue s node) k) sB AB HcB eq_refl) as (s3' & Eu').
  rewrite Eu in Eu'. injection Eu' as -> _.
  exists c, s', dn. split; [exact E |]. split; [exact Fdn |].
  rewrite T. unfold notify_level. rewrite Hprev. reflexivity.
Qed.

(** X8: a write that fails.  When [setKey] on a root that is not locked
    throws (a [TypeError] or a [RangeError] of the raw assignment, or the
    read of the parent of a root node), the error leaves [inSet] set: from
    then on the [set] and [deleteProperty] traps of every proxy take the
    assignment for an internal one, pass it to [Reflect] on the raw node
    and report success, in any safe mode, and leave the value tree alone. *)
Theorem failed_write_leaves_inSet (node : nat) (k : pkey) (v : value)
    (lvl : option Z) (s : state) (e : error) (s' : state) :
  arena_ok s -> node < nextNodeID s -> locked s = false ->
  setKey node k v lvl s = (Throw e, s') ->
  (e = TypeError \/ e = RangeError) /\
  inSet s' = true /\
  (forall n p x,
      proxyHandler_set n p x s' =
        (Ok true, with_trace (trace s' ++ [EvReflectSet n p x]) s')) /\
  (forall development n p,
      proxyHandler_deleteProperty call nullishPrimitive development n p s' =
        (Ok true, with_trace (trace s' ++ [EvReflectDelete n p]) s')).
Proof.
  intros A Hn Hl E.
  rewrite (setKey_unlocked call nullishPrimitive) in E by exact Hl.
  destruct (setKey_write_spec call nullishPrimitive node k v s A Hn) as [[W I] Q].
  unfold bind in E.
  destruct (Observable.setKey_write call nullishPrimitive node k v s)
    as [[l|e1] s1]; cbn [fst snd] in *.
  - destruct W as (A1 & _). destruct Q as (Hn1 & Hc1 & _).
    destruct (setKey_notify_spec nullishPrimitive l lvl s1 A1 Hn1 Hc1)
      as (p & s2 & E' & _).
    rewrite E' in E. discriminate.
  - injection E as <- <-. split; [exact Q |]. split; [exact I |]. split.
    + intros n p x. unfold Observable.proxyHandler_set.
      unfold bind at 1. unfold get_state at 1. by rewrite I.
    + intros development n p. unfold proxyHandler_deleteProperty.
      unfold bind at 1. unfold get_state at 1. by rewrite I.
Qed.

(** X7: [assign] on a locked root, with a source that has at least one own
    property, outside [inSet].  The call throws the locked error of the
    first write, and by then it has opened a batch that is never ended, set
    [inAssign] and left it set, and replaced a primitive root value by an
    empty object. *)
Theorem assign_on_locked_root (node : nat) (v : value) (s : state) :
  locked s = true -> inSet s = false -> own_props v <> [] ->
  exists s',
    assign node v s = (Throw LockedError, s') /\
    trace s' = trace s ++ [EvBeginBatch] /\
    inAssign s' = true /\
    root_value s' =
      (if isPrimitive (root_value s) then VObject (nextRef s) [] else root_value s).
Proof.
  intros Hl Hs Hq. unfold Observable.assign.
  unfold bind at 1. rewrite getProxy_self.
  set (s1 := if proxy (get_node s node) then s
             else put_node node (node_with_proxy true (get_node s node)) s).
  assert (H1 : root_value s1 = root_value s /\ trace s1 = trace s /\
               locked s1 = true /\ inSet s1 = false /\ nextRef s1 = nextRef s).
  { unfold s1. by destruct (proxy (get_node s node)). }
  destruct H1 as (R1 & T1 & L1 & I1 & F1).
  unfold bind at 1. unfold beginBatch at 1, emit at 1, modify at 1.
  unfold bind at 1. unfold get_state at 1.
  cbn [root_value with_trace]. rewrite R1.
  set (s2 := with_trace (trace s1 ++ [EvBeginBatch]) s1).
  assert (Eloop : forall s3,
    locked s3 = true -> inSet s3 = false ->
    (modify (with_inAssign true) ;;;
     Object_assign call nullishPrimitive node v ;;;
     modify (with_inAssign false) ;;; endBatch ;;; ret node) s3
    = (Throw LockedError, with_inAssign true s3)).
  { intros s3 L3 I3. unfold bind at 1. unfold modify at 1.
    unfold bind at 1. unfold Object_assign.
    destruct (own_props v) as [|q qs]; [contradiction |].
    cbn [forM]. unfold bind at 1. unfold bind at 1.
    rewrite (proxy_set_off call nullishPrimitive) by (done || by left).
    unfold bind at 1.
    by rewrite (setKey_locked call nullishPrimitive). }
  destruct (isPrimitive (root_value s)); cbn [when].
  - unfold bind at 1. unfold modify at 1. rewrite Eloop by done.
    eexists. split; [reflexivity |]. cbn. by rewrite T1, F1.
  - unfold bind at 1. unfold ret at 1. rewrite Eloop by done.
    eexists. split; [reflexivity |]. cbn. by rewrite T1, R1.
Qed.

End WriteTheorems.

(** ** The arena under every operation *)

Section Operations.

Import Run.

Variable call : nat -> value -> value.
Variable nullishPrimitive : bool.
Variable development : bool.

Local Abbreviation isPrimitive := (Observable.isPrimitive nullishPrimitive).
Local Abbreviation setKey := (Observable.setKey call nullishPrimitive).
Local Abbreviation set_ := (Observable.set call nullishPrimitive).
Local Abbreviation deleteFn := (Observable.deleteFn call nullishPrimitive).
Local Abbreviation assign := (Observable.assign call nullishPrimitive).
Local Abbreviation proxyHandler_set :=
  (Observable.proxyHandler_set call nullishPrimitive).
Local Abbreviation proxyHandler_deleteProperty :=
  (Observable.proxyHandler_deleteProperty call nullishPrimitive development).
Local Abbreviation run := (Run.run call nullishPrimitive development).
Local Abbreviation reachable := (Run.reachable call nullishPrimitive development).

Lemma write_post_refl s : arena_ok s -> write_post s s.
Proof. intros A. by split_and!. Qed.

Lemma write_post_trans s1 s2 s3 :
  write_post s1 s2 -> write_post s2 s3 -> write_post s1 s3.
Proof.
  intros (_ & N1 & P1) (A2 & N2 & P2). split_and!; [done | lia |].
  unfold same_policy in *. congruence.
Qed.

(** Whatever [setKey] ends with, it keeps the arena in order. *)
Lemma setKey_post node k v lvl s :
  arena_ok s -> node < nextNodeID s ->
  write_post s (snd (setKey node k v lvl s)).
Proof.
  intros A Hn. destruct (locked s) eqn:Hl.
  { rewrite (setKey_locked call nullishPrimitive) by exact Hl.
    by apply write_post_refl. }
  rewrite (setKey_unlocked call nullishPrimitive) by exact Hl.
  destruct (setKey_write_spec call nullishPrimitive node k v s A Hn) as [[W I] Q].
  unfold bind.
  destruct (Observable.setKey_write call nullishPrimitive node k v s)
    as [[l|e1] s1]; cbn [fst snd] in *; [| exact W].
  pose proof W as (A1 & _). destruct Q as (Hn1 & Hc1 & _).
  destruct (setKey_notify_spec nullishPrimitive l lvl s1 A1 Hn1 Hc1)
    as (p & s2 & E' & dn & _ & _ & _ & A2 & N2 & P2 & _).
  rewrite E'. cbn [snd]. eapply write_post_trans; [exact W |]. by split_and!.
Qed.

Lemma set_post node v s :
  arena_ok s -> node < nextNodeID s -> write_post s (snd (set_ node v s)).
Proof.
  intros A Hn. unfold Observable.set. unfold bind at 1. unfold get_state at 1.
  destruct (parent (get_node s node)) as [p|] eqn:Hp.
  - apply setKey_post; [exact A |].
    pose proof (get_node_parent_ok s node p A Hp). lia.
  - by apply setKey_post.
Qed.

Lemma deleteFn_post node k s :
  arena_ok s -> node < nextNodeID s -> write_post s (snd (deleteFn node k s)).
Proof.
  intros A Hn. unfold Observable.deleteFn. unfold bind at 1. unfold get_state at 1.
  fold (delete_target s node k).
  pose proof (delete_target_bound s node k A Hn) as Hb.
  pose proof (setKey_post (fst (delete_target s node k)) (snd (delete_target s node k))
                VSymbolUndef (Some (-1)%Z) s A Hb) as W.
  unfold bind.
  destruct (setKey (fst (delete_target s node k)) (snd (delete_target s node k))
              VSymbolUndef (Some (-1)%Z) s) as [[p|e] s1]; exact W.
Qed.

Lemma getChildNode_post node k s :
  arena_ok s -> node < nextNodeID s -> write_post s (snd (getChildNode node k s)).
Proof.
  intros A Hn.
  destruct (getChildNode_spec node k s A Hn)
    as (c & s1 & E & [(R & _ & A1 & N1 & _) _] & _).
  rewrite E. cbn [snd]. apply same_root_policy in R as [P _]. by split_and!.
Qed.

Lemma proxyHandler_set_post node k v s :
  arena_ok s -> node < nextNodeID s ->
  write_post s (snd (proxyHandler_set node k v s)).
Proof.
  intros A Hn. unfold Observable.proxyHandler_set.
  unfold bind at 1. unfold get_state at 1.
  destruct (inSet s); [cbn; by split_and! |].
  assert (Hset : write_post s (snd ((setKey node k v None ;;; ret true) s))).
  { pose proof (setKey_post node k v None s A Hn) as W. unfold bind.
    destruct (setKey node k v None s) as [[p|e] s1]; exact W. }
  destruct (negb (inAssign s) && negb (safeMode_number (safeMode s) =? 0)%Z).
  - destruct (safeMode_number (safeMode s) =? 2)%Z.
    + by apply write_post_refl.
    + pose proof (getChildNode_post node k s A Hn) as W1.
      destruct (getChildNode_spec node k s A Hn) as (c & s1 & E & _).
      unfold bind at 1. unfold bind at 1. rewrite E in W1 |- *. cbn [snd] in W1.
      unfold bind at 1. unfold get_state at 1. unfold ret at 1.
      destruct (isObject (getNodeValue s1 c) || isArray (getNodeValue s1 c)
                || isObject v || isArray v); [exact W1 |].
      eapply write_post_trans; [exact W1 |].
      pose proof W1 as (A1 & N1 & _).
      pose proof (setKey_post node k v None s1 A1 ltac:(lia)) as W. unfold bind.
      destruct (setKey node k v None s1) as [[p|e] s2]; exact W.
  - exact Hset.
Qed.

Lemma proxyHandler_deleteProperty_post node k s :
  arena_ok s -> node < nextNodeID s ->
  write_post s (snd (proxyHandler_deleteProperty node k s)).
Proof.
  intros A Hn. unfold Observable.proxyHandler_deleteProperty.
  unfold bind at 1. unfold get_state at 1.
  destruct (inSet s); [cbn; by split_and! |].
  destruct (negb (safeMode_number (safeMode s) =? 0)%Z); [by apply write_post_refl |].
  unfold bind at 1.
  assert (E : exists s1, when (development && isTracking s) (emit EvConsoleError) s
                         = (Ok tt, s1) /\ write_post s s1 /\ nodes s1 = nodes s).
  { destruct (development && isTracking s); eexists; (split; [reflexivity |]);
      by split_and!. }
  destruct E as (s1 & -> & W1 & Hnodes).
  eapply write_post_trans; [exact W1 |].
  pose proof W1 as (A1 & N1 & _).
  pose proof (deleteFn_post node k s1 A1 ltac:(lia)) as W. unfold bind.
  destruct (deleteFn node k s1) as [[p|e] s2]; exact W.
Qed.

Lemma getProxy_post node k s :
  arena_ok s -> node < nextNodeID s -> write_post s (snd (getProxy node k s)).
Proof.
  intros A Hn.
  destruct (getProxy_spec node k s A Hn) as (c & s1 & E & A1 & N1 & R & _).
  rewrite E. cbn [snd]. apply same_root_policy in R as [P _]. by split_and!.
Qed.

Lemma Object_assign_post proxy qs : forall s,
  arena_ok s -> proxy < nextNodeID s ->
  write_post s
    (snd (forM qs (fun q =>
            ok <- proxyHandler_set proxy (KStr (fst q)) (snd q) ;;
            if ok then ret tt else throw TypeError) s)).
Proof.
  induction qs as [|q qs IH]; intros s A Hp; cbn [forM].
  - by apply write_post_refl.
  - pose proof (proxyHandler_set_post proxy (KStr (fst q)) (snd q) s A Hp) as W.
    unfold bind at 1. unfold bind at 1.
    destruct (proxyHandler_set proxy (KStr (fst q)) (snd q) s) as [[ok|e] s1];
      cbn [snd] in W; [| exact W].
    destruct ok; [| exact W].
    unfold ret at 1. eapply write_post_trans; [exact W |].
    apply IH; [apply W |]. destruct W as (_ & N & _). lia.
Qed.

Lemma write_post_op s s' : write_post s s' -> arena_ok s' /\ op_post s s'.
Proof.
  intros (A & N & P). unfold same_policy, policy_fields in P.
  injection P as ? ? ? ? ?. by split_and!.
Qed.

Lemma op_post_trans s1 s2 s3 : op_post s1 s2 -> op_post s2 s3 -> op_post s1 s3.
Proof.
  intros (N1 & ? & ? & ? & ?) (N2 & ? & ? & ? & ?).
  split_and!; [lia | congruence ..].
Qed.

Lemma assign_post node v s r s' :
  arena_ok s -> node < nextNodeID s ->
  assign node v s = (r, s') ->
  arena_ok s' /\ op_post s s'.
Proof.
  intros A Hn E. unfold Observable.assign in E. unfold bind at 1 in E.
  rewrite getProxy_self in E.
  set (s1 := if proxy (get_node s node) then s
             else put_node node (node_with_proxy true (get_node s node)) s) in E.
  assert (H1 : arena_ok s1 /\ op_post s s1).
  { unfold s1. destruct (proxy (get_node s node)).
    - split; [exact A | by split_and!].
    - split; [by apply put_node_arena | by split_and!]. }
  destruct H1 as (A1 & O1).
  unfold bind at 1 in E. unfold beginBatch at 1, emit at 1, modify at 1 in E.
  unfold bind at 1 in E. unfold get_state at 1 in E.
  unfold bind at 1 in E.
  set (s2 := with_trace (trace s1 ++ [EvBeginBatch]) s1) in E.
  assert (E3 : exists s3,
    when (isPrimitive (root_value s2))
      (modify (fun s => with_nextRef (S (nextRef s))
                          (with_root_value (VObject (nextRef s) []) s))) s2
    = (Ok tt, s3) /\ arena_ok s3 /\ op_post s1 s3).
  { destruct (isPrimitive (root_value s2)); eexists; (split; [reflexivity |]);
      (split; [exact A1 | by split_and!]). }
  destruct E3 as (s3 & E3 & A3 & O3). rewrite E3 in E.
  unfold bind at 1 in E. unfold modify at 1 in E.
  set (s4 := with_inAssign true s3) in E.
  assert (A4 : arena_ok s4) by exact A3.
  assert (O4 : op_post s3 s4) by (by split_and!).
  assert (Hn4 : node < nextNodeID s4).
  { destruct O1 as (N1 & _). destruct O3 as (N3 & _). cbn. lia. }
  pose proof (Object_assign_post node (own_props v) s4 A4 Hn4) as W.
  fold (Object_assign call nullishPrimitive node v s4) in W.
  apply write_post_op in W as (A5 & O5).
  assert (O : forall s5, op_post s4 s5 -> op_post s s5).
  { intros s5 H5. eapply op_post_trans; [exact O1 |].
    eapply op_post_trans; [exact O3 |]. exact (op_post_trans s3 s4 s5 O4 H5). }
  unfold bind at 1 in E.
  destruct (Object_assign call nullishPrimitive node v s4) as [[u|e] s5];
    cbn [snd] in *.
  - unfold bind, modify, endBatch, emit, ret in E. injection E as _ <-.
    split; [exact A5 |]. apply O. destruct O5 as (? & ? & ? & ? & ?). by split_and!.
  - injection E as _ <-. split; [exact A5 | by apply O].
Qed.

(** The tree [observable] creates is in order. *)
Lemma observable_arena id v safe : arena_ok (snd (Root.observable id v safe)).
Proof.
  unfold Root.observable. cbn [snd]. split_and!.
  - intros n nd. cbn. intros H. apply lookup_singleton_Some in H as [<- _]. lia.
  - intros n nd k c. cbn. intros H. apply lookup_singleton_Some in H as [<- <-].
    cbn. by rewrite lookup_empty.
  - intros n nd p. cbn. intros H. apply lookup_singleton_Some in H as [<- <-].
    discriminate.
Qed.

Lemma run_post o s :
  arena_ok s -> op_node o < nextNodeID s ->
  arena_ok (run o s) /\ op_post s (run o s).
Proof.
  intros A Hn. destruct o as [n x|n x|n k|n k x|n k|n k]; cbn [Run.run op_node] in *.
  - by apply write_post_op, set_post.
  - destruct (assign n x s) as [r s'] eqn:E. cbn [snd]. by eapply assign_post.
  - by apply write_post_op, deleteFn_post.
  - by apply write_post_op, proxyHandler_set_post.
  - by apply write_post_op, proxyHandler_deleteProperty_post.
  - by apply write_post_op, getProxy_post.
Qed.

(** X13: the tree [observable(v, safe)] creates is in order (node ids
    below the counter, children above their parents), and every sequence of
    operations on nodes in use ([set], [assign], [delete], the [set] and
    [deleteProperty] traps and the read of a child proxy), whether they
    return or throw, keeps it in order, never lowers the node counter and
    never changes the safe mode, the lock, the activation hook or the
    tracking flag. *)
Theorem operations_keep_the_arena (id : nat) (v : value) (safe : option bool)
    (s : state) :
  reachable (snd (Root.observable id v safe)) s ->
  arena_ok s /\ op_post (snd (Root.observable id v safe)) s /\
  locked s = false /\ S id <= nextNodeID s /\
  safeMode s = match safe with
               | Some true => StrictSafe
               | Some false => Unrestricted
               | None => DefaultSafe
               end.
Proof.
  intros H.
  assert (G : arena_ok s /\ op_post (snd (Root.observable id v safe)) s).
  { induction H as [|s o H IH Hn].
    - split; [apply observable_arena | by split_and!].
    - destruct IH as (A & O). destruct (run_post o s A Hn) as (A' & O').
      split; [exact A' | eapply op_post_trans; eassumption]. }
  destruct G as (A & O). split; [exact A |]. split; [exact O |].
  destruct O as (N & M & L & _). cbn in N, M, L. by split_and!.
Qed.

End Operations.

(** ** Proxies *)

Section Proxies.

Lemma getProxy_again (node : nat) (p : pkey) (s : state) (c : nat)
    (s' : state) :
  arena_ok s -> node < nextNodeID s ->
  getProxy node p s = (Ok c, s') ->
  getProxy node p s' = (Ok c, s') /\
  proxy (get_node s' c) = true /\
  nextNodeID s' <= S (nextNodeID s) /\
  root_value s' = root_value s /\ trace s' = trace s.
Proof.
  intros A Hn E. unfold getProxy in E |- *.
  destruct (bool_decide (p = KUndefined)) eqn:Hp.
  - unfold bind, ret, get_state, modify in E |- *.
    destruct (proxy (get_node s node)) eqn:Hx.
    + injection E as <- <-. rewrite Hx. split_and!; (done || cbn; lia).
    + injection E as <- <-. rewrite get_node_put_eq. cbn. split_and!; (done || lia).
  - apply bind_ok_inv in E as (c1 & s1 & Ec & E).
    destruct (getChildNode_spec node p s A Hn)
      as (c2 & s2 & Ec2 & _ & T2 & Hch & Hlt & _ & _).
    rewrite Ec in Ec2. injection Ec2 as <- <-.
    destruct (getChildNode_value_trace node p s) as (c3 & s3 & Ec3 & R1 & _).
    rewrite Ec in Ec3. injection Ec3 as <- <-.
    assert (N1 : nextNodeID s1 <= S (nextNodeID s)).
    { revert Ec. unfold getChildNode.
      destruct (children (get_node s node) !! p); intros [= <- <-]; cbn; lia. }
    unfold bind, ret, get_state, modify in E.
    assert (Hfound : forall s4, get_node s4 node = get_node s1 node ->
                       getChildNode node p s4 = (Ok c1, s4)).
    { intros s4 H4. unfold getChildNode. by rewrite H4, Hch. }
    destruct (proxy (get_node s1 c1)) eqn:Hx.
    + injection E as <- <-.
      unfold bind at 1. rewrite (Hfound s1 eq_refl).
      unfold bind, ret, get_state, modify. rewrite Hx. split_and!; (done || lia).
    + injection E as <- <-.
      unfold bind at 1. rewrite Hfound by (rewrite get_node_put_ne by lia; done).
      unfold bind, ret, get_state, modify. rewrite get_node_put_eq. cbn.
      split_and!; (done || lia).
Qed.


End Proxies.

(** ** The read traps *)

Section ReadTrapTheorems.

Import ReadTraps.

Variable nullishPrimitive : bool.
Variable proto_get : value -> string -> option value.
Variable function_keys : nat -> list string.
Variable extraPrimitive : nat -> string -> option value.

Local Abbreviation isPrimitive := (Observable.isPrimitive nullishPrimitive).
Local Abbreviation member := (ReadTraps.member proto_get function_keys).
Local Abbreviation proxyHandler_get :=
  (ReadTraps.proxyHandler_get nullishPrimitive proto_get function_keys extraPrimitive).
Local Abbreviation proxyHandler_ownKeys :=
  (ReadTraps.proxyHandler_ownKeys nullishPrimitive function_keys).
Local Abbreviation proxyHandler_has :=
  (ReadTraps.proxyHandler_has proto_get function_keys).
Local Abbreviation proxyHandler_getPrototypeOf := ReadTraps.proxyHandler_getPrototypeOf.
Local Abbreviation proxyHandler_getOwnPropertyDescriptor :=
  (ReadTraps.proxyHandler_getOwnPropertyDescriptor nullishPrimitive function_keys).

(** X14: the [get] trap only reads.  On an arena in order it returns,
    whatever the key and the value at the node; it leaves the value tree,
    the flags and the nodes in use as they are, creates at most one node (the
    child whose proxy it returns), and adds to the trace nothing, or the one
    [updateTracking] of the node read. *)
Theorem get_trap_only_reads (node : nat) (p : trap_prop) (s : state) :
  arena_ok s -> node < nextNodeID s ->
  exists r s',
    proxyHandler_get node p s = (Ok r, s') /\
    same_root s s' /\ arena_ok s' /\
    nextNodeID s <= nextNodeID s' <= S (nextNodeID s) /\
    (forall n, n < nextNodeID s -> links_kept n s s') /\
    (trace s' = trace s \/
     exists shallow, trace s' = trace s ++ [EvUpdateTracking node shallow]).
Proof.
  intros A Hn.
  assert (Hsame : forall r : get_result, exists r0 s',
    ret r s = (Ok r0, s') /\ same_root s s' /\ arena_ok s' /\
    nextNodeID s <= nextNodeID s' <= S (nextNodeID s) /\
    (forall n, n < nextNodeID s -> links_kept n s s') /\
    (trace s' = trace s \/
     exists shallow, trace s' = trace s ++ [EvUpdateTracking node shallow])).
  { intros r. exists r, s.
    split_and!; try done; try lia; try (by left);
      try (intros n _; apply links_kept_refl). }
  assert (Htrack : forall sh (r : get_result), exists r0 s',
    (updateTracking node sh ;;; ret r) s = (Ok r0, s') /\ same_root s s' /\
    arena_ok s' /\ nextNodeID s <= nextNodeID s' <= S (nextNodeID s) /\
    (forall n, n < nextNodeID s -> links_kept n s s') /\
    (trace s' = trace s \/
     exists shallow, trace s' = trace s ++ [EvUpdateTracking node shallow])).
  { intros sh r. eexists r, _. split; [reflexivity |].
    split_and!; try done; try (cbn; lia); try (right; by exists sh);
      try (intros n _; apply links_kept_refl). }
  unfold ReadTraps.proxyHandler_get. destruct p as [p| |]; try apply Hsame.
  destruct (has_name objectFns p); [apply Hsame |].
  unfold bind at 1. unfold get_state at 1.
  destruct (isPrimitive (getNodeValue s node) && String.eqb p "value");
    [apply Htrack |].
  destruct (isFunction (member (getNodeValue s node) p)).
  { destruct (isArray (getNodeValue s node) && has_name ArrayModifiers p);
      [apply Hsame |].
    destruct (isArray (getNodeValue s node) && has_name ArrayLoopers p);
      [apply Htrack | apply Hsame]. }
  assert (Hproxy : exists r0 s',
    (c <- getProxy node (KStr p) ;; ret (GProxy c)) s = (Ok r0, s') /\
    same_root s s' /\ arena_ok s' /\
    nextNodeID s <= nextNodeID s' <= S (nextNodeID s) /\
    (forall n, n < nextNodeID s -> links_kept n s s') /\
    (trace s' = trace s \/
     exists shallow, trace s' = trace s ++ [EvUpdateTracking node shallow])).
  { destruct (getProxy_spec node (KStr p) s A Hn)
      as (c & s' & E & A' & N' & R' & T' & _ & L' & _).
    destruct (getProxy_again node (KStr p) s c s' A Hn E) as (_ & _ & N'' & _).
    exists (GProxy c), s'. unfold bind. rewrite E.
    split_and!; try done. by left. }
  unfold bind at 1.
  destruct (isPrimitive (member (getNodeValue s node) p)); [| exact Hproxy].
  destruct (extraPrimitive node p) as [x|]; [apply Hsame |].
  destruct (isArray (getNodeValue s node) && String.eqb p "length");
    [| exact Hproxy].
  destruct (Htrack true (GRaw (member (getNodeValue s node) p)))
    as (r0 & s' & E & H).
  exists r0, s'. split; [| exact H].
  revert E. unfold bind, updateTracking, emit, modify, ret. by intros [= <- <-].
Qed.

Lemma removelast_snoc {A} (l : list A) (x : A) : removelast (l ++ [x]) = l.
Proof. rewrite removelast_app by done. cbn. apply app_nil_r. Qed.

Lemma last_cons_app {A} (l : list A) (x : A) (m : list A) :
  m <> [] -> last (l ++ x :: m) = last m.
Proof.
  intros Hm. rewrite (app_assoc l [x] m : l ++ x :: m = (l ++ [x]) ++ m).
  destruct m as [|y m _] using rev_ind; [done |].
  by rewrite app_assoc, !last_snoc.
Qed.

(** X16: the own keys of an array node.  The trap records a shallow read of
    the node.  For an array with no property besides its elements it reports
    the names of the indices that are present, without ["length"]; when the
    array has further own properties, ["length"] is no longer the last key
    and stays in the report, before them. *)
Theorem ownKeys_of_array (node : nat) (s : state) (r : nat)
    (es : list (option value)) (ps : list (string * value)) :
  getNodeValue s node = VArray r es ps ->
  (ps = [] ->
   proxyHandler_ownKeys node s =
     (Ok (map fst (indexed_from 0 es)),
      with_trace (trace s ++ [EvUpdateTracking node true]) s)) /\
  (ps <> [] -> last (map fst ps) <> Some "length" ->
   proxyHandler_ownKeys node s =
     (Ok (map fst (indexed_from 0 es) ++ "length" :: map fst ps),
      with_trace (trace s ++ [EvUpdateTracking node true]) s)).
Proof.
  intros Hv.
  assert (E : forall keys,
    keys = Reflect_ownKeys function_keys (VArray r es ps) ->
    proxyHandler_ownKeys node s =
      (Ok (if match last keys with Some k => String.eqb k "length" | None => false end
           then removelast keys else keys),
       with_trace (trace s ++ [EvUpdateTracking node true]) s)).
  { intros keys ->. unfold ReadTraps.proxyHandler_ownKeys.
    unfold bind at 1. unfold get_state at 1. rewrite Hv. reflexivity. }
  split.
  - intros ->. rewrite (E _ eq_refl). cbn [Reflect_ownKeys map].
    rewrite last_snoc, String.eqb_refl. by rewrite removelast_snoc.
  - intros Hne Hlast. rewrite (E _ eq_refl). cbn [Reflect_ownKeys].
    rewrite last_cons_app by (by destruct ps).
    destruct (last (map fst ps)) as [k|] eqn:El; [| reflexivity].
    destruct (String.eqb_spec k "length") as [->|Hk]; [contradiction | reflexivity].
Qed.

End ReadTrapTheorems.

(** ** A write, then the read traps *)

Section WriteThenRead.

Import ReadTraps.

Variable call : nat -> value -> value.
Variable nullishPrimitive : bool.
Variable proto_get : value -> string -> option value.
Variable function_keys : nat -> list string.
Variable extraPrimitive : nat -> string -> option value.

Local Abbreviation isPrimitive := (Observable.isPrimitive nullishPrimitive).
Local Abbreviation setKey := (Observable.setKey call nullishPrimitive).
Local Abbreviation proxyHandler_get :=
  (ReadTraps.proxyHandler_get nullishPrimitive proto_get function_keys extraPrimitive).
Local Abbreviation proxyHandler_ownKeys :=
  (ReadTraps.proxyHandler_ownKeys nullishPrimitive function_keys).
Local Abbreviation proxyHandler_has :=
  (ReadTraps.proxyHandler_has proto_get function_keys).
Local Abbreviation proxyHandler_getOwnPropertyDescriptor :=
  (ReadTraps.proxyHandler_getOwnPropertyDescriptor nullishPrimitive function_keys).

Lemma assoc_get_key name ps x : assoc_get name ps = Some x -> name ∈ map fst ps.
Proof.
  induction ps as [|[n v] ps IH]; cbn; [discriminate |].
  destruct (String.eqb_spec n name) as [->|Hne]; intros H; apply elem_of_cons.
  - by left.
  - right. by apply IH.
Qed.

(** X15: a key written into an object is read back by every trap.  After
    [setKey(node, p, v)] on a node that holds a plain object, with [v]
    neither a function nor the delete marker, [p] not a name of
    [objectFns], and [p] not a ["__proto__"] that the object has no own
    property for: the object at the node is the one the assignment
    [object[p] = v] leaves, the [has] trap answers [true] for [p], the
    descriptor of [p] holds [v], the own keys list [p] (and record a shallow
    read), and the [get] trap returns for [p] the very proxy the write
    returned, also when [v] is a primitive, without recording a read and
    without changing the state. *)
Theorem written_key_is_read_back (node : nat) (p : string) (v : value) (s : state)
    (r : nat) (ps : list (string * value)) :
  arena_ok s -> node < nextNodeID s -> locked s = false ->
  getNodeValue s node = VObject r ps ->
  isFunction v = false -> strict_eq v VSymbolUndef = false ->
  (parent (get_node s node) = None -> p = "value" -> isPrimitive v = false) ->
  has_name objectFns p = false -> extraPrimitive node p = None ->
  stores (VObject r ps) p = true ->
  exists c s',
    setKey node (KStr p) v None s = (Ok c, s') /\
    getNodeValue s' node = VObject r (put_own p v ps) /\
    proxyHandler_has node p s' = (Ok true, s') /\
    proxyHandler_getOwnPropertyDescriptor node p s' = (Ok (Some v), s') /\
    (exists keys,
        proxyHandler_ownKeys node s' =
          (Ok keys, with_trace (trace s' ++ [EvUpdateTracking node true]) s') /\
        p ∈ keys) /\
    proxyHandler_get node (PString p) s' = (Ok (GProxy c), s').
Proof.
  intros A Hn Hl Hv Hf Hd Hroot Hfn Hextra Hst.
  assert (Hput : assoc_get p (put_own p v ps) = Some v).
  { apply assoc_get_put_own. unfold stores in Hst.
    apply orb_true_iff in Hst as [Hst|Hst].
    - left. by apply negb_true_iff.
    - right. by apply bool_decide_eq_true in Hst. }
  assert (Hplain : plain_write nullishPrimitive s node (KStr p) v).
  { split_and!; try done.
    - by rewrite Hv.
    - intros Hp [= ->]. by apply Hroot. }
  assert (Hres : resolve_value call (inAssign s)
                   (get_prop (getNodeValue s node) (KStr p)) v = v).
  { destruct v; try reflexivity. discriminate Hf. }
  assert (Hset : set_prop (getNodeValue s node) (KStr p)
                   (resolve_value call (inAssign s)
                      (get_prop (getNodeValue s node) (KStr p)) v)
                 = inl (VObject r (put_own p v ps))).
  { rewrite Hres, Hv. reflexivity. }
  destruct (setKey_plain_events call nullishPrimitive node (KStr p) v None s _
              A Hn Hl Hplain ltac:(done) Hset)
    as (c & s' & _ & _ & _ & _ & E & Hch & Hpx & _).
  destruct (setKey_plain call nullishPrimitive node (KStr p) v None s _
              A Hn Hl Hplain Hset) as (c' & s'' & E' & _ & Hv' & _).
  rewrite E in E'. injection E' as <- <-.
  assert (Hown : own_key function_keys (VObject r (put_own p v ps)) p = true).
  { unfold own_key. apply bool_decide_eq_true_2. cbn -[put_own].
    by apply (assoc_get_key p _ v). }
  assert (Hget : get_named (VObject r (put_own p v ps)) p = v).
  { cbn -[put_own]. by rewrite Hput. }
  exists c, s'. split; [exact E |]. split; [exact Hv' |]. split_and!.
  - unfold ReadTraps.proxyHandler_has. unfold bind at 1. unfold get_state at 1.
    rewrite Hv'. cbn [is_reference]. by rewrite Hown.
  - unfold ReadTraps.proxyHandler_getOwnPropertyDescriptor.
    unfold bind at 1. unfold get_state at 1. rewrite Hv'.
    cbn [Observable.isPrimitive negb nullish]. by rewrite Hown, Hget.
  - eexists. split.
    + unfold ReadTraps.proxyHandler_ownKeys. unfold bind at 1. unfold get_state at 1.
      rewrite Hv'. reflexivity.
    + cbn -[put_own]. by apply (assoc_get_key p _ v).
  - unfold ReadTraps.proxyHandler_get. rewrite Hfn.
    unfold bind at 1. unfold get_state at 1. rewrite Hv'.
    cbn [Observable.isPrimitive andb isArray].
    unfold ReadTraps.member. cbn [nullish]. rewrite Hown, Hget, Hf, Hextra.
    unfold bind at 1.
    assert (Eearly :
      (if isPrimitive v then @ret (option get_result) None else ret None) s'
      = (Ok None, s')) by (by destruct (isPrimitive v)).
    rewrite Eearly. unfold bind at 1.
    rewrite (getProxy_child node (KStr p) c s') by done.
    by rewrite Hpx.
Qed.

End WriteThenRead.

(** ** Array methods through [collectionSetter] *)

Section Collection.

Import ReadTraps.

Variable call : nat -> value -> value.
Variable nullishPrimitive : bool.
Variable array_method :
  string -> list (option value) -> list value -> list (option value) * value.

Local Abbreviation isPrimitive := (Observable.isPrimitive nullishPrimitive).
Local Abbreviation setKey := (Observable.setKey call nullishPrimitive).
Local Abbreviation collectionSetter :=
  (ReadTraps.collectionSetter call nullishPrimitive array_method).

Lemma path_to_acc fuel s : forall n acc,
  path_to fuel s n acc = path_to fuel s n [] ++ acc.
Proof.
  induction fuel as [|fuel IH]; intros n acc; cbn; [reflexivity |].
  destruct (parent (get_node s n)) as [p|]; [| reflexivity].
  rewrite (IH p (key (get_node s n) :: acc)), (IH p [key (get_node s n)]).
  by rewrite <- app_assoc.
Qed.

Lemma path_to_fuel s : arena_ok s ->
  forall fuel fuel' n acc, n < fuel -> n < fuel' ->
  path_to fuel s n acc = path_to fuel' s n acc.
Proof.
  intros A. induction fuel as [|fuel IH]; intros fuel' n acc H1 H2; [lia |].
  destruct fuel' as [|fuel']; [lia |]. cbn.
  destruct (parent (get_node s n)) as [p|] eqn:Hp; [| reflexivity].
  pose proof (get_node_parent_ok s n p A Hp). apply IH; lia.
Qed.

(** The path of a node is the path of its parent, then its key. *)
Lemma node_path_child s n p :
  arena_ok s -> parent (get_node s n) = Some p ->
  node_path s n = node_path s p ++ [key (get_node s n)].
Proof.
  intros A Hp. unfold node_path.
  change (path_to (S n) s n [])
    with (match parent (get_node s n) with
          | None => []
          | Some q => path_to n s q [key (get_node s n)]
          end).
  rewrite Hp. pose proof (get_node_parent_ok s n p A Hp).
  rewrite path_to_acc. f_equal. apply path_to_fuel; [exact A | lia ..].
Qed.

(** An update at a path that leads to a reference reaches it. *)
Lemma update_path_reference f path : forall v y,
  is_reference (get_path v path) = true ->
  f (get_path v path) = inl y ->
  exists v', update_path v path f = inl v' /\ get_path v' path = y.
Proof.
  induction path as [|k path IH]; intros v y Hr Hf; cbn [update_path].
  - cbn in Hf. exists y. by split.
  - change (get_path v (k :: path)) with (get_path (get_prop v k) path) in Hr, Hf.
    destruct (IH _ _ Hr Hf) as (c & -> & Hc).
    assert (Hrk : is_reference (get_prop v k) = true).
    { destruct (get_path_reference _ _ Hr) as [->|H]; [exact Hr | exact H]. }
    rewrite Hrk. destruct (set_prop_member v k c Hrk) as (v' & Hs).
    exists v'. split; [exact Hs |].
    change (get_path v' (k :: path)) with (get_path (get_prop v' k) path).
    by rewrite (get_prop_set_member v k c v' Hs).
Qed.

Lemma set_prop_result_reference v k x v' :
  set_prop v k x = inl v' -> is_reference v' = true.
Proof.
  unfold set_prop, set_named. intros H.
  repeat (match type of H with
          | context [match ?t with _ => _ end] => destruct t
          end; try discriminate H); by injection H as <-.
Qed.

(** [collectionSetter] up to its [setKey]: the tree then holds the copy of
    the array where the array was. *)
Lemma collectionSetter_prepare node p r es ps prop args s :
  arena_ok s -> parent (get_node s node) = Some p ->
  getNodeValue s node = VArray r es ps ->
  let k := key (get_node s node) in
  let applied := array_method prop es args in
  exists root2,
    let s2 := with_root_value root2 (with_nextRef (S (nextRef s)) s) in
    collectionSetter node r es ps prop args s =
      (setKey p k (VArray r (fst applied) ps) None ;;; ret (snd applied)) s2 /\
    is_reference (getNodeValue s2 p) = true /\
    get_prop (getNodeValue s2 p) k = VArray (nextRef s) es [] /\
    getNodeValue s2 node = VArray (nextRef s) es [].
Proof.
  intros A Hp Hv k applied.
  pose proof (node_path_child s node p A Hp) as Hpath. fold k in Hpath.
  set (target := VArray r (fst applied) ps).
  set (copy := VArray (nextRef s) es []).
  set (s0 := with_nextRef (S (nextRef s)) s).
  destruct (update_path_reference (fun _ => inl target) (node_path s node)
              (root_value s) target) as (root1 & E1 & G1); [by (unfold getNodeValue in Hv; rewrite Hv) | reflexivity |].
  rewrite Hpath, get_path_app in G1. cbn [get_path fold_left] in G1.
  set (container1 := get_path root1 (node_path s p)) in G1.
  destruct (set_prop_member container1 k copy) as (container2 & E2).
  { by rewrite G1. }
  destruct (update_path_total (fun y => set_prop y k copy) (node_path s p) root1
              container2 E2) as (root2 & E3).
  pose proof (get_path_update_path _ (fun y z => set_prop_keeps y k copy z)
                _ _ _ E3) as G3.
  cbn beta in G3. fold container1 in G3. rewrite E2 in G3. injection G3 as G3.
  exists root2. cbn zeta.
  set (s2 := with_root_value root2 s0).
  assert (Hp2 : getNodeValue s2 p = container2).
  { unfold getNodeValue. rewrite (node_path_ext s s2 p eq_refl). by rewrite G3. }
  assert (Hk2 : get_prop container2 k = copy).
  { eapply get_prop_set_member; [exact E2 | by rewrite G1]. }
  split_and!.
  - unfold ReadTraps.collectionSetter.
    unfold bind at 1. unfold get_state at 1.
    unfold bind at 1. unfold modify at 1. fold s0. rewrite Hp. fold k applied target copy.
    unfold bind at 1. unfold container_update at 1.
    rewrite (node_path_ext s s0 node eq_refl).
    change (root_value s0) with (root_value s). rewrite E1.
    unfold bind at 1. unfold container_set, container_update.
    rewrite (node_path_ext s (with_root_value root1 s0) p eq_refl).
    cbn [root_value with_root_value]. rewrite E3.
    reflexivity.
  - rewrite Hp2. apply (set_prop_result_reference _ _ _ _ E2).
  - by rewrite Hp2.
  - unfold getNodeValue. rewrite (node_path_ext s s2 node eq_refl).
    rewrite Hpath, get_path_app. change (root_value s2) with root2.
    rewrite <- G3. exact Hk2.
Qed.

(** X17: an array method called through the proxy of an array that has a
    parent, on a root that is not locked.  The call returns what the method
    returns; the container of the parent then holds the array, with the
    identity it had and the elements the method left; and the one [notify]
    of the write, sent for the child of the parent at the key, carries as
    previous value a new array that holds the elements as they were before
    the call, and the length hint exactly when the length changed, in which
    case the level is 0. *)
Theorem array_method_notifies_with_copy (node p r : nat)
    (es : list (option value)) (ps : list (string * value))
    (prop : string) (args : list value) (s : state) :
  arena_ok s -> node < nextNodeID s -> locked s = false ->
  parent (get_node s node) = Some p ->
  key (get_node s node) <> KUndefined ->
  getNodeValue s node = VArray r es ps ->
  exists c s' dn d,
    collectionSetter node r es ps prop args s
      = (Ok (snd (array_method prop es args)), s') /\
    get_prop (getNodeValue s' p) (key (get_node s node))
      = VArray r (fst (array_method prop es args)) ps /\
    forallb is_doNotify dn = true /\
    (length (fst (array_method prop es args)) <> length es -> d = Some true) /\
    trace s' =
      trace s ++ [EvUntrack c; EvBeginBatch] ++ dn ++
      [EvNotify c (VArray r (fst (array_method prop es args)) ps)
         (VArray (nextRef s) es [])
         (match d with Some true => 0 | _ => 1 end)%Z
         (negb (Z.of_nat (length (fst (array_method prop es args)))
                =? Z.of_nat (length es))%Z);
       EvEndBatch].
Proof.
  intros A Hn Hl Hp Hk Hv.
  destruct (collectionSetter_prepare node p r es ps prop args s A Hp Hv)
    as (root2 & E & Href & Hprev & _).
  cbn zeta in E, Href, Hprev.
  set (k := key (get_node s node)) in *.
  set (applied := array_method prop es args) in *.
  set (target := VArray r (fst applied) ps) in *.
  set (s2 := with_root_value root2 (with_nextRef (S (nextRef s)) s)) in *.
  assert (A2 : arena_ok s2) by (by apply (arena_ok_ext s)).
  assert (Hp2 : p < nextNodeID s2).
  { pose proof (get_node_parent_ok s node p A Hp). cbn. lia. }
  assert (Hplain : plain_write nullishPrimitive s2 p k target).
  { split_and!; try done. intros ->. discriminate Hprev. }
  destruct (set_prop_member (getNodeValue s2 p) k target) as (v' & Hset).
  { by rewrite Hprev. }
  destruct (setKey_plain_events call nullishPrimitive p k target None s2 v'
              A2 Hp2 Hl Hplain Hk Hset)
    as (c & s' & sB & d & w & dn & Ek & _ & _ & _ & AB & HcB & Hd & Fdn & T).
  destruct (setKey_plain call nullishPrimitive p k target None s2 v'
              A2 Hp2 Hl Hplain Hset) as (c' & s'' & Ek' & _ & Hv' & _).
  rewrite Ek in Ek'. injection Ek' as <- <-.
  cbn [resolve_value resolve_events target Observable.isPrimitive negb orb andb
       isArray] in Hd, T.
  rewrite Hprev in Hd, T. destruct Hd as [(s3 & Eu & Tu) ->].
  exists c, s', dn, d. split_and!.
  - rewrite E. unfold bind. by rewrite Ek.
  - rewrite Hv'. eapply get_prop_set_member; [exact Hset | by rewrite Hprev].
  - exact Fdn.
  - intros Hlen.
    destruct (updateNodes_length_changed nullishPrimitive c r (fst applied) ps
                (VArray (nextRef s) es []) sB AB HcB) as (s3' & Eu').
    { cbn. apply Z.eqb_neq. lia. }
    fold target in Eu'. rewrite Eu in Eu'. by injection Eu' as -> _.
  - rewrite T. reflexivity.
Qed.

(** X18: the same call on a locked root.  The method has changed the array
    and the copy has been put in its place before the write is refused: the
    call throws the locked error, and the node then holds a new array with
    the elements as they were before the call, without the other own
    properties the array had; nothing is notified. *)
Theorem array_method_on_locked_root (node p r : nat)
    (es : list (option value)) (ps : list (string * value))
    (prop : string) (args : list value) (s : state) :
  arena_ok s -> locked s = true ->
  parent (get_node s node) = Some p ->
  getNodeValue s node = VArray r es ps ->
  exists s',
    collectionSetter node r es ps prop args s = (Throw LockedError, s') /\
    getNodeValue s' node = VArray (nextRef s) es [] /\
    trace s' = trace s /\ nodes s' = nodes s.
Proof.
  intros A Hl Hp Hv.
  destruct (collectionSetter_prepare node p r es ps prop args s A Hp Hv)
    as (root2 & E & _ & _ & Hnode).
  cbn zeta in E, Hnode. eexists. split; [| split_and!].
  - rewrite E. unfold bind.
    by rewrite (setKey_locked call nullishPrimitive) by exact Hl.
  - exact Hnode.
  - reflexivity.
  - reflexivity.
Qed.

End Collection.

(** ** [set] on a node, then its value *)

Section SetThenValue.

Variable call : nat -> value -> value.
Variable nullishPrimitive : bool.

Local Abbreviation isPrimitive := (Observable.isPrimitive nullishPrimitive).
Local Abbreviation setKey := (Observable.setKey call nullishPrimitive).
Local Abbreviation set_ := (Observable.set call nullishPrimitive).
Local Abbreviation plain_write := (Writes.plain_write nullishPrimitive).

Lemma getNodeValue_child s n p :
  arena_ok s -> parent (get_node s n) = Some p ->
  getNodeValue s n = get_prop (getNodeValue s p) (key (get_node s n)).
Proof.
  intros A Hp. unfold getNodeValue.
  by rewrite (node_path_child s n p A Hp), get_path_app.
Qed.

(** X2: [set(v)] through the proxy of a node that its parent holds at the
    key of the node, the value of the parent being present and the key not
    a ["__proto__"] that the parent has no own property for.  The call
    returns the proxy of the node itself; the value of the parent is then
    the container after the assignment [container[key] = x], and the value
    at the node is [x]: [v], or, when [v] is a function and the write is not
    part of [assign], what [v] returns for the value the node had. *)
Theorem set_then_value (node p : nat) (v : value) (s : state) (v' : value) :
  arena_ok s -> node < nextNodeID s -> locked s = false ->
  parent (get_node s node) = Some p ->
  children (get_node s p) !! key (get_node s node) = Some node ->
  key (get_node s node) <> KUndefined ->
  plain_write s p (key (get_node s node)) v ->
  stores_prop (getNodeValue s p) (key (get_node s node)) = true ->
  set_prop (getNodeValue s p) (key (get_node s node))
    (resolve_value call (inAssign s) (getNodeValue s node) v) = inl v' ->
  exists s',
    set_ node v s = (Ok node, s') /\
    getNodeValue s' node = resolve_value call (inAssign s) (getNodeValue s node) v /\
    getNodeValue s' p = v' /\
    proxy (get_node s' node) = true.
Proof.
  intros A Hn Hl Hp Hch Hk Hplain Hst Hset.
  pose proof (get_node_parent_ok s node p A Hp) as Hpn.
  assert (Hp' : p < nextNodeID s) by lia.
  rewrite (getNodeValue_child s node p A Hp) in Hset |- *.
  destruct (setKey_plain_events call nullishPrimitive p (key (get_node s node)) v None
              s v' A Hp' Hl Hplain Hk Hset)
    as (c & s' & _ & _ & _ & _ & E & _ & Hpx & Hsame & _).
  destruct (Hsame node Hch) as [-> L].
  destruct (setKey_plain call nullishPrimitive p (key (get_node s node)) v None
              s v' A Hp' Hl Hplain Hset)
    as (c' & s'' & E' & _ & Hv' & _ & _ & A' & _).
  rewrite E in E'. injection E' as _ <-.
  destruct (L node (Nat.le_refl node)) as [Lp Lk].
  exists s'. split_and!.
  - unfold Observable.set. unfold bind at 1. unfold get_state at 1.
    rewrite Hp. exact E.
  - rewrite Hp in Lp.
    rewrite (getNodeValue_child s' node p A' Lp), Lk, Hv'.
    eapply get_prop_set_prop; eassumption.
  - exact Hv'.
  - exact Hpx.
Qed.

(** The write of [setKey] for the key [set] passes on a root node. *)
Lemma setKey_write_root node v s :
  strict_eq v VSymbolUndef = false ->
  let x := resolve_value call (inAssign s) (root_value s) v in
  Observable.setKey_write call nullishPrimitive node KSymbolUndef v s =
    (Ok (mkLocals node node true (KStr "_") (isPrimitive v) false x (root_value s)),
     with_root_value x
       (with_trace ((trace s ++ [EvUntrack node])
                    ++ resolve_events (inAssign s) (root_value s) v)
          (with_inSet true s))).
Proof.
  intros Hv x. unfold Observable.setKey_write.
  unfold bind at 1. unfold get_state at 1. cbn zeta. rewrite Hv.
  rewrite (bool_decide_eq_false_2 (KSymbolUndef = KStr "value")) by done.
  rewrite andb_false_r. cbn [andb].
  unfold bind at 1. unfold modify at 1.
  rewrite (bool_decide_eq_true_2 (KSymbolUndef = KSymbolUndef)) by done.
  cbn [orb]. unfold bind at 1. unfold ret at 1.
  unfold bind at 1. unfold untrack at 1, emit at 1, modify at 1.
  unfold bind at 1. unfold ret at 1.
  unfold bind at 1. unfold container_get at 1.
  cbn [root_value with_trace with_inSet].
  unfold x, resolve_value, resolve_events.
  destruct v; try (unfold bind, ret, container_set, container_update; cbn;
                   rewrite ?app_nil_r; reflexivity).
  cbn [inAssign with_trace with_inSet].
  destruct (inAssign s); cbn [negb];
    unfold bind, ret, emit, modify, container_set, container_update; cbn;
    rewrite ?app_nil_r; reflexivity.
Qed.

Lemma setKey_notify_root l lvl s1 p s' :
  w_isRoot l = true ->
  Observable.setKey_notify nullishPrimitive l lvl s1 = (Ok p, s') -> p = w_node l.
Proof.
  intros Hr E. unfold Observable.setKey_notify in E. cbn zeta in E.
  apply bind_ok_inv in E as (u1 & t1 & _ & E).
  apply bind_ok_inv in E as (d & t2 & _ & E).
  apply bind_ok_inv in E as (u3 & t3 & _ & E).
  apply bind_ok_inv in E as (u4 & t4 & _ & E).
  apply bind_ok_inv in E as (u5 & t5 & _ & E).
  rewrite Hr, getProxy_self in E. by injection E as <- _.
Qed.

(** The second part of [setKey] keeps the place of the node of the write. *)
Lemma setKey_notify_links l lvl s1 p s' :
  arena_ok s1 -> w_node l <= w_childNode l -> w_childNode l < nextNodeID s1 ->
  Observable.setKey_notify nullishPrimitive l lvl s1 = (Ok p, s') ->
  links_kept (w_node l) s1 s'.
Proof.
  intros A Hnc Hc E. unfold Observable.setKey_notify in E. cbn zeta in E.
  apply bind_ok_inv in E as (u1 & t1 & E1 & E).
  injection E1 as _ <-.
  set (t1 := with_trace (trace s1 ++ [EvBeginBatch]) s1) in E.
  assert (A1 : arena_ok t1) by exact A.
  apply bind_ok_inv in E as (d & t2 & E2 & E).
  assert (H2 : links_kept (w_childNode l) t1 t2 /\ arena_ok t2 /\
               nextNodeID t1 <= nextNodeID t2).
  { destruct (negb (w_isPrim l) || negb (isPrimitive (w_prevValue l))).
    - apply bind_ok_inv in E2 as (d0 & t2' & Eu & [= _ <-]).
      destruct (updateNodes_spec nullishPrimitive (w_childNode l) (w_newValue l)
                  (w_prevValue l) t1 A1 Hc) as (d1 & t2'' & Eu' & (_ & _ & A2 & N2 & _) & _).
      pose proof (updateNodes_links nullishPrimitive (w_childNode l) (w_newValue l)
                    (w_prevValue l) t1 A1 Hc) as L.
      rewrite Eu in Eu', L. injection Eu' as _ <-. by split_and!.
    - injection E2 as _ <-. split_and!; [apply links_kept_refl | exact A1 | lia]. }
  destruct H2 as (L2 & A2 & N2).
  apply bind_ok_inv in E as (u3 & t3 & E3 & E).
  assert (H3 : nodes t3 = nodes t2 /\ nextNodeID t3 = nextNodeID t2).
  { destruct (negb (w_isPrim l) || negb (strict_eq (w_newValue l) (w_prevValue l)));
      by injection E3 as _ <-. }
  destruct H3 as (Hn3 & Hx3).
  apply bind_ok_inv in E as (u4 & t4 & E4 & E). injection E4 as _ <-.
  apply bind_ok_inv in E as (u5 & t5 & E5 & E). injection E5 as _ <-.
  set (t5 := with_inSet false (with_trace (trace t3 ++ [EvEndBatch]) t3)) in E.
  assert (A5 : arena_ok t5) by (by apply (arena_ok_ext t2)).
  assert (Hn5 : w_node l < nextNodeID t5) by (cbn in *; lia).
  assert (L5 : links_kept (w_node l) t5 s').
  { destruct (w_isRoot l).
    - destruct (getProxy_spec (w_node l) KUndefined t5 A5 Hn5)
        as (q & t6 & E6 & _ & _ & _ & _ & _ & L6 & _).
      rewrite E in E6. injection E6 as _ <-. by apply L6.
    - destruct (getProxy_spec (w_node l) (w_key l) t5 A5 Hn5)
        as (q & t6 & E6 & _ & _ & _ & _ & _ & L6 & _).
      rewrite E in E6. injection E6 as _ <-. by apply L6. }
  apply (links_kept_trans _ s1 t2).
  { intros m Hm. apply L2. lia. }
  apply (links_kept_trans _ t2 t5); [| exact L5].
  intros m _. unfold get_node. cbn. by rewrite Hn3.
Qed.

Lemma notify_not_doNotify dn n nv pv lvl o :
  forallb is_doNotify dn = true -> EvNotify n nv pv lvl o ∉ dn.
Proof.
  intros F Hin. rewrite List.forallb_forall in F.
  apply list_elem_of_In in Hin. specialize (F _ Hin). discriminate.
Qed.

Lemma notify_not_call a prev v n nv pv lvl o :
  EvNotify n nv pv lvl o ∉ resolve_events a prev v.
Proof.
  destruct v; cbn; try apply not_elem_of_nil.
  destruct a; [apply not_elem_of_nil |]. intros H.
  apply list_elem_of_singleton in H. discriminate.
Qed.

(** X3: [set(v)] through the proxy of a root node, on an arena in order
    and a root that is not locked.  The call returns the proxy of the root;
    the root value is then [v] itself, whatever was there and whatever [v]
    is made of, or, for a function outside [assign], what the function
    returns for the previous root value; the function is called once, and
    the [notify] of the write, if any, is sent for the root node. *)
Theorem root_set_replaces_value (node : nat) (v : value) (s : state) :
  arena_ok s -> node < nextNodeID s -> locked s = false ->
  parent (get_node s node) = None ->
  strict_eq v VSymbolUndef = false ->
  exists s' evs,
    set_ node v s = (Ok node, s') /\
    root_value s' = resolve_value call (inAssign s) (root_value s) v /\
    getNodeValue s' node = root_value s' /\
    trace s' = trace s ++ evs /\
    List.filter is_call evs = resolve_events (inAssign s) (root_value s) v /\
    (forall n nv pv lvl o, EvNotify n nv pv lvl o ∈ evs ->
       n = node /\ nv = root_value s' /\ pv = root_value s).
Proof.
  intros A Hn Hl Hp Hv.
  pose proof (setKey_write_root node v s Hv) as Ew. cbn zeta in Ew.
  set (x := resolve_value call (inAssign s) (root_value s) v) in *.
  set (l := mkLocals node node true (KStr "_") (isPrimitive v) false x (root_value s))
    in Ew.
  set (s1 := with_root_value x
               (with_trace ((trace s ++ [EvUntrack node])
                            ++ resolve_events (inAssign s) (root_value s) v)
                  (with_inSet true s))) in Ew.
  assert (A1 : arena_ok s1) by exact A.
  destruct (setKey_notify_spec nullishPrimitive l None s1 A1 Hn Hn)
    as (q & s' & En & dn & Fdn & T & _ & A' & _ & _ & Rv & _ & _ & _).
  pose proof (setKey_notify_root l None s1 q s' eq_refl En) as ->.
  cbn [w_node l] in En.
  assert (Hpar : parent (get_node s' node) = None /\ True).
  { split; [| done].
    pose proof (setKey_notify_links l None s1 node s' A1 (Nat.le_refl _) Hn En) as L.
    destruct (L node (Nat.le_refl _)) as [-> _]. exact Hp. }
  exists s'. eexists. split_and!.
  - unfold Observable.set. unfold bind at 1. unfold get_state at 1. rewrite Hp.
    rewrite (setKey_unlocked call nullishPrimitive) by exact Hl.
    unfold bind at 1. rewrite Ew. exact En.
  - rewrite Rv. reflexivity.
  - unfold getNodeValue, node_path. cbn [path_to].
    destruct Hpar as [-> _]. reflexivity.
  - rewrite T. unfold s1. cbn [trace with_trace with_root_value].
    rewrite <- !app_assoc. reflexivity.
  - rewrite !List.filter_app. cbn [List.filter is_call app].
    rewrite (filter_doNotify_calls dn Fdn), resolve_events_calls.
    destruct (w_isPrim l && strict_eq (w_newValue l) (w_prevValue l));
      cbn; by rewrite app_nil_r.
  - intros n nv pv lvl o Hin.
    rewrite !elem_of_app in Hin.
    destruct Hin as [Hin | [Hin | [Hin | [Hin | [Hin | Hin]]]]].
    + apply list_elem_of_singleton in Hin. discriminate.
    + by apply notify_not_call in Hin.
    + apply list_elem_of_singleton in Hin. discriminate.
    + by apply notify_not_doNotify in Hin.
    + cbn [w_isPrim w_newValue w_prevValue l] in Hin.
      destruct (isPrimitive v && strict_eq x (root_value s));
        [by apply elem_of_nil in Hin |].
      apply list_elem_of_singleton in Hin. injection Hin as -> -> -> _ _.
      split_and!; [| by rewrite Rv | reflexivity].
      unfold notify_target. cbn. by destruct (isPrimitive v).
    + apply list_elem_of_singleton in Hin. discriminate.
Qed.

End SetThenValue.

(** ** The primitive wrapper: a write, then a read *)

Section WrapperRoundTrip.

Variable call : nat -> value -> value.
Variable hook : nat -> value -> value.
Variable node : nat.

Local Abbreviation peek := (ObservablePrimitiveClass.peek hook).
Local Abbreviation get := (ObservablePrimitiveClass.get hook node).
Local Abbreviation pset := (ObservablePrimitiveClass.set call node).

(** X19: [set] then [get] on a primitive wrapper whose root is not locked.
    [set(v)] stores [v], or what the updater [v] returns for the current
    value; a [get] after it records one read of the node and returns the
    stored value.  Two sets compose: the notification of the second carries
    the value of the first as previous value.  Where the activation hook
    had not run before the [set], the first read runs it after the write,
    and returns the value the hook leaves. *)
Theorem primitive_set_then_get (s : state) (v w : value) :
  locked s = false -> isFunction w = false ->
  exists s1 s2 s3 evs,
    pset v s = (Ok node, s1) /\
    root_value s1 = resolve_value call false (root_value s) v /\
    pset w s1 = (Ok node, s2) /\
    trace s2 = trace s1 ++ [EvDoNotify node w [] w (root_value s1) 0 None] /\
    get s2 =
      (Ok (match activate s with Some h => hook h w | None => w end), s3) /\
    trace s3 = trace s2 ++ EvUpdateTracking node false :: evs /\
    evs = match activate s with Some h => [EvActivate h] | None => [] end /\
    activate s3 = None.
Proof.
  intros Hl Hw.
  assert (E1 : exists s1, pset v s = (Ok node, s1) /\
                root_value s1 = resolve_value call false (root_value s) v /\
                locked s1 = false /\ activate s1 = activate s).
  { unfold ObservablePrimitiveClass.set.
    destruct v; unfold bind, get_state, ret, doNotify, emit, modify; cbn;
      rewrite Hl; eexists; (split; [reflexivity |]); by split_and!. }
  destruct E1 as (s1 & E1 & R1 & L1 & H1).
  assert (E2 : pset w s1 =
    (Ok node, with_trace (trace s1 ++ [EvDoNotify node w [] w (root_value s1) 0 None])
                (with_root_value w s1))).
  { unfold ObservablePrimitiveClass.set.
    destruct w; try discriminate Hw;
      unfold bind, get_state, ret, doNotify, emit, modify; cbn; by rewrite L1. }
  destruct (activate s) as [h|] eqn:Ha.
  - eexists s1, _, _, _. split; [exact E1 |]. split; [exact R1 |].
    split; [exact E2 |]. split; [reflexivity |].
    unfold ObservablePrimitiveClass.get, ObservablePrimitiveClass.peek.
    unfold bind, get_state, ret, updateTracking, emit, modify. cbn.
    rewrite H1. cbn. split; [reflexivity |]. split; [| by split].
    by rewrite <- app_assoc.
  - eexists s1, _, _, _. split; [exact E1 |]. split; [exact R1 |].
    split; [exact E2 |]. split; [reflexivity |].
    unfold ObservablePrimitiveClass.get, ObservablePrimitiveClass.peek.
    unfold bind, get_state, ret, updateTracking, emit, modify. cbn.
    rewrite H1. cbn. split; [reflexivity |]. by split_and!.
Qed.

End WrapperRoundTrip.

(** ** The value accessor of a primitive node, and [delete] *)

Section ValueAndDelete.

Import ReadTraps.

Variable call : nat -> value -> value.
Variable nullishPrimitive : bool.
Variable proto_get : value -> string -> option value.
Variable function_keys : nat -> list string.

Local Abbreviation isPrimitive := (Observable.isPrimitive nullishPrimitive).
Local Abbreviation setKey_write := (Observable.setKey_write call nullishPrimitive).
Local Abbreviation setKey := (Observable.setKey call nullishPrimitive).
Local Abbreviation set_ := (Observable.set call nullishPrimitive).
Local Abbreviation deleteFn := (Observable.deleteFn call nullishPrimitive).
Local Abbreviation proxyHandler_ownKeys :=
  (ReadTraps.proxyHandler_ownKeys nullishPrimitive function_keys).
Local Abbreviation proxyHandler_has :=
  (ReadTraps.proxyHandler_has proto_get function_keys).

(** [setKey_write], the value accessor resolved. *)
Lemma setKey_write_unfold node k v s :
  let isDelete := strict_eq v VSymbolUndef in
  let newValue := if isDelete then VUndefined else v in
  let unwrap := isPrimitive newValue && bool_decide (k = KStr "value")
                && isPrimitive (getNodeValue s node) in
  setKey_write node k v s =
    setKey_write_at call nullishPrimitive s
      (if unwrap then parent (get_node s node) else Some node)
      (if unwrap then key (get_node s node) else k) isDelete newValue s.
Proof. reflexivity. Qed.

(** X4: the value accessor.  A write of a primitive to the key ['value']
    of a node that holds a primitive and has a parent is the write [set]
    does on the node itself: it goes to the parent, under the key of the
    node. *)
Theorem value_write_is_set (node p : nat) (v : value) (lvl : option Z) (s : state) :
  isPrimitive v = true -> strict_eq v VSymbolUndef = false ->
  isPrimitive (getNodeValue s node) = true ->
  parent (get_node s node) = Some p ->
  is_reference (getNodeValue s p) = true ->
  setKey node (KStr "value") v lvl s = setKey p (key (get_node s node)) v lvl s /\
  setKey node (KStr "value") v None s = set_ node v s.
Proof.
  intros Hv Hd Hn Hp Hr.
  assert (E : setKey_write node (KStr "value") v s
              = setKey_write p (key (get_node s node)) v s).
  { rewrite !setKey_write_unfold. cbn zeta. rewrite Hd.
    rewrite Hv, Hn, (reference_not_primitive nullishPrimitive _ Hr).
    rewrite (bool_decide_eq_true_2 (KStr "value" = KStr "value")) by done.
    rewrite andb_false_r. cbn [andb]. rewrite Hp. reflexivity. }
  assert (E' : forall l, setKey node (KStr "value") v l s
                         = setKey p (key (get_node s node)) v l s).
  { intros l. unfold Observable.setKey. unfold bind at 1. unfold bind at 2.
    unfold get_state. destruct (locked s); [reflexivity |].
    unfold bind. by rewrite E. }
  split; [apply E' |].
  unfold Observable.set. unfold bind at 1. unfold get_state at 1. rewrite Hp.
  apply E'.
Qed.

Lemma delete_prop_keeps x k y :
  delete_prop x k = inl y -> is_reference x = false -> y = x.
Proof. apply delete_prop_not_reference. Qed.

(** The write of a [delete] into a container that is present. *)
Lemma setKey_write_delete node k s c s1 :
  arena_ok s -> node < nextNodeID s ->
  is_reference (getNodeValue s node) = true -> k <> KSymbolUndef ->
  (parent (get_node s node) = None -> k = KStr "value" -> nullishPrimitive = false) ->
  getChildNode node k (with_inSet true s) = (Ok c, s1) ->
  setKey_write node k VSymbolUndef s =
    match update_path (root_value s) (node_path s node) (fun y => delete_prop y k) with
    | inl r =>
        (Ok (mkLocals node c false k nullishPrimitive true VUndefined
               (get_prop (getNodeValue s node) k)),
         with_root_value r (with_trace (trace s1 ++ [EvUntrack c]) s1))
    | inr e => (Throw e, with_trace (trace s1 ++ [EvUntrack c]) s1)
    end.
Proof.
  intros A Hn Href Hk Hroot Ec.
  assert (A0 : arena_ok (with_inSet true s)) by exact A.
  pose proof (getChildNode_getNodeValue node k (with_inSet true s) node A0 Hn) as Hval.
  rewrite Ec in Hval. cbn [snd] in Hval.
  rewrite (getNodeValue_ext s (with_inSet true s) node eq_refl eq_refl) in Hval.
  assert (Hpath : node_path s1 node = node_path s node).
  { pose proof (node_path_links node (with_inSet true s) _ A0
                  (getChildNode_links node k (with_inSet true s) node Hn)) as P.
    rewrite Ec in P. cbn [snd] in P. rewrite P.
    apply node_path_ext. reflexivity. }
  destruct (getChildNode_value_trace node k (with_inSet true s))
    as (c' & s1' & E' & R & _).
  rewrite Ec in E'. injection E' as <- <-.
  rewrite setKey_write_unfold. cbn zeta.
  cbn [strict_eq Observable.isPrimitive].
  rewrite (reference_not_primitive nullishPrimitive _ Href), andb_false_r.
  unfold setKey_write_at. cbn [Observable.isPrimitive].
  unfold bind at 1. unfold modify at 1.
  assert (Hroot' :
    bool_decide (k = KSymbolUndef)
    || negb (bool_decide (is_Some (parent (get_node s node))))
       && bool_decide (k = KStr "value") && nullishPrimitive = false).
  { rewrite bool_decide_eq_false_2 by exact Hk. cbn [orb].
    destruct (parent (get_node s node)) eqn:Hp.
    - rewrite bool_decide_eq_true_2 by eauto. reflexivity.
    - rewrite (bool_decide_eq_false_2 (is_Some None)) by (by intros [? ?]).
      cbn [negb andb].
      destruct (decide (k = KStr "value")) as [Hkv|Hkv].
      + rewrite (Hroot eq_refl Hkv). apply andb_false_r.
      + by rewrite bool_decide_eq_false_2. }
  rewrite Hroot'.
  unfold bind at 1. rewrite Ec.
  unfold bind at 1. unfold untrack at 1, emit at 1, modify at 1.
  set (s1u := with_trace (trace s1 ++ [EvUntrack c]) s1).
  assert (Hval2 : getNodeValue s1u node = getNodeValue s node).
  { by rewrite (getNodeValue_ext s1 s1u node eq_refl eq_refl). }
  unfold bind at 1. unfold bind at 1.
  rewrite ensureNodeValue_present
    by (rewrite Hval2; by apply is_reference_truthy).
  unfold ret at 1. unfold bind at 1. unfold container_get at 1. rewrite Hval2.
  unfold bind at 1. unfold ret at 1.
  unfold bind at 1. unfold container_delete, container_update.
  change (root_value s1u) with (root_value s1). rewrite R.
  rewrite (node_path_ext s1 s1u node eq_refl), Hpath.
  change (root_value (with_inSet true s)) with (root_value s).
  destruct (update_path (root_value s) (node_path s node) (fun y => delete_prop y k));
    reflexivity.
Qed.

Lemma assoc_remove_other name ps q :
  q <> name -> assoc_get q (assoc_remove name ps) = assoc_get q ps.
Proof.
  intros Hq. induction ps as [|[n v] ps IH]; cbn; [reflexivity |].
  destruct (String.eqb_spec n name) as [->|Hn]; cbn.
  - rewrite IH. destruct (String.eqb_spec name q) as [->|]; [contradiction | reflexivity].
  - by rewrite IH.
Qed.

(** X5: [delete(key)] on a node that holds a plain object, a root that is
    not locked.  The call returns; the object at the node keeps its identity
    and loses the key, and only the key: every other property reads as
    before; the own keys no longer list the key, and the [has] trap finds it
    only if the object inherits it. *)
Theorem delete_removes_the_key (node : nat) (name : string) (s : state)
    (r : nat) (ps : list (string * value)) :
  arena_ok s -> node < nextNodeID s -> locked s = false ->
  getNodeValue s node = VObject r ps ->
  (parent (get_node s node) = None -> name = "value" -> nullishPrimitive = false) ->
  exists s',
    deleteFn node (KStr name) s = (Ok tt, s') /\
    getNodeValue s' node = VObject r (assoc_remove name ps) /\
    (forall q, q <> name ->
       get_prop (getNodeValue s' node) (KStr q) = get_prop (VObject r ps) (KStr q)) /\
    (exists keys,
        proxyHandler_ownKeys node s' =
          (Ok keys, with_trace (trace s' ++ [EvUpdateTracking node true]) s') /\
        name ∉ keys) /\
    proxyHandler_has node name s' =
      (Ok (bool_decide (is_Some (proto_get (VObject r (assoc_remove name ps)) name))),
       s').
Proof.
  intros A Hn Hl Hv Hroot.
  assert (A0 : arena_ok (with_inSet true s)) by exact A.
  destruct (getChildNode_spec node (KStr name) (with_inSet true s) A0 Hn)
    as (c & s1 & Ec & L & Ht & _ & Hnc & Hc & _).
  destruct L as [(R1 & _ & A1 & N1 & B1) _].
  assert (Href : is_reference (getNodeValue s node) = true) by (by rewrite Hv).
  assert (Hdel : delete_prop (getNodeValue s node) (KStr name)
                 = inl (VObject r (assoc_remove name ps))) by (by rewrite Hv).
  destruct (update_path_total (fun y => delete_prop y (KStr name)) (node_path s node)
              (root_value s) _ Hdel) as (root' & Er).
  pose proof (setKey_write_delete node (KStr name) s c s1 A Hn Href ltac:(done)) as Ew.
  rewrite Er in Ew.
  specialize (Ew ltac:(intros Hp [= ->]; by apply Hroot) Ec).
  set (l := mkLocals node c false (KStr name) nullishPrimitive true VUndefined
              (get_prop (getNodeValue s node) (KStr name))) in Ew.
  set (s2 := with_root_value root' (with_trace (trace s1 ++ [EvUntrack c]) s1)) in Ew.
  assert (A2 : arena_ok s2) by (by apply (arena_ok_ext s1)).
  assert (Hn2 : node < nextNodeID s2) by (cbn in *; lia).
  destruct (setKey_notify_spec nullishPrimitive l (Some (-1)%Z) s2 A2 Hn2 Hc)
    as (q & s' & En & dn & _ & _ & _ & A' & _ & _ & Rv & _ & Lk & _).
  specialize (Lk Hnc). cbn [w_node l] in Lk.
  assert (L01 : links_kept node s s2).
  { pose proof (getChildNode_links node (KStr name) (with_inSet true s) node Hn) as L0.
    rewrite Ec in L0. exact L0. }
  assert (Hpath : node_path s' node = node_path s node).
  { apply node_path_links; [exact A |]. eapply links_kept_trans; eassumption. }
  assert (Hv' : getNodeValue s' node = VObject r (assoc_remove name ps)).
  { unfold getNodeValue. rewrite Hpath, Rv. cbn [s2 root_value with_root_value].
    pose proof (get_path_update_path _ (fun y z => delete_prop_keeps y (KStr name) z)
                  _ _ _ Er) as G.
    unfold getNodeValue in Hdel. congruence. }
  assert (Hown : own_key function_keys (VObject r (assoc_remove name ps)) name = false).
  { unfold own_key. apply bool_decide_eq_false_2. cbn. apply assoc_remove_not_in. }
  exists s'. split_and!.
  - unfold Observable.deleteFn. unfold bind at 1. unfold get_state at 1.
    cbn [fst snd]. unfold bind at 1.
    rewrite (setKey_unlocked call nullishPrimitive node (KStr name) VSymbolUndef
               (Some (-1)%Z) s Hl).
    unfold bind at 1. rewrite Ew, En. reflexivity.
  - exact Hv'.
  - intros q0 Hq. rewrite Hv'. cbn. by rewrite assoc_remove_other.
  - eexists. split.
    + unfold ReadTraps.proxyHandler_ownKeys. unfold bind at 1. unfold get_state at 1.
      rewrite Hv'. reflexivity.
    + cbn. apply assoc_remove_not_in.
  - unfold ReadTraps.proxyHandler_has. unfold bind at 1. unfold get_state at 1.
    rewrite Hv'. cbn [is_reference]. by rewrite Hown.
Qed.

End ValueAndDelete.

Import Family.

(** ** The family order under the diff *)

Section FamilyOrder.

Variable nullishPrimitive : bool.

Local Abbreviation isPrimitive := (Observable.isPrimitive nullishPrimitive).
Local Abbreviation loop_step := (Observable.loop_step nullishPrimitive).
Local Abbreviation removed_step := (Observable.removed_step nullishPrimitive).
Local Abbreviation updateNodes_body := (Observable.updateNodes_body nullishPrimitive).
Local Abbreviation updateNodes_fuel := (Observable.updateNodes_fuel nullishPrimitive).
Local Abbreviation updateNodes := (Observable.updateNodes nullishPrimitive).

Lemma family_okb_correct s : family_okb s = true -> family_ok s.
Proof.
  unfold family_okb. rewrite forallb_forall. intros H n k c Hc.
  unfold get_node in Hc at 1. destruct (nodes s !! n) as [nd|] eqn:E; cbn in Hc.
  2:{ rewrite lookup_empty in Hc. discriminate. }
  specialize (H (n, nd)). cbn [fst snd] in H.
  rewrite forallb_forall in H.
  assert (Hin : In (k, c) (map_to_list (children nd))).
  { apply list_elem_of_In. by apply elem_of_map_to_list. }
  assert (Hn : In (n, nd) (map_to_list (nodes s))).
  { apply list_elem_of_In. by apply elem_of_map_to_list. }
  specialize (H Hn (k, c) Hin). cbn [snd] in H. by apply bool_decide_eq_true in H.
Qed.

Lemma keys_kept_refl p s : keys_kept p s s.
Proof. split; [lia |]. split; done. Qed.

Lemma keys_kept_trans p s1 s2 s3 :
  keys_kept p s1 s2 -> keys_kept p s2 s3 -> keys_kept p s1 s3.
Proof.
  intros (N1 & P1 & K1) (N2 & P2 & K2). split; [lia |]. split.
  - intros m Hm. rewrite P2 by lia. by apply P1.
  - intros m q Hm Hq Hlt. rewrite (K2 m q); [by apply (K1 m q) | lia | | exact Hlt].
    rewrite P1 by exact Hm. exact Hq.
Qed.

Lemma keys_kept_mono p c s s' : p <= c -> keys_kept c s s' -> keys_kept p s s'.
Proof.
  intros Hpc (N & P & K). split; [exact N |]. split; [exact P |].
  intros m q Hm Hq Hlt. apply (K m q); [exact Hm | exact Hq | lia].
Qed.

(** Every old node keeps its links. *)
Lemma keys_kept_links p s s' :
  nextNodeID s <= nextNodeID s' ->
  (forall n, n < nextNodeID s -> links_kept n s s') -> keys_kept p s s'.
Proof.
  intros N L. split; [exact N |]. split.
  - intros m Hm. by destruct (L m Hm m (Nat.le_refl m)).
  - intros m q Hm _ _. by destruct (L m Hm m (Nat.le_refl m)).
Qed.

Lemma entries_from_refl p s : entries_from p s s.
Proof. intros k c H. by left. Qed.

Lemma entries_from_trans p s1 s2 s3 :
  nextNodeID s1 <= nextNodeID s2 ->
  entries_from p s1 s2 -> entries_from p s2 s3 -> entries_from p s1 s3.
Proof.
  intros N H1 H2 k c H. destruct (H2 k c H) as [H' | H']; [| right; lia].
  by apply H1.
Qed.

Lemma entries_from_same p s s' :
  get_node s' p = get_node s p -> entries_from p s s'.
Proof. intros E k c H. left. by rewrite <- E. Qed.

(** [getChildNode] keeps the family order: a node it creates is a child of
    the node it is created for. *)
Lemma getChildNode_family p k s :
  arena_ok s -> family_ok s -> p < nextNodeID s ->
  family_ok (snd (getChildNode p k s)).
Proof.
  intros A F Hp. unfold getChildNode.
  destruct (children (get_node s p) !! k) as [c|] eqn:E; [exact F |].
  cbn [snd]. set (c := nextNodeID s).
  intros n k' c' H.
  change (get_node (with_nextNodeID ?x ?s0) ?m) with (get_node s0 m) in *.
  assert (Hold : forall m k0 c0, children (get_node s m) !! k0 = Some c0 -> c0 <> c).
  { intros m k0 c0 H0. unfold get_node in H0.
    destruct (nodes s !! m) as [nd|] eqn:Em; cbn in H0.
    - destruct A as (_ & A2 & _). destruct (A2 m nd k0 c0 Em H0). unfold c. lia.
    - rewrite lookup_empty in H0. discriminate. }
  assert (Hpar : forall c0, c0 <> c ->
    parent (get_node (put_node p (node_with_children
                        (<[k := c]> (children (get_node s p))) (get_node s p))
                        (put_node c (mkNode (Some p) k ∅ false None) s)) c0)
    = parent (get_node s c0)).
  { intros c0 Hc0. destruct (decide (c0 = p)) as [->|Hne].
    - by rewrite get_node_put_eq.
    - by rewrite !get_node_put_ne. }
  destruct (decide (n = p)) as [->|Hnp].
  - rewrite get_node_put_eq in H. cbn [children node_with_children] in H.
    destruct (decide (k' = k)) as [->|Hk].
    + rewrite lookup_insert_eq in H. injection H as <-.
      rewrite get_node_put_ne by (unfold c; lia). by rewrite get_node_put_eq.
    + rewrite lookup_insert_ne in H by done.
      rewrite Hpar by (eapply Hold; exact H). by apply (F p k' c').
  - rewrite get_node_put_ne in H by done.
    destruct (decide (n = c)) as [->|Hnc].
    + rewrite get_node_put_eq in H. cbn in H. rewrite lookup_empty in H. discriminate.
    + rewrite get_node_put_ne in H by done.
      rewrite Hpar by (eapply Hold; exact H). by apply (F n k' c').
Qed.

Lemma getChildNode_keys q p k s :
  arena_ok s -> p < nextNodeID s -> keys_kept q s (snd (getChildNode p k s)).
Proof.
  intros A Hp. apply keys_kept_links.
  - destruct (getChildNode_spec p k s A Hp) as (c & s' & E & L & _).
    rewrite E. cbn [snd]. eapply loop_post_next. exact L.
  - intros n Hn. by apply getChildNode_links.
Qed.

Lemma getChildNode_entries p k s :
  arena_ok s -> p < nextNodeID s -> entries_from p s (snd (getChildNode p k s)).
Proof.
  intros A Hp. unfold getChildNode.
  destruct (children (get_node s p) !! k) as [c|] eqn:E; [apply entries_from_refl |].
  cbn [snd]. intros k' c' H.
  change (get_node (with_nextNodeID ?x ?s0) ?m) with (get_node s0 m) in *.
  rewrite get_node_put_eq in H. cbn [children node_with_children] in H.
  destruct (decide (k' = k)) as [->|Hk].
  - rewrite lookup_insert_eq in H. injection H as <-. right. lia.
  - rewrite lookup_insert_ne in H by done. by left.
Qed.

(** A new key for a node keeps the family order, and the keys of the nodes
    whose parent is below the parent of the node. *)
Lemma rekey_family c k s :
  family_ok s -> family_ok (put_node c (node_with_key k (get_node s c)) s).
Proof.
  intros F n k' c' H.
  assert (Hch : forall m, children (get_node (put_node c (node_with_key k (get_node s c)) s) m)
                          = children (get_node s m)).
  { intros m. destruct (decide (m = c)) as [->|Hne].
    - by rewrite get_node_put_eq.
    - by rewrite get_node_put_ne. }
  rewrite Hch in H. specialize (F n k' c' H).
  destruct (decide (c' = c)) as [->|Hne].
  - by rewrite get_node_put_eq.
  - by rewrite get_node_put_ne.
Qed.

Lemma rekey_keys p c k s :
  parent (get_node s c) = Some p ->
  keys_kept p s (put_node c (node_with_key k (get_node s c)) s).
Proof.
  intros Hc. split; [cbn; lia |]. split.
  - intros m _. destruct (decide (m = c)) as [->|Hne].
    + by rewrite get_node_put_eq.
    + by rewrite get_node_put_ne.
  - intros m q _ Hq Hlt. destruct (decide (m = c)) as [->|Hne].
    + rewrite Hc in Hq. injection Hq as <-. lia.
    + by rewrite get_node_put_ne.
Qed.

Lemma link_get_node p k c s m :
  parent (get_node (put_node p (node_with_children (<[k := c]> (children (get_node s p)))
                                  (get_node s p)) s) m) = parent (get_node s m) /\
  key (get_node (put_node p (node_with_children (<[k := c]> (children (get_node s p)))
                               (get_node s p)) s) m) = key (get_node s m).
Proof.
  destruct (decide (m = p)) as [->|Hne].
  - by rewrite get_node_put_eq.
  - by rewrite get_node_put_ne.
Qed.

Lemma link_family p k c s :
  family_ok s -> parent (get_node s c) = Some p ->
  family_ok (put_node p (node_with_children (<[k := c]> (children (get_node s p)))
                           (get_node s p)) s).
Proof.
  intros F Hc n k' c' H. rewrite (proj1 (link_get_node p k c s c')).
  destruct (decide (n = p)) as [->|Hne].
  - rewrite get_node_put_eq in H. cbn [children node_with_children] in H.
    destruct (decide (k' = k)) as [->|Hk].
    + rewrite lookup_insert_eq in H. by injection H as <-.
    + rewrite lookup_insert_ne in H by done. by apply (F p k' c').
  - rewrite get_node_put_ne in H by done. by apply (F n k' c').
Qed.

(** Putting the moved nodes in place keeps the family order and every
    link. *)
Lemma apply_moved_family p mv : forall s,
  family_ok s -> moved_family p mv s ->
  family_ok (snd (apply_moved p mv s)) /\
  nextNodeID (snd (apply_moved p mv s)) = nextNodeID s /\
  forall m, parent (get_node (snd (apply_moved p mv s)) m) = parent (get_node s m) /\
            key (get_node (snd (apply_moved p mv s)) m) = key (get_node s m).
Proof.
  unfold apply_moved.
  induction mv as [|[k c] mv IH]; intros s F Hmv; cbn [forM].
  - by split.
  - apply Forall_cons in Hmv as [Hc Hmv]. cbn [snd] in Hc.
    set (s1 := put_node p (node_with_children (<[k := c]> (children (get_node s p)))
                             (get_node s p)) s).
    assert (E : forall (g : M unit),
      (modify (fun s0 => put_node p
                 (node_with_children (<[k := c]> (children (get_node s0 p)))
                    (get_node s0 p)) s0) ;;; g) s = g s1) by reflexivity.
    rewrite E. clear E.
    destruct (IH s1) as (F' & N' & L').
    + by apply link_family.
    + eapply Forall_impl; [exact Hmv |]. intros e He. cbn beta in *.
      unfold s1. by rewrite (proj1 (link_get_node p k c s (snd e))).
    + split; [exact F' |]. split; [exact N' |].
      intros m. destruct (L' m) as [-> ->]. apply link_get_node.
Qed.

Lemma apply_moved_keys q p mv s :
  family_ok s -> moved_family p mv s -> keys_kept q s (snd (apply_moved p mv s)).
Proof.
  intros F Hmv. destruct (apply_moved_family p mv s F Hmv) as (_ & N & L).
  split; [lia |]. split.
  - intros m _. apply L.
  - intros m q' _ _ _. apply L.
Qed.

Lemma moved_family_kept p mv s s' :
  moved_ok p mv s -> keys_kept p s s' -> moved_family p mv s -> moved_family p mv s'.
Proof.
  intros Hok (_ & P & _) Hmv. unfold moved_family, moved_ok in *.
  rewrite Forall_forall in Hok, Hmv |- *. intros e He.
  rewrite P; [by apply Hmv | by apply Hok].
Qed.

Lemma doNotify_state c v pv o s b :
  snd (when b (doNotify c v [] v pv 0 o) s)
  = if b then with_trace (trace s ++ [EvDoNotify c v [] v pv 0 o]) s else s.
Proof. by destruct b. Qed.

(** *** The steps of [updateNodes] *)

Local Abbreviation rec_keys m rec :=
  (forall c obj prev s,
     vsize obj + vsize prev < m -> arena_ok s -> family_ok s -> c < nextNodeID s ->
     family_ok (snd (rec c obj prev s)) /\ keys_kept c s (snd (rec c obj prev s))).

Lemma rec_child_keys m (rec : nat -> value -> value -> M (option bool))
    child obj prev b s :
  rec_keys m rec -> (b = true -> vsize obj + vsize prev < m) ->
  arena_ok s -> family_ok s -> child < nextNodeID s ->
  family_ok (snd ((if b then rec child obj prev ;;; ret tt else ret tt) s)) /\
  keys_kept child s (snd ((if b then rec child obj prev ;;; ret tt else ret tt) s)).
Proof.
  intros Hrec Hw A F Hc. destruct b; [| split; [exact F | apply keys_kept_refl]].
  specialize (Hrec child obj prev s (Hw eq_refl) A F Hc).
  unfold bind. by destruct (rec child obj prev s) as [[d|e] s1].
Qed.

(** The move of a node: which keys it changes, and that it does change the
    key of the node at the previous index. *)
Lemma detect_move_keys p prevValue isArr isArrDiff keyMap k v id child isDiff vars s :
  arena_ok s -> family_ok s -> p < nextNodeID s ->
  moved_ok p (moved vars) s -> moved_family p (moved vars) s ->
  exists r s',
    detect_move p prevValue isArr isArrDiff keyMap k v id child isDiff vars s
      = (Ok r, s') /\
    family_ok s' /\ keys_kept p s s' /\ entries_from p s s' /\
    moved_family p (moved (snd r)) s' /\
    (forall m, m < nextNodeID s -> key (get_node s' m) <> key (get_node s m) ->
       isArr = true /\ isArrDiff = true /\ is_undefined id = false /\
       exists j, keyMap ≫= keyMap_get id = Some j /\ KNum j <> k /\
                 children (get_node s p) !! KNum j = Some m) /\
    (forall j c,
       isArr = true -> isArrDiff = true -> is_undefined id = false ->
       keyMap ≫= keyMap_get id = Some j -> KNum j <> k ->
       children (get_node s p) !! KNum j = Some c ->
       key (get_node s' c) = k).
Proof.
  intros A F Hp Hok Hmv.
  assert (Hskip : forall r : nat * bool * loop_vars, moved (snd r) = moved vars ->
    (forall j c : nat,
       isArr = true -> isArrDiff = true -> is_undefined id = false ->
       keyMap ≫= keyMap_get id = Some j -> KNum j <> k ->
       children (get_node s p) !! KNum j = Some c -> False) ->
    exists r' s',
      ret r s = (Ok r', s') /\
      family_ok s' /\ keys_kept p s s' /\ entries_from p s s' /\
      moved_family p (moved (snd r')) s' /\
      (forall m, m < nextNodeID s -> key (get_node s' m) <> key (get_node s m) ->
         isArr = true /\ isArrDiff = true /\ is_undefined id = false /\
         exists j, keyMap ≫= keyMap_get id = Some j /\ KNum j <> k /\
                   children (get_node s p) !! KNum j = Some m) /\
      (forall j c,
         isArr = true -> isArrDiff = true -> is_undefined id = false ->
         keyMap ≫= keyMap_get id = Some j -> KNum j <> k ->
         children (get_node s p) !! KNum j = Some c ->
         key (get_node s' c) = k)).
  { intros r Hr Hno. exists r, s. split; [reflexivity |].
    split; [exact F |]. split; [apply keys_kept_refl |].
    split; [apply entries_from_refl |]. split; [by rewrite Hr |].
    split; [intros m _ H; by destruct H |].
    intros j c H1 H2 H3 H4 H5 H6. destruct (Hno j c H1 H2 H3 H4 H5 H6). }
  unfold detect_move.
  destruct (isArr && negb (is_undefined id)) eqn:Hcond.
  2:{ apply Hskip; [reflexivity |]. intros j c -> _ Hid. cbn in Hcond.
      by rewrite Hid in Hcond. }
  apply andb_prop in Hcond as [Harr Hid]. apply negb_true_iff in Hid.
  destruct (keyMap ≫= keyMap_get id) as [keyChild|] eqn:Hkm.
  2:{ apply Hskip; [reflexivity |]. intros j c _ _ _ Hj. discriminate. }
  destruct (negb (bool_decide (KNum keyChild = k))) eqn:Hne.
  2:{ apply Hskip; [reflexivity |]. intros j c _ _ _ [= <-] Hj.
      apply negb_false_iff, bool_decide_eq_true in Hne. contradiction. }
  apply negb_true_iff, bool_decide_eq_false in Hne.
  destruct isArrDiff.
  2:{ unfold bind at 1. unfold ret at 1. cbn [fst snd].
      apply (Hskip (child, negb (strict_eq (get_prop prevValue (KNum keyChild)) v),
                    mkLoop (hasADiff vars) true (moved vars))); [reflexivity |].
      intros j c _ Hd. discriminate. }
  destruct (getChildNode_spec p (KNum keyChild) s A Hp)
    as (c & s1 & E & L1 & _ & Hch & Hpc & Hc & Hsame).
  pose proof (getChildNode_family p (KNum keyChild) s A F Hp) as F1.
  pose proof (getChildNode_keys p p (KNum keyChild) s A Hp) as K1.
  pose proof (getChildNode_entries p (KNum keyChild) s A Hp) as En1.
  pose proof (getChildNode_links p (KNum keyChild) s) as Lk1.
  rewrite E in F1, K1, En1, Lk1. cbn [snd] in F1, K1, En1, Lk1.
  pose proof (F1 p (KNum keyChild) c Hch) as Hparent.
  set (s2 := put_node c (node_with_key k (get_node s1 c)) s1).
  assert (K2 : keys_kept p s s2).
  { eapply keys_kept_trans; [exact K1 | by apply rekey_keys]. }
  eexists (c, negb (strict_eq (get_prop prevValue (KNum keyChild)) v),
           mkLoop (hasADiff vars) true (moved vars ++ [(k, c)])), s2.
  split.
  { unfold bind at 1. unfold bind at 1. rewrite E.
    unfold bind at 1. unfold modify at 1. reflexivity. }
  split; [by apply rekey_family |]. split; [exact K2 |].
  split.
  { eapply entries_from_trans; [apply K1 | exact En1 |].
    apply entries_from_same. unfold s2. rewrite get_node_put_ne by lia. reflexivity. }
  split.
  { cbn [snd moved]. apply Forall_app. split.
    - by apply (moved_family_kept p (moved vars) s s2).
    - apply Forall_singleton. cbn [snd]. unfold s2. by rewrite get_node_put_eq. }
  split.
  - intros m Hm Hkey. destruct (decide (m = c)) as [->|Hmc].
    + split; [exact Harr |]. split; [reflexivity |]. split; [exact Hid |].
      exists keyChild. split; [reflexivity |]. split; [exact Hne |].
      destruct (En1 _ _ Hch) as [H | H]; [exact H | lia].
    + exfalso. apply Hkey. unfold s2. rewrite get_node_put_ne by done.
      by destruct (Lk1 m Hm m (Nat.le_refl m)).
  - intros j c0 _ _ _ [= <-] _ Hc0.
    destruct (Hsame c0 Hc0) as [-> _]. unfold s2. by rewrite get_node_put_eq.
Qed.

(** The family order and the kept keys, together. *)
Local Abbreviation fk p s s' := (family_ok s' /\ keys_kept p s s').

Lemma fk_step {A B} p (m : M A) (k : A -> M B) s a s1 :
  m s = (Ok a, s1) -> fk p s s1 -> fk p s1 (snd (k a s1)) ->
  fk p s (snd (bind m k s)).
Proof.
  intros E [F1 K1] [F2 K2]. unfold bind. rewrite E.
  split; [exact F2 | eapply keys_kept_trans; eassumption].
Qed.

Lemma with_trace_keys p t s : keys_kept p s (with_trace t s).
Proof. split; [cbn; lia |]. split; done. Qed.

Lemma when_doNotify_keys p b c v pv o s :
  family_ok s -> fk p s (snd (when b (doNotify c v [] v pv 0 o) s)).
Proof.
  intros F. rewrite doNotify_state. destruct b.
  - split; [exact F | apply with_trace_keys].
  - split; [exact F | apply keys_kept_refl].
Qed.

Lemma removed_step_keys m (rec : nat -> value -> value -> M (option bool))
    p obj prev name s :
  rec_ok m rec -> rec_keys m rec ->
  vsize obj + vsize prev <= m -> truthy prev = true ->
  arena_ok s -> family_ok s -> p < nextNodeID s ->
  fk p s (snd (removed_step rec p obj prev name s)).
Proof.
  intros Hok Hrec Hm Ht A F Hp. unfold Observable.removed_step.
  destruct (keys_includes obj name); [split; [exact F | apply keys_kept_refl] |].
  destruct (getChildNode_spec p (KStr name) s A Hp)
    as (child & s1 & E1 & L1 & _ & _ & Hpc & Hc & _).
  pose proof (getChildNode_family p (KStr name) s A F Hp) as F1.
  pose proof (getChildNode_keys p p (KStr name) s A Hp) as K1.
  rewrite E1 in F1, K1. cbn [snd] in F1, K1.
  pose proof (loop_post_arena _ _ _ L1) as A1.
  eapply fk_step; [exact E1 | by split |]. cbn beta zeta.
  assert (Hw : negb (isPrimitive (get_prop prev (KStr name))) = true ->
               vsize VUndefined + vsize (get_prop prev (KStr name)) < m).
  { intros Hnp. apply negb_true_iff in Hnp.
    pose proof (removed_weight nullishPrimitive obj prev (KStr name) Hnp Ht). lia. }
  destruct (rec_child_spec m rec p child VUndefined
              (get_prop prev (KStr name))
              (negb (isPrimitive (get_prop prev (KStr name)))) s1 Hok Hw A1 Hpc Hc)
    as (u & s2 & E2 & L2).
  destruct (rec_child_keys m rec child VUndefined (get_prop prev (KStr name))
              (negb (isPrimitive (get_prop prev (KStr name)))) s1 Hrec Hw A1 F1 Hc)
    as [F2 K2].
  rewrite E2 in F2, K2. cbn [snd] in F2, K2.
  eapply fk_step; [exact E2 | split; [exact F2 |] |].
  { apply (keys_kept_mono p child); [lia | exact K2]. }
  unfold bind at 1. unfold get_state at 1.
  by apply when_doNotify_keys.
Qed.

Lemma removed_loop_keys m (rec : nat -> value -> value -> M (option bool))
    p obj prev names : forall s,
  rec_ok m rec -> rec_keys m rec ->
  vsize obj + vsize prev <= m -> truthy prev = true ->
  arena_ok s -> family_ok s -> p < nextNodeID s ->
  fk p s (snd (forM names (removed_step rec p obj prev) s)).
Proof.
  induction names as [|name names IH]; intros s Hok Hrec Hm Ht A F Hp; cbn [forM].
  - split; [exact F | apply keys_kept_refl].
  - destruct (removed_step_spec nullishPrimitive m rec p obj prev name s Hok Hm Ht A Hp)
      as (u & s1 & E1 & L1).
    pose proof (removed_step_keys m rec p obj prev name s Hok Hrec Hm Ht A F Hp) as FK1.
    rewrite E1 in FK1. cbn [snd] in FK1.
    eapply fk_step; [exact E1 | exact FK1 |].
    apply IH; try assumption.
    + eapply loop_post_arena; eassumption.
    + apply FK1.
    + pose proof (loop_post_next _ _ _ L1). lia.
Qed.

(** One step of the main loop at node [p]: the family order is kept; of the
    children of [p], only the node at the previous index of a move gets a
    new key, the one of the step. *)
Lemma loop_step_keys m (rec : nat -> value -> value -> M (option bool))
    p obj prev isArr isArrDiff idField keyMap vars k s :
  rec_ok m rec -> rec_keys m rec ->
  vsize obj + vsize prev <= m -> truthy obj = true ->
  arena_ok s -> family_ok s -> p < nextNodeID s ->
  moved_ok p (moved vars) s -> moved_family p (moved vars) s ->
  exists vars' s',
    loop_step rec p obj prev isArr isArrDiff idField keyMap vars k s = (Ok vars', s') /\
    family_ok s' /\ keys_kept p s s' /\ entries_from p s s' /\
    moved_family p (moved vars') s' /\
    (forall c, c < nextNodeID s -> parent (get_node s c) = Some p ->
       key (get_node s' c) <> key (get_node s c) ->
       isArr = true /\ isArrDiff = true /\
       exists j, move_at obj prev idField keyMap k j /\
                 children (get_node s p) !! KNum j = Some c) /\
    (forall j c,
       isArr = true -> isArrDiff = true -> move_at obj prev idField keyMap k j ->
       children (get_node s p) !! KNum j = Some c ->
       key (get_node s' c) = k).
Proof.
  intros Hok Hrec Hm Ht A F Hp Hmok Hmv.
  unfold Observable.loop_step. cbn zeta.
  destruct (strict_eq (get_prop obj k) (get_prop prev k)) eqn:Heq; cbn [negb].
  { exists vars, s. split; [reflexivity |]. split; [exact F |].
    split; [apply keys_kept_refl |]. split; [apply entries_from_refl |].
    split; [exact Hmv |]. split; [intros c _ _ H; by destruct H |].
    intros j c _ _ (Hf & _). unfold Observable.isPrimitive in *. congruence. }
  set (v := get_prop obj k) in *. set (pv := get_prop prev k) in *.
  set (id := get_named v (default "undefined" idField)).
  (* the child node of the key *)
  destruct (getChildNode_spec p k s A Hp)
    as (child & s1 & E1 & L1 & _ & _ & Hpc & Hc & _).
  pose proof (getChildNode_family p k s A F Hp) as F1.
  pose proof (getChildNode_keys p p k s A Hp) as K1.
  pose proof (getChildNode_entries p k s A Hp) as En1.
  pose proof (getChildNode_links p k s) as Lk1.
  rewrite E1 in F1, K1, En1, Lk1. cbn [snd] in F1, K1, En1, Lk1.
  pose proof (loop_post_arena _ _ _ L1) as A1.
  pose proof (loop_post_next _ _ _ L1) as N1.
  assert (Hp1 : p < nextNodeID s1) by lia.
  assert (Hmok1 : moved_ok p (moved vars) s1) by (eapply moved_ok_mono; eassumption).
  assert (Hmv1 : moved_family p (moved vars) s1)
    by (by apply (moved_family_kept p (moved vars) s s1)).
  (* the move *)
  destruct (detect_move_keys p prev isArr isArrDiff keyMap k v id child true vars s1
              A1 F1 Hp1 Hmok1 Hmv1)
    as ([[child' isDiff'] vars1] & s2 & E2 & F2 & K2 & En2 & Hmv2 & Safe2 & Live2).
  destruct (detect_move_spec p prev isArr isArrDiff keyMap k v id child true vars s1
              A1 Hp1 Hpc Hc Hmok1)
    as (r0 & s0 & E0 & L2 & Hpc' & Hc' & Hmok2 & _).
  rewrite E2 in E0. injection E0 as <- <-. cbn [fst snd] in *.
  pose proof (loop_post_arena _ _ _ L2) as A2.
  pose proof (loop_post_next _ _ _ L2) as N2.
  (* the diff of the element *)
  assert (Hw : negb (isPrimitive v) = true -> vsize v + vsize pv < m).
  { intros Hnp. apply negb_true_iff in Hnp.
    pose proof (child_weight nullishPrimitive obj prev k Hnp Ht). unfold v, pv. lia. }
  assert (E3 : exists vars2 s3,
    (if isDiff'
     then (if negb (isPrimitive v) then rec child' v pv ;;; ret tt else ret tt) ;;;
          ret (mkLoop true (didMove vars1) (moved vars1))
     else ret vars1) s2 = (Ok vars2, s3) /\
    moved vars2 = moved vars1 /\
    family_ok s3 /\ keys_kept child' s2 s3 /\ arena_ok s3 /\
    get_node s3 p = get_node s2 p).
  { destruct isDiff'.
    2:{ exists vars1, s2. split; [reflexivity |]. split; [reflexivity |].
        split; [exact F2 |]. split; [apply keys_kept_refl |]. by split. }
    destruct (negb (isPrimitive v)) eqn:Hnp.
    2:{ eexists _, s2. split; [reflexivity |]. split; [reflexivity |].
        split; [exact F2 |]. split; [apply keys_kept_refl |]. by split. }
    destruct (Hok child' v pv s2 (Hw eq_refl) A2 Hc') as (d & s3 & E & D).
    destruct (Hrec child' v pv s2 (Hw eq_refl) A2 F2 Hc') as [F3 K3].
    rewrite E in F3, K3. cbn [snd] in F3, K3.
    eexists _, s3. split.
    { unfold bind at 1. unfold bind at 1. rewrite E. reflexivity. }
    split; [reflexivity |]. split; [exact F3 |]. split; [exact K3 |].
    destruct D as (_ & _ & A3 & _ & B3). split; [exact A3 |].
    apply get_node_unchanged. by apply B3. }
  destruct E3 as (vars2 & s3 & E3 & Hm2 & F3 & K3 & A3 & Hnode3).
  (* the notification *)
  set (s4 := snd (when ((isDiff' || negb isArrDiff) && has_listeners s3 child')
                    (doNotify child' v [] v pv 0 (Some (negb isArrDiff))) s3)).
  assert (E4 : when ((isDiff' || negb isArrDiff) && has_listeners s3 child')
                 (doNotify child' v [] v pv 0 (Some (negb isArrDiff))) s3
               = (Ok tt, s4)).
  { unfold s4. by destruct ((isDiff' || negb isArrDiff) && has_listeners s3 child'). }
  assert (Hs4 : forall n, get_node s4 n = get_node s3 n).
  { intros n. unfold s4. rewrite doNotify_state.
    by destruct ((isDiff' || negb isArrDiff) && has_listeners s3 child'). }
  assert (N4 : nextNodeID s4 = nextNodeID s3).
  { unfold s4. rewrite doNotify_state.
    by destruct ((isDiff' || negb isArrDiff) && has_listeners s3 child'). }
  assert (K13 : keys_kept p s s3).
  { eapply keys_kept_trans; [exact K1 |]. eapply keys_kept_trans; [exact K2 |].
    apply (keys_kept_mono p child'); [lia | exact K3]. }
  assert (Hkey : forall n, key (get_node s4 n) = key (get_node s3 n))
    by (intros n; by rewrite Hs4).
  (* a child of [p] keeps the key the move left *)
  assert (Hchild : forall c, c < nextNodeID s -> parent (get_node s c) = Some p ->
            key (get_node s4 c) = key (get_node s2 c) /\
            key (get_node s1 c) = key (get_node s c)).
  { intros c Hc0 Hpar. split.
    - rewrite Hkey. destruct K3 as (_ & _ & K3). apply (K3 c p); [| | exact Hpc'].
      + destruct K1 as (N1' & _). destruct K2 as (N2' & _). lia.
      + destruct K1 as (_ & P1 & _). destruct K2 as (N2' & P2 & _).
        rewrite P2 by lia. by rewrite P1.
    - by destruct (Lk1 c Hc0 c (Nat.le_refl c)). }
  exists vars2, s4. split.
  { unfold bind at 1. rewrite E1. unfold bind at 1. fold v pv id. rewrite E2.
    cbn [fst snd]. unfold bind at 1. rewrite E3.
    unfold bind at 1. unfold get_state at 1. unfold bind at 1. rewrite E4.
    reflexivity. }
  split.
  { intros n k' c' H. rewrite Hs4 in H |- *. by apply (F3 n k' c'). }
  split.
  { destruct K13 as (N & P & K). split; [lia |]. split.
    - intros n Hn. rewrite Hs4. by apply P.
    - intros n q Hn Hq Hlt. rewrite Hs4. by apply (K n q). }
  split.
  { intros k' c' H. rewrite Hs4, Hnode3 in H.
    destruct (En2 k' c' H) as [H' | H']; [| right; lia]. by apply En1. }
  split.
  { rewrite Hm2. unfold moved_family in *. rewrite Forall_forall in Hmv2 |- *.
    intros e He. rewrite Hs4.
    destruct K3 as (_ & P3 & _). rewrite P3; [by apply Hmv2 |].
    unfold moved_ok in Hmok2. rewrite Forall_forall in Hmok2. by apply Hmok2. }
  split.
  - intros c Hc0 Hpar Hkc. destruct (Hchild c Hc0 Hpar) as [H42 H10].
    rewrite H42, <- H10 in Hkc.
    destruct (Safe2 c ltac:(lia) Hkc) as (Ha & Hd & Hid & j & Hj & Hne & Hch).
    split; [exact Ha |]. split; [exact Hd |]. exists j. split.
    + split; [exact Heq |]. split; [exact Hid |]. split; [exact Hj | exact Hne].
    + destruct (En1 _ _ Hch) as [H | H]; [exact H | lia].
  - intros j c Ha Hd (_ & Hid & Hj & Hne) Hch.
    destruct (get_node_children_ok s p (KNum j) c A Hp Hch) as [_ Hc0].
    destruct (Hchild c Hc0 (F p (KNum j) c Hch)) as [-> _].
    apply (Live2 j c Ha Hd Hid Hj Hne).
    destruct L1 as [_ G1]. by apply G1.
Qed.

(** The main loop at node [p].  A child of [p] gets a new key only from a
    step that moves from an index leading to it: with the length unchanged
    it keeps its key, and with the length changed it ends with the key of
    the last such step. *)
Lemma main_loop_keys m (rec : nat -> value -> value -> M (option bool))
    p obj prev isArr isArrDiff idField keyMap ks : forall vars s,
  rec_ok m rec -> rec_keys m rec ->
  vsize obj + vsize prev <= m -> truthy obj = true ->
  arena_ok s -> family_ok s -> p < nextNodeID s ->
  moved_ok p (moved vars) s -> moved_family p (moved vars) s ->
  exists vars' s',
    foldM (loop_step rec p obj prev isArr isArrDiff idField keyMap) ks vars s
      = (Ok vars', s') /\
    family_ok s' /\ keys_kept p s s' /\ entries_from p s s' /\
    moved_family p (moved vars') s' /\ moved_ok p (moved vars') s' /\ arena_ok s' /\
    (forall c, c < nextNodeID s -> parent (get_node s c) = Some p ->
       ((isArr = true -> isArrDiff = true ->
         forall k j, k ∈ ks -> move_at obj prev idField keyMap k j ->
                     children (get_node s p) !! KNum j <> Some c) ->
        key (get_node s' c) = key (get_node s c)) /\
       (forall i j ks1 ks2,
          isArr = true -> isArrDiff = true ->
          ks = ks1 ++ KNum i :: ks2 ->
          move_at obj prev idField keyMap (KNum i) j ->
          children (get_node s p) !! KNum j = Some c ->
          (forall k j', k ∈ ks2 -> move_at obj prev idField keyMap k j' ->
                        children (get_node s p) !! KNum j' <> Some c) ->
          key (get_node s' c) = KNum i)).
Proof.
  induction ks as [|k0 ks IH]; intros vars s Hok Hrec Hm Ht A F Hp Hmok Hmv;
    cbn [foldM].
  { exists vars, s. split; [reflexivity |]. split; [exact F |].
    split; [apply keys_kept_refl |]. split; [apply entries_from_refl |].
    split; [exact Hmv |]. split; [exact Hmok |]. split; [exact A |].
    intros c _ _. split; [done |].
    intros i j ks1 ks2 _ _ Hks. by destruct ks1. }
  destruct (loop_step_keys m rec p obj prev isArr isArrDiff idField keyMap vars k0 s
              Hok Hrec Hm Ht A F Hp Hmok Hmv)
    as (vars1 & s1 & E1 & F1 & K1 & En1 & Hmv1 & Safe1 & Live1).
  destruct (loop_step_spec nullishPrimitive m rec p obj prev isArr isArrDiff idField
              keyMap vars k0 s Hok Hm Ht A Hp Hmok)
    as (vars0 & s0 & E0 & L1 & Hmok1 & _).
  rewrite E1 in E0. injection E0 as <- <-.
  pose proof (loop_post_arena _ _ _ L1) as A1.
  pose proof (loop_post_next _ _ _ L1) as N1.
  destruct (IH vars1 s1 Hok Hrec Hm Ht A1 F1 ltac:(lia) Hmok1 Hmv1)
    as (vars' & s' & E' & F' & K' & En' & Hmv' & Hmok' & A' & Target').
  exists vars', s'. split.
  { unfold bind. rewrite E1. exact E'. }
  split; [exact F' |].
  split; [eapply keys_kept_trans; eassumption |].
  split; [eapply entries_from_trans; [exact N1 | exact En1 | exact En'] |].
  split; [exact Hmv' |]. split; [exact Hmok' |]. split; [exact A' |].
  intros c Hc Hpar.
  assert (Hpar1 : parent (get_node s1 c) = Some p).
  { destruct K1 as (_ & P1 & _). by rewrite P1. }
  destruct (Target' c ltac:(lia) Hpar1) as [Tb Ta].
  (* the entries of [p] that lead to [c] are those of the start *)
  assert (Hold : forall k, children (get_node s1 p) !! k = Some c ->
                           children (get_node s p) !! k = Some c).
  { intros k Hk. destruct (En1 k c Hk) as [H | H]; [exact H | lia]. }
  assert (Hquiet : (isArr = true -> isArrDiff = true ->
                    forall j, move_at obj prev idField keyMap k0 j ->
                              children (get_node s p) !! KNum j <> Some c) ->
                   key (get_node s1 c) = key (get_node s c)).
  { intros Hno.
    destruct (decide (key (get_node s1 c) = key (get_node s c))) as [H | H];
      [exact H |].
    destruct (Safe1 c Hc Hpar H) as (Ha & Hd & j & Hmove & Hch).
    destruct (Hno Ha Hd j Hmove Hch). }
  split.
  - intros Hno. rewrite Tb.
    + apply Hquiet. intros Ha Hd j. apply (Hno Ha Hd). apply elem_of_cons. by left.
    + intros Ha Hd k j Hk Hmove Hch. apply (Hno Ha Hd k j); [| exact Hmove | by apply Hold].
      apply elem_of_cons. by right.
  - intros i j ks1 ks2 Ha Hd Hks Hmove Hch Hlater.
    destruct ks1 as [|k1 ks1]; cbn [app] in Hks; injection Hks as -> ->.
    + rewrite Tb; [by apply (Live1 j c) |].
      intros _ _ k j' Hk Hmk Hch'. apply (Hlater k j' Hk Hmk). by apply Hold.
    + apply (Ta i j ks1 ks2 Ha Hd eq_refl Hmove).
      * destruct L1 as [_ G1]. by apply G1.
      * intros k j' Hk Hmk Hch'. apply (Hlater k j' Hk Hmk). by apply Hold.
Qed.

(** One pass of [updateNodes] over node [p]: it returns, keeps the family
    order and the keys above [p]; when it compares two arrays, a child of
    [p] keeps its key unless the length changed and an element moves from
    an index leading to it, and then it ends with the index of the last
    such element. *)
Lemma updateNodes_body_keys m (rec : nat -> value -> value -> M (option bool))
    p obj prev s :
  rec_ok m rec -> rec_keys m rec -> vsize obj + vsize prev <= m ->
  arena_ok s -> family_ok s -> p < nextNodeID s ->
  exists d s',
    updateNodes_body rec p obj prev s = (Ok d, s') /\
    family_ok s' /\ keys_kept p s s' /\
    (isArray obj = true -> isArray prev = true ->
     forall c, c < nextNodeID s -> parent (get_node s c) = Some p ->
       let idField := fst (move_index obj prev) in
       let keyMap := snd (move_index obj prev) in
       let changed :=
         negb (strict_eq (get_named obj "length") (get_named prev "length")) in
       ((changed = true ->
         forall k j, k ∈ loop_keys obj -> move_at obj prev idField keyMap k j ->
                     children (get_node s p) !! KNum j <> Some c) ->
        key (get_node s' c) = key (get_node s c)) /\
       (forall i j ks1 ks2,
          changed = true ->
          loop_keys obj = ks1 ++ KNum i :: ks2 ->
          move_at obj prev idField keyMap (KNum i) j ->
          children (get_node s p) !! KNum j = Some c ->
          (forall k j', k ∈ ks2 -> move_at obj prev idField keyMap k j' ->
                        children (get_node s p) !! KNum j' <> Some c) ->
          key (get_node s' c) = KNum i)).
Proof.
  intros Hok Hrec Hm A F Hp. unfold Observable.updateNodes_body. cbn zeta.
  destruct (move_index obj prev) as [idField keyMap] eqn:Hmi. cbn [fst snd].
  assert (E0 : exists s0,
    (if isArray obj && isArray prev then ret tt
     else if truthy prev && no_obj_or_hasOwnProperty obj
          then forM (Object_keys prev) (removed_step rec p obj prev)
          else ret tt) s = (Ok tt, s0) /\
    family_ok s0 /\ keys_kept p s s0 /\ arena_ok s0 /\ nextNodeID s <= nextNodeID s0 /\
    (isArray obj = true -> isArray prev = true -> s0 = s)).
  { assert (Hs : exists s0, ret tt s = (Ok tt, s0) /\
      family_ok s0 /\ keys_kept p s s0 /\ arena_ok s0 /\
      nextNodeID s <= nextNodeID s0 /\
      (isArray obj = true -> isArray prev = true -> s0 = s)).
    { exists s. split; [reflexivity |]. split; [exact F |].
      split; [apply keys_kept_refl |]. by split. }
    destruct (isArray obj && isArray prev) eqn:Harr; [exact Hs |].
    destruct (truthy prev) eqn:Ht; cbn [andb]; [| exact Hs].
    destruct (no_obj_or_hasOwnProperty obj); [| exact Hs].
    destruct (removed_loop_spec nullishPrimitive m rec p obj prev
                (Object_keys prev) s Hok Hm Ht A Hp) as ([] & s0 & E & L).
    pose proof (removed_loop_keys m rec p obj prev (Object_keys prev) s
                  Hok Hrec Hm Ht A F Hp) as [F0 K0].
    rewrite E in F0, K0. cbn [snd] in F0, K0.
    exists s0. split; [exact E |]. split; [exact F0 |]. split; [exact K0 |].
    split; [eapply loop_post_arena; exact L |].
    split; [eapply loop_post_next; exact L |].
    intros Ha Hb. rewrite Ha, Hb in Harr. discriminate. }
  destruct E0 as (s0 & E0 & F0 & K0 & A0 & N0 & Hs0).
  unfold bind at 1. rewrite E0.
  destruct (truthy obj) eqn:Ht.
  2:{ assert (Hna : isArray obj = false) by (destruct obj; done).
      destruct (truthy prev); eexists _, s0; (split; [reflexivity |]);
        (split; [exact F0 |]); (split; [exact K0 |]);
        intros Ha; congruence. }
  set (isArrDiff := negb (isArray obj) ||
         negb (strict_eq (get_named obj "length") (get_named prev "length"))).
  assert (Hp0 : p < nextNodeID s0) by lia.
  destruct (main_loop_keys m rec p obj prev (isArray obj) isArrDiff idField keyMap
              (loop_keys obj) (mkLoop isArrDiff false []) s0
              Hok Hrec Hm Ht A0 F0 Hp0 (Forall_nil_2 _) (Forall_nil_2 _))
    as (vars & s1 & E1 & F1 & K1 & _ & Hmv1 & Hmok1 & A1 & T1).
  unfold bind at 1. rewrite E1.
  assert (E2 : exists s2,
    (match keyMap with
     | Some _ => apply_moved p (moved vars)
     | None => ret tt
     end) s1 = (Ok tt, s2) /\
    family_ok s2 /\ nextNodeID s2 = nextNodeID s1 /\
    forall c, parent (get_node s2 c) = parent (get_node s1 c) /\
              key (get_node s2 c) = key (get_node s1 c)).
  { destruct keyMap as [km|].
    - destruct (apply_moved_spec p (moved vars) s1 A1 ltac:(destruct K1; lia) Hmok1)
        as ([] & s2 & E2 & _).
      pose proof (apply_moved_family p (moved vars) s1 F1 Hmv1) as H2.
      rewrite E2 in H2. cbn [snd] in H2. exists s2. split; [exact E2 | exact H2].
    - exists s1. split; [reflexivity |]. split; [exact F1 |]. by split. }
  destruct E2 as (s2 & E2 & F2 & N2 & L2).
  unfold bind at 1. rewrite E2. eexists _, s2. split; [reflexivity |].
  split; [exact F2 |]. split.
  { eapply keys_kept_trans; [exact K0 |]. eapply keys_kept_trans; [exact K1 |].
    split; [lia |]. split.
    - intros c _. apply L2.
    - intros c q _ _ _. apply L2. }
  intros Ha Hb c Hc Hpar. cbn zeta.
  rewrite (Hs0 Ha Hb) in *.
  assert (Hd : isArrDiff =
               negb (strict_eq (get_named obj "length") (get_named prev "length"))).
  { unfold isArrDiff. by rewrite Ha. }
  destruct (T1 c Hc Hpar) as [Tb Ta]. destruct (L2 c) as [_ ->].
  split.
  - intros Hno. apply Tb. intros _ Hch. apply Hno. by rewrite <- Hd.
  - intros i j ks1 ks2 Hch. apply Ta; [exact Ha | by rewrite Hd].
Qed.

Lemma updateNodes_fuel_keys fuel : rec_keys fuel (updateNodes_fuel fuel).
Proof.
  induction fuel as [|fuel IH]; intros c obj prev s Hw A F Hc; [lia |].
  cbn [Observable.updateNodes_fuel].
  destruct (updateNodes_body_keys fuel (updateNodes_fuel fuel) c obj prev s
              (updateNodes_fuel_ok nullishPrimitive fuel) IH ltac:(lia) A F Hc)
    as (d & s' & E & F' & K' & _).
  rewrite E. by split.
Qed.

(** [updateNodes] on node [p], for two arrays. *)
Lemma updateNodes_keys p obj prev s :
  arena_ok s -> family_ok s -> p < nextNodeID s ->
  exists d s',
    updateNodes p obj prev s = (Ok d, s') /\
    family_ok s' /\ keys_kept p s s' /\
    (isArray obj = true -> isArray prev = true ->
     forall c, c < nextNodeID s -> parent (get_node s c) = Some p ->
       let idField := fst (move_index obj prev) in
       let keyMap := snd (move_index obj prev) in
       let changed :=
         negb (strict_eq (get_named obj "length") (get_named prev "length")) in
       ((changed = true ->
         forall k j, k ∈ loop_keys obj -> move_at obj prev idField keyMap k j ->
                     children (get_node s p) !! KNum j <> Some c) ->
        key (get_node s' c) = key (get_node s c)) /\
       (forall i j ks1 ks2,
          changed = true ->
          loop_keys obj = ks1 ++ KNum i :: ks2 ->
          move_at obj prev idField keyMap (KNum i) j ->
          children (get_node s p) !! KNum j = Some c ->
          (forall k j', k ∈ ks2 -> move_at obj prev idField keyMap k j' ->
                        children (get_node s p) !! KNum j' <> Some c) ->
          key (get_node s' c) = KNum i)).
Proof.
  intros A F Hp. unfold Observable.updateNodes. cbn [Observable.updateNodes_fuel].
  apply (updateNodes_body_keys (vsize obj + vsize prev)); try assumption.
  - apply updateNodes_fuel_ok.
  - apply updateNodes_fuel_keys.
  - lia.
Qed.

End FamilyOrder.

(** ** The node of a moved element *)

Section MovedNodes.

Variable call : nat -> value -> value.
Variable nullishPrimitive : bool.

Local Abbreviation isPrimitive := (Observable.isPrimitive nullishPrimitive).
Local Abbreviation updateNodes := (Observable.updateNodes nullishPrimitive).
Local Abbreviation setKey_write := (Observable.setKey_write call nullishPrimitive).
Local Abbreviation setKey_notify := (Observable.setKey_notify nullishPrimitive).
Local Abbreviation setKey := (Observable.setKey call nullishPrimitive).

Lemma family_ok_ext s s' : nodes s' = nodes s -> family_ok s -> family_ok s'.
Proof.
  intros H F n k c. unfold get_node. rewrite H. apply F.
Qed.

(** An identity that the map of the previous array sends to [j] is the
    identity of the previous element at [j]. *)
Lemma build_keyMap_get f id : forall es i acc j,
  keyMap_get id (build_keyMap f i es acc) = Some j ->
  keyMap_get id acc = Some j \/
  (i <= j /\ j < i + length es /\
   strict_eq (get_named (elem_at es (j - i)) f) id = true).
Proof.
  induction es as [|e es IH]; intros i acc j H; cbn [build_keyMap] in H;
    [by left |].
  destruct (IH _ _ _ H) as [Hacc | (Hi & Hj & Hid)].
  - destruct (truthy (default VUndefined e)) eqn:Ht; [| by left].
    cbn [keyMap_get] in Hacc.
    destruct (strict_eq (get_named (default VUndefined e) f) id) eqn:Heq; [| by left].
    injection Hacc as <-. right. split; [lia |]. split; [cbn; lia |].
    rewrite Nat.sub_diag. unfold elem_at. cbn. by destruct e.
  - right. split; [lia |]. split; [cbn; lia |].
    replace (j - i) with (S (j - S i)) by lia. exact Hid.
Qed.

(** An element that moves carries the identity of the previous element at
    the index it moves from. *)
Lemma move_at_identity r es ps r' pes pps i j :
  i < length es ->
  move_at (VArray r es ps) (VArray r' pes pps)
    (fst (move_index (VArray r es ps) (VArray r' pes pps)))
    (snd (move_index (VArray r es ps) (VArray r' pes pps))) (KNum i) j ->
  exists f,
    fst (move_index (VArray r es ps) (VArray r' pes pps)) = Some f /\
    j < length pes /\ j <> i /\
    is_undefined (get_named (elem_at es i) f) = false /\
    strict_eq (get_named (elem_at pes j) f) (get_named (elem_at es i) f) = true.
Proof.
  intros Hi (_ & Hu & Hkm & Hne).
  rewrite (get_prop_elem r es ps i Hi) in Hu, Hkm.
  cbn [move_index] in *.
  destruct (0 <? length pes)%nat; [| discriminate].
  destruct (truthy (elem_at pes 0)); [| discriminate].
  destruct (sniff_idField (elem_at pes 0)) as [f|]; [| discriminate].
  cbn [fst snd default mbind option_bind] in *.
  exists f. split; [reflexivity |].
  destruct (build_keyMap_get f _ pes 0 [] j Hkm) as [H | (_ & Hj & Hid)];
    [discriminate |].
  rewrite Nat.sub_0_r in Hid. split; [lia |]. split; [congruence |]. by split.
Qed.

Lemma getChildNode_nodes_quiet q k s n :
  arena_ok s ->
  listeners (get_node (snd (getChildNode q k s)) n) = listeners (get_node s n) /\
  proxy (get_node (snd (getChildNode q k s)) n) = proxy (get_node s n).
Proof.
  intros A. unfold getChildNode.
  destruct (children (get_node s q) !! k); [done |]. cbn [snd].
  change (get_node (with_nextNodeID ?x ?s1) n) with (get_node s1 n).
  destruct (decide (n = q)) as [->|Hnq].
  - by rewrite get_node_put_eq.
  - rewrite get_node_put_ne by done.
    destruct (decide (n = nextNodeID s)) as [->|Hnn].
    + rewrite get_node_put_eq, (get_node_fresh s _ A) by lia. done.
    + by rewrite get_node_put_ne.
Qed.

(** [getProxy] keeps the listeners of every node, and the proxy a node has. *)
Lemma getProxy_nodes_quiet node p s c s' n :
  arena_ok s -> getProxy node p s = (Ok c, s') ->
  listeners (get_node s' n) = listeners (get_node s n) /\
  (proxy (get_node s n) = true -> proxy (get_node s' n) = true).
Proof.
  intros A E. unfold getProxy in E.
  apply bind_ok_inv in E as (c0 & s1 & E1 & E).
  apply bind_ok_inv in E as (s0 & s1' & [= <- <-] & E).
  apply bind_ok_inv in E as (u & s2 & E2 & [= _ <-]).
  assert (Hq : listeners (get_node s1 n) = listeners (get_node s n) /\
               proxy (get_node s1 n) = proxy (get_node s n)).
  { destruct (bool_decide (p = KUndefined)).
    - by injection E1 as _ <-.
    - pose proof (getChildNode_nodes_quiet node p s n A) as Hq.
      by rewrite E1 in Hq. }
  destruct Hq as [Hl Hp].
  destruct (proxy (get_node s1 c0)) eqn:Hpc.
  - injection E2 as _ <-. split; [exact Hl | by rewrite Hp].
  - injection E2 as _ <-. destruct (decide (n = c0)) as [->|Hn].
    + rewrite get_node_put_eq. cbn [listeners proxy node_with_proxy]. by split.
    + rewrite get_node_put_ne by done. split; [exact Hl | by rewrite Hp].
Qed.

Lemma container_get_state c k s x s' :
  container_get c k s = (Ok x, s') -> s' = s.
Proof. unfold container_get. destruct c; by intros [= _ <-]. Qed.

Lemma resolve_nodes (x : value) (a : bool) prev s nv s' :
  match x with
  | VFunction f _ =>
      if a then emit (EvCall f prev) ;;; ret (call f prev) else ret x
  | _ => ret x
  end s = (Ok nv, s') ->
  nodes s' = nodes s.
Proof.
  destruct x; try (by intros [= _ <-]). destruct a; by intros [= _ <-].
Qed.

Lemma container_write_nodes (d : bool) c k x s u s' :
  (if d then container_delete c k else container_set c k x) s = (Ok u, s') ->
  nodes s' = nodes s.
Proof.
  intros E. destruct d.
  - pose proof (container_delete_spec c k s) as [V _]. rewrite E in V. apply V.
  - pose proof (container_set_spec c k x s) as [V _]. rewrite E in V. apply V.
Qed.

(** The write of [setKey] keeps the family order: of the nodes it touches
    the child node of the key only. *)
Lemma setKey_write_family node k v s l s1 :
  arena_ok s -> node < nextNodeID s -> family_ok s ->
  setKey_write node k v s = (Ok l, s1) -> family_ok s1.
Proof.
  intros A Hn F E. rewrite setKey_write_unfold in E. cbn zeta in E.
  unfold setKey_write_at in E.
  apply bind_ok_inv in E as (u & t0 & [= _ <-] & E).
  destruct (if isPrimitive (if strict_eq v VSymbolUndef then VUndefined else v)
               && bool_decide (k = KStr "value") && isPrimitive (getNodeValue s node)
            then parent (get_node s node) else Some node) as [node1|] eqn:Hnode;
    [| discriminate].
  assert (Hn1 : node1 < nextNodeID s).
  { destruct (isPrimitive (if strict_eq v VSymbolUndef then VUndefined else v)
               && bool_decide (k = KStr "value") && isPrimitive (getNodeValue s node)).
    - pose proof (get_node_parent_ok s node node1 A Hnode). lia.
    - by injection Hnode as <-. }
  cbn zeta in E.
  apply bind_ok_inv in E as (child & t1 & E1 & E).
  apply bind_ok_inv in E as (u2 & t2 & [= _ <-] & E).
  apply bind_ok_inv in E as (pv & t3 & E3 & E).
  apply bind_ok_inv in E as (prevV & t4 & E4 & E).
  apply bind_ok_inv in E as (nv & t5 & E5 & E).
  apply bind_ok_inv in E as (u6 & t6 & E6 & [= _ <-]).
  apply container_get_state in E4. subst t4.
  apply resolve_nodes in E5. apply container_write_nodes in E6.
  assert (H : family_ok t1 /\ nodes t3 = nodes t1).
  { match type of E1 with (if ?b then _ else _) _ = _ => destruct b end.
    - injection E1 as _ <-. by injection E3 as _ <-.
    - split.
      + match type of E1 with getChildNode _ ?k1 _ = _ =>
          pose proof (getChildNode_family node1 k1 (with_inSet true s) A F Hn1) as H
        end.
        by rewrite E1 in H.
      + apply bind_ok_inv in E3 as (x & t3' & Ee & [= _ <-]).
        pose proof (ensureNodeValue_ends node1
                      (with_trace (trace t1 ++ [EvUntrack child]) t1)) as [V _].
        rewrite Ee in V. apply V. }
  destruct H as [F1 N3].
  apply (family_ok_ext t1); [congruence | exact F1].
Qed.

(** After the diff, the rest of [setKey] keeps the place, the listeners and
    the proxy of every node in use. *)
Lemma setKey_notify_after_diff l lvl s1 p s' :
  arena_ok s1 -> w_node l < nextNodeID s1 -> w_childNode l < nextNodeID s1 ->
  negb (w_isPrim l) || negb (isPrimitive (w_prevValue l)) = true ->
  setKey_notify l lvl s1 = (Ok p, s') ->
  exists d s3,
    updateNodes (w_childNode l) (w_newValue l) (w_prevValue l)
      (with_trace (trace s1 ++ [EvBeginBatch]) s1) = (Ok d, s3) /\
    (forall n, n < nextNodeID s3 -> links_kept n s3 s') /\
    (forall n, listeners (get_node s' n) = listeners (get_node s3 n) /\
               (proxy (get_node s3 n) = true -> proxy (get_node s' n) = true)).
Proof.
  intros A Hn Hc Hran E. unfold Observable.setKey_notify in E. cbn zeta in E.
  apply bind_ok_inv in E as (u1 & t1 & E1 & E).
  injection E1 as _ <-.
  set (t1 := with_trace (trace s1 ++ [EvBeginBatch]) s1) in E |- *.
  assert (A1 : arena_ok t1) by exact A.
  apply bind_ok_inv in E as (d & t2 & E2 & E).
  rewrite Hran in E2.
  apply bind_ok_inv in E2 as (d0 & t2' & Eu & [= _ <-]).
  destruct (updateNodes_spec nullishPrimitive (w_childNode l) (w_newValue l)
              (w_prevValue l) t1 A1 Hc) as (d1 & t2'' & Eu' & (_ & _ & A2 & N2 & _) & _).
  rewrite Eu in Eu'. injection Eu' as _ <-.
  apply bind_ok_inv in E as (u3 & t3 & E3 & E).
  assert (H3 : nodes t3 = nodes t2' /\ nextNodeID t3 = nextNodeID t2').
  { destruct (negb (w_isPrim l) || negb (strict_eq (w_newValue l) (w_prevValue l)));
      by injection E3 as _ <-. }
  destruct H3 as (Hn3 & Hx3).
  apply bind_ok_inv in E as (u4 & t4 & E4 & E). injection E4 as _ <-.
  apply bind_ok_inv in E as (u5 & t5 & E5 & E). injection E5 as _ <-.
  set (t5 := with_inSet false (with_trace (trace t3 ++ [EvEndBatch]) t3)) in E.
  assert (A5 : arena_ok t5) by (by apply (arena_ok_ext t2')).
  assert (Hn5 : w_node l < nextNodeID t5) by (cbn in *; lia).
  assert (Hg : forall m, get_node t5 m = get_node t2' m).
  { intros m. unfold get_node. cbn. by rewrite Hn3. }
  exists d0, t2'. split; [exact Eu |].
  set (k := if w_isRoot l then KUndefined else w_key l).
  assert (E' : getProxy (w_node l) k t5 = (Ok p, s')).
  { unfold k. by destruct (w_isRoot l). }
  split.
  - intros n Hlt m Hm. rewrite <- Hg.
    destruct (getProxy_spec (w_node l) k t5 A5 Hn5)
      as (q & t6 & E6 & _ & _ & _ & _ & _ & L6 & _).
    rewrite E' in E6. injection E6 as _ <-.
    apply (L6 n); [cbn; lia | exact Hm].
  - intros n. rewrite <- Hg. by apply (getProxy_nodes_quiet (w_node l) k t5 p).
Qed.

Lemma loop_keys_split r es ps i :
  i < length es ->
  loop_keys (VArray r es ps) =
    map KNum (seq 0 i) ++ KNum i :: map KNum (seq (S i) (length es - S i)).
Proof.
  intros Hi. cbn [loop_keys].
  replace (length es) with (i + S (length es - S i)) at 1 by lia.
  rewrite seq_app, List.map_app. reflexivity.
Qed.

(** C2, as the code has it: a set that replaces an array by an array, on
    an arena in order and a root that is not locked, once the value is
    written.  An element of the new array whose identity maps to another
    previous index is a move; it carries the identity of the previous
    element at that index.

    When the length changed, the child node that was at the previous index
    is not replaced by a new node: it is put at the new index, so that it
    is reachable there, with the listeners and the proxy it had.  Where the
    children of a node name it as their parent, that node is reparented to
    the new key: its parent is the array node and its key is the new index
    (the index of the last element that moves from an index leading to it,
    should several do), so that it reads the element at the new index of
    the array: having read the previous element at the index it was at, it
    reads an element with the same identity.

    When the length did not change, no node is reparented: every child node
    stays at the index it had, with the key it had. *)
Theorem array_move_reparents_on_length_change
    (node : nat) (k : pkey) (v : value) (s : state) (l : write_locals) (s1 : state)
    (r r' : nat) (es pes : list (option value)) (ps pps : list (string * value)) :
  arena_ok s -> node < nextNodeID s -> locked s = false ->
  setKey_write node k v s = (Ok l, s1) ->
  w_newValue l = VArray r es ps ->
  w_prevValue l = VArray r' pes pps ->
  let obj := w_newValue l in
  let prev := w_prevValue l in
  let child := w_childNode l in
  let idField := fst (move_index obj prev) in
  let keyMap := snd (move_index obj prev) in
  exists p s',
    setKey node k v None s = (Ok p, s') /\
    (length es = length pes ->
     forall i c, children (get_node s1 child) !! i = Some c ->
       children (get_node s' child) !! i = Some c /\
       (family_ok s ->
        parent (get_node s' c) = Some child /\
        key (get_node s' c) = key (get_node s1 c))) /\
    (length es <> length pes ->
     forall i j c,
       (i < length es)%nat ->
       move_at obj prev idField keyMap (KNum i) j ->
       children (get_node s1 child) !! KNum j = Some c ->
       children (get_node s' child) !! KNum i = Some c /\
       listeners (get_node s' c) = listeners (get_node s1 c) /\
       (proxy (get_node s1 c) = true -> proxy (get_node s' c) = true) /\
       (exists f, idField = Some f /\ (j < length pes)%nat /\ j <> i /\
          strict_eq (get_named (elem_at pes j) f) (get_named (elem_at es i) f)
            = true) /\
       (family_ok s ->
        (forall i' j', (i < i')%nat -> (i' < length es)%nat ->
           move_at obj prev idField keyMap (KNum i') j' ->
           children (get_node s1 child) !! KNum j' <> Some c) ->
        parent (get_node s' c) = Some child /\
        key (get_node s' c) = KNum i /\
        getNodeValue s' c = get_prop (getNodeValue s' child) (KNum i) /\
        getNodeValue s' child = getNodeValue s1 child /\
        (getNodeValue s1 child = obj ->
         getNodeValue s' c = elem_at es i /\
         (getNodeValue s c = elem_at pes j ->
          exists f, idField = Some f /\
            strict_eq (get_named (getNodeValue s c) f)
              (get_named (getNodeValue s' c) f) = true)))).
Proof.
  intros A Hn Hl E Hobj Hprev. cbn zeta.
  destruct (setKey_write_spec call nullishPrimitive node k v s A Hn) as [[W I] Q].
  rewrite E in W, I, Q. cbn [fst snd] in W, I, Q.
  destruct W as (A1 & N1 & P1). destruct Q as (Hn1 & Hc1 & _).
  destruct (setKey_notify_spec nullishPrimitive l None s1 A1 Hn1 Hc1)
    as (p & s' & E' & dn & _ & _ & _ & A' & _ & _ & V' & _ & _ & Hdiff & _).
  exists p, s'. split.
  { rewrite setKey_unlocked by exact Hl. unfold bind. rewrite E. exact E'. }
  assert (Hran : negb (w_isPrim l) || negb (isPrimitive (w_prevValue l)) = true).
  { rewrite Hprev. cbn. apply orb_true_r. }
  destruct Hdiff as (d & s3 & (_ & Hsame & Hmove) & G); [exact Hran |].
  destruct (setKey_notify_after_diff l None s1 p s' A1 Hn1 Hc1 Hran E')
    as (d0 & s4 & Eu & L4 & Q4).
  set (t1 := with_trace (trace s1 ++ [EvBeginBatch]) s1) in *.
  assert (At : arena_ok t1) by exact A1.
  assert (Hct : w_childNode l < nextNodeID t1) by exact Hc1.
  destruct (updateNodes_spec nullishPrimitive (w_childNode l) (w_newValue l)
              (w_prevValue l) t1 At Hct) as (d1 & s5 & Eu1 & (_ & _ & A4 & N4 & _) & _).
  rewrite Eu in Eu1. injection Eu1 as _ <-. clear d1.
  pose proof (updateNodes_links nullishPrimitive (w_childNode l) (w_newValue l)
                (w_prevValue l) t1 At Hct) as Lu.
  pose proof (updateNodes_quiet nullishPrimitive (w_childNode l) (w_newValue l)
                (w_prevValue l) t1 At Hct) as [Qu _].
  rewrite Eu in Lu, Qu. cbn [snd] in Lu, Qu.
  assert (Hkeys : family_ok s ->
    exists d2, updateNodes (w_childNode l) (w_newValue l) (w_prevValue l) t1
                 = (Ok d2, s4) /\ family_ok s4 /\ keys_kept (w_childNode l) t1 s4 /\
    forall c, c < nextNodeID t1 -> parent (get_node t1 c) = Some (w_childNode l) ->
      let changed :=
        negb (strict_eq (get_named (w_newValue l) "length")
                (get_named (w_prevValue l) "length")) in
      ((changed = true ->
        forall k0 j, k0 ∈ loop_keys (w_newValue l) ->
          move_at (w_newValue l) (w_prevValue l)
            (fst (move_index (w_newValue l) (w_prevValue l)))
            (snd (move_index (w_newValue l) (w_prevValue l))) k0 j ->
          children (get_node t1 (w_childNode l)) !! KNum j <> Some c) ->
       key (get_node s4 c) = key (get_node t1 c)) /\
      (forall i j ks1 ks2,
         changed = true ->
         loop_keys (w_newValue l) = ks1 ++ KNum i :: ks2 ->
         move_at (w_newValue l) (w_prevValue l)
           (fst (move_index (w_newValue l) (w_prevValue l)))
           (snd (move_index (w_newValue l) (w_prevValue l))) (KNum i) j ->
         children (get_node t1 (w_childNode l)) !! KNum j = Some c ->
         (forall k0 j', k0 ∈ ks2 ->
            move_at (w_newValue l) (w_prevValue l)
              (fst (move_index (w_newValue l) (w_prevValue l)))
              (snd (move_index (w_newValue l) (w_prevValue l))) k0 j' ->
            children (get_node t1 (w_childNode l)) !! KNum j' <> Some c) ->
         key (get_node s4 c) = KNum i)).
  { intros F.
    pose proof (setKey_write_family node k v s l s1 A Hn F E) as F1.
    destruct (updateNodes_keys nullishPrimitive (w_childNode l) (w_newValue l)
                (w_prevValue l) t1 At F1 Hct) as (d2 & s6 & Eu2 & F6 & K6 & T6).
    rewrite Eu in Eu2. injection Eu2 as <- <-.
    exists d0. split; [exact Eu |]. split; [exact F6 |]. split; [exact K6 |].
    intros c Hc Hpar. apply T6; [by rewrite Hobj | by rewrite Hprev | exact Hc | exact Hpar]. }
  assert (Hlen : strict_eq (get_named (VArray r es ps) "length")
                   (get_named (VArray r' pes pps) "length")
                 = bool_decide (length es = length pes)).
  { cbn. case_bool_decide as Hd.
    - rewrite Hd. apply Z.eqb_refl.
    - apply Z.eqb_neq. lia. }
  (* a child of the array node, after the diff and after the call *)
  assert (Hchild : family_ok s -> forall k0 c,
    children (get_node s1 (w_childNode l)) !! k0 = Some c ->
    c < nextNodeID t1 /\ parent (get_node t1 c) = Some (w_childNode l) /\
    parent (get_node s' c) = Some (w_childNode l) /\
    key (get_node s' c) = key (get_node s4 c)).
  { intros F k0 c Hch.
    pose proof (setKey_write_family node k v s l s1 A Hn F E) as F1.
    destruct (get_node_children_ok s1 _ k0 c A1 Hc1 Hch) as [_ Hc].
    pose proof (F1 _ _ _ Hch) as Hpar.
    destruct (Hkeys F) as (_ & _ & _ & (_ & P4 & _) & _).
    destruct (L4 c ltac:(cbn in N4; lia) c (Nat.le_refl c)) as [Lp Lk].
    split; [exact Hc |]. split; [exact Hpar |]. split; [| exact Lk].
    rewrite Lp, (P4 c Hc). exact Hpar. }
  split.
  - intros Heq i c Hc. split.
    + apply G. apply Hsame; [by rewrite Hobj | | exact Hc].
      rewrite Hobj, Hprev, Hlen. by apply bool_decide_eq_true.
    + intros F. destruct (Hchild F i c Hc) as (Hlt & Hpar & Hpar' & Hk').
      split; [exact Hpar' |]. rewrite Hk'.
      destruct (Hkeys F) as (_ & _ & _ & _ & T).
      destruct (T c Hlt Hpar) as [Tb _]. apply Tb.
      rewrite Hobj, Hprev, Hlen, bool_decide_eq_true_2 by exact Heq. discriminate.
  - intros Hne i j c Hi Hmv Hc.
    split; [| split; [| split; [| split]]].
    + apply G. apply (Hmove (KNum i) j c); try assumption.
      * by rewrite Hobj.
      * rewrite Hobj, Hprev, Hlen. by apply bool_decide_eq_false.
      * rewrite Hobj. cbn. apply list_elem_of_fmap. exists i. split; [reflexivity |].
        apply elem_of_seq. lia.
    + destruct (Q4 c) as [-> _]. by destruct (Qu c) as [-> _].
    + intros Hpx. apply Q4. destruct (Qu c) as [_ ->]. exact Hpx.
    + rewrite Hobj, Hprev in Hmv.
      destruct (move_at_identity r es ps r' pes pps i j Hi Hmv)
        as (f & Hf & Hj & Hji & _ & Hid).
      exists f. rewrite Hobj, Hprev. by split_and!.
    + intros F Hlater. destruct (Hchild F _ c Hc) as (Hlt & Hpar & Hpar' & Hk').
      destruct (Hkeys F) as (_ & _ & _ & _ & T).
      destruct (T c Hlt Hpar) as [_ Ta].
      assert (Hkey : key (get_node s' c) = KNum i).
      { rewrite Hk'.
        apply (Ta i j (map KNum (seq 0 i))
                 (map KNum (seq (S i) (length es - S i)))).
        - rewrite Hobj, Hprev, Hlen, bool_decide_eq_false_2 by exact Hne. reflexivity.
        - rewrite Hobj. by apply loop_keys_split.
        - exact Hmv.
        - exact Hc.
        - intros k0 j' Hk0 Hmv'.
          apply list_elem_of_fmap in Hk0 as (i' & -> & Hi').
          apply elem_of_seq in Hi'. apply (Hlater i' j'); [lia | lia | exact Hmv']. }
      assert (Hval : getNodeValue s' (w_childNode l) = getNodeValue s1 (w_childNode l)).
      { unfold getNodeValue. rewrite V'. f_equal.
        apply (node_path_links _ s1 s' A1).
        apply (links_kept_trans _ s1 s4); [exact Lu |].
        apply L4. cbn in N4. lia. }
      split; [exact Hpar' |]. split; [exact Hkey |].
      split; [by rewrite (getNodeValue_child s' c _ A' Hpar'), Hkey |].
      split; [exact Hval |].
      intros Hv.
      assert (Hread : getNodeValue s' c = elem_at es i).
      { rewrite (getNodeValue_child s' c _ A' Hpar'), Hkey, Hval, Hv, Hobj.
        by apply get_prop_elem. }
      split; [exact Hread |].
      intros Hbefore. rewrite Hobj, Hprev in Hmv.
      destruct (move_at_identity r es ps r' pes pps i j Hi Hmv)
        as (f & Hf & _ & _ & _ & Hid).
      exists f. rewrite Hobj, Hprev. split; [exact Hf |].
      by rewrite Hbefore, Hread.
Qed.

End MovedNodes.

(** * The further theorems at work on the example trees *)

Section ClosedFurther.

Import Examples MoreExamples ReadTraps Run.

Local Abbreviation setKey := (Observable.setKey call_id nullish_primitive).
Local Abbreviation set_ := (Observable.set call_id nullish_primitive).
Local Abbreviation assign := (Observable.assign call_id nullish_primitive).

Lemma s_list_read_arena : arena_ok s_list_read.
Proof. apply arena_okb_correct. vm_compute. reflexivity. Qed.

Lemma s_record_read_arena : arena_ok s_record_read.
Proof. apply arena_okb_correct. vm_compute. reflexivity. Qed.

Lemma s_five_arena : arena_ok s_five.
Proof. apply arena_okb_correct. vm_compute. reflexivity. Qed.



Lemma s_record_one_arena : arena_ok s_record_one.
Proof. apply arena_okb_correct. vm_compute. reflexivity. Qed.

Lemma one_is_plain :
  plain_write nullish_primitive s_record 0 (KStr "1") (VNumber 1).
Proof. split_and!; try done. Qed.

Lemma setKey_stores_assignment_witness :
  arena_ok s_record /\ 0 < nextNodeID s_record /\ locked s_record = false /\
  exists p s',
    setKey 0 (KStr "1") (VNumber 1) None s_record = (Ok p, s') /\
    getNodeValue s' 0 = record_with_one (VNumber 1) /\
    get_prop (getNodeValue s' 0) (KStr "1") = VNumber 1.
Proof.
  assert (A : arena_ok s_record) by exact s_record_arena.
  assert (N : 0 < nextNodeID s_record) by (vm_compute; lia).
  split; [exact A |]. split; [exact N |]. split; [reflexivity |].
  destruct (setKey_stores_assignment call_id nullish_primitive 0 (KStr "1")
              (VNumber 1) s_record (record_with_one (VNumber 1))
              A N eq_refl one_is_plain eq_refl)
    as (p & s' & evs & E & Hv & Hr & _).
  exists p, s'. split; [exact E |]. split; [exact Hv | exact (Hr eq_refl)].
Defined.

Lemma set_then_value_witness :
  arena_ok s_record_one /\ 1 < nextNodeID s_record_one /\
  locked s_record_one = false /\
  parent (get_node s_record_one 1) = Some 0 /\
  key (get_node s_record_one 1) = KStr "1" /\
  exists s',
    set_ 1 (VNumber 7) s_record_one = (Ok 1, s') /\
    getNodeValue s' 1 = VNumber 7 /\
    getNodeValue s' 0 = record_with_one (VNumber 7).
Proof.
  assert (A : arena_ok s_record_one) by exact s_record_one_arena.
  assert (N : 1 < nextNodeID s_record_one) by (vm_compute; lia).
  split; [exact A |]. split; [exact N |]. split; [reflexivity |].
  split; [reflexivity |]. split; [reflexivity |].
  destruct (set_then_value call_id nullish_primitive 1 0 (VNumber 7) s_record_one
              (record_with_one (VNumber 7)) A N eq_refl eq_refl)
    as (s' & E & Hv & Hp & _).
  - vm_compute. reflexivity.
  - discriminate.
  - split_and!; try done.
  - vm_compute. reflexivity.
  - vm_compute. reflexivity.
  - exists s'. split; [exact E |]. split; [exact Hv | exact Hp].
Defined.

Lemma root_set_replaces_value_witness :
  arena_ok s_record /\ 0 < nextNodeID s_record /\ locked s_record = false /\
  parent (get_node s_record 0) = None /\
  exists s',
    set_ 0 (VNumber 9) s_record = (Ok 0, s') /\ root_value s' = VNumber 9.
Proof.
  assert (A : arena_ok s_record) by exact s_record_arena.
  assert (N : 0 < nextNodeID s_record) by (vm_compute; lia).
  split; [exact A |]. split; [exact N |]. split; [reflexivity |].
  split; [reflexivity |].
  destruct (root_set_replaces_value call_id nullish_primitive 0 (VNumber 9) s_record
              A N eq_refl eq_refl eq_refl)
    as (s' & evs & E & Hv & _).
  exists s'. split; [exact E | exact Hv].
Defined.

Lemma assign_merges_into_object_witness :
  arena_ok s_record /\ 0 < nextNodeID s_record /\ locked s_record = false /\
  inSet s_record = false /\
  exists s',
    assign 0 (VObject 30 [("1", VBool false); ("count", VNumber 7);
                          ("extra", VBool true)]) s_record
      = (Ok 0, s') /\
    getNodeValue s' 0 =
      VObject 20 [("1", VBool false); ("count", VNumber 7);
                  ("user", VObject 21 [("name", VString "a")]);
                  ("extra", VBool true)].
Proof.
  assert (A : arena_ok s_record) by exact s_record_arena.
  assert (N : 0 < nextNodeID s_record) by (vm_compute; lia).
  split; [exact A |]. split; [exact N |]. split; [reflexivity |].
  split; [reflexivity |].
  destruct (assign_merges_into_object call_id nullish_primitive 0
              (VObject 30 [("1", VBool false); ("count", VNumber 7);
                           ("extra", VBool true)]) s_record
              20 [("count", VNumber 0); ("user", VObject 21 [("name", VString "a")])]
              A N eq_refl eq_refl eq_refl)
    as (s' & evs & E & Hv & _).
  - repeat apply Forall_cons_2; try apply Forall_nil_2; by split.
  - exists s'. split; [exact E | exact Hv].
Defined.

Lemma assign_on_locked_root_witness :
  locked s_record_locked = true /\ inSet s_record_locked = false /\
  exists s',
    assign 0 (VObject 30 [("count", VNumber 7)]) s_record_locked
      = (Throw LockedError, s') /\
    trace s' = [EvBeginBatch] /\ inAssign s' = true.
Proof.
  split; [reflexivity |]. split; [reflexivity |].
  destruct (assign_on_locked_root call_id nullish_primitive 0
              (VObject 30 [("count", VNumber 7)]) s_record_locked
              eq_refl eq_refl ltac:(discriminate))
    as (s' & E & T & I & _).
  exists s'. split; [exact E |]. split; [exact T | exact I].
Defined.

Lemma failed_write_leaves_inSet_witness :
  arena_ok s_five /\ 0 < nextNodeID s_five /\ locked s_five = false /\
  setKey 0 (KStr "value") (VNumber 1) None s_five
    = (Throw TypeError, with_inSet true s_five) /\
  proxyHandler_set call_id nullish_primitive 0 (KStr "x") (VNumber 2)
    (with_inSet true s_five)
    = (Ok true, with_trace [EvReflectSet 0 (KStr "x") (VNumber 2)]
                  (with_inSet true s_five)).
Proof.
  assert (A : arena_ok s_five) by exact s_five_arena.
  assert (N : 0 < nextNodeID s_five) by (vm_compute; lia).
  assert (E : setKey 0 (KStr "value") (VNumber 1) None s_five
              = (Throw TypeError, with_inSet true s_five))
    by (vm_compute; reflexivity).
  split; [exact A |]. split; [exact N |]. split; [reflexivity |]. split; [exact E |].
  destruct (failed_write_leaves_inSet call_id nullish_primitive 0 (KStr "value")
              (VNumber 1) None s_five TypeError (with_inSet true s_five)
              A N eq_refl E)
    as (_ & _ & H & _).
  exact (H 0 (KStr "x") (VNumber 2)).
Defined.

Lemma object_set_notifies_at_level_0_witness :
  arena_ok s_record /\ 0 < nextNodeID s_record /\ locked s_record = false /\
  exists c s' dn,
    setKey 0 (KStr "user") (VObject 21 [("name", VString "a")]) None s_record
      = (Ok c, s') /\
    forallb is_doNotify dn = true /\
    trace s' =
      [EvUntrack c; EvBeginBatch] ++ dn ++
      [EvNotify c (VObject 21 [("name", VString "a")])
         (VObject 21 [("name", VString "a")]) 0 false;
       EvEndBatch].
Proof.
  assert (A : arena_ok s_record) by exact s_record_arena.
  assert (N : 0 < nextNodeID s_record) by (vm_compute; lia).
  split; [exact A |]. split; [exact N |]. split; [reflexivity |].
  destruct (object_set_notifies_at_level_0 call_id nullish_primitive 0 (KStr "user")
              s_record 21 [("name", VString "a")] A N eq_refl eq_refl)
    as (c & s' & dn & E & F & T); try discriminate; try reflexivity.
  exists c, s', dn. split; [exact E |]. split; [exact F | exact T].
Defined.

Lemma same_elements_set_notifies_at_level_1_witness :
  arena_ok s_list /\ 0 < nextNodeID s_list /\ locked s_list = false /\
  exists c s',
    setKey 0 (KStr "items") items_copy None s_list = (Ok c, s') /\
    trace s' = [EvUntrack c; EvBeginBatch; EvNotify c items_copy items 1 false;
                EvEndBatch].
Proof.
  assert (A : arena_ok s_list) by (apply arena_okb_correct; vm_compute; reflexivity).
  assert (N : 0 < nextNodeID s_list) by (vm_compute; lia).
  split; [exact A |]. split; [exact N |]. split; [reflexivity |].
  destruct (same_elements_set_notifies_at_level_1 call_id nullish_primitive 0
              (KStr "items") s_list 60 [Some elemA; Some elemB] []
              10 [Some elemA; Some elemB] [] A N eq_refl ltac:(discriminate)
              eq_refl eq_refl)
    as (c & s' & E & _ & T).
  - intros i Hi. destruct i as [|[|i]]; [reflexivity | reflexivity | cbn in Hi; lia].
  - exists c, s'. split; [exact E | exact T].
Defined.

Lemma diff_notifies_listeners_only_witness :
  arena_ok s_record /\ 0 < nextNodeID s_record /\
  exists d s',
    updateNodes nullish_primitive 0 (VObject 21 [("name", VString "b")]) record s_record
      = (Ok d, s') /\
    trace s' = trace s_record.
Proof.
  assert (A : arena_ok s_record) by exact s_record_arena.
  assert (N : 0 < nextNodeID s_record) by (vm_compute; lia).
  split; [exact A |]. split; [exact N |].
  destruct (diff_notifies_listeners_only nullish_primitive 0
              (VObject 21 [("name", VString "b")]) record s_record A N)
    as (d & s' & E & _ & _ & H).
  exists d, s'. split; [exact E |]. apply H.
  intros n. unfold has_listeners, get_node. cbn.
  destruct (decide (n = 0)) as [->|Hn]; [reflexivity |].
  by rewrite lookup_singleton_ne.
Defined.


Lemma operations_keep_the_arena_witness :
  reachable call_id nullish_primitive true s_record
    (run call_id nullish_primitive true (OpSet 0 (VNumber 1)) s_record) /\
  arena_ok (run call_id nullish_primitive true (OpSet 0 (VNumber 1)) s_record).
Proof.
  assert (H : reachable call_id nullish_primitive true s_record
                (run call_id nullish_primitive true (OpSet 0 (VNumber 1)) s_record)).
  { apply reach_step; [apply reach_start | vm_compute; lia]. }
  split; [exact H |].
  exact (proj1 (operations_keep_the_arena call_id nullish_primitive true 0 record None
                  _ H)).
Defined.

Lemma get_trap_only_reads_witness :
  arena_ok s_record /\ 0 < nextNodeID s_record /\
  exists r s',
    proxyHandler_get nullish_primitive no_proto no_keys no_extra 0 (PString "count")
      s_record = (Ok r, s') /\
    same_root s_record s'.
Proof.
  assert (A : arena_ok s_record) by exact s_record_arena.
  assert (N : 0 < nextNodeID s_record) by (vm_compute; lia).
  split; [exact A |]. split; [exact N |].
  destruct (get_trap_only_reads nullish_primitive no_proto no_keys no_extra 0
              (PString "count") s_record A N)
    as (r & s' & E & R & _).
  exists r, s'. split; [exact E | exact R].
Defined.

Lemma written_key_is_read_back_witness :
  arena_ok s_record /\ 0 < nextNodeID s_record /\ locked s_record = false /\
  exists c s',
    setKey 0 (KStr "1") (VNumber 3) None s_record = (Ok c, s') /\
    getNodeValue s' 0 = record_with_one (VNumber 3) /\
    proxyHandler_has no_proto no_keys 0 "1" s' = (Ok true, s') /\
    proxyHandler_ownKeys nullish_primitive no_keys 0 s'
      = (Ok ["1"; "count"; "user"],
         with_trace (trace s' ++ [EvUpdateTracking 0 true]) s') /\
    proxyHandler_get nullish_primitive no_proto no_keys no_extra 0 (PString "1") s'
      = (Ok (GProxy c), s').
Proof.
  assert (A : arena_ok s_record) by exact s_record_arena.
  assert (N : 0 < nextNodeID s_record) by (vm_compute; lia).
  split; [exact A |]. split; [exact N |]. split; [reflexivity |].
  destruct (written_key_is_read_back call_id nullish_primitive no_proto no_keys no_extra
              0 "1" (VNumber 3) s_record 20
              [("count", VNumber 0); ("user", VObject 21 [("name", VString "a")])]
              A N eq_refl eq_refl eq_refl eq_refl ltac:(discriminate) eq_refl eq_refl
              eq_refl)
    as (c & s' & E & Hv & Hh & _ & _ & Hg).
  exists c, s'. split; [exact E |]. split; [exact Hv |]. split; [exact Hh |].
  split; [| exact Hg].
  unfold ReadTraps.proxyHandler_ownKeys, bind, get_state. rewrite Hv. reflexivity.
Defined.

Lemma ownKeys_of_array_witness :
  getNodeValue s_items 0 = items /\
  proxyHandler_ownKeys nullish_primitive no_keys 0 s_items =
    (Ok ["0"; "1"],
     with_trace (trace s_items ++ [EvUpdateTracking 0 true]) s_items).
Proof.
  split; [reflexivity |].
  exact (proj1 (ownKeys_of_array nullish_primitive no_keys 0 s_items 10
                  [Some elemA; Some elemB] [] eq_refl) eq_refl).
Defined.

Lemma array_method_notifies_with_copy_witness :
  arena_ok s_list_read /\ 1 < nextNodeID s_list_read /\
  locked s_list_read = false /\
  parent (get_node s_list_read 1) = Some 0 /\
  getNodeValue s_list_read 1 = items /\
  exists c s' dn,
    collectionSetter call_id nullish_primitive push_method 1 10
      [Some elemA; Some elemB] [] "push" [elemC] s_list_read
      = (Ok (VNumber 3), s') /\
    trace s' =
      [EvUntrack c; EvBeginBatch] ++ dn ++
      [EvNotify c (VArray 10 [Some elemA; Some elemB; Some elemC] [])
         (VArray 0 [Some elemA; Some elemB] []) 0 true;
       EvEndBatch].
Proof.
  assert (A : arena_ok s_list_read) by exact s_list_read_arena.
  assert (N : 1 < nextNodeID s_list_read) by (vm_compute; lia).
  split; [exact A |]. split; [exact N |]. split; [reflexivity |].
  split; [reflexivity |]. split; [reflexivity |].
  destruct (array_method_notifies_with_copy call_id nullish_primitive push_method
              1 0 10 [Some elemA; Some elemB] [] "push" [elemC] s_list_read
              A N eq_refl eq_refl ltac:(discriminate) eq_refl)
    as (c & s' & dn & d & E & _ & _ & Hd & T).
  exists c, s', dn. split; [exact E |].
  rewrite T. rewrite (Hd ltac:(cbn; lia)). reflexivity.
Defined.

Lemma array_method_on_locked_root_witness :
  arena_ok s_list_locked /\ locked s_list_locked = true /\
  parent (get_node s_list_locked 1) = Some 0 /\
  getNodeValue s_list_locked 1 = items /\
  exists s',
    collectionSetter call_id nullish_primitive push_method 1 10
      [Some elemA; Some elemB] [] "push" [elemC] s_list_locked
      = (Throw LockedError, s') /\
    getNodeValue s' 1 = VArray 0 [Some elemA; Some elemB] [].
Proof.
  assert (A : arena_ok s_list_locked) by exact s_list_read_arena.
  split; [exact A |]. split; [reflexivity |]. split; [reflexivity |].
  split; [reflexivity |].
  destruct (array_method_on_locked_root call_id nullish_primitive push_method
              1 0 10 [Some elemA; Some elemB] [] "push" [elemC] s_list_locked
              A eq_refl eq_refl eq_refl)
    as (s' & E & Hv & _).
  exists s'. split; [exact E | exact Hv].
Defined.

Lemma primitive_set_then_get_witness :
  locked s_five = false /\
  exists s1 s2 s3,
    ObservablePrimitiveClass.set call_id 0 (VNumber 6) s_five = (Ok 0, s1) /\
    ObservablePrimitiveClass.set call_id 0 (VNumber 7) s1 = (Ok 0, s2) /\
    ObservablePrimitiveClass.get call_id 0 s2 = (Ok (VNumber 7), s3).
Proof.
  split; [reflexivity |].
  destruct (primitive_set_then_get call_id call_id 0 s_five (VNumber 6) (VNumber 7)
              eq_refl eq_refl)
    as (s1 & s2 & s3 & evs & E1 & _ & E2 & _ & E3 & _).
  exists s1, s2, s3. split; [exact E1 |]. split; [exact E2 | exact E3].
Defined.

Lemma value_write_is_set_witness :
  parent (get_node s_record_read 1) = Some 0 /\
  getNodeValue s_record_read 1 = VNumber 0 /\
  setKey 1 (KStr "value") (VNumber 5) None s_record_read
    = set_ 1 (VNumber 5) s_record_read.
Proof.
  split; [reflexivity |]. split; [reflexivity |].
  exact (proj2 (value_write_is_set call_id nullish_primitive 1 0 (VNumber 5) None
                  s_record_read eq_refl eq_refl eq_refl eq_refl eq_refl)).
Defined.

Lemma delete_removes_the_key_witness :
  arena_ok s_record /\ 0 < nextNodeID s_record /\ locked s_record = false /\
  exists s',
    Observable.deleteFn call_id nullish_primitive 0 (KStr "count") s_record
      = (Ok tt, s') /\
    getNodeValue s' 0 = VObject 20 [("user", VObject 21 [("name", VString "a")])].
Proof.
  assert (A : arena_ok s_record) by exact s_record_arena.
  assert (N : 0 < nextNodeID s_record) by (vm_compute; lia).
  split; [exact A |]. split; [exact N |]. split; [reflexivity |].
  destruct (delete_removes_the_key call_id nullish_primitive no_proto no_keys
              0 "count" s_record 20
              [("count", VNumber 0); ("user", VObject 21 [("name", VString "a")])]
              A N eq_refl eq_refl ltac:(discriminate))
    as (s' & E & Hv & _).
  exists s'. split; [exact E | exact Hv].
Defined.

Lemma s_items_family : family_ok s_items.
Proof. apply family_okb_correct. vm_compute. reflexivity. Qed.

Lemma array_move_reparents_witness :
  arena_ok s_items /\ 0 < nextNodeID s_items /\ locked s_items = false /\
  write_rotated = (Ok (locals_of write_rotated), snd write_rotated) /\
  children (get_node s_items 0) !! KNum 0 = Some 1 /\
  children (get_node s_items 0) !! KNum 1 = Some 2 /\
  getNodeValue s_items 1 = elemA /\ getNodeValue s_items 2 = elemB /\
  exists p s',
    setKey 0 KSymbolUndef rotated None s_items = (Ok p, s') /\
    children (get_node s' 0) !! KNum 0 = Some 2 /\
    parent (get_node s' 2) = Some 0 /\
    key (get_node s' 2) = KNum 0 /\
    getNodeValue s' 2 = elemB /\
    children (get_node s' 0) !! KNum 2 = Some 1 /\
    parent (get_node s' 1) = Some 0 /\
    key (get_node s' 1) = KNum 2 /\
    getNodeValue s' 1 = elemA.
Proof.
  assert (A : arena_ok s_items) by exact s_items_arena.
  assert (N : 0 < nextNodeID s_items) by (vm_compute; lia).
  assert (W : write_rotated = (Ok (locals_of write_rotated), snd write_rotated))
    by (vm_compute; reflexivity).
  split; [exact A |]. split; [exact N |]. split; [reflexivity |]. split; [exact W |].
  split; [vm_compute; reflexivity |]. split; [vm_compute; reflexivity |].
  split; [vm_compute; reflexivity |]. split; [vm_compute; reflexivity |].
  destruct (array_move_reparents_on_length_change call_id nullish_primitive
              0 KSymbolUndef rotated s_items
              (locals_of write_rotated) (snd write_rotated)
              14 10 [Some elemB; Some elemC; Some elemA] [Some elemA; Some elemB] [] []
              A N eq_refl W)
    as (p & s' & E & _ & Hmove); [vm_compute; reflexivity | vm_compute; reflexivity |].
  exists p, s'. split; [exact E |].
  assert (Hne : length [Some elemB; Some elemC; Some elemA]
                <> length [Some elemA; Some elemB]) by (cbn; lia).
  destruct (Hmove Hne 0 1 2) as (Hch2 & _ & _ & _ & Hfam2).
  { cbn. lia. }
  { unfold move_at. split; [vm_compute; reflexivity |].
    split; [vm_compute; reflexivity |]. split; [vm_compute; reflexivity |].
    discriminate. }
  { vm_compute. reflexivity. }
  destruct (Hmove Hne 2 0 1) as (Hch1 & _ & _ & _ & Hfam1).
  { cbn. lia. }
  { unfold move_at. split; [vm_compute; reflexivity |].
    split; [vm_compute; reflexivity |]. split; [vm_compute; reflexivity |].
    discriminate. }
  { vm_compute. reflexivity. }
  destruct (Hfam2 s_items_family) as (Hpar2 & Hkey2 & _ & _ & Hval2).
  { intros i' j' Hlt Hi' (_ & _ & Hkm & _).
    destruct i' as [|[|[|i']]]; [lia | | | cbn in Hi'; lia].
    - vm_compute in Hkm. discriminate.
    - vm_compute in Hkm. injection Hkm as <-. vm_compute. discriminate. }
  destruct (Hfam1 s_items_family) as (Hpar1 & Hkey1 & _ & _ & Hval1).
  { intros i' j' Hlt Hi'. cbn in Hi'. lia. }
  split; [exact Hch2 |]. split; [exact Hpar2 |]. split; [exact Hkey2 |].
  split; [apply Hval2; vm_compute; reflexivity |].
  split; [exact Hch1 |]. split; [exact Hpar1 |]. split; [exact Hkey1 |].
  apply Hval1. vm_compute. reflexivity.
Defined.

(** After [set([B])] over [[A, B]] node 2, which viewed id 2 at index 1, has
    the key 0 and reads [B]; index 0 leads to it, and so does index 1 still:
    the entry at the previous index is not removed. *)
Lemma shortened_moves_the_node :
  exists s',
    set_ 0 shortened s_items = (Ok 0, s') /\
    getNodeValue s_items 2 = elemB /\
    key (get_node s' 2) = KNum 0 /\
    getNodeValue s' 2 = elemB /\
    children (get_node s' 0) !! KNum 0 = Some 2 /\
    children (get_node s' 0) !! KNum 1 = Some 2.
Proof.
  eexists. split; [vm_compute; reflexivity |].
  split; [vm_compute; reflexivity |]. split; [vm_compute; reflexivity |].
  split; [vm_compute; reflexivity |]. split; vm_compute; reflexivity.
Qed.

(** Where several elements of the new array carry the identity of one
    previous element, its node ends at the last of them: after
    [set([B, B, B])] over [[A, B]], index 0 and index 2 lead to node 2, the
    node that viewed id 2, and its key is 2. *)
Lemma last_move_names_the_node :
  exists s',
    set_ 0 tripled s_items = (Ok 0, s') /\
    children (get_node s_items 0) !! KNum 1 = Some 2 /\
    children (get_node s' 0) !! KNum 0 = Some 2 /\
    children (get_node s' 0) !! KNum 2 = Some 2 /\
    key (get_node s' 2) = KNum 2.
Proof.
  eexists. split; [vm_compute; reflexivity |].
  split; [vm_compute; reflexivity |]. split; [vm_compute; reflexivity |].
  split; vm_compute; reflexivity.
Qed.

End ClosedFurther.
